(** * A boundary-tag allocator with explicit free lists

    Shallow embedding of the two allocator variants of the repository:
    [mm.c] (one explicit free list, in-place growth in [mm_realloc]) and
    [mm_work.c] (eight segregated lists).  The heap is a flat,
    byte-addressed, little-endian memory; pointers are 8 bytes wide,
    [unsigned int] is 4 bytes wide and [size_t] is 8 bytes wide (LP64),
    which is what the macros [GET]/[PUT] and [GET_8]/[PUT_8] of the
    source assume.  Pointer values are integers; [NULL] is [0] and
    [(void * )-1] is [-1]. *)

From Stdlib Require Import ZArith List Bool Lia.
Import ListNotations.
Local Open Scope Z_scope.

Ltac Zify.zify_post_hook ::= Z.div_mod_to_equations.

(** ** Memory *)

Definition memory := Z -> Z.

(** [load n m p]: the unsigned little-endian integer held by the [n]
    bytes at [p]. *)
Fixpoint load (n : nat) (m : memory) (p : Z) : Z :=
  match n with
  | O => 0
  | S k => (m p) mod 256 + 256 * load k m (p + 1)
  end.

(** [store n m p v]: write the low [n] bytes of [v] at [p]. *)
Fixpoint store (n : nat) (m : memory) (p v : Z) : memory :=
  match n with
  | O => m
  | S k => fun a => if a =? p then v mod 256 else store k m (p + 1) (v / 256) a
  end.

(** [memcpy] and [bzero] of the C library, byte by byte. *)
Definition memcpy (m : memory) (dst src n : Z) : memory :=
  fun a => if (dst <=? a) && (a <? dst + n) then m (src + (a - dst)) else m a.

Definition bzero (m : memory) (p n : Z) : memory :=
  fun a => if (p <=? a) && (a <? p + n) then 0 else m a.

(** ** Integer types of the source *)

Definition SIZE_MAX1 : Z := 2 ^ 64.
Definition UINT_MAX : Z := 2 ^ 32 - 1.

(** Arithmetic on [size_t] wraps around. *)
Definition wrap (x : Z) : Z := x mod SIZE_MAX1.

(** Arithmetic on [unsigned int] wraps around at [2^32]. *)
Definition wrap32 (x : Z) : Z := x mod 2 ^ 32.

(** ** Constants and macros shared by [mm.c] and [mm_work.c] *)

Definition ALIGNMENT : Z := 8.
Definition WSIZE : Z := 4.
Definition DSIZE : Z := 8.
Definition QSIZE : Z := 16.
Definition OVERHEAD : Z := 8.

(** [~0x7] as a [size_t] and as an [unsigned int]. *)
Definition MASK64 : Z := 2 ^ 64 - 8.
Definition MASK32 : Z := 2 ^ 32 - 8.

Definition ALIGN (p : Z) : Z := Z.land (wrap (p + (ALIGNMENT - 1))) MASK64.

Definition MAX (x y : Z) : Z := if x >? y then x else y.

Definition PACK (size alloc : Z) : Z := Z.lor size alloc.

Definition GET (m : memory) (p : Z) : Z := load 4 m p.
Definition PUT (m : memory) (p val : Z) : memory := store 4 m p val.
Definition GET_8 (m : memory) (p : Z) : Z := load 8 m p.
Definition PUT_8 (m : memory) (p val : Z) : memory := store 8 m p val.

Definition GET_SIZE (m : memory) (p : Z) : Z := Z.land (GET m p) MASK32.
Definition GET_ALLOC (m : memory) (p : Z) : Z := Z.land (GET m p) 1.

Definition HDRP (bp : Z) : Z := bp - WSIZE.
Definition FTRP (m : memory) (bp : Z) : Z := bp + GET_SIZE m (HDRP bp) - DSIZE.

Definition NEXT_BLKP (m : memory) (bp : Z) : Z := bp + GET_SIZE m (bp - WSIZE).
Definition PREV_BLKP (m : memory) (bp : Z) : Z := bp - GET_SIZE m (bp - DSIZE).

(** [NEXT(bp)] and [PREV(bp)] as r-values and as assignment targets. *)
Definition NEXT (m : memory) (bp : Z) : Z := GET_8 m bp.
Definition PREV (m : memory) (bp : Z) : Z := GET_8 m (bp + DSIZE).
Definition set_NEXT (m : memory) (bp v : Z) : memory := PUT_8 m bp v.
Definition set_PREV (m : memory) (bp v : Z) : memory := PUT_8 m (bp + DSIZE) v.

(** ** Request-size normalisation of [mm_malloc] (same text in both files) *)

Definition adjust_size (size : Z) : Z :=
  if size <=? QSIZE then QSIZE + OVERHEAD
  else if (size <=? 449) && (size >=? 448) then 512
  else wrap (DSIZE * (wrap (size + OVERHEAD + (DSIZE - 1)) / DSIZE)).

(** ** The list walk of [find_fit]

    First fit (the strategy both files select).  [None]: the fuel ran out before the walk ended. *)
Fixpoint first_fit (fuel : nat) (m : memory) (asize bp : Z) : option Z :=
  if bp =? 0 then Some 0
  else match fuel with
       | O => None
       | S f => if asize <=? GET_SIZE m (HDRP bp) then Some bp
                else first_fit f m asize (NEXT m bp)
       end.

(** The walk under [BEST_FIT]; [min_d] is never assigned after its
    initialisation to [UINT_MAX]. *)
Fixpoint best_fit (fuel : nat) (m : memory) (asize bp min_bp : Z) : option Z :=
  if bp =? 0 then Some min_bp
  else match fuel with
       | O => None
       | S f =>
         best_fit f m asize (NEXT m bp)
           (if (asize <=? GET_SIZE m (HDRP bp)) && (GET_SIZE m (HDRP bp) <? UINT_MAX)
            then bp else min_bp)
       end.

(** * [mm.c]: one explicit free list *)

Module Mm.

Definition CHUNKSIZE : Z := 2 ^ 11.

(** The allocator's globals ([heap_listp], [root]) together with the
    region it manages. *)
Record state : Type := mkState {
  mem : memory;
  mem_brk : Z;
  mem_max_addr : Z;
  heap_listp : Z;
  root : Z
}.

Definition set_mem (st : state) (m : memory) : state :=
  mkState m (mem_brk st) (mem_max_addr st) (heap_listp st) (root st).
Definition set_brk (st : state) (b : Z) : state :=
  mkState (mem st) b (mem_max_addr st) (heap_listp st) (root st).
Definition set_heap_listp (st : state) (p : Z) : state :=
  mkState (mem st) (mem_brk st) (mem_max_addr st) p (root st).
Definition set_root (st : state) (r : Z) : state :=
  mkState (mem st) (mem_brk st) (mem_max_addr st) (heap_listp st) r.

(** Modelled from the spec: the region provider [mem_sbrk] of
    [memlib.c], which is not part of the sources.  [extend(n_bytes)]
    returns the base address of the new region, contiguous with the old
    one, or an error ([(void * )-1]); the region never shrinks. *)
Definition mem_sbrk (st : state) (incr : Z) : state * Z :=
  if (incr <? 0) || (mem_brk st + incr >? mem_max_addr st) then (st, -1)
  else (set_brk st (mem_brk st + incr), mem_brk st).

Definition mm_unlink (st : state) (bp : Z) : state :=
  let st1 :=
    if negb (PREV (mem st) bp =? 0)
    then set_mem st (set_NEXT (mem st) (PREV (mem st) bp) (NEXT (mem st) bp))
    else set_root st (NEXT (mem st) bp) in
  if negb (NEXT (mem st1) bp =? 0)
  then set_mem st1 (set_PREV (mem st1) (NEXT (mem st1) bp) (PREV (mem st1) bp))
  else st1.

(** The four statements that push a block on the list; the source
    repeats them in [coalesce], [place] and [mm_realloc]. *)
Definition push_root (st : state) (bp : Z) : state :=
  let m1 := set_NEXT (mem st) bp (root st) in
  let m2 := set_PREV m1 bp 0 in
  let m3 := set_PREV m2 (root st) bp in
  set_root (set_mem st m3) bp.

Definition coalesce (st : state) (bp : Z) : state * Z :=
  let m := mem st in
  let prev_alloc := GET_ALLOC m (FTRP m (PREV_BLKP m bp)) in
  let next_alloc := GET_ALLOC m (HDRP (NEXT_BLKP m bp)) in
  let size := GET_SIZE m (HDRP bp) in
  let '(st', thisHead) :=
    if negb (prev_alloc =? 0) && negb (next_alloc =? 0) then (st, bp)
    else if negb (prev_alloc =? 0) && (next_alloc =? 0) then
      let size := size + GET_SIZE m (HDRP (NEXT_BLKP m bp)) in
      let st1 := mm_unlink st (NEXT_BLKP m bp) in
      let m1 := PUT (mem st1) (HDRP bp) (PACK size 0) in
      let m2 := PUT m1 (FTRP m1 bp) (PACK size 0) in
      (set_mem st1 m2, bp)
    else if (prev_alloc =? 0) && negb (next_alloc =? 0) then
      let size := size + GET_SIZE m (HDRP (PREV_BLKP m bp)) in
      let thisHead := PREV_BLKP m bp in
      let st1 := mm_unlink st (PREV_BLKP m bp) in
      let m1 := PUT (mem st1) (FTRP (mem st1) bp) (PACK size 0) in
      let m2 := PUT m1 (HDRP (PREV_BLKP m1 bp)) (PACK size 0) in
      (set_mem st1 m2, thisHead)
    else
      let size := size + GET_SIZE m (HDRP (PREV_BLKP m bp))
                       + GET_SIZE m (FTRP m (NEXT_BLKP m bp)) in
      let thisHead := PREV_BLKP m bp in
      let st1 := mm_unlink st (PREV_BLKP m bp) in
      let st2 := mm_unlink st1 (NEXT_BLKP (mem st1) bp) in
      let m1 := PUT (mem st2) (HDRP (PREV_BLKP (mem st2) bp)) (PACK size 0) in
      let m2 := PUT m1 (FTRP m1 (NEXT_BLKP m1 bp)) (PACK size 0) in
      (set_mem st2 m2, thisHead) in
  (push_root st' thisHead, thisHead).

Definition place (st : state) (bp asize : Z) : state :=
  let csize := GET_SIZE (mem st) (HDRP bp) in
  if wrap (csize - asize) >=? QSIZE + OVERHEAD then
    let m1 := PUT (mem st) (HDRP bp) (PACK asize 1) in
    let m2 := PUT m1 (FTRP m1 bp) (PACK asize 1) in
    let st1 := mm_unlink (set_mem st m2) bp in
    let bp' := NEXT_BLKP (mem st1) bp in
    let m3 := PUT (mem st1) (HDRP bp') (PACK (wrap (csize - asize)) 0) in
    let m4 := PUT m3 (FTRP m3 bp') (PACK (wrap (csize - asize)) 0) in
    push_root (set_mem st1 m4) bp'
  else
    let m1 := PUT (mem st) (HDRP bp) (PACK csize 1) in
    let m2 := PUT m1 (FTRP m1 bp) (PACK csize 1) in
    mm_unlink (set_mem st m2) bp.

Definition find_fit (fuel : nat) (st : state) (asize : Z) : option Z :=
  first_fit fuel (mem st) asize (root st).

Definition find_fit_best (fuel : nat) (st : state) (asize : Z) : option Z :=
  best_fit fuel (mem st) asize (root st) 0.

Definition extend_heap (st : state) (words : Z) : state * Z :=
  let size := if negb (words mod 2 =? 0) then wrap ((words + 1) * WSIZE)
              else wrap (words * WSIZE) in
  let '(st1, bp) := mem_sbrk st size in
  if bp <? 0 then (st1, 0)
  else
    let m1 := PUT (mem st1) (HDRP bp) (PACK size 0) in
    let m2 := PUT m1 (FTRP m1 bp) (PACK size 0) in
    let m3 := PUT m2 (HDRP (NEXT_BLKP m2 bp)) (PACK 0 1) in
    coalesce (set_mem st1 m3) bp.

Definition mm_init (st : state) : state * Z :=
  let '(st1, p) := mem_sbrk st (4 * DSIZE) in
  let st2 := set_heap_listp st1 p in
  if p =? -1 then (st2, -1)
  else
    let st3 := set_root st2 p in
    let m1 := PUT_8 (mem st3) p 0 in
    let m2 := PUT_8 m1 (p + DSIZE) 0 in
    let m3 := PUT m2 (p + WSIZE * 4) 0 in
    let m4 := PUT m3 (p + WSIZE * 5) (PACK OVERHEAD 1) in
    let m5 := PUT m4 (p + WSIZE * 6) (PACK OVERHEAD 1) in
    let m6 := PUT m5 (p + WSIZE * 7) (PACK 0 1) in
    let st4 := set_heap_listp (set_mem st3 m6) (p + WSIZE * 6) in
    let '(st5, heap_start) := extend_heap st4 (CHUNKSIZE / WSIZE) in
    if heap_start =? 0 then (st5, -1) else (st5, 0).

Definition mm_malloc (fuel : nat) (st : state) (size : Z) : option (state * Z) :=
  let st := if heap_listp st =? 0 then fst (mm_init st) else st in
  if size <=? 0 then Some (st, 0)
  else
    let asize := adjust_size size in
    match find_fit fuel st asize with
    | None => None
    | Some bp =>
      if negb (bp =? 0) then Some (place st bp asize, bp)
      else
        let extendsize := MAX asize CHUNKSIZE in
        let '(st1, bp) := extend_heap st (extendsize / WSIZE) in
        if bp =? 0 then Some (st1, 0)
        else Some (place st1 bp asize, bp)
    end.

Definition mm_free (st : state) (ptr : Z) : state :=
  if ptr =? 0 then st
  else
    let size := GET_SIZE (mem st) (HDRP ptr) in
    let st1 := if heap_listp st =? 0 then fst (mm_init st) else st in
    let m1 := PUT (mem st1) (HDRP ptr) (PACK size 0) in
    let m2 := PUT m1 (FTRP m1 ptr) (PACK size 0) in
    fst (coalesce (set_mem st1 m2) ptr).

Definition mm_realloc (fuel : nat) (st : state) (oldptr size : Z)
  : option (state * Z) :=
  if size =? 0 then Some (mm_free st oldptr, 0)
  else if oldptr =? 0 then mm_malloc fuel st size
  else
    let m := mem st in
    let rsize := if size <=? QSIZE then QSIZE else ALIGN size in
    let oldsize := wrap32 (GET_SIZE m (HDRP oldptr) - OVERHEAD) in
    if rsize <=? oldsize then Some (st, oldptr)
    else
      let nextsize := GET_SIZE m (HDRP (NEXT_BLKP m oldptr)) in
      if (GET_ALLOC m (HDRP (NEXT_BLKP m oldptr)) =? 0)
         && (nextsize >=? wrap (rsize - oldsize)) then
        let nextptr := NEXT_BLKP m oldptr in
        let st1 := mm_unlink st nextptr in
        if nextsize >=? wrap (rsize - oldsize + QSIZE + OVERHEAD) then
          let asize := wrap (rsize + OVERHEAD) in
          let m1 := PUT (mem st1) (FTRP (mem st1) oldptr) 0 in
          let m2 := PUT m1 (HDRP oldptr) (PACK asize 1) in
          let m3 := PUT m2 (FTRP m2 oldptr) (PACK asize 1) in
          let nextptr := NEXT_BLKP m3 oldptr in
          let m4 := PUT m3 (HDRP nextptr) (PACK (wrap (nextsize - rsize + oldsize)) 0) in
          let m5 := PUT m4 (FTRP m4 nextptr) (PACK (wrap (nextsize - rsize + oldsize)) 0) in
          Some (push_root (set_mem st1 m5) nextptr, oldptr)
        else
          let asize := wrap (oldsize + nextsize) in
          let m1 := PUT (mem st1) (FTRP (mem st1) oldptr) 0 in
          let m2 := PUT m1 (HDRP oldptr) (PACK asize 1) in
          let m3 := PUT m2 (FTRP m2 oldptr) (PACK asize 1) in
          Some (set_mem st1 m3, oldptr)
      else
        match mm_malloc fuel st size with
        | None => None
        | Some (st1, newptr) =>
          if newptr =? 0 then Some (st1, 0)
          else
            let oldsize := if size <? oldsize then size else oldsize in
            let m1 := memcpy (mem st1) newptr oldptr oldsize in
            Some (mm_free (set_mem st1 m1) oldptr, newptr)
        end.

Definition mm_calloc (fuel : nat) (st : state) (nmemb size : Z)
  : option (state * Z) :=
  let st := if heap_listp st =? 0 then fst (mm_init st) else st in
  match mm_malloc fuel st (wrap (nmemb * size)) with
  | None => None
  | Some (st1, ptr) =>
    Some (set_mem st1 (bzero (mem st1) ptr (wrap (nmemb * size))), ptr)
  end.

End Mm.

(** * [mm_work.c]: segregated free lists *)

Module MmWork.

Definition SEG_SIZE : nat := 8.
Definition CHUNKSIZE : Z := 2 ^ 12.

(** [roots] is the function-local static array of [get_root]; C
    initialises it with null pointers. *)
Record state : Type := mkState {
  mem : memory;
  mem_brk : Z;
  mem_max_addr : Z;
  heap_listp : Z;
  start_root : Z;
  roots : list Z
}.

Definition set_mem (st : state) (m : memory) : state :=
  mkState m (mem_brk st) (mem_max_addr st) (heap_listp st) (start_root st) (roots st).
Definition set_brk (st : state) (b : Z) : state :=
  mkState (mem st) b (mem_max_addr st) (heap_listp st) (start_root st) (roots st).
Definition set_heap_listp (st : state) (p : Z) : state :=
  mkState (mem st) (mem_brk st) (mem_max_addr st) p (start_root st) (roots st).
Definition set_start_root (st : state) (p : Z) : state :=
  mkState (mem st) (mem_brk st) (mem_max_addr st) (heap_listp st) p (roots st).
Definition set_roots (st : state) (r : list Z) : state :=
  mkState (mem st) (mem_brk st) (mem_max_addr st) (heap_listp st) (start_root st) r.

(** Assignment to one array slot.  Every index the program uses comes
    from [get_segid] or from a loop below [SEG_SIZE]; an index past the
    end leaves the list as it is. *)
Fixpoint update (i : nat) (v : Z) (l : list Z) : list Z :=
  match l, i with
  | [], _ => []
  | _ :: t, O => v :: t
  | h :: t, S j => h :: update j v t
  end.

(** Modelled from the spec: the region provider [mem_sbrk] of
    [memlib.c], which is not part of the sources.  [extend(n_bytes)]
    returns the base address of the new region, contiguous with the old
    one, or an error ([(void * )-1]); the region never shrinks. *)
Definition mem_sbrk (st : state) (incr : Z) : state * Z :=
  if (incr <? 0) || (mem_brk st + incr >? mem_max_addr st) then (st, -1)
  else (set_brk st (mem_brk st + incr), mem_brk st).

Definition get_segid (asize : Z) : nat :=
  if asize <=? 32 then 0
  else if asize <=? 64 then 1
  else if asize <=? 128 then 2
  else if asize <=? 256 then 3
  else if asize <=? 512 then 4
  else if asize <=? 1024 then 5
  else if asize <=? 2048 then 6
  else 7.

(** [get_root] reads the slot when [newroot] is null and writes it
    otherwise. *)
Definition get_root (st : state) (segid : nat) (newroot : Z) : state * Z :=
  if newroot =? 0 then (st, nth segid (roots st) 0)
  else (set_roots st (update segid newroot (roots st)), 0).

Definition get_rootd (st : state) (size : Z) : Z :=
  snd (get_root st (get_segid size) 0).

Definition root_init (st : state) : state :=
  fold_left
    (fun s i => fst (get_root s i (start_root s + Z.of_nat i * 2 * DSIZE)))
    (seq 0 SEG_SIZE) st.

Definition mm_unlink (st : state) (bp : Z) : state :=
  let size := GET_SIZE (mem st) (HDRP bp) in
  let segid := get_segid size in
  let st1 :=
    if negb (PREV (mem st) bp =? 0)
    then set_mem st (set_NEXT (mem st) (PREV (mem st) bp) (NEXT (mem st) bp))
    else fst (get_root st segid (NEXT (mem st) bp)) in
  if negb (NEXT (mem st1) bp =? 0)
  then set_mem st1 (set_PREV (mem st1) (NEXT (mem st1) bp) (PREV (mem st1) bp))
  else st1.

(** The four statements that push a block on the list of class
    [segid]; the source repeats them in [coalesce] and [place]. *)
Definition push_root (st : state) (segid : nat) (bp : Z) : state :=
  let m1 := set_NEXT (mem st) bp (snd (get_root st segid 0)) in
  let m2 := set_PREV m1 bp 0 in
  let m3 := set_PREV m2 (snd (get_root st segid 0)) bp in
  fst (get_root (set_mem st m3) segid bp).

Definition coalesce (st : state) (bp : Z) : state * Z :=
  let m := mem st in
  let prev_alloc := GET_ALLOC m (FTRP m (PREV_BLKP m bp)) in
  let next_alloc := GET_ALLOC m (HDRP (NEXT_BLKP m bp)) in
  let size := GET_SIZE m (HDRP bp) in
  let '(st', thisHead, size) :=
    if negb (prev_alloc =? 0) && negb (next_alloc =? 0) then (st, bp, size)
    else if negb (prev_alloc =? 0) && (next_alloc =? 0) then
      let next_size := GET_SIZE m (HDRP (NEXT_BLKP m bp)) in
      let size := size + next_size in
      let st1 := mm_unlink st (NEXT_BLKP m bp) in
      let m1 := PUT (mem st1) (HDRP bp) (PACK size 0) in
      let m2 := PUT m1 (FTRP m1 bp) (PACK size 0) in
      (set_mem st1 m2, bp, size)
    else if (prev_alloc =? 0) && negb (next_alloc =? 0) then
      let thisHead := PREV_BLKP m bp in
      let prev_size := GET_SIZE m (HDRP (PREV_BLKP m bp)) in
      let size := size + prev_size in
      let st1 := mm_unlink st (PREV_BLKP m bp) in
      let m1 := PUT (mem st1) (FTRP (mem st1) bp) (PACK size 0) in
      let m2 := PUT m1 (HDRP (PREV_BLKP m1 bp)) (PACK size 0) in
      (set_mem st1 m2, thisHead, size)
    else
      let thisHead := PREV_BLKP m bp in
      let prev_size := GET_SIZE m (HDRP (PREV_BLKP m bp)) in
      let next_size := GET_SIZE m (FTRP m (NEXT_BLKP m bp)) in
      let size := size + (prev_size + next_size) in
      let st1 := mm_unlink st (PREV_BLKP m bp) in
      let st2 := mm_unlink st1 (NEXT_BLKP (mem st1) bp) in
      let m1 := PUT (mem st2) (HDRP (PREV_BLKP (mem st2) bp)) (PACK size 0) in
      let m2 := PUT m1 (FTRP m1 (NEXT_BLKP m1 bp)) (PACK size 0) in
      (set_mem st2 m2, thisHead, size) in
  (push_root st' (get_segid size) thisHead, thisHead).

Definition place (st : state) (bp asize : Z) : state :=
  let csize := GET_SIZE (mem st) (HDRP bp) in
  if wrap (csize - asize) >=? QSIZE + OVERHEAD then
    let m1 := PUT (mem st) (HDRP bp) (PACK asize 1) in
    let m2 := PUT m1 (FTRP m1 bp) (PACK asize 1) in
    let st1 := mm_unlink (set_mem st m2) bp in
    let bp' := NEXT_BLKP (mem st1) bp in
    let m3 := PUT (mem st1) (HDRP bp') (PACK (wrap (csize - asize)) 0) in
    let m4 := PUT m3 (FTRP m3 bp') (PACK (wrap (csize - asize)) 0) in
    push_root (set_mem st1 m4) (get_segid asize) bp'
  else
    let m1 := PUT (mem st) (HDRP bp) (PACK csize 1) in
    let m2 := PUT m1 (FTRP m1 bp) (PACK csize 1) in
    mm_unlink (set_mem st m2) bp.

(** The outer loop [for (id = segid; id < SEG_SIZE; ++id)] of
    [find_fit], over the class ids still to visit. *)
Fixpoint first_fit_from (fuel : nat) (st : state) (asize : Z) (ids : list nat)
  : option Z :=
  match ids with
  | [] => Some 0
  | id :: rest =>
    match first_fit fuel (mem st) asize (snd (get_root st id 0)) with
    | None => None
    | Some bp => if negb (bp =? 0) then Some bp
                 else first_fit_from fuel st asize rest
    end
  end.

Fixpoint best_fit_from (fuel : nat) (st : state) (asize : Z) (ids : list nat)
  (min_bp : Z) : option Z :=
  match ids with
  | [] => Some min_bp
  | id :: rest =>
    match best_fit fuel (mem st) asize (snd (get_root st id 0)) min_bp with
    | None => None
    | Some min_bp' => best_fit_from fuel st asize rest min_bp'
    end
  end.

Definition class_range (segid : nat) : list nat := seq segid (SEG_SIZE - segid).

Definition find_fit (fuel : nat) (st : state) (asize : Z) : option Z :=
  first_fit_from fuel st asize (class_range (get_segid asize)).

Definition find_fit_best (fuel : nat) (st : state) (asize : Z) : option Z :=
  best_fit_from fuel st asize (class_range (get_segid asize)) 0.

Definition extend_heap (st : state) (words : Z) : state * Z :=
  let size := if negb (words mod 2 =? 0) then wrap ((words + 1) * WSIZE)
              else wrap (words * WSIZE) in
  let '(st1, bp) := mem_sbrk st size in
  if bp <? 0 then (st1, 0)
  else
    let m1 := PUT (mem st1) (HDRP bp) (PACK size 0) in
    let m2 := PUT m1 (FTRP m1 bp) (PACK size 0) in
    let m3 := PUT m2 (HDRP (NEXT_BLKP m2 bp)) (PACK 0 1) in
    coalesce (set_mem st1 m3) bp.

Definition mm_init (st : state) : state * Z :=
  let '(st1, p) := mem_sbrk st (18 * DSIZE) in
  let st2 := set_heap_listp st1 p in
  if p =? -1 then (st2, -1)
  else
    let st3 := set_start_root st2 p in
    let m1 := fold_left (fun m i => PUT_8 m (p + DSIZE * Z.of_nat i) 0)
                        (seq 0 16) (mem st3) in
    let m2 := PUT m1 (p + DSIZE * 16) 0 in
    let m3 := PUT m2 (p + DSIZE * 16 + WSIZE) (PACK OVERHEAD 1) in
    let m4 := PUT m3 (p + DSIZE * 17) (PACK OVERHEAD 1) in
    let m5 := PUT m4 (p + DSIZE * 17 + WSIZE) (PACK 0 1) in
    let st4 := set_heap_listp (set_mem st3 m5) (p + DSIZE * 17) in
    let st5 := root_init st4 in
    let '(st6, bp) := extend_heap st5 (CHUNKSIZE / WSIZE) in
    if bp =? 0 then (st6, -1) else (st6, 0).

Definition mm_malloc (fuel : nat) (st : state) (size : Z) : option (state * Z) :=
  let st := if heap_listp st =? 0 then fst (mm_init st) else st in
  if size <=? 0 then Some (st, 0)
  else
    let asize := adjust_size size in
    match find_fit fuel st asize with
    | None => None
    | Some bp =>
      if negb (bp =? 0) then Some (place st bp asize, bp)
      else
        let extendsize := MAX asize CHUNKSIZE in
        let '(st1, bp) := extend_heap st (extendsize / WSIZE) in
        if bp =? 0 then Some (st1, 0)
        else Some (place st1 bp asize, bp)
    end.

Definition mm_free (st : state) (ptr : Z) : state :=
  if ptr =? 0 then st
  else
    let size := GET_SIZE (mem st) (HDRP ptr) in
    let st1 := if heap_listp st =? 0 then fst (mm_init st) else st in
    let m1 := PUT (mem st1) (HDRP ptr) (PACK size 0) in
    let m2 := PUT m1 (FTRP m1 ptr) (PACK size 0) in
    fst (coalesce (set_mem st1 m2) ptr).

Definition mm_realloc (fuel : nat) (st : state) (oldptr size : Z)
  : option (state * Z) :=
  if size =? 0 then Some (mm_free st oldptr, 0)
  else if oldptr =? 0 then mm_malloc fuel st size
  else
    match mm_malloc fuel st size with
    | None => None
    | Some (st1, newptr) =>
      if newptr =? 0 then Some (st1, 0)
      else
        let oldsize := GET_SIZE (mem st1) (HDRP oldptr) in
        let oldsize := if size <? oldsize then size else oldsize in
        let m1 := memcpy (mem st1) newptr oldptr oldsize in
        Some (mm_free (set_mem st1 m1) oldptr, newptr)
    end.

Definition mm_calloc (fuel : nat) (st : state) (nmemb size : Z)
  : option (state * Z) :=
  let st := if heap_listp st =? 0 then fst (mm_init st) else st in
  match mm_malloc fuel st (wrap (nmemb * size)) with
  | None => None
  | Some (st1, ptr) =>
    Some (set_mem st1 (bzero (mem st1) ptr (wrap (nmemb * size))), ptr)
  end.

End MmWork.

(** * Notions of the specification *)

(** [ceil_div a b] is the ceiling of [a / b]. *)
Definition ceil_div (a b : Z) : Z := - ((- a) / b).

(** Rounding up to a multiple of eight, over the integers. *)
Definition align8 (x : Z) : Z := 8 * ceil_div x 8.

(** The block size the specification prescribes for a request of
    [size] bytes, over the integers. *)
Definition spec_asize (size : Z) : Z :=
  if size <=? 16 then 24
  else if (448 <=? size) && (size <=? 449) then 512
  else 8 * ceil_div (size + 8) 8.

(** The state before the first call: null globals and an empty region
    [lo, lo) that may grow up to [hi]; the memory holds zeroes. *)
Definition mm_boot (lo hi : Z) : Mm.state :=
  Mm.mkState (fun _ => 0) lo hi 0 0.

Definition mm_work_boot (lo hi : Z) : MmWork.state :=
  MmWork.mkState (fun _ => 0) lo hi 0 0 (repeat 0 MmWork.SEG_SIZE).

(** Size recorded in the header of the block [mm_malloc] returns for a
    request of [size] bytes on a fresh heap. *)
Definition fresh_block_size (size : Z) : option Z :=
  match Mm.mm_malloc 4 (mm_boot 4096 (2 ^ 24)) size with
  | Some (st, p) => if p =? 0 then None else Some (GET_SIZE (Mm.mem st) (HDRP p))
  | None => None
  end.

(** A small heap of [mm.c], built by the allocator itself: requests of
    24, 16 and 100 bytes on a fresh heap return the payload pointers
    4128, 4160 and 4184 (blocks of 32, 24 and 112 bytes); the second
    block is then released. *)
Definition mm_alloc (st : Mm.state) (size : Z) : Mm.state :=
  match Mm.mm_malloc 16 st size with Some (st', _) => st' | None => st end.

Definition mm_heap3 : Mm.state :=
  mm_alloc (mm_alloc (mm_alloc (mm_boot 4096 (2 ^ 24)) 24) 16) 100.

Definition mm_heap4 : Mm.state := Mm.mm_free mm_heap3 4160.

(** The heap of [mm_work.c] right after its initialisation: one free
    block of 4096 bytes at 4240, at the head of the list of class 7. *)
Definition mm_work_heap0 : MmWork.state :=
  fst (MmWork.mm_init (mm_work_boot 4096 (2 ^ 24))).

(** * Free lists in memory *)

(** [walk fuel m p]: the nodes visited by following [NEXT] from [p]
    until the null pointer; [None] when the fuel does not suffice. *)
Fixpoint walk (fuel : nat) (m : memory) (p : Z) : option (list Z) :=
  if p =? 0 then Some []
  else match fuel with
       | O => None
       | S f => option_map (cons p) (walk f m (NEXT m p))
       end.

(** [dllseg m p l n]: the nodes [l] form a doubly linked segment; the
    first node has predecessor [p], the last one has successor [n]. *)
Fixpoint dllseg (m : memory) (p : Z) (l : list Z) (n : Z) : Prop :=
  match l with
  | [] => True
  | x :: t => PREV m x = p /\ NEXT m x = hd n t /\ dllseg m x t n
  end.

Fixpoint dllsegb (m : memory) (p : Z) (l : list Z) (n : Z) : bool :=
  match l with
  | [] => true
  | x :: t => (PREV m x =? p) && (NEXT m x =? hd n t) && dllsegb m x t n
  end.

(** The link fields of a node occupy 16 bytes; two nodes are apart when
    these fields do not overlap. *)
Definition cell_sep (x y : Z) : Prop := x + 16 <= y \/ y + 16 <= x.
Definition cell_sepb (x y : Z) : bool := (x + 16 <=? y) || (y + 16 <=? x).

Fixpoint pairwise_sep (l : list Z) : Prop :=
  match l with
  | [] => True
  | x :: t => Forall (cell_sep x) t /\ pairwise_sep t
  end.

Fixpoint pairwise_sepb (l : list Z) : bool :=
  match l with
  | [] => true
  | x :: t => forallb (cell_sepb x) t && pairwise_sepb t
  end.

(** The segregated lists of [mm_work.c]: [Ls] gives, for each class, the
    nodes of its list in order.  The last node of class [k] is the
    16-byte root slot [start_root + 16 k] that [root_init] installs;
    the nodes before it are free blocks. *)
Record lists_ok (st : MmWork.state) (Ls : list (list Z)) : Prop := {
  lo_roots : length (MmWork.roots st) = MmWork.SEG_SIZE;
  lo_class : forall k, (k < MmWork.SEG_SIZE)%nat ->
    nth k Ls [] <> []
    /\ nth k (MmWork.roots st) 0 = hd 0 (nth k Ls [])
    /\ dllseg (MmWork.mem st) 0 (nth k Ls []) 0
    /\ last (nth k Ls []) 0 = MmWork.start_root st + 16 * Z.of_nat k;
  lo_range : forall k y, In y (nth k Ls []) -> 0 < y < 2 ^ 64;
  lo_intra : forall k, pairwise_sep (nth k Ls []);
  lo_inter : forall j k a b, j <> k ->
    In a (nth j Ls []) -> In b (nth k Ls []) -> cell_sep a b
}.

Definition class_okb (st : MmWork.state) (k : nat) (L : list Z) : bool :=
  match L with
  | [] => false
  | r :: _ =>
    (nth k (MmWork.roots st) 0 =? r)
    && dllsegb (MmWork.mem st) 0 L 0
    && (last L 0 =? MmWork.start_root st + 16 * Z.of_nat k)
    && forallb (fun y => (0 <? y) && (y <? 2 ^ 64)) L
    && pairwise_sepb L
  end.

Definition lists_okb (st : MmWork.state) (Ls : list (list Z)) : bool :=
  (length Ls =? MmWork.SEG_SIZE)%nat
  && (length (MmWork.roots st) =? MmWork.SEG_SIZE)%nat
  && forallb (fun k => class_okb st k (nth k Ls [])) (seq 0 MmWork.SEG_SIZE)
  && forallb (fun j =>
       forallb (fun k =>
         (j =? k)%nat
         || forallb (fun a => forallb (cell_sepb a) (nth k Ls [])) (nth j Ls []))
       (seq 0 MmWork.SEG_SIZE))
     (seq 0 MmWork.SEG_SIZE).

(** ** What [coalesce] is given *)

(** The block at [b] carries the same word in header and footer, with
    the allocation bit (and the two bits above it) clear and a size of
    at least 24 bytes. *)
Definition free_tags_okb (m : memory) (b : Z) : bool :=
  (GET m (HDRP b) mod 8 =? 0)
  && (24 <=? GET m (HDRP b))
  && (GET m (b + GET m (HDRP b) - DSIZE) =? GET m (HDRP b)).

Definition prev_free (m : memory) (bp : Z) : bool := GET_ALLOC m (bp - DSIZE) =? 0.
Definition next_free (m : memory) (bp : Z) : bool :=
  GET_ALLOC m (HDRP (NEXT_BLKP m bp)) =? 0.

(** Head, size and absorbed neighbours of the block that results from
    merging [bp] with its free neighbours. *)
Definition merged_head (m : memory) (bp : Z) : Z :=
  if prev_free m bp then PREV_BLKP m bp else bp.

Definition merged_size (m : memory) (bp : Z) : Z :=
  GET_SIZE m (HDRP bp)
  + (if prev_free m bp then GET_SIZE m (HDRP (PREV_BLKP m bp)) else 0)
  + (if next_free m bp then GET_SIZE m (HDRP (NEXT_BLKP m bp)) else 0).

Definition merged_away (m : memory) (bp : Z) : list Z :=
  (if prev_free m bp then [PREV_BLKP m bp] else [])
  ++ (if next_free m bp then [NEXT_BLKP m bp] else []).

(** The boundary tags [coalesce] reads and writes lie in
    [span_lo, span_hi). *)
Definition span_lo (m : memory) (bp : Z) : Z :=
  if prev_free m bp then HDRP (PREV_BLKP m bp) else bp - DSIZE.

Definition span_hi (m : memory) (bp : Z) : Z :=
  if next_free m bp
  then NEXT_BLKP m bp + GET_SIZE m (HDRP (NEXT_BLKP m bp)) - WSIZE
  else NEXT_BLKP m bp.

Definition mem_in (x : Z) (l : list Z) : bool := existsb (Z.eqb x) l.

Definition remove_nodes (xs : list Z) (Ls : list (list Z)) : list (list Z) :=
  map (filter (fun y => negb (mem_in y xs))) Ls.

Fixpoint push_class (k : nat) (h : Z) (Ls : list (list Z)) : list (list Z) :=
  match Ls, k with
  | [], _ => []
  | L :: t, O => (h :: L) :: t
  | L :: t, S j => L :: push_class j h t
  end.

(** The precondition of [coalesce bp]: the lists are well formed; [bp]
    is a free block in no list; the block before it has matching header
    and footer; each free neighbour is a well-formed free block found
    in the list of its class; the merged size fits the 32-bit tags; the
    root slots lie below the blocks; every other node keeps clear of
    the tags involved. *)
Definition coalesce_ready (st : MmWork.state) (bp : Z) (Ls : list (list Z)) : bool :=
  let m := MmWork.mem st in
  lists_okb st Ls
  && free_tags_okb m bp
  && (8 <=? GET_SIZE m (bp - DSIZE))
  && (GET m (HDRP (PREV_BLKP m bp)) =? GET m (bp - DSIZE))
  && (if prev_free m bp
      then free_tags_okb m (PREV_BLKP m bp)
           && mem_in (PREV_BLKP m bp)
                     (nth (MmWork.get_segid (GET_SIZE m (HDRP (PREV_BLKP m bp)))) Ls [])
      else true)
  && (if next_free m bp
      then free_tags_okb m (NEXT_BLKP m bp)
           && mem_in (NEXT_BLKP m bp)
                     (nth (MmWork.get_segid (GET_SIZE m (HDRP (NEXT_BLKP m bp)))) Ls [])
      else true)
  && (merged_size m bp <? 2 ^ 32)
  && (0 <=? MmWork.start_root st)
  && (MmWork.start_root st + 16 * Z.of_nat MmWork.SEG_SIZE <=? span_lo m bp)
  && (span_hi m bp <? 2 ^ 64)
  && forallb
       (fun y => mem_in y (merged_away m bp)
                 || (y + 16 <=? span_lo m bp) || (span_hi m bp <=? y))
       (concat Ls).

(** A 4-byte word at [t] keeps clear of the link fields of node [y]. *)
Definition clear_of (t y : Z) : Prop := t + 4 <= y \/ y + 16 <= t.

(** The word at [t] keeps clear of the link fields of every
    node of [Ls]. *)
Definition tag_clear (Ls : list (list Z)) (t : Z) : Prop :=
  forall k y, In y (nth k Ls []) -> clear_of t y.

(** A heap of [mm_work.c] with four blocks of 4096 bytes at 4240, 8336,
    12432 and 16528, obtained by four requests of 4080 bytes; the first
    and the third were released, and the second has its header and
    footer marked free, as [mm_free] leaves them when it calls
    [coalesce]. *)
Definition mm_work_alloc (st : MmWork.state) (size : Z) : MmWork.state :=
  match MmWork.mm_malloc 16 st size with Some (st', _) => st' | None => st end.

Definition mm_work_heap4 : MmWork.state :=
  mm_work_alloc (mm_work_alloc (mm_work_alloc (mm_work_alloc
    (mm_work_boot 4096 (2 ^ 24)) 4080) 4080) 4080) 4080.

Definition mm_work_heap5 : MmWork.state :=
  MmWork.mm_free (MmWork.mm_free mm_work_heap4 4240) 12432.

Definition mm_work_heap6 : MmWork.state :=
  let m1 := PUT (MmWork.mem mm_work_heap5) (HDRP 8336) (PACK 4096 0) in
  MmWork.set_mem mm_work_heap5 (PUT m1 (FTRP m1 8336) (PACK 4096 0)).

Definition mm_work_lists6 : list (list Z) :=
  [[4096]; [4112]; [4128]; [4144]; [4160]; [4176]; [4192]; [12432; 4240; 4208]].

(** Two more heaps of [mm_work.c], built by the allocator itself.  In
    [mm_work_heap1] a request of 100 bytes was served at 4240, by a
    block of 112 bytes.  In [mm_work_heap2] two requests of 16 bytes
    were served at 4240 and 4264, by blocks of 24 bytes. *)
Definition mm_work_heap1 : MmWork.state :=
  mm_work_alloc (mm_work_boot 4096 (2 ^ 24)) 100.

Definition mm_work_heap2 : MmWork.state :=
  mm_work_alloc (mm_work_alloc (mm_work_boot 4096 (2 ^ 24)) 16) 16.

(** ** What [find_fit] scans *)



(** The nodes of the list of class [id], as far as the fuel reaches. *)
Definition class_nodes (fuel : nat) (st : MmWork.state) (id : nat) : list Z :=
  match walk fuel (MmWork.mem st) (snd (MmWork.get_root st id 0)) with
  | Some l => l
  | None => []
  end.

(** The nodes of all the lists [find_fit] visits for [asize]: the
    class of [asize] and every class above it. *)
Definition scanned (fuel : nat) (st : MmWork.state) (asize : Z) : list Z :=
  flat_map (class_nodes fuel st) (MmWork.class_range (MmWork.get_segid asize)).

(** The fuel suffices to walk each of these lists to its end. *)
Definition walks_end (fuel : nat) (st : MmWork.state) (ids : list nat) : bool :=
  forallb (fun id =>
             match walk fuel (MmWork.mem st) (snd (MmWork.get_root st id 0)) with
             | Some _ => true
             | None => false
             end) ids.

(** A heap of [mm.c] whose free list holds, in this order, blocks of
    48, 64 and 1888 bytes at 4216, 4128 and 4288. *)
Definition mm_heap_frees : Mm.state :=
  Mm.mm_free
    (Mm.mm_free
       (mm_alloc (mm_alloc (mm_alloc (mm_alloc (mm_boot 4096 (2 ^ 24)) 56) 16) 40) 16)
       4128)
    4216.

(** * The heap walk and the invariants of the specification *)

(** The blocks [mm_checkheap] visits: it starts at the prologue and
    steps by header sizes until it meets a header of size 0.  Each
    block is given as payload pointer, size and allocation bit; the
    last element is the block the walk stopped at. *)
Fixpoint heap_blocks (fuel : nat) (m : memory) (bp : Z) : option (list (Z * Z * Z)) :=
  if GET_SIZE m (HDRP bp) >? 0 then
    match fuel with
    | O => None
    | S f =>
      option_map (cons (bp, GET_SIZE m (HDRP bp), GET_ALLOC m (HDRP bp)))
                 (heap_blocks f m (NEXT_BLKP m bp))
    end
  else Some [(bp, 0, GET_ALLOC m (HDRP bp))].

(** What [mm_checkheap] prints when it finds a fault. *)
Inductive report : Type :=
| Bad_prologue_header
| Not_doubleword_aligned (bp : Z)
| Header_does_not_match_footer (bp : Z)
| Bad_epilogue_header.

Definition checkblock (m : memory) (bp : Z) : list report :=
  (if negb (bp mod 8 =? 0) then [Not_doubleword_aligned bp] else [])
  ++ (if negb (GET m (HDRP bp) =? GET m (FTRP m bp))
      then [Header_does_not_match_footer bp] else []).

(** [mm_checkheap 0] of [mm.c] (the same text in [mm_work.c]), as the
    list of its complaints. *)
Definition mm_checkheap (fuel : nat) (st : Mm.state) : option (list report) :=
  let m := Mm.mem st in
  let hp := Mm.heap_listp st in
  match heap_blocks fuel m hp with
  | None => None
  | Some bl =>
    Some ((if negb (GET_SIZE m (HDRP hp) =? OVERHEAD) || (GET_ALLOC m (HDRP hp) =? 0)
           then [Bad_prologue_header] else [])
          ++ checkblock m hp
          ++ flat_map (fun b => checkblock m (fst (fst b))) (removelast bl)
          ++ (let bp := fst (fst (last bl (0, 0, 0))) in
              if negb (GET_SIZE m (HDRP bp) =? 0) || (GET_ALLOC m (HDRP bp) =? 0)
              then [Bad_epilogue_header] else []))
  end.

(** Two neighbours of the walk are both free. *)
Fixpoint adjacent_free (bl : list (Z * Z * Z)) : bool :=
  match bl with
  | (_, _, a) :: (((_, _, a') :: _) as t) => ((a =? 0) && (a' =? 0)) || adjacent_free t
  | _ => false
  end.

Definition free_blocks (bl : list (Z * Z * Z)) : list Z :=
  map (fun b => fst (fst b)) (filter (fun b => snd b =? 0) bl).

Fixpoint nodupb (l : list Z) : bool :=
  match l with
  | [] => true
  | x :: t => negb (mem_in x t) && nodupb t
  end.

(** The invariants of the specification, for a heap of [mm.c]: the
    walk from the prologue ends at the epilogue, which sits at the end
    of the region; every block is 8-aligned and has equal header and
    footer; no two neighbours are free; the free list is consistently
    doubly linked, ends in the root slot, and holds exactly the free
    blocks, each once. *)
Definition mm_invariants (fuel : nat) (st : Mm.state) : bool :=
  let m := Mm.mem st in
  match heap_blocks fuel m (Mm.heap_listp st), walk fuel m (Mm.root st) with
  | Some bl, Some nodes =>
    let body := removelast bl in
    let frees := free_blocks body in
    let listed := removelast nodes in
    (match bl with (_, 8, 1) :: _ => true | _ => false end)
    && (match last bl (0, 0, 0) with (bp, 0, 1) => bp =? Mm.mem_brk st | _ => false end)
    && forallb (fun b => (fst (fst b) mod 8 =? 0)
                         && (GET m (HDRP (fst (fst b))) =? GET m (FTRP m (fst (fst b)))))
               body
    && negb (adjacent_free bl)
    && dllsegb m 0 nodes 0
    && (last nodes 0 =? Mm.heap_listp st - 24)
    && nodupb listed
    && forallb (fun x => mem_in x frees) listed
    && forallb (fun x => mem_in x listed) frees
  | _, _ => false
  end.

(** The client stores a word in a payload it owns. *)
Definition client_store (st : Mm.state) (p v : Z) : Mm.state :=
  Mm.set_mem st (PUT (Mm.mem st) p v).

(** A heap of [mm.c] with blocks of 32, 32 and 112 bytes at 4128, 4160
    and 4192.  The client has stored the word 16 at offset 20 of the
    second payload and at offset 4 of the third, and the word 1 at
    offset 20 of the third; then the second block was released. *)
Definition mm_heap_words : Mm.state :=
  Mm.mm_free
    (client_store
       (client_store
          (client_store
             (mm_alloc (mm_alloc (mm_alloc (mm_boot 4096 (2 ^ 24)) 24) 24) 100)
             (4160 + 20) 16)
          (4192 + 4) 16)
       (4192 + 20) 1)
    4160.

(** The first node of [l] that is large enough, or null. *)
Definition first_fitting (m : memory) (asize : Z) (l : list Z) : Z :=
  hd 0 (filter (fun x => asize <=? GET_SIZE m (HDRP x)) l).

(** * The free list of [mm.c] in memory *)

(** [cells L a]: the byte [a] belongs to the link fields of a node of [L]. *)
Definition cells (L : list Z) (a : Z) : Prop := exists y, In y L /\ y <= a < y + 16.

(** The single list of [mm.c]: [L] gives its nodes in order, the last
    one being the 16-byte root slot at the start of the region, which
    [mm_init] makes the first value of [root]. *)
Record free_list_ok (st : Mm.state) (L : list Z) : Prop := {
  fl_root : Mm.root st = hd 0 L;
  fl_dll : dllseg (Mm.mem st) 0 L 0;
  fl_last : last L 0 = Mm.heap_listp st - 24;
  fl_range : forall y, In y L -> 0 < y < 2 ^ 64;
  fl_sep : pairwise_sep L
}.

(** [st'] manages the same region as [st]. *)
Definition same_region (st st' : Mm.state) : Prop :=
  Mm.heap_listp st' = Mm.heap_listp st
  /\ Mm.mem_brk st' = Mm.mem_brk st
  /\ Mm.mem_max_addr st' = Mm.mem_max_addr st.

(** [drop xs L]: the list [L] without the nodes [xs]. *)
Definition drop (xs L : list Z) : list Z := filter (fun y => negb (mem_in y xs)) L.

(** * The heap of [mm.c] as a sequence of blocks *)

(** A heap is described by the sizes and allocation bits of its blocks,
    in address order.  [starts b bl] gives each block with its payload
    address, the first one at [b]. *)
Fixpoint starts (b : Z) (bl : list (Z * Z)) : list (Z * Z * Z) :=
  match bl with
  | [] => []
  | (s, a) :: t => (b, s, a) :: starts (b + s) t
  end.

Definition total (bl : list (Z * Z)) : Z := fold_right (fun b acc => fst b + acc) 0 bl.

(** The word header and footer of a block hold.  The block at [u] (if
    any) is in transit: it counts as allocated, but its tags already
    say "free", as [mm_free] and [extend_heap] leave them when they
    call [coalesce]. *)
Definition tag_word (u : option Z) (blk : Z * Z * Z) : Z :=
  let '(b, s, a) := blk in
  match u with
  | Some x => if b =? x then s else s + a
  | None => s + a
  end.

Definition block_ok (m : memory) (u : option Z) (blk : Z * Z * Z) : Prop :=
  let '(b, s, a) := blk in
  24 <= s /\ s mod 8 = 0 /\ (a = 0 \/ a = 1)
  /\ GET m (b - 4) = tag_word u blk /\ GET m (b + s - 8) = tag_word u blk.

(** No two neighbouring blocks are free; [pf] tells whether the block
    before the first one is free. *)
Fixpoint no_adj_from (pf : bool) (bl : list (Z * Z)) : Prop :=
  match bl with
  | [] => True
  | (_, a) :: t => (pf = true -> a <> 0) /\ no_adj_from (a =? 0) t
  end.

(** The invariant of [mm.c]: prologue, blocks [bl] and epilogue fill
    the region up to [mem_brk]; [F] lists the free blocks in the order
    of the free list, which ends in the root slot at [heap_listp - 24];
    no two neighbours are free. *)
Record heap_inv (u : option Z) (st : Mm.state) (bl : list (Z * Z)) (F : list Z) : Prop := {
  hi_lo : 24 < Mm.heap_listp st;
  hi_align : Mm.heap_listp st mod 8 = 0;
  hi_pro_hdr : GET (Mm.mem st) (Mm.heap_listp st - 4) = 9;
  hi_pro_ftr : GET (Mm.mem st) (Mm.heap_listp st) = 9;
  hi_blocks : Forall (block_ok (Mm.mem st) u) (starts (Mm.heap_listp st + 8) bl);
  hi_brk : Mm.mem_brk st = Mm.heap_listp st + 8 + total bl;
  hi_epi : GET (Mm.mem st) (Mm.mem_brk st - 4) = 1;
  hi_cap : Mm.mem_brk st <= Mm.mem_max_addr st
           /\ Mm.mem_max_addr st - Mm.heap_listp st < 2 ^ 32
           /\ Mm.mem_max_addr st < 2 ^ 64;
  hi_root : Mm.root st = hd (Mm.heap_listp st - 24) F;
  hi_dll : dllseg (Mm.mem st) 0 (F ++ [Mm.heap_listp st - 24]) 0;
  hi_nodup : NoDup F;
  hi_listed : forall x, In x F <-> exists s, In (x, s, 0) (starts (Mm.heap_listp st + 8) bl);
  hi_noadj : no_adj_from false bl
}.

(** Size of the free block that ends [pre] (0 when there is none), and
    [pre] without it; the same for the block that starts [post]. *)
Definition free_before (pre : list (Z * Z)) : Z :=
  let '(s, a) := last pre (0, 1) in if a =? 0 then s else 0.

Definition keep_before (pre : list (Z * Z)) : list (Z * Z) :=
  if snd (last pre (0, 1)) =? 0 then removelast pre else pre.

Definition free_after (post : list (Z * Z)) : Z :=
  match post with (s, a) :: _ => if a =? 0 then s else 0 | [] => 0 end.

Definition keep_after (post : list (Z * Z)) : list (Z * Z) :=
  match post with (s, a) :: t => if a =? 0 then t else post | [] => post end.

(** The heap after the block of [hw] bytes between [pre] and [post] was
    released and merged with its free neighbours. *)
Definition merge_at (pre : list (Z * Z)) (hw : Z) (post : list (Z * Z)) : list (Z * Z) :=
  keep_before pre ++ (free_before pre + hw + free_after post, 0) :: keep_after post.

(** The neighbours absorbed by that merge. *)
Definition absorbed (bp : Z) (pre : list (Z * Z)) (hw : Z) (post : list (Z * Z)) : list Z :=
  (if 0 <? free_before pre then [bp - free_before pre] else [])
  ++ (if 0 <? free_after post then [bp + hw] else []).

(** The bytes the allocator must leave alone: those outside
    [lo, hi) and the payloads of the allocated blocks of [sl] other than the one
    at [skip]. *)
Definition client_byte (lo hi : Z) (sl : list (Z * Z * Z)) (skip : Z) (a : Z) : Prop :=
  a < lo \/ hi <= a
  \/ exists b s, In (b, s, 1) sl /\ b <> skip /\ b <= a < b + s - 8.

(** Every block has at least 24 bytes. *)
Definition sized (bl : list (Z * Z)) : Prop := forall s a, In (s, a) bl -> 24 <= s.

(** ** A decision procedure for the invariant *)

Definition block_okb (m : memory) (u : option Z) (blk : Z * Z * Z) : bool :=
  let '(b, s, a) := blk in
  (24 <=? s) && (s mod 8 =? 0) && ((a =? 0) || (a =? 1))
  && (GET m (b - 4) =? tag_word u blk) && (GET m (b + s - 8) =? tag_word u blk).

Fixpoint no_adjb (pf : bool) (bl : list (Z * Z)) : bool :=
  match bl with
  | [] => true
  | (_, a) :: t => (negb pf || negb (a =? 0)) && no_adjb (a =? 0) t
  end.

Definition heap_invb (u : option Z) (st : Mm.state) (bl : list (Z * Z)) (F : list Z) : bool :=
  let m := Mm.mem st in
  let hl := Mm.heap_listp st in
  let sl := starts (hl + 8) bl in
  (24 <? hl) && (hl mod 8 =? 0) && (GET m (hl - 4) =? 9) && (GET m hl =? 9)
  && forallb (block_okb m u) sl
  && (Mm.mem_brk st =? hl + 8 + total bl)
  && (GET m (Mm.mem_brk st - 4) =? 1)
  && (Mm.mem_brk st <=? Mm.mem_max_addr st)
  && (Mm.mem_max_addr st - hl <? 2 ^ 32)
  && (Mm.mem_max_addr st <? 2 ^ 64)
  && (Mm.root st =? hd (hl - 24) F)
  && dllsegb m 0 (F ++ [hl - 24]) 0
  && nodupb F
  && forallb (fun x => mem_in x (free_blocks sl)) F
  && forallb (fun x => mem_in x F) (free_blocks sl)
  && no_adjb false bl.

(** Bits are 0 or 1 and sizes are at least 24. *)
Definition bits_ok (bl : list (Z * Z)) : Prop :=
  forall s a, In (s, a) bl -> 24 <= s /\ (a = 0 \/ a = 1).

(** Whether the last block of [A] is free ([pf] when [A] is empty). *)
Definition ends_free (pf : bool) (A : list (Z * Z)) : bool :=
  fold_left (fun _ b => snd b =? 0) A pf.

(** The heap [mm_heap3] at the point where [mm_free] of the block at
    4160 calls [coalesce]: header and footer of the block already say
    that it is free. *)
Definition mm_heap_transit : Mm.state :=
  Mm.set_mem mm_heap3 (PUT (PUT (Mm.mem mm_heap3) 4156 24) 4176 24).

(** A heap of [mm.c] whose only block, of 2048 bytes, is allocated, in
    a region that starts right after a word that holds 4096. *)
Definition mm_heap_full : Mm.state :=
  mm_alloc (Mm.mkState (PUT (fun _ => 0) 4092 4096) 4096 (2 ^ 24) 0 0) 2040.

(** * Properties *)

(** ** Facts about the memory model *)

Lemma store_outside (n : nat) : forall m p v a,
  a < p \/ p + Z.of_nat n <= a -> store n m p v a = m a.
Proof.
  induction n as [|k IH]; intros m p v a H; [reflexivity|].
  cbn [store]. destruct (Z.eqb_spec a p) as [->|Hne]; [lia|].
  apply IH. lia.
Qed.

Lemma load_ext (n : nat) : forall m m' p,
  (forall a, p <= a < p + Z.of_nat n -> m a = m' a) -> load n m p = load n m' p.
Proof.
  induction n as [|k IH]; intros m m' p H; [reflexivity|].
  cbn [load]. rewrite (H p) by lia. f_equal. f_equal.
  apply IH. intros a Ha. apply H. lia.
Qed.

Lemma load_range (n : nat) : forall m p, 0 <= load n m p < 256 ^ Z.of_nat n.
Proof.
  induction n as [|k IH]; intros m p.
  - cbn. lia.
  - cbn [load]. rewrite Nat2Z.inj_succ, Z.pow_succ_r by lia.
    specialize (IH m (p + 1)). pose proof (Z.mod_pos_bound (m p) 256). lia.
Qed.

Lemma load_store_same (n : nat) : forall m p v,
  load n (store n m p v) p = v mod 256 ^ Z.of_nat n.
Proof.
  induction n as [|k IH]; intros m p v.
  - cbn. now rewrite Z.mod_1_r.
  - cbn [load store]. rewrite Z.eqb_refl.
    rewrite (load_ext k _ (store k m (p + 1) (v / 256))).
    + rewrite IH, Nat2Z.inj_succ, Z.pow_succ_r by lia.
      rewrite Z.mod_mod by lia.
      rewrite (Z.rem_mul_r v 256 (256 ^ Z.of_nat k)) by lia. reflexivity.
    + intros a Ha. destruct (Z.eqb_spec a p); [lia|reflexivity].
Qed.

Lemma load_store_other (n n' : nat) : forall m p q v,
  p + Z.of_nat n <= q \/ q + Z.of_nat n' <= p ->
  load n (store n' m q v) p = load n m p.
Proof.
  intros m p q v H. apply load_ext. intros a Ha.
  apply store_outside. lia.
Qed.

Lemma GET_range m p : 0 <= GET m p < 2 ^ 32.
Proof. exact (load_range 4 m p). Qed.

Lemma GET_8_range m p : 0 <= GET_8 m p < 2 ^ 64.
Proof. exact (load_range 8 m p). Qed.

Lemma GET_PUT_same m p v : GET (PUT m p v) p = v mod 2 ^ 32.
Proof. exact (load_store_same 4 m p v). Qed.

Lemma GET_PUT_other m p q v : p + 4 <= q \/ q + 4 <= p -> GET (PUT m q v) p = GET m p.
Proof. intro H. apply (load_store_other 4 4). lia. Qed.

Lemma GET_PUT_8_other m p q v : p + 4 <= q \/ q + 8 <= p -> GET (PUT_8 m q v) p = GET m p.
Proof. intro H. apply (load_store_other 4 8). lia. Qed.

Lemma GET_8_PUT_8_same m p v : GET_8 (PUT_8 m p v) p = v mod 2 ^ 64.
Proof. exact (load_store_same 8 m p v). Qed.

Lemma GET_8_PUT_8_other m p q v : p + 8 <= q \/ q + 8 <= p -> GET_8 (PUT_8 m q v) p = GET_8 m p.
Proof. intro H. apply (load_store_other 8 8). lia. Qed.

Lemma GET_8_PUT_other m p q v : p + 8 <= q \/ q + 4 <= p -> GET_8 (PUT m q v) p = GET_8 m p.
Proof. intro H. apply (load_store_other 8 4). lia. Qed.

(** ** Boundary-tag words as arithmetic *)

Lemma land_shiftl_ones (k w : Z) :
  0 <= k -> 0 <= w < 2 ^ (k + 3) -> Z.land w (Z.shiftl (Z.ones k) 3) = 8 * (w / 8).
Proof.
  intros Hk Hw.
  rewrite Z.mul_comm. change 8 with (2 ^ 3).
  rewrite <- Z.shiftr_div_pow2, <- Z.shiftl_mul_pow2 by lia.
  apply Z.bits_inj'. intros n Hn.
  rewrite Z.land_spec, !Z.shiftl_spec by lia.
  destruct (Z.ltb_spec n 3) as [Hlt|Hge].
  - rewrite (Z.testbit_neg_r (Z.ones k)), (Z.testbit_neg_r (Z.shiftr w 3)) by lia.
    apply andb_false_r.
  - rewrite Z.shiftr_spec by lia. replace (n - 3 + 3) with n by lia.
    destruct (Z.ltb_spec n (k + 3)) as [Hlt|Hge'].
    + rewrite Z.ones_spec_low by lia. apply andb_true_r.
    + rewrite Z.ones_spec_high by lia. rewrite andb_false_r.
      symmetry. destruct (Z.eq_dec w 0) as [->|Hne]; [apply Z.bits_0|].
      apply Z.bits_above_log2; [lia|].
      assert (Z.log2 w < k + 3) by (apply Z.log2_lt_pow2; lia). lia.
Qed.

Lemma land_MASK32 (w : Z) : 0 <= w < 2 ^ 32 -> Z.land w MASK32 = 8 * (w / 8).
Proof. intros Hw. exact (land_shiftl_ones 29 w ltac:(lia) Hw). Qed.

Lemma land_MASK64 (w : Z) : 0 <= w < 2 ^ 64 -> Z.land w MASK64 = 8 * (w / 8).
Proof. intros Hw. exact (land_shiftl_ones 61 w ltac:(lia) Hw). Qed.

Lemma ALIGN_eq (p : Z) : ALIGN p = 8 * (((p + 7) mod 2 ^ 64) / 8).
Proof.
  unfold ALIGN, wrap, SIZE_MAX1, ALIGNMENT. apply land_MASK64.
  apply Z.mod_pos_bound. lia.
Qed.

Lemma land_1 (w : Z) : Z.land w 1 = w mod 2.
Proof. exact (Z.land_ones w 1 ltac:(lia)). Qed.

Lemma GET_SIZE_eq m p : GET_SIZE m p = 8 * (GET m p / 8).
Proof. unfold GET_SIZE. apply land_MASK32, GET_range. Qed.

Lemma GET_ALLOC_eq m p : GET_ALLOC m p = GET m p mod 2.
Proof. unfold GET_ALLOC. apply land_1. Qed.

Lemma PACK_0 (s : Z) : PACK s 0 = s.
Proof. apply Z.lor_0_r. Qed.

Lemma PACK_1 (s : Z) : s mod 2 = 0 -> PACK s 1 = s + 1.
Proof.
  intros Hs. unfold PACK.
  assert (Z.land s 1 = 0) by (rewrite land_1; exact Hs).
  rewrite <- Z.lxor_lor, <- Z.add_nocarry_lxor by assumption. reflexivity.
Qed.

Lemma GET_SIZE_range m p : 0 <= GET_SIZE m p < 2 ^ 32 /\ GET_SIZE m p mod 8 = 0.
Proof. rewrite GET_SIZE_eq. pose proof (GET_range m p). lia. Qed.

Lemma PUT_outside m p v a : a < p \/ p + 4 <= a -> PUT m p v a = m a.
Proof. intros H. apply (store_outside 4). lia. Qed.

(** Header and footer after the two [PUT]s that mark a block free or
    allocated with the size [s]. *)
Lemma tags_written (m : memory) (bp s a : Z) :
  0 <= s < 2 ^ 32 -> s mod 8 = 0 -> 0 <= a <= 1 ->
  let m1 := PUT m (HDRP bp) (PACK s a) in
  let m2 := PUT m1 (FTRP m1 bp) (PACK s a) in
  FTRP m1 bp = bp + s - 8
  /\ GET m2 (HDRP bp) = s + a
  /\ GET m2 (bp + s - 8) = s + a
  /\ (forall x, (x < bp - 4 \/ bp <= x) -> (x < bp + s - 8 \/ bp + s - 4 <= x) ->
                m2 x = m x).
Proof.
  intros Hs Hs8 Ha m1 m2.
  assert (Hp : PACK s a = s + a).
  { assert (a = 0 \/ a = 1) as [->| ->] by lia; [rewrite PACK_0; lia|].
    apply PACK_1. lia. }
  assert (H1 : GET m1 (HDRP bp) = s + a).
  { unfold m1. rewrite GET_PUT_same, Hp. apply Z.mod_small. lia. }
  assert (Hf : FTRP m1 bp = bp + s - 8).
  { unfold FTRP, DSIZE. rewrite GET_SIZE_eq, H1. lia. }
  split; [exact Hf|]. split; [|split].
  - unfold m2. rewrite Hf, GET_PUT_other; [exact H1|]. unfold HDRP, WSIZE. lia.
  - unfold m2. rewrite Hf, GET_PUT_same, Hp. apply Z.mod_small. lia.
  - intros x Hx1 Hx2. unfold m2. rewrite Hf, PUT_outside by lia.
    unfold m1, HDRP, WSIZE. apply PUT_outside. lia.
Qed.

(** ** Request sizes *)

Lemma ceil_div_8 (x : Z) : ceil_div x 8 = (x + 7) / 8.
Proof. unfold ceil_div. lia. Qed.

Lemma adjust_size_no_wrap (size : Z) :
  16 < size <= 2 ^ 64 - 16 -> ~ (448 <= size <= 449) ->
  adjust_size size = 8 * ((size + 15) / 8).
Proof.
  intros Hs Hn. unfold adjust_size, QSIZE, OVERHEAD, DSIZE, wrap, SIZE_MAX1.
  destruct (Z.leb_spec size 16); [lia|].
  destruct (Z.leb_spec size 449), (Z.geb_spec size 448); cbn [andb]; try lia.
  all: replace (size + 8 + (8 - 1)) with (size + 15) by lia.
  all: rewrite (Z.mod_small (size + 15)) by lia.
  all: rewrite Z.mod_small; lia.
Qed.

(** C4, as amended: for every request [0 < size <= 2^64 - 16] (so that
    [size + 15] does not wrap around in [size_t]) [mm_malloc] computes
    the block size 24 when [size <= 16], 512 when [448 <= size <= 449],
    and [8 * ceil ((size + 8) / 8)] otherwise; on a fresh heap a request
    of 16 bytes is placed into a 24-byte block, one of 17 bytes into a
    32-byte block and one of 448 bytes into a 512-byte block. *)
Theorem adjust_size_spec (size : Z) :
  0 < size <= 2 ^ 64 - 16 ->
  adjust_size size = spec_asize size
  /\ fresh_block_size 16 = Some 24
  /\ fresh_block_size 17 = Some 32
  /\ fresh_block_size 448 = Some 512.
Proof.
  intros Hs. split; [|repeat split; vm_compute; reflexivity].
  unfold spec_asize.
  destruct (Z.leb_spec size 16) as [Hle|Hgt].
  - unfold adjust_size, QSIZE, OVERHEAD.
    destruct (Z.leb_spec size 16); [reflexivity|lia].
  - destruct (Z.leb_spec 448 size) as [H1|H1], (Z.leb_spec size 449) as [H2|H2];
      cbn [andb].
    + unfold adjust_size, QSIZE.
      destruct (Z.leb_spec size 16); [lia|].
      destruct (Z.leb_spec size 449), (Z.geb_spec size 448); cbn [andb]; lia.
    + rewrite adjust_size_no_wrap, ceil_div_8 by lia. f_equal. f_equal. lia.
    + rewrite adjust_size_no_wrap, ceil_div_8 by lia. f_equal. f_equal. lia.
    + lia.
Qed.

Lemma adjust_size_spec_witness :
  adjust_size 100 = spec_asize 100
  /\ fresh_block_size 16 = Some 24
  /\ fresh_block_size 17 = Some 32
  /\ fresh_block_size 448 = Some 512.
Proof. apply (adjust_size_spec 100). lia. Defined.

(** C4, as stated, fails at the largest [size_t]: [size + 15] wraps
    around and the block size computed is 8. *)
Lemma adjust_size_wraps :
  0 < 2 ^ 64 - 1 < 2 ^ 64
  /\ adjust_size (2 ^ 64 - 1) = 8
  /\ spec_asize (2 ^ 64 - 1) = 2 ^ 64 + 8
  /\ adjust_size (2 ^ 64 - 1) <> spec_asize (2 ^ 64 - 1).
Proof. repeat split; try reflexivity; vm_compute; congruence. Qed.

(** ** [mm_realloc] of [mm.c]: no shrinking *)

Lemma ALIGN_small (s : Z) : 0 <= s <= 2 ^ 64 - 8 -> ALIGN s = align8 s.
Proof.
  intros Hs. rewrite ALIGN_eq. unfold align8. rewrite ceil_div_8.
  rewrite Z.mod_small by lia. reflexivity.
Qed.

Lemma realloc_case1 (fuel : nat) (st : Mm.state) (p s : Z) :
  p <> 0 -> 0 < s ->
  (if s <=? QSIZE then QSIZE else ALIGN s)
    <= wrap32 (GET_SIZE (Mm.mem st) (HDRP p) - OVERHEAD) ->
  Mm.mm_realloc fuel st p s = Some (st, p).
Proof.
  intros Hp Hs Hfit. unfold Mm.mm_realloc.
  destruct (Z.eqb_spec s 0); [lia|].
  destruct (Z.eqb_spec p 0); [lia|].
  cbv zeta.
  destruct (Z.leb_spec (if s <=? QSIZE then QSIZE else ALIGN s)
                       (wrap32 (GET_SIZE (Mm.mem st) (HDRP p) - OVERHEAD)));
    [reflexivity|lia].
Qed.

(** C8, as amended: in [mm.c], when [max (16, align8 s)] does not
    exceed the payload of the block at [p], [mm_realloc p s] returns
    [p] and the state it returns is the state it was given; in
    particular this holds when [s] is the payload size of [p] itself. *)
Theorem realloc_no_shrink (fuel : nat) (st : Mm.state) (p s : Z) :
  p <> 0 -> 0 < s ->
  Z.max 16 (align8 s) <= GET_SIZE (Mm.mem st) (HDRP p) - 8 ->
  Mm.mm_realloc fuel st p s = Some (st, p)
  /\ Mm.mm_realloc fuel st p (GET_SIZE (Mm.mem st) (HDRP p) - 8) = Some (st, p).
Proof.
  intros Hp Hs Hfit.
  pose proof (GET_SIZE_range (Mm.mem st) (HDRP p)) as [HB HB8].
  assert (Ha : s <= align8 s) by (unfold align8; rewrite ceil_div_8; lia).
  unfold OVERHEAD.
  split; apply realloc_case1; try lia; unfold QSIZE, OVERHEAD, wrap32.
  - rewrite Z.mod_small by lia.
    destruct (Z.leb_spec s 16); [lia|]. rewrite ALIGN_small; lia.
  - rewrite Z.mod_small by lia.
    destruct (Z.leb_spec (GET_SIZE (Mm.mem st) (HDRP p) - 8) 16); [lia|].
    rewrite ALIGN_small by lia. unfold align8. rewrite ceil_div_8. lia.
Qed.

Lemma realloc_no_shrink_witness :
  Mm.mm_realloc 0 mm_heap3 4128 20 = Some (mm_heap3, 4128)
  /\ Mm.mm_realloc 0 mm_heap3 4128 (GET_SIZE (Mm.mem mm_heap3) (HDRP 4128) - 8)
     = Some (mm_heap3, 4128).
Proof.
  apply (realloc_no_shrink 0 mm_heap3 4128 20); [lia|lia|].
  vm_compute. discriminate.
Defined.

(** The [mm_realloc] of [mm_work.c] has no such case.  In
    [mm_work_heap1] the block at 4240 is allocated and has 104 bytes of
    payload; asked for those 104 bytes again, [mm_realloc] returns
    4352, releases the block at 4240 and changes the root of a class. *)
Lemma mm_work_realloc_moves_at_same_size :
  let st := mm_work_heap1 in
  let p := 4240 in
  let pay := GET_SIZE (MmWork.mem st) (HDRP p) - 8 in
  GET_ALLOC (MmWork.mem st) (HDRP p) = 1
  /\ pay = 104
  /\ Z.max 16 (align8 pay) <= pay
  /\ match MmWork.mm_realloc 16 st p pay with
     | Some (st', q) =>
         q = 4352 /\ q <> p
         /\ GET_ALLOC (MmWork.mem st') (HDRP p) = 0
         /\ MmWork.roots st = [4096; 4112; 4352; 4144; 4160; 4176; 4192; 4240]
         /\ MmWork.roots st' = [4096; 4112; 4240; 4144; 4160; 4176; 4192; 4240]
     | None => False
     end.
Proof. vm_compute. repeat split; try discriminate. Qed.

(** ** [mm_realloc] of [mm.c]: the fallback path *)

Lemma adjust_size_range (size : Z) :
  0 <= adjust_size size < 2 ^ 64 /\ adjust_size size mod 8 = 0.
Proof.
  unfold adjust_size, QSIZE, OVERHEAD, DSIZE, wrap, SIZE_MAX1.
  destruct (size <=? 16); [lia|].
  destruct ((size <=? 449) && (size >=? 448)); [lia|].
  set (k := (size + 8 + (8 - 1)) mod 2 ^ 64 / 8).
  pose proof (Z.mod_pos_bound (8 * k) (2 ^ 64)). lia.
Qed.

Lemma mm_coalesce_result (st : Mm.state) (bp : Z) :
  snd (Mm.coalesce st bp) = bp \/ snd (Mm.coalesce st bp) = PREV_BLKP (Mm.mem st) bp.
Proof.
  unfold Mm.coalesce. cbv zeta.
  repeat match goal with
         | |- context [if ?c then _ else _] => destruct c
         end; cbn [snd]; auto.
Qed.

(** When the region cannot grow by 4 GiB, a heap extension returns null
    only because [mem_sbrk] failed, and then nothing was written. *)
Lemma mm_extend_heap_null (st st1 : Mm.state) (asize : Z) :
  0 <= asize < 2 ^ 64 -> asize mod 8 = 0 ->
  0 < Mm.mem_brk st ->
  Mm.mem_max_addr st - Mm.mem_brk st < 2 ^ 32 ->
  GET_SIZE (Mm.mem st) (Mm.mem_brk st - 8) < Mm.mem_brk st ->
  Mm.extend_heap st (MAX asize Mm.CHUNKSIZE / WSIZE) = (st1, 0) ->
  st1 = st.
Proof.
  intros Ha Ha8 Hbrk Hcap Hlast.
  unfold Mm.extend_heap, Mm.mem_sbrk. cbv zeta.
  set (words := MAX asize Mm.CHUNKSIZE / WSIZE).
  assert (Hw : 512 <= words < 2 ^ 62 /\ words mod 2 = 0).
  { unfold words, MAX, Mm.CHUNKSIZE, WSIZE. destruct (asize >? 2 ^ 11) eqn:E; lia. }
  destruct (Z.eqb_spec (words mod 2) 0) as [_|]; [|lia]. cbn [negb].
  assert (Hsz : wrap (words * WSIZE) = words * 4 /\ (words * 4) mod 8 = 0).
  { unfold wrap, SIZE_MAX1, WSIZE. rewrite Z.mod_small by lia. lia. }
  destruct Hsz as [-> Hsz8].
  set (size := words * 4) in *.
  destruct ((size <? 0) || (Mm.mem_brk st + size >? Mm.mem_max_addr st)) eqn:E.
  - cbn. intros [= <-]. reflexivity.
  - apply orb_false_iff in E. destruct E as [_ E].
    assert (Hfit : Mm.mem_brk st + size <= Mm.mem_max_addr st) by lia.
    set (bp := Mm.mem_brk st) in *.
    destruct (Z.ltb_spec bp 0); [lia|].
    set (m1 := PUT _ (HDRP bp) _). set (m2 := PUT m1 _ _). set (m3 := PUT m2 _ _).
    intros Hco.
    assert (Hsnd : snd (Mm.coalesce (Mm.set_mem (Mm.set_brk st (bp + size)) m3) bp) = 0)
      by (rewrite Hco; reflexivity).
    exfalso.
    destruct (mm_coalesce_result (Mm.set_mem (Mm.set_brk st (bp + size)) m3) bp)
      as [Hr|Hr]; rewrite Hr in Hsnd; [lia|].
    cbn [Mm.mem Mm.set_mem] in Hsnd.
    assert (H1 : GET m1 (HDRP bp) = size).
    { unfold m1. rewrite GET_PUT_same, PACK_0. apply Z.mod_small. lia. }
    assert (Hs1 : GET_SIZE m1 (HDRP bp) = size) by (rewrite GET_SIZE_eq, H1; lia).
    assert (H2 : GET m2 (HDRP bp) = size).
    { unfold m2, FTRP. rewrite Hs1, GET_PUT_other; [exact H1|].
      unfold HDRP, WSIZE, DSIZE. lia. }
    assert (Hs2 : GET_SIZE m2 (bp - WSIZE) = size).
    { change (bp - WSIZE) with (HDRP bp). rewrite GET_SIZE_eq, H2. lia. }
    assert (H3 : GET m3 (bp - DSIZE) = GET (Mm.mem st) (bp - DSIZE)).
    { unfold m3, NEXT_BLKP. rewrite Hs2.
      rewrite GET_PUT_other by (unfold HDRP, WSIZE, DSIZE; lia).
      unfold m2, FTRP. rewrite Hs1.
      rewrite GET_PUT_other by (unfold HDRP, WSIZE, DSIZE; lia).
      unfold m1. rewrite GET_PUT_other by (unfold HDRP, WSIZE, DSIZE; lia).
      reflexivity. }
    unfold PREV_BLKP in Hsnd. rewrite GET_SIZE_eq, H3, <- GET_SIZE_eq in Hsnd.
    unfold DSIZE in Hsnd. lia.
Qed.

Lemma mm_malloc_null (fuel : nat) (st st1 : Mm.state) (size : Z) :
  Mm.heap_listp st <> 0 ->
  0 < Mm.mem_brk st ->
  Mm.mem_max_addr st - Mm.mem_brk st < 2 ^ 32 ->
  GET_SIZE (Mm.mem st) (Mm.mem_brk st - 8) < Mm.mem_brk st ->
  Mm.mm_malloc fuel st size = Some (st1, 0) ->
  st1 = st.
Proof.
  intros Hinit Hbrk Hcap Hlast. unfold Mm.mm_malloc.
  destruct (Z.eqb_spec (Mm.heap_listp st) 0); [lia|]. cbv zeta.
  destruct (size <=? 0); [intros [= <-]; reflexivity|].
  destruct (Mm.find_fit fuel st (adjust_size size)) as [bp|]; [|discriminate].
  destruct (Z.eqb_spec bp 0) as [->|Hne]; cbn [negb].
  - destruct (Mm.extend_heap st (MAX (adjust_size size) Mm.CHUNKSIZE / WSIZE))
      as [st2 bp2] eqn:E.
    destruct (Z.eqb_spec bp2 0) as [->|Hne2].
    + intros [= <-].
      pose proof (adjust_size_range size) as [Hr H8].
      eapply mm_extend_heap_null; eauto.
    + intros [= _ H]. lia.
  - intros [= _ H]. lia.
Qed.

(** The calls of the fallback path of [mm_realloc] (the request
    exceeds the payload and the next block is allocated or too small):
    [mm_malloc size], then [memcpy] of [min (size, oldpay)] bytes,
    [oldpay] being the header size of the old block less 8, then
    [mm_free]; when [mm_malloc] returns null the state is the one
    [mm_realloc] was given.  What these calls do to a heap is shown
    further down. *)
Lemma realloc_fallback_calls (fuel : nat) (st : Mm.state) (p size : Z) :
  let m := Mm.mem st in
  let oldpay := GET_SIZE m (HDRP p) - 8 in
  let rsize := if size <=? 16 then 16 else ALIGN size in
  p <> 0 -> 0 < size ->
  0 <= oldpay < rsize ->
  GET_ALLOC m (HDRP (NEXT_BLKP m p)) <> 0
    \/ GET_SIZE m (HDRP (NEXT_BLKP m p)) < rsize - oldpay ->
  Mm.heap_listp st <> 0 ->
  0 < Mm.mem_brk st ->
  Mm.mem_max_addr st - Mm.mem_brk st < 2 ^ 32 ->
  GET_SIZE m (Mm.mem_brk st - 8) < Mm.mem_brk st ->
  Mm.mm_realloc fuel st p size =
    match Mm.mm_malloc fuel st size with
    | None => None
    | Some (st1, newptr) =>
      if newptr =? 0 then Some (st, 0)
      else Some (Mm.mm_free
                   (Mm.set_mem st1 (memcpy (Mm.mem st1) newptr p (Z.min size oldpay)))
                   p, newptr)
    end.
Proof.
  intros m oldpay rsize Hp Hs Hgrow Hnext Hinit Hbrk Hcap Hlast.
  pose proof (GET_SIZE_range m (HDRP p)) as [HB _].
  assert (Hrs : 0 <= rsize < 2 ^ 64).
  { unfold rsize. destruct (size <=? 16); [lia|]. rewrite ALIGN_eq.
    pose proof (Z.mod_pos_bound (size + 7) (2 ^ 64)). lia. }
  unfold Mm.mm_realloc.
  destruct (Z.eqb_spec size 0); [lia|].
  destruct (Z.eqb_spec p 0); [lia|].
  cbv zeta. fold m. unfold QSIZE, OVERHEAD.
  replace (wrap32 (GET_SIZE m (HDRP p) - 8)) with oldpay
    by (unfold wrap32, oldpay; rewrite Z.mod_small; lia).
  fold rsize.
  destruct (Z.leb_spec rsize oldpay); [lia|].
  replace (wrap (rsize - oldpay)) with (rsize - oldpay)
    by (unfold wrap, SIZE_MAX1; rewrite Z.mod_small; lia).
  assert (Hunusable :
    (GET_ALLOC m (HDRP (NEXT_BLKP m p)) =? 0)
    && (GET_SIZE m (HDRP (NEXT_BLKP m p)) >=? rsize - oldpay) = false).
  { destruct Hnext as [Ha|Hlt].
    - destruct (Z.eqb_spec (GET_ALLOC m (HDRP (NEXT_BLKP m p))) 0); [lia|reflexivity].
    - destruct (Z.geb_spec (GET_SIZE m (HDRP (NEXT_BLKP m p))) (rsize - oldpay));
        [lia|apply andb_false_r]. }
  rewrite Hunusable.
  destruct (Mm.mm_malloc fuel st size) as [[st1 newptr]|] eqn:E; [|reflexivity].
  destruct (Z.eqb_spec newptr 0) as [->|Hne].
  - apply mm_malloc_null in E; try assumption. now subst st1.
  - destruct (Z.ltb_spec size oldpay).
    + rewrite Z.min_l by lia. reflexivity.
    + rewrite Z.min_r by lia. reflexivity.
Qed.

(** The [mm_realloc] of [mm_work.c] has no in-place cases: it always
    allocates, and it copies [min (size, block size)] bytes, the block
    size being the full size the header of the old block records. *)
Lemma mm_work_realloc_copies_block_size (fuel : nat) (st : MmWork.state) (p size : Z) :
  p <> 0 -> 0 < size ->
  MmWork.mm_realloc fuel st p size =
    match MmWork.mm_malloc fuel st size with
    | None => None
    | Some (st1, newptr) =>
      if newptr =? 0 then Some (st1, 0)
      else Some (MmWork.mm_free
                   (MmWork.set_mem st1
                      (memcpy (MmWork.mem st1) newptr p
                         (Z.min size (GET_SIZE (MmWork.mem st1) (HDRP p)))))
                   p, newptr)
    end.
Proof.
  intros Hp Hs. unfold MmWork.mm_realloc.
  destruct (Z.eqb_spec size 0); [lia|].
  destruct (Z.eqb_spec p 0); [lia|].
  destruct (MmWork.mm_malloc fuel st size) as [[st1 newptr]|]; [|reflexivity].
  destruct (newptr =? 0); [reflexivity|]. cbv zeta.
  destruct (Z.ltb_spec size (GET_SIZE (MmWork.mem st1) (HDRP p))).
  - rewrite Z.min_l by lia. reflexivity.
  - rewrite Z.min_r by lia. reflexivity.
Qed.

(** ** [mm_free]: the header is read before the lazy initialisation *)

(** C10: for a non-null [ptr], [mm_free] reads the size at [ptr - 4]
    before it tests [heap_listp]: [coalesce] is entered with header and
    footer of [ptr] holding the size found in the memory as it was on
    entry, also when the allocator was not yet initialised and
    [mm_init] has run in between, and with nothing else changed in the
    memory [mm_init] left.  On a heap that was never initialised the
    pointer that [mm_init] is about to make the first free block (4128,
    size 2048) is therefore released with the stale size 0, and the
    header of that block is destroyed. *)
Theorem free_reads_header_before_init (st : Mm.state) (ptr : Z) :
  ptr <> 0 ->
  let size := GET_SIZE (Mm.mem st) (HDRP ptr) in
  let st1 := if Mm.heap_listp st =? 0 then fst (Mm.mm_init st) else st in
  (exists m2,
      Mm.mm_free st ptr = fst (Mm.coalesce (Mm.set_mem st1 m2) ptr)
      /\ GET m2 (HDRP ptr) = size
      /\ GET m2 (FTRP m2 ptr) = size
      /\ (forall x, (x < ptr - 4 \/ ptr <= x) ->
                    (x < ptr + size - 8 \/ ptr + size - 4 <= x) ->
                    m2 x = Mm.mem st1 x))
  /\ (let boot := mm_boot 4096 (2 ^ 24) in
      Mm.heap_listp boot = 0
      /\ GET_SIZE (Mm.mem boot) (HDRP 4128) = 0
      /\ GET (Mm.mem (fst (Mm.mm_init boot))) (HDRP 4128) = 2048
      /\ GET (Mm.mem (Mm.mm_free boot 4128)) (HDRP 4128) = 0).
Proof.
  intros Hp size st1. split; [|vm_compute; repeat split; reflexivity].
  pose proof (GET_SIZE_range (Mm.mem st) (HDRP ptr)) as [Hr H8]. fold size in Hr, H8.
  destruct (tags_written (Mm.mem st1) ptr size 0 Hr H8 ltac:(lia))
    as (Hf & Hh & Hft & Hfr).
  set (m1 := PUT (Mm.mem st1) (HDRP ptr) (PACK size 0)) in *.
  set (m2 := PUT m1 (FTRP m1 ptr) (PACK size 0)) in *.
  rewrite Z.add_0_r in Hh, Hft.
  exists m2. split; [|split; [|split]].
  - unfold Mm.mm_free. destruct (Z.eqb_spec ptr 0); [lia|]. reflexivity.
  - exact Hh.
  - unfold FTRP, DSIZE. rewrite GET_SIZE_eq, Hh.
    replace (ptr + 8 * (size / 8) - 8) with (ptr + size - 8) by lia. exact Hft.
  - exact Hfr.
Qed.

Lemma free_reads_header_before_init_witness :
  let st := mm_heap3 in
  let ptr := 4160 in
  let size := GET_SIZE (Mm.mem st) (HDRP ptr) in
  let st1 := if Mm.heap_listp st =? 0 then fst (Mm.mm_init st) else st in
  (exists m2,
      Mm.mm_free st ptr = fst (Mm.coalesce (Mm.set_mem st1 m2) ptr)
      /\ GET m2 (HDRP ptr) = size
      /\ GET m2 (FTRP m2 ptr) = size
      /\ (forall x, (x < ptr - 4 \/ ptr <= x) ->
                    (x < ptr + size - 8 \/ ptr + size - 4 <= x) ->
                    m2 x = Mm.mem st1 x))
  /\ (let boot := mm_boot 4096 (2 ^ 24) in
      Mm.heap_listp boot = 0
      /\ GET_SIZE (Mm.mem boot) (HDRP 4128) = 0
      /\ GET (Mm.mem (fst (Mm.mm_init boot))) (HDRP 4128) = 2048
      /\ GET (Mm.mem (Mm.mm_free boot 4128)) (HDRP 4128) = 0).
Proof. apply (free_reads_header_before_init mm_heap3 4160). lia. Defined.

(** ** [mm_calloc] *)

Lemma bzero_inside (m : memory) (p n a : Z) : p <= a < p + n -> bzero m p n a = 0.
Proof.
  intros H. unfold bzero.
  destruct (Z.leb_spec p a), (Z.ltb_spec a (p + n)); cbn; lia.
Qed.

Lemma bzero_outside (m : memory) (p n a : Z) :
  a < p \/ p + n <= a -> bzero m p n a = m a.
Proof.
  intros H. unfold bzero.
  destruct (Z.leb_spec p a), (Z.ltb_spec a (p + n)); cbn; lia.
Qed.

(** C9, as amended: [mm_calloc n size] calls [mm_malloc] with
    [t = n * size] reduced modulo [2^64] (no overflow check is made)
    and returns the pointer [mm_malloc] returned; when that pointer [p]
    is not null, the [t] bytes at [p] are zeroed, and no other byte and
    no global changes. *)
Theorem calloc_zeroes_block (fuel : nat) (st : Mm.state) (n size : Z) :
  let t := (n * size) mod 2 ^ 64 in
  let st0 := if Mm.heap_listp st =? 0 then fst (Mm.mm_init st) else st in
  match Mm.mm_malloc fuel st0 t, Mm.mm_calloc fuel st n size with
  | Some (st1, p), Some (st2, q) =>
    q = p
    /\ (p <> 0 ->
        (forall a, p <= a < p + t -> Mm.mem st2 a = 0)
        /\ (forall a, a < p \/ p + t <= a -> Mm.mem st2 a = Mm.mem st1 a)
        /\ Mm.mem_brk st2 = Mm.mem_brk st1
        /\ Mm.heap_listp st2 = Mm.heap_listp st1
        /\ Mm.root st2 = Mm.root st1)
  | None, None => True
  | _, _ => False
  end.
Proof.
  intros t st0. unfold Mm.mm_calloc. fold st0.
  change (wrap (n * size)) with t.
  destruct (Mm.mm_malloc fuel st0 t) as [[st1 p]|]; [|exact I].
  split; [reflexivity|]. intros Hp. cbn.
  repeat split; intros; auto using bzero_inside, bzero_outside.
Qed.

(** C9, as stated, fails when the product overflows: [2^63 + 1500]
    elements of 2 bytes wrap around to a request of 3000 bytes, which
    is served by growing the heap, and a non-null pointer is
    returned. *)
Lemma calloc_overflow_allocates :
  2 ^ 64 <= (2 ^ 63 + 1500) * 2
  /\ match Mm.mm_calloc 16 mm_heap3 (2 ^ 63 + 1500) 2 with
     | Some (st, p) => p <> 0 /\ Mm.mem_brk mm_heap3 < Mm.mem_brk st
     | None => False
     end.
Proof. split; [lia|]. vm_compute. split; [discriminate|reflexivity]. Qed.

(** ** [mm_realloc] of [mm.c]: absorbing the next block *)

(** Whenever [mm_realloc] absorbs the next block whole, the size it
    leaves in header and footer of [ptr] is 8 bytes less than the two
    blocks span. *)
Lemma realloc_absorb_whole_size (fuel : nat) (st : Mm.state) (ptr size : Z) :
  let m := Mm.mem st in
  let B := GET_SIZE m (HDRP ptr) in
  let N := GET_SIZE m (HDRP (NEXT_BLKP m ptr)) in
  let rsize := if size <=? QSIZE then QSIZE else ALIGN size in
  ptr <> 0 -> 0 < size ->
  8 <= B -> B - 8 < rsize -> B + N <= 2 ^ 32 ->
  GET_ALLOC m (HDRP (NEXT_BLKP m ptr)) = 0 ->
  rsize - (B - 8) <= N < rsize - (B - 8) + 24 ->
  exists st',
    Mm.mm_realloc fuel st ptr size = Some (st', ptr)
    /\ GET (Mm.mem st') (HDRP ptr) = B + N - 8 + 1
    /\ GET (Mm.mem st') (ptr + (B + N - 8) - 8) = B + N - 8 + 1.
Proof.
  intros m B N rsize Hp Hs HB Hgrow Hfit Hfree Hrange.
  pose proof (GET_SIZE_range m (HDRP ptr)) as [HBr HB8]. fold B in HBr, HB8.
  pose proof (GET_SIZE_range m (HDRP (NEXT_BLKP m ptr))) as [HNr HN8].
  fold N in HNr, HN8.
  assert (Hrs : 0 <= rsize < 2 ^ 64).
  { unfold rsize, QSIZE. destruct (size <=? 16); [lia|]. rewrite ALIGN_eq.
    pose proof (Z.mod_pos_bound (size + 7) (2 ^ 64)). lia. }
  unfold Mm.mm_realloc.
  destruct (Z.eqb_spec size 0); [lia|].
  destruct (Z.eqb_spec ptr 0); [lia|].
  cbv zeta. fold m. fold B. fold rsize. unfold OVERHEAD.
  replace (wrap32 (B - 8)) with (B - 8)
    by (unfold wrap32; rewrite Z.mod_small; lia).
  destruct (Z.leb_spec rsize (B - 8)); [lia|].
  fold N. rewrite Hfree. cbn [Z.eqb andb].
  replace (wrap (rsize - (B - 8))) with (rsize - (B - 8))
    by (unfold wrap, SIZE_MAX1; rewrite Z.mod_small; lia).
  destruct (Z.geb_spec N (rsize - (B - 8))); [|lia]. cbn [andb].
  unfold QSIZE at 1.
  replace (wrap (rsize - (B - 8) + 16 + 8)) with (rsize - (B - 8) + 24)
    by (unfold wrap, SIZE_MAX1; rewrite Z.mod_small; lia).
  destruct (Z.geb_spec N (rsize - (B - 8) + 24)); [lia|].
  replace (wrap (B - 8 + N)) with (B + N - 8)
    by (unfold wrap, SIZE_MAX1; rewrite Z.mod_small; lia).
  eexists. split; [reflexivity|]. cbn [Mm.mem Mm.set_mem].
  set (m0 := PUT _ (FTRP _ ptr) 0).
  destruct (tags_written m0 ptr (B + N - 8) 1) as (_ & Hh & Hf & _); [lia..|].
  split; [exact Hh|exact Hf].
Qed.

(** C3 at a failing input.  In [mm_heap4], which satisfies the
    invariants, the block at 4128 (32 bytes, payload 24) is followed by
    a free block of 24 bytes at 4160 and an allocated block at 4184.
    [mm_realloc 4128 40] takes the in-place path and cannot split
    (24 + 24 - 40 < 24), but the size it writes is
    [oldsize + nextsize = 48], the payload of the old block plus the
    next block, not the 56 bytes the two blocks span: the block now
    ends 8 bytes early, its successor by size arithmetic is 4176, where
    no block starts, the footer of the absorbed block still reads
    "24 bytes, free" just before the block at 4184, and [mm_checkheap],
    silent before the call, reports a bad epilogue header. *)
Lemma realloc_absorb_whole_is_short :
  let m := Mm.mem mm_heap4 in
  mm_invariants 16 mm_heap4 = true
  /\ mm_checkheap 16 mm_heap4 = Some []
  /\ GET m (HDRP 4128) = PACK 32 1
  /\ NEXT_BLKP m 4128 = 4160
  /\ GET m (HDRP 4160) = PACK 24 0
  /\ NEXT_BLKP m 4160 = 4184
  /\ GET m (HDRP 4184) = PACK 112 1
  /\ match Mm.mm_realloc 16 mm_heap4 4128 40 with
     | Some (st, q) =>
       q = 4128
       /\ GET (Mm.mem st) (HDRP 4128) = PACK 48 1
       /\ GET (Mm.mem st) (FTRP (Mm.mem st) 4128) = PACK 48 1
       /\ NEXT_BLKP (Mm.mem st) 4128 = 4176
       /\ GET (Mm.mem st) (4184 - DSIZE) = PACK 24 0
       /\ GET (Mm.mem st) (HDRP 4184) = PACK 112 1
       /\ heap_blocks 16 (Mm.mem st) (Mm.heap_listp st)
          = Some [(4120, 8, 1); (4128, 48, 1); (4176, 0, 0)]
       /\ mm_checkheap 16 st = Some [Bad_epilogue_header]
     | None => False
     end.
Proof. vm_compute. repeat split; reflexivity. Qed.

(** C5 at a failing input.  [mm_heap_words] satisfies the invariants:
    blocks of 32 (allocated), 32 (free), 112 (allocated) and 1872
    (free) bytes between prologue and epilogue.  [mm_realloc 4128 48]
    absorbs the free block at 4160 whole and writes the size 56 where
    the two blocks span 64 bytes.  The walk by header sizes then leaves
    the block at 4128 for 4184, eight bytes before the next real block,
    and reads the words the client had stored as headers: two
    neighbouring blocks of 16 bytes, both free. *)
Lemma realloc_leaves_adjacent_free_blocks :
  mm_invariants 16 mm_heap_words = true
  /\ heap_blocks 16 (Mm.mem mm_heap_words) (Mm.heap_listp mm_heap_words)
     = Some [(4120, 8, 1); (4128, 32, 1); (4160, 32, 0); (4192, 112, 1);
             (4304, 1872, 0); (6176, 0, 1)]
  /\ match Mm.mm_realloc 16 mm_heap_words 4128 48 with
     | Some (st, q) =>
       q = 4128
       /\ heap_blocks 16 (Mm.mem st) (Mm.heap_listp st)
          = Some [(4120, 8, 1); (4128, 56, 1); (4184, 16, 0); (4200, 16, 0);
                  (4216, 0, 1)]
       /\ adjacent_free [(4120, 8, 1); (4128, 56, 1); (4184, 16, 0); (4200, 16, 0);
                         (4216, 0, 1)] = true
       /\ mm_invariants 16 st = false
     | None => False
     end.
Proof. vm_compute. repeat split; reflexivity. Qed.

(** ** [place] of [mm_work.c] *)

Lemma update_length (i : nat) (v : Z) (l : list Z) :
  length (MmWork.update i v l) = length l.
Proof.
  revert i; induction l as [|h t IH]; intros [|j]; cbn; auto.
Qed.

Lemma nth_update_same (i : nat) (v : Z) (l : list Z) :
  (i < length l)%nat -> nth i (MmWork.update i v l) 0 = v.
Proof.
  revert i; induction l as [|h t IH]; intros [|j] H; cbn in *; try lia; auto.
  apply IH. lia.
Qed.

Lemma nth_update_other (i j : nat) (v : Z) (l : list Z) :
  i <> j -> nth j (MmWork.update i v l) 0 = nth j l 0.
Proof.
  revert i j; induction l as [|h t IH]; intros [|i] [|j] H; cbn; try lia; auto.
Qed.

Lemma mm_work_unlink_roots_length (st : MmWork.state) (bp : Z) :
  length (MmWork.roots (MmWork.mm_unlink st bp)) = length (MmWork.roots st).
Proof.
  unfold MmWork.mm_unlink, MmWork.get_root. cbv zeta.
  repeat match goal with
         | |- context [if ?c then _ else _] => destruct c
         end; cbn; rewrite ?update_length; reflexivity.
Qed.

Lemma get_segid_bound (asize : Z) : (MmWork.get_segid asize < MmWork.SEG_SIZE)%nat.
Proof.
  unfold MmWork.get_segid, MmWork.SEG_SIZE.
  repeat match goal with
         | |- context [if ?c then _ else _] => destruct c
         end; lia.
Qed.

(** Whenever [place] splits, the remainder is made the root of class
    [get_segid asize], the class of the allocated part. *)
Lemma place_split_root (st : MmWork.state) (bp asize : Z) :
  length (MmWork.roots st) = MmWork.SEG_SIZE ->
  QSIZE + OVERHEAD <= wrap (GET_SIZE (MmWork.mem st) (HDRP bp) - asize) ->
  let m1 := PUT (MmWork.mem st) (HDRP bp) (PACK asize 1) in
  let m2 := PUT m1 (FTRP m1 bp) (PACK asize 1) in
  let st1 := MmWork.mm_unlink (MmWork.set_mem st m2) bp in
  let rem := NEXT_BLKP (MmWork.mem st1) bp in
  rem <> 0 ->
  nth (MmWork.get_segid asize) (MmWork.roots (MmWork.place st bp asize)) 0 = rem.
Proof.
  intros Hlen Hsplit m1 m2 st1 rem Hrem. unfold MmWork.place. cbv zeta.
  destruct (Z.geb_spec (wrap (GET_SIZE (MmWork.mem st) (HDRP bp) - asize))
                       (QSIZE + OVERHEAD)); [|lia].
  fold m1. fold m2. fold st1. fold rem.
  unfold MmWork.push_root, MmWork.get_root. cbn [Z.eqb].
  destruct (Z.eqb_spec rem 0); [contradiction|].
  cbn [fst snd MmWork.roots MmWork.set_mem MmWork.set_roots].
  apply nth_update_same.
  unfold st1. rewrite mm_work_unlink_roots_length. cbn [MmWork.roots MmWork.set_mem].
  rewrite Hlen. apply get_segid_bound.
Qed.

(** C2 at a failing input.  In [mm_work_heap0] the free block at 4240
    (4096 bytes) heads the list of its class, 7.  [place 4240 24]
    splits it; the remainder at 4264 has 4072 bytes, class 7, but is
    pushed on the list of class [get_segid 24 = 0], the class of the
    allocated part, and [mm_unlink], run after the header was
    rewritten, updates the root of class 0 as well: the list of class 7
    is still headed by the block just allocated. *)
Lemma place_pushes_remainder_on_wrong_class :
  let st := mm_work_heap0 in
  let st' := MmWork.place st 4240 24 in
  GET (MmWork.mem st) (HDRP 4240) = PACK 4096 0
  /\ nth (MmWork.get_segid 4096) (MmWork.roots st) 0 = 4240
  /\ PREV (MmWork.mem st) 4240 = 0
  /\ 4096 - 24 >= 24
  /\ GET (MmWork.mem st') (HDRP 4240) = PACK 24 1
  /\ NEXT_BLKP (MmWork.mem st') 4240 = 4264
  /\ GET (MmWork.mem st') (HDRP 4264) = PACK 4072 0
  /\ MmWork.get_segid 4072 = 7%nat
  /\ MmWork.get_segid 24 = 0%nat
  /\ nth 0 (MmWork.roots st') 0 = 4264
  /\ nth 7 (MmWork.roots st') 0 = 4240.
Proof. vm_compute. repeat split; try reflexivity. discriminate. Qed.

(** * The segregated lists of [mm_work.c] *)

(** ** Link fields under writes *)

Lemma NEXT_set_NEXT_same m x v : 0 <= v < 2 ^ 64 -> NEXT (set_NEXT m x v) x = v.
Proof.
  intros Hv. unfold NEXT, set_NEXT. rewrite GET_8_PUT_8_same. apply Z.mod_small, Hv.
Qed.

Lemma PREV_set_PREV_same m x v : 0 <= v < 2 ^ 64 -> PREV (set_PREV m x v) x = v.
Proof.
  intros Hv. unfold PREV, set_PREV. rewrite GET_8_PUT_8_same. apply Z.mod_small, Hv.
Qed.

Lemma NEXT_set_NEXT_other m x y v : cell_sep x y -> NEXT (set_NEXT m x v) y = NEXT m y.
Proof.
  unfold cell_sep, NEXT, set_NEXT. intros H. apply GET_8_PUT_8_other. lia.
Qed.

Lemma PREV_set_PREV_other m x y v : cell_sep x y -> PREV (set_PREV m x v) y = PREV m y.
Proof.
  unfold cell_sep, PREV, set_PREV, DSIZE. intros H. apply GET_8_PUT_8_other. lia.
Qed.

Lemma PREV_set_NEXT m x y v : x = y \/ cell_sep x y -> PREV (set_NEXT m x v) y = PREV m y.
Proof.
  unfold cell_sep, PREV, set_NEXT, DSIZE. intros H. apply GET_8_PUT_8_other. lia.
Qed.

Lemma NEXT_set_PREV m x y v : x = y \/ cell_sep x y -> NEXT (set_PREV m x v) y = NEXT m y.
Proof.
  unfold cell_sep, NEXT, set_PREV, DSIZE. intros H. apply GET_8_PUT_8_other. lia.
Qed.

Lemma GET_set_NEXT m x v t : clear_of t x -> GET (set_NEXT m x v) t = GET m t.
Proof. unfold clear_of, set_NEXT. intros H. apply GET_PUT_8_other. lia. Qed.

Lemma GET_set_PREV m x v t : clear_of t x -> GET (set_PREV m x v) t = GET m t.
Proof. unfold clear_of, set_PREV, DSIZE. intros H. apply GET_PUT_8_other. lia. Qed.

Lemma NEXT_PUT m t v y : clear_of t y -> NEXT (PUT m t v) y = NEXT m y.
Proof. unfold clear_of, NEXT. intros H. apply GET_8_PUT_other. lia. Qed.

Lemma PREV_PUT m t v y : clear_of t y -> PREV (PUT m t v) y = PREV m y.
Proof. unfold clear_of, PREV, DSIZE. intros H. apply GET_8_PUT_other. lia. Qed.

Lemma NEXT_range m x : 0 <= NEXT m x < 2 ^ 64.
Proof. apply GET_8_range. Qed.

Lemma PREV_range m x : 0 <= PREV m x < 2 ^ 64.
Proof. apply GET_8_range. Qed.

(** ** Doubly linked segments *)

Lemma last_cons_default (l : list Z) : forall a d, last (a :: l) d = last l a.
Proof.
  induction l as [|b t IH]; intros a d; [reflexivity|].
  change (last (a :: b :: t) d) with (last (b :: t) d).
  rewrite (IH b d), (IH b a). reflexivity.
Qed.

Lemma hd_app (A B : list Z) (n : Z) : hd n (A ++ B) = hd (hd n B) A.
Proof. destruct A; reflexivity. Qed.

Lemma dllseg_app m (A B : list Z) : forall p n,
  dllseg m p (A ++ B) n <-> dllseg m p A (hd n B) /\ dllseg m (last A p) B n.
Proof.
  induction A as [|a A IH]; intros p n; cbn [app dllseg].
  - cbn. tauto.
  - rewrite IH, hd_app, last_cons_default. tauto.
Qed.

Lemma dllseg_frame m m' (l : list Z) : forall p n,
  (forall x, In x l -> NEXT m' x = NEXT m x /\ PREV m' x = PREV m x) ->
  dllseg m p l n -> dllseg m' p l n.
Proof.
  induction l as [|x t IH]; intros p n Hf; cbn [dllseg]; [tauto|].
  intros (Hp & Hn & Ht). destruct (Hf x (or_introl eq_refl)) as [-> ->].
  repeat split; try assumption. apply IH; [|assumption].
  intros y Hy. apply Hf. now right.
Qed.

Lemma dllseg_in_range m (l : list Z) : forall p n x,
  dllseg m p l n -> In x l -> x <> hd 0 l -> 0 <= x < 2 ^ 64.
Proof.
  induction l as [|a t IH]; intros p n x Hd Hin Hne; [destruct Hin|].
  cbn in Hne. destruct Hin as [->|Hin]; [congruence|].
  destruct Hd as (_ & Hn & Ht). destruct t as [|b t']; [destruct Hin|].
  cbn [hd] in Hn. destruct (Z.eq_dec x b) as [->|Hxb].
  - rewrite <- Hn. apply NEXT_range.
  - eapply IH; eauto.
Qed.

(** ** Separation *)

Lemma pairwise_sep_app (A B : list Z) :
  pairwise_sep (A ++ B) <->
  pairwise_sep A /\ pairwise_sep B /\ (forall a b, In a A -> In b B -> cell_sep a b).
Proof.
  induction A as [|a A IH]; cbn [app pairwise_sep].
  - split.
    + intros H. repeat split; auto. intros a b [].
    + intros (_ & H & _). exact H.
  - rewrite IH, Forall_app, !Forall_forall. split.
    + intros ((HA & HB) & HpA & HpB & HAB). repeat split; auto.
      intros x b [<-|Hx] Hb; auto.
    + intros ((HA & HpA) & HpB & HAB). repeat split; auto.
      * intros b Hb. apply HAB; [now left|assumption].
      * intros x b Hx Hb. apply HAB; [now right|assumption].
Qed.

Lemma cell_sep_sym x y : cell_sep x y -> cell_sep y x.
Proof. unfold cell_sep. lia. Qed.

Lemma cell_sep_neq x y : cell_sep x y -> x <> y.
Proof. unfold cell_sep. lia. Qed.

Lemma pairwise_sep_filter (f : Z -> bool) (l : list Z) :
  pairwise_sep l -> pairwise_sep (filter f l).
Proof.
  induction l as [|x t IH]; cbn [filter pairwise_sep]; [tauto|].
  intros [Hx Ht]. destruct (f x); cbn [pairwise_sep]; auto.
  split; auto. rewrite Forall_forall in *. intros y Hy.
  apply Hx. apply filter_In in Hy. tauto.
Qed.

(** ** Reflection of the boolean checks *)

Lemma mem_in_iff x l : mem_in x l = true <-> In x l.
Proof.
  unfold mem_in. rewrite existsb_exists. split.
  - intros (y & Hy & E). apply Z.eqb_eq in E. now subst.
  - intros H. exists x. split; [assumption|apply Z.eqb_refl].
Qed.

Lemma dllsegb_sound m (l : list Z) : forall p n,
  dllsegb m p l n = true -> dllseg m p l n.
Proof.
  induction l as [|x t IH]; intros p n; cbn [dllsegb dllseg]; [tauto|].
  rewrite !andb_true_iff, !Z.eqb_eq. intros [[H1 H2] H3]. auto.
Qed.

Lemma cell_sepb_iff x y : cell_sepb x y = true <-> cell_sep x y.
Proof. unfold cell_sepb, cell_sep. rewrite orb_true_iff, !Z.leb_le. tauto. Qed.

Lemma pairwise_sepb_sound (l : list Z) : pairwise_sepb l = true -> pairwise_sep l.
Proof.
  induction l as [|x t IH]; cbn [pairwise_sepb pairwise_sep]; [tauto|].
  rewrite andb_true_iff, forallb_forall, Forall_forall. intros [H1 H2].
  split; auto. intros y Hy. apply cell_sepb_iff; auto.
Qed.

Lemma lists_okb_sound st Ls : lists_okb st Ls = true -> lists_ok st Ls.
Proof.
  unfold lists_okb. rewrite !andb_true_iff, !forallb_forall.
  intros [[[Hlen Hroots] Hclass] Hinter].
  apply Nat.eqb_eq in Hlen, Hroots.
  assert (Hk : forall k, (k < MmWork.SEG_SIZE)%nat ->
                         class_okb st k (nth k Ls []) = true).
  { intros k Hlt. apply Hclass, in_seq. lia. }
  assert (Hout : forall k, ~ (k < MmWork.SEG_SIZE)%nat -> nth k Ls [] = []).
  { intros k Hge. apply nth_overflow. lia. }
  constructor.
  - exact Hroots.
  - intros k Hlt. specialize (Hk k Hlt). unfold class_okb in Hk.
    destruct (nth k Ls []) as [|r L] eqn:E; [discriminate|].
    rewrite !andb_true_iff, !Z.eqb_eq in Hk.
    destruct Hk as [[[[H1 H2] H3] _] _].
    split; [discriminate|]. split; [exact H1|].
    split; [apply dllsegb_sound, H2|exact H3].
  - intros k y Hy.
    destruct (lt_dec k MmWork.SEG_SIZE) as [Hlt|Hge];
      [|rewrite (Hout k Hge) in Hy; destruct Hy].
    specialize (Hk k Hlt). unfold class_okb in Hk.
    destruct (nth k Ls []) as [|r L] eqn:E; [discriminate|].
    rewrite !andb_true_iff, forallb_forall in Hk.
    destruct Hk as [[_ H4] _]. specialize (H4 y Hy).
    rewrite andb_true_iff, !Z.ltb_lt in H4. exact H4.
  - intros k.
    destruct (lt_dec k MmWork.SEG_SIZE) as [Hlt|Hge];
      [|rewrite (Hout k Hge); exact I].
    specialize (Hk k Hlt). unfold class_okb in Hk.
    destruct (nth k Ls []) as [|r L] eqn:E; [discriminate|].
    rewrite !andb_true_iff in Hk. destruct Hk as [_ H5].
    now apply pairwise_sepb_sound.
  - intros j k a b Hjk Ha Hb.
    destruct (lt_dec j MmWork.SEG_SIZE) as [Hj|Hj];
      [|rewrite (Hout j Hj) in Ha; destruct Ha].
    destruct (lt_dec k MmWork.SEG_SIZE) as [Hk'|Hk'];
      [|rewrite (Hout k Hk') in Hb; destruct Hb].
    assert (Hjs : In j (seq 0 MmWork.SEG_SIZE)) by (apply in_seq; lia).
    assert (Hks : In k (seq 0 MmWork.SEG_SIZE)) by (apply in_seq; lia).
    specialize (Hinter j Hjs). rewrite forallb_forall in Hinter.
    specialize (Hinter k Hks). rewrite orb_true_iff in Hinter.
    destruct Hinter as [E|Hall]; [apply Nat.eqb_eq in E; contradiction|].
    rewrite forallb_forall in Hall. specialize (Hall a Ha).
    rewrite forallb_forall in Hall. apply cell_sepb_iff. auto.
Qed.

(** ** Unlinking a node *)

Ltac simpl_st :=
  cbn [MmWork.mem MmWork.roots MmWork.start_root MmWork.heap_listp MmWork.mem_brk
       MmWork.mem_max_addr MmWork.set_mem MmWork.set_roots fst snd].

Lemma filter_all (f : Z -> bool) (l : list Z) :
  (forall y, In y l -> f y = true) -> filter f l = l.
Proof.
  induction l as [|x t IH]; intros H; cbn [filter]; [reflexivity|].
  rewrite (H x (or_introl eq_refl)). f_equal. apply IH.
  intros y Hy. apply H. now right.
Qed.

Lemma nth_remove_nodes xs Ls k :
  nth k (remove_nodes xs Ls) [] = filter (fun y => negb (mem_in y xs)) (nth k Ls []).
Proof.
  unfold remove_nodes.
  exact (map_nth (filter (fun y => negb (mem_in y xs))) Ls [] k).
Qed.

Lemma In_remove_nodes xs Ls k y :
  In y (nth k (remove_nodes xs Ls) []) -> In y (nth k Ls []) /\ ~ In y xs.
Proof.
  rewrite nth_remove_nodes, filter_In, negb_true_iff.
  intros [H1 H2]. split; [assumption|].
  intros Hin. apply mem_in_iff in Hin. congruence.
Qed.

Lemma filter_remove_one (x : Z) (A B : list Z) :
  ~ In x A -> ~ In x B ->
  filter (fun y => negb (mem_in y [x])) (A ++ x :: B) = A ++ B.
Proof.
  intros HA HB. rewrite filter_app. cbn [filter].
  assert (Hx : mem_in x [x] = true) by (apply mem_in_iff; now left).
  rewrite Hx. cbn [negb]. f_equal; apply filter_all; intros y Hy;
    apply negb_true_iff; destruct (mem_in y [x]) eqn:E; try reflexivity;
    apply mem_in_iff in E; destruct E as [<-|[]]; contradiction.
Qed.

Lemma filter_remove_absent (x : Z) (L : list Z) :
  ~ In x L -> filter (fun y => negb (mem_in y [x])) L = L.
Proof.
  intros HL. apply filter_all. intros y Hy.
  apply negb_true_iff; destruct (mem_in y [x]) eqn:E; try reflexivity.
  apply mem_in_iff in E; destruct E as [<-|[]]; contradiction.
Qed.

Lemma last_app_cons (A B : list Z) (b d : Z) : last (A ++ b :: B) d = last (b :: B) d.
Proof.
  induction A as [|a A IH]; [reflexivity|].
  cbn [app]. destruct (A ++ b :: B) eqn:E.
  - destruct A; discriminate.
  - rewrite <- E, <- IH. rewrite E. reflexivity.
Qed.

Lemma lists_ok_unlinked st st' Ls k A x B :
  lists_ok st Ls -> (k < MmWork.SEG_SIZE)%nat ->
  nth k Ls [] = A ++ x :: B -> B <> [] ->
  length (MmWork.roots st') = MmWork.SEG_SIZE ->
  MmWork.start_root st' = MmWork.start_root st ->
  nth k (MmWork.roots st') 0 = hd 0 (A ++ B) ->
  (forall j, j <> k -> nth j (MmWork.roots st') 0 = nth j (MmWork.roots st) 0) ->
  dllseg (MmWork.mem st') 0 (A ++ B) 0 ->
  (forall j y, j <> k -> In y (nth j Ls []) ->
     NEXT (MmWork.mem st') y = NEXT (MmWork.mem st) y
     /\ PREV (MmWork.mem st') y = PREV (MmWork.mem st) y) ->
  lists_ok st' (remove_nodes [x] Ls).
Proof.
  intros Hok Hk HL HB Hlen Hsr Hroot Hroots Hdll Hframe.
  pose proof (lo_intra _ _ Hok k) as Hsep. rewrite HL in Hsep.
  apply pairwise_sep_app in Hsep. destruct Hsep as (HsA & HsxB & HAxB).
  cbn [pairwise_sep] in HsxB. destruct HsxB as (HxB & HsB).
  rewrite Forall_forall in HxB.
  assert (HxA : ~ In x A).
  { intros Hin. apply (cell_sep_neq x x); [|reflexivity].
    apply HAxB; [assumption|now left]. }
  assert (HxB' : ~ In x B).
  { intros Hin. apply (cell_sep_neq x x); [|reflexivity]. now apply HxB. }
  assert (Hkk : nth k (remove_nodes [x] Ls) [] = A ++ B).
  { rewrite nth_remove_nodes, HL. now apply filter_remove_one. }
  assert (Hjj : forall j, j <> k -> nth j (remove_nodes [x] Ls) [] = nth j Ls []).
  { intros j Hj. rewrite nth_remove_nodes. apply filter_remove_absent.
    intros Hin. apply (cell_sep_neq x x); [|reflexivity].
    apply (lo_inter _ _ Hok j k); auto. rewrite HL. apply in_elt. }
  constructor.
  - exact Hlen.
  - intros j Hj. destruct (Nat.eq_dec j k) as [->|Hne].
    + rewrite Hkk. destruct (lo_class _ _ Hok k Hk) as (_ & _ & _ & Hlast).
      repeat split; auto.
      * destruct B; [congruence|]. destruct A; discriminate.
      * rewrite Hsr, <- Hlast, HL. destruct B as [|b B]; [congruence|].
        now rewrite !last_app_cons.
    + rewrite (Hjj j Hne), (Hroots j Hne), Hsr.
      destruct (lo_class _ _ Hok j Hj) as (H1 & H2 & H3 & H4).
      repeat split; auto.
      eapply dllseg_frame; [|exact H3]. intros y Hy. now apply (Hframe j).
  - intros j y Hy. apply In_remove_nodes in Hy. now apply (lo_range _ _ Hok j).
  - intros j. rewrite nth_remove_nodes. apply pairwise_sep_filter, (lo_intra _ _ Hok).
  - intros i j a b Hij Ha Hb. apply In_remove_nodes in Ha, Hb.
    now apply (lo_inter _ _ Hok i j).
Qed.

Lemma exists_last_Z (A : list Z) : A = [] \/ exists A' z, A = A' ++ [z].
Proof.
  destruct A as [|a A]; [now left|right].
  destruct (@exists_last _ (a :: A)) as (A' & z & E); [discriminate|eauto].
Qed.

Lemma unlink_ok st Ls x :
  lists_ok st Ls ->
  In x (nth (MmWork.get_segid (GET_SIZE (MmWork.mem st) (HDRP x))) Ls []) ->
  x <> MmWork.start_root st
       + 16 * Z.of_nat (MmWork.get_segid (GET_SIZE (MmWork.mem st) (HDRP x))) ->
  lists_ok (MmWork.mm_unlink st x) (remove_nodes [x] Ls)
  /\ MmWork.start_root (MmWork.mm_unlink st x) = MmWork.start_root st
  /\ (forall t, tag_clear Ls t ->
        GET (MmWork.mem (MmWork.mm_unlink st x)) t = GET (MmWork.mem st) t).
Proof.
  intros Hok Hin Hns.
  unfold MmWork.mm_unlink. cbv zeta.
  set (k := MmWork.get_segid (GET_SIZE (MmWork.mem st) (HDRP x))) in *.
  set (m := MmWork.mem st) in *.
  assert (Hk : (k < MmWork.SEG_SIZE)%nat) by apply get_segid_bound.
  destruct (lo_class _ _ Hok k Hk) as (Hne & Hroot & Hdll & Hlast).
  destruct (in_split _ _ Hin) as (A & B & HL).
  destruct B as [|b0 B'].
  { rewrite HL, last_last in Hlast. congruence. }
  pose proof (lo_intra _ _ Hok k) as Hsep. rewrite HL in Hsep.
  apply pairwise_sep_app in Hsep. destruct Hsep as (HsA & HsxB & HAxB).
  cbn [pairwise_sep] in HsxB. destruct HsxB as (HxB & HsB & HsB').
  rewrite Forall_forall in HxB, HsB.
  rewrite HL in Hdll. apply dllseg_app in Hdll.
  cbn [hd dllseg] in Hdll. destruct Hdll as (HdA & Hpx & Hnx & Hpb & Hnb & HdB).
  assert (Hb0 : 0 < b0 < 2 ^ 64).
  { apply (lo_range _ _ Hok k). rewrite HL. apply in_or_app. right. right. now left. }
  assert (Hxb0 : cell_sep x b0) by (apply HxB; now left).
  assert (HinL : forall y, In y A \/ In y (b0 :: B') -> In y (nth k Ls [])).
  { intros y Hy. rewrite HL. apply in_or_app. destruct Hy; [now left|right; now right]. }
  fold m in Hpx, Hnx, Hpb, Hnb, HdB, HdA.
  destruct (exists_last_Z A) as [->|(A' & z & ->)].
  - (* [x] heads its list *)
    cbn [last] in Hpx. rewrite Hpx, Hnx. cbn [Z.eqb negb].
    unfold MmWork.get_root.
    destruct (Z.eqb_spec b0 0); [lia|].
    cbn [fst MmWork.mem MmWork.set_roots MmWork.set_mem MmWork.start_root].
    fold m. rewrite Hnx, Hpx.
    destruct (Z.eqb_spec b0 0); [lia|]. cbn [negb].
    cbn [fst MmWork.mem MmWork.set_roots MmWork.set_mem MmWork.start_root].
    split; [|split; [reflexivity|]].
    + eapply (lists_ok_unlinked st _ Ls k [] x (b0 :: B')); eauto; try discriminate.
      * simpl_st. rewrite update_length. apply (lo_roots _ _ Hok).
      * simpl_st. apply nth_update_same. rewrite (lo_roots _ _ Hok). exact Hk.
      * intros j Hj. simpl_st. apply nth_update_other. congruence.
      * simpl_st. cbn [app dllseg]. repeat split.
        -- apply PREV_set_PREV_same. lia.
        -- rewrite NEXT_set_PREV by now left. exact Hnb.
        -- eapply dllseg_frame; [|exact HdB]. intros y Hy.
           rewrite NEXT_set_PREV, PREV_set_PREV_other by auto. auto.
      * intros j y Hj Hy. simpl_st.
        assert (cell_sep b0 y).
        { apply (lo_inter _ _ Hok k j); auto. apply HinL. right. now left. }
        rewrite NEXT_set_PREV, PREV_set_PREV_other by auto. auto.
    + intros t Ht. simpl_st. apply GET_set_PREV. apply (Ht k), HinL. right. now left.
  - (* [x] has the predecessor [z] *)
    rewrite last_last in Hpx.
    assert (Hz : 0 < z < 2 ^ 64).
    { apply (lo_range _ _ Hok k), HinL. left. apply in_or_app. right. now left. }
    assert (Hzx : cell_sep z x).
    { apply HAxB; [apply in_or_app; right; now left|now left]. }
    assert (Hzb : cell_sep z b0).
    { apply HAxB; [apply in_or_app; right; now left|right; now left]. }
    rewrite Hpx, Hnx.
    destruct (Z.eqb_spec z 0); [lia|]. cbn [negb].
    cbn [fst MmWork.mem MmWork.set_roots MmWork.set_mem MmWork.start_root].
    rewrite NEXT_set_NEXT_other, PREV_set_NEXT by auto. fold m.
    rewrite Hpx, Hnx.
    destruct (Z.eqb_spec b0 0); [lia|]. cbn [negb].
    split; [|split; [reflexivity|]].
    + eapply (lists_ok_unlinked st _ Ls k (A' ++ [z]) x (b0 :: B')); eauto;
        try discriminate.
      * simpl_st. apply (lo_roots _ _ Hok).
      * simpl_st. rewrite Hroot, HL.
        rewrite <- !app_assoc. now rewrite !hd_app.
      * apply pairwise_sep_app in HsA. destruct HsA as (HsA' & _ & HA'z).
        apply dllseg_app in HdA. cbn [dllseg hd] in HdA.
        destruct HdA as (HdA' & Hpz & Hnz & _).
        simpl_st.
        apply dllseg_app. cbn [hd]. split.
        -- apply dllseg_app. cbn [dllseg hd]. repeat split.
           ++ eapply dllseg_frame; [|exact HdA']. intros y Hy.
              assert (cell_sep z y) by (apply cell_sep_sym, HA'z; [assumption|now left]).
              assert (cell_sep b0 y).
              { apply cell_sep_sym, HAxB; [apply in_or_app; now left|right; now left]. }
              rewrite NEXT_set_PREV, PREV_set_PREV_other by auto.
              rewrite NEXT_set_NEXT_other, PREV_set_NEXT by auto. auto.
           ++ rewrite PREV_set_PREV_other by now apply cell_sep_sym.
              rewrite PREV_set_NEXT by now left. exact Hpz.
           ++ rewrite NEXT_set_PREV by (right; now apply cell_sep_sym).
              apply NEXT_set_NEXT_same. lia.
        -- rewrite last_last. cbn [dllseg]. repeat split.
           ++ apply PREV_set_PREV_same. lia.
           ++ rewrite NEXT_set_PREV by now left.
              rewrite NEXT_set_NEXT_other by assumption. exact Hnb.
           ++ eapply dllseg_frame; [|exact HdB]. intros y Hy.
              assert (cell_sep z y).
              { apply HAxB; [apply in_or_app; right; now left|right; now right]. }
              assert (cell_sep b0 y) by now apply HsB.
              rewrite NEXT_set_PREV, PREV_set_PREV_other by auto.
              rewrite NEXT_set_NEXT_other, PREV_set_NEXT by auto. auto.
      * intros j y Hj Hy. simpl_st.
        assert (cell_sep b0 y).
        { apply (lo_inter _ _ Hok k j); auto. apply HinL. right. now left. }
        assert (cell_sep z y).
        { apply (lo_inter _ _ Hok k j); auto. apply HinL. left.
          apply in_or_app. right. now left. }
        rewrite NEXT_set_PREV, PREV_set_PREV_other by auto.
        rewrite NEXT_set_NEXT_other, PREV_set_NEXT by auto. auto.
    + intros t Ht. simpl_st. rewrite GET_set_PREV, GET_set_NEXT; auto.
      * apply (Ht k), HinL. left. apply in_or_app. right. now left.
      * apply (Ht k), HinL. right. now left.
Qed.

(** ** Pushing a node, writing a tag *)

Lemma lists_ok_frame st st' Ls :
  lists_ok st Ls ->
  MmWork.roots st' = MmWork.roots st ->
  MmWork.start_root st' = MmWork.start_root st ->
  (forall k y, In y (nth k Ls []) ->
     NEXT (MmWork.mem st') y = NEXT (MmWork.mem st) y
     /\ PREV (MmWork.mem st') y = PREV (MmWork.mem st) y) ->
  lists_ok st' Ls.
Proof.
  intros Hok Hr Hs Hf. constructor.
  - rewrite Hr. apply (lo_roots _ _ Hok).
  - intros k Hk. rewrite Hr, Hs.
    destruct (lo_class _ _ Hok k Hk) as (H1 & H2 & H3 & H4).
    repeat split; auto. eapply dllseg_frame; [|exact H3]. intros y Hy. now apply (Hf k).
  - apply (lo_range _ _ Hok).
  - apply (lo_intra _ _ Hok).
  - apply (lo_inter _ _ Hok).
Qed.

Lemma put_ok st Ls m0 t v :
  lists_ok (MmWork.set_mem st m0) Ls -> tag_clear Ls t ->
  lists_ok (MmWork.set_mem st (PUT m0 t v)) Ls.
Proof.
  intros Hok Ht. apply (lists_ok_frame (MmWork.set_mem st m0)); auto.
  intros k y Hy. simpl_st. rewrite NEXT_PUT, PREV_PUT by apply (Ht k y Hy). auto.
Qed.

Lemma set_mem_same_ok st Ls :
  lists_ok st Ls -> lists_ok (MmWork.set_mem st (MmWork.mem st)) Ls.
Proof. intros Hok. apply (lists_ok_frame st); auto. Qed.

Lemma nth_push_class_same (c : nat) (h : Z) (Ls : list (list Z)) :
  (c < length Ls)%nat -> nth c (push_class c h Ls) [] = h :: nth c Ls [].
Proof.
  revert c; induction Ls as [|L t IH]; intros [|c] H; cbn in *; try lia; auto.
  apply IH. lia.
Qed.

Lemma nth_push_class_other (c j : nat) (h : Z) (Ls : list (list Z)) :
  j <> c -> nth j (push_class c h Ls) [] = nth j Ls [].
Proof.
  revert c j; induction Ls as [|L t IH]; intros [|c] [|j] H; cbn; try lia; auto.
Qed.

Lemma lists_ok_length st Ls k :
  lists_ok st Ls -> (k < MmWork.SEG_SIZE)%nat -> (k < length Ls)%nat.
Proof.
  intros Hok Hk. destruct (lo_class _ _ Hok k Hk) as (Hne & _).
  destruct (lt_dec k (length Ls)); [assumption|].
  rewrite nth_overflow in Hne by lia. congruence.
Qed.

Lemma push_ok st Ls c h :
  lists_ok st Ls -> (c < MmWork.SEG_SIZE)%nat -> 0 < h < 2 ^ 64 ->
  (forall k y, In y (nth k Ls []) -> cell_sep h y) ->
  lists_ok (MmWork.push_root st c h) (push_class c h Ls)
  /\ (forall t, clear_of t h -> tag_clear Ls t ->
        GET (MmWork.mem (MmWork.push_root st c h)) t = GET (MmWork.mem st) t).
Proof.
  intros Hok Hc Hh Hsep.
  pose proof (lists_ok_length _ _ _ Hok Hc) as Hlen.
  destruct (lo_class _ _ Hok c Hc) as (Hne & Hroot & Hdll & Hlast).
  destruct (nth c Ls []) as [|r T] eqn:HL; [congruence|]. cbn [hd] in Hroot.
  assert (HinL : forall y, In y (r :: T) -> In y (nth c Ls [])) by (now rewrite HL).
  assert (Hr : 0 < r < 2 ^ 64) by (apply (lo_range _ _ Hok c), HinL; now left).
  assert (Hhr : cell_sep h r) by (apply (Hsep c), HinL; now left).
  pose proof (lo_intra _ _ Hok c) as HsL. rewrite HL in HsL.
  cbn [pairwise_sep] in HsL. destruct HsL as (HrT & HsT). rewrite Forall_forall in HrT.
  cbn [dllseg] in Hdll. destruct Hdll as (Hpr & Hnr & HdT).
  unfold MmWork.push_root, MmWork.get_root. cbn [Z.eqb]. simpl_st.
  rewrite Hroot. destruct (Z.eqb_spec h 0); [lia|]. simpl_st.
  set (m := MmWork.mem st) in *.
  set (m3 := set_PREV (set_PREV (set_NEXT m h r) h 0) r h).
  assert (Hfr : forall y, cell_sep h y -> cell_sep r y ->
                          NEXT m3 y = NEXT m y /\ PREV m3 y = PREV m y).
  { intros y H1 H2. unfold m3.
    rewrite !NEXT_set_PREV, !PREV_set_PREV_other by auto.
    rewrite NEXT_set_NEXT_other, PREV_set_NEXT by auto. auto. }
  split.
  - constructor.
    + simpl_st. rewrite update_length. apply (lo_roots _ _ Hok).
    + intros k Hk. simpl_st. destruct (Nat.eq_dec k c) as [->|Hkc].
      * rewrite nth_push_class_same, HL by assumption.
        rewrite nth_update_same by (rewrite (lo_roots _ _ Hok); exact Hc).
        split; [discriminate|]. split; [reflexivity|]. split.
        -- cbn [dllseg hd]. unfold m3. repeat split.
           ++ rewrite PREV_set_PREV_other by now apply cell_sep_sym.
              apply PREV_set_PREV_same. lia.
           ++ rewrite !NEXT_set_PREV by (auto using cell_sep_sym).
              apply NEXT_set_NEXT_same. lia.
           ++ apply PREV_set_PREV_same. lia.
           ++ rewrite !NEXT_set_PREV by auto.
              rewrite NEXT_set_NEXT_other by assumption. exact Hnr.
           ++ eapply dllseg_frame; [|exact HdT]. intros y Hy.
              apply Hfr; [apply (Hsep c), HinL; now right|now apply HrT].
        -- rewrite last_cons_default, <- Hlast.
           now rewrite !(last_cons_default T).
      * rewrite nth_push_class_other, nth_update_other by congruence.
        destruct (lo_class _ _ Hok k Hk) as (H1 & H2 & H3 & H4).
        repeat split; auto.
        eapply dllseg_frame; [|exact H3]. intros y Hy.
        apply Hfr; [now apply (Hsep k)|].
        apply (lo_inter _ _ Hok c k); auto. apply HinL. now left.
    + intros k y. destruct (Nat.eq_dec k c) as [->|Hkc].
      * rewrite nth_push_class_same by assumption.
        intros [<-|Hy]; [lia|]. now apply (lo_range _ _ Hok c).
      * rewrite nth_push_class_other by assumption. apply (lo_range _ _ Hok).
    + intros k. destruct (Nat.eq_dec k c) as [->|Hkc].
      * rewrite nth_push_class_same by assumption. cbn [pairwise_sep].
        split; [|apply (lo_intra _ _ Hok)].
        apply Forall_forall. intros y Hy. now apply (Hsep c).
      * rewrite nth_push_class_other by assumption. apply (lo_intra _ _ Hok).
    + intros i j a b Hij.
      destruct (Nat.eq_dec i c) as [->|Hic], (Nat.eq_dec j c) as [->|Hjc];
        try congruence.
      * rewrite nth_push_class_same, nth_push_class_other by auto.
        intros [<-|Ha] Hb; [now apply (Hsep j)|]. now apply (lo_inter _ _ Hok c j).
      * rewrite nth_push_class_same, nth_push_class_other by auto.
        intros Ha [<-|Hb]; [apply cell_sep_sym; now apply (Hsep i)|].
        now apply (lo_inter _ _ Hok i c).
      * rewrite !nth_push_class_other by auto. now apply (lo_inter _ _ Hok i j).
  - intros t Hth Ht. simpl_st. fold m3. unfold m3.
    rewrite !GET_set_PREV, GET_set_NEXT; auto.
    apply (Ht c), HinL. now left.
Qed.

Lemma push_root_start_root st c h :
  MmWork.start_root (MmWork.push_root st c h) = MmWork.start_root st.
Proof.
  unfold MmWork.push_root, MmWork.get_root.
  destruct (h =? 0); reflexivity.
Qed.

Lemma mem_in_app y xs ys : mem_in y (xs ++ ys) = mem_in y xs || mem_in y ys.
Proof. unfold mem_in. apply existsb_app. Qed.

Lemma remove_nodes_app xs ys Ls :
  remove_nodes ys (remove_nodes xs Ls) = remove_nodes (xs ++ ys) Ls.
Proof.
  unfold remove_nodes. rewrite map_map. apply map_ext. intros L.
  induction L as [|y t IH]; [reflexivity|]. cbn [filter].
  rewrite mem_in_app, negb_orb.
  destruct (mem_in y xs); cbn [negb andb filter]; [exact IH|].
  destruct (mem_in y ys); cbn [negb]; [exact IH|now f_equal].
Qed.

Lemma remove_nodes_nil Ls : remove_nodes [] Ls = Ls.
Proof.
  unfold remove_nodes. rewrite <- (map_id Ls) at 2. apply map_ext.
  intros L. apply filter_all. reflexivity.
Qed.

(** ** [coalesce] of [mm_work.c] *)

Lemma In_nth_concat (Ls : list (list Z)) (k : nat) (y : Z) :
  In y (nth k Ls []) -> In y (concat Ls).
Proof.
  intros H. destruct (lt_dec k (length Ls)) as [Hlt|Hge].
  - apply in_concat. exists (nth k Ls []). split; [now apply nth_In|assumption].
  - rewrite nth_overflow in H by lia. destruct H.
Qed.

Lemma free_tags_okb_facts m b :
  free_tags_okb m b = true ->
  GET m (b - 4) mod 8 = 0 /\ 24 <= GET m (b - 4)
  /\ GET m (b + GET m (b - 4) - 8) = GET m (b - 4).
Proof.
  unfold free_tags_okb, HDRP, WSIZE, DSIZE.
  rewrite !andb_true_iff, !Z.eqb_eq, Z.leb_le. tauto.
Qed.

(** The precondition, spelled out over the three tag words [hw] (header
    of [bp]), [pw] (footer of the block before) and [nw] (header of the
    block after). *)
Lemma coalesce_ready_facts st bp Ls :
  coalesce_ready st bp Ls = true ->
  let m := MmWork.mem st in
  let hw := GET m (bp - 4) in
  let pw := GET m (bp - 8) in
  let nw := GET m (bp + hw - 4) in
  let lo := if pw mod 2 =? 0 then bp - pw - 4 else bp - 8 in
  let hi := if nw mod 2 =? 0 then bp + hw + nw - 4 else bp + hw in
  lists_ok st Ls
  /\ (hw mod 8 = 0 /\ 24 <= hw /\ GET m (bp + hw - 8) = hw)
  /\ (8 <= 8 * (pw / 8) /\ GET m (bp - 8 * (pw / 8) - 4) = pw)
  /\ (pw mod 2 = 0 ->
      pw mod 8 = 0 /\ 24 <= pw /\ In (bp - pw) (nth (MmWork.get_segid pw) Ls []))
  /\ (nw mod 2 = 0 ->
      nw mod 8 = 0 /\ 24 <= nw /\ GET m (bp + hw + nw - 8) = nw
      /\ In (bp + hw) (nth (MmWork.get_segid nw) Ls []))
  /\ hw + (if pw mod 2 =? 0 then pw else 0) + (if nw mod 2 =? 0 then nw else 0) < 2 ^ 32
  /\ 0 <= MmWork.start_root st
  /\ MmWork.start_root st + 128 <= lo
  /\ hi < 2 ^ 64
  /\ (forall k y, In y (nth k Ls []) ->
        (pw mod 2 = 0 /\ y = bp - pw) \/ (nw mod 2 = 0 /\ y = bp + hw)
        \/ y + 16 <= lo \/ hi <= y).
Proof.
  unfold coalesce_ready. cbv zeta. set (m := MmWork.mem st).
  rewrite !andb_true_iff.
  intros ((((((((((Hok & Hbp) & Hps) & Hph) & Hprev) & Hnext) & Hsz) & Hsr) & Hlo) & Hhi) & Hfar).
  apply lists_okb_sound in Hok.
  apply free_tags_okb_facts in Hbp. destruct Hbp as (Hh8 & Hh24 & Hhf).
  apply Z.leb_le in Hps, Hsr, Hlo. apply Z.eqb_eq in Hph. apply Z.ltb_lt in Hsz, Hhi.
  rewrite forallb_forall in Hfar.
  unfold merged_size, merged_away, span_lo, span_hi, prev_free, next_free in *.
  unfold PREV_BLKP, NEXT_BLKP, HDRP, WSIZE, DSIZE, MmWork.SEG_SIZE in *.
  rewrite !GET_SIZE_eq, ?GET_ALLOC_eq in *.
  set (hw := GET m (bp - 4)) in *.
  set (pw := GET m (bp - 8)) in *.
  replace (8 * (hw / 8)) with hw in * by lia.
  set (nw := GET m (bp + hw - 4)) in *.
  assert (Hprev' : pw mod 2 = 0 ->
    pw mod 8 = 0 /\ 24 <= pw /\ In (bp - pw) (nth (MmWork.get_segid pw) Ls [])).
  { intros E. rewrite E in Hprev. cbn [Z.eqb] in Hprev.
    apply andb_true_iff in Hprev. destruct Hprev as [Ht Hin].
    apply free_tags_okb_facts in Ht. apply mem_in_iff in Hin.
    replace (bp - 8 * (pw / 8) - 4) with (bp - 8 * (pw / 8) - 4) in Ht by lia.
    rewrite Hph in *. destruct Ht as (H8 & H24 & _).
    replace (8 * (pw / 8)) with pw in Hin by lia. auto. }
  assert (Hnext' : nw mod 2 = 0 ->
    nw mod 8 = 0 /\ 24 <= nw /\ GET m (bp + hw + nw - 8) = nw
    /\ In (bp + hw) (nth (MmWork.get_segid nw) Ls [])).
  { intros E. rewrite E in Hnext. cbn [Z.eqb] in Hnext.
    apply andb_true_iff in Hnext. destruct Hnext as [Ht Hin].
    apply free_tags_okb_facts in Ht. apply mem_in_iff in Hin.
    fold nw in Ht. destruct Ht as (H8 & H24 & Hf).
    replace (8 * (nw / 8)) with nw in Hin by lia. auto. }
  split; [exact Hok|]. split; [auto|]. split; [auto|].
  split; [exact Hprev'|]. split; [exact Hnext'|].
  split; [|split; [exact Hsr|split; [|split]]].
  - destruct (Z.eqb_spec (pw mod 2) 0) as [E|E], (Z.eqb_spec (nw mod 2) 0) as [E'|E'];
      try (destruct (Hprev' E) as (? & ? & ?)); try (destruct (Hnext' E') as (? & ? & ? & ?));
      lia.
  - destruct (Z.eqb_spec (pw mod 2) 0) as [E|E];
      try (destruct (Hprev' E) as (? & ? & ?)); lia.
  - destruct (Z.eqb_spec (nw mod 2) 0) as [E'|E'];
      try (destruct (Hnext' E') as (? & ? & ? & ?)); lia.
  - intros k y Hy. specialize (Hfar y (In_nth_concat _ _ _ Hy)).
    rewrite !orb_true_iff, !Z.leb_le in Hfar.
    destruct Hfar as [[Hin|Hl]|Hr].
    + apply mem_in_iff in Hin. apply in_app_or in Hin. destruct Hin as [Hin|Hin].
      * left. destruct (Z.eqb_spec (pw mod 2) 0) as [E|E]; [|destruct Hin].
        destruct (Hprev' E) as (? & ? & ?).
        destruct Hin as [<-|[]]. split; [assumption|lia].
      * right. left. destruct (Z.eqb_spec (nw mod 2) 0) as [E|E]; [|destruct Hin].
        destruct Hin as [<-|[]]. split; [assumption|lia].
    + right. right. left.
      destruct (Z.eqb_spec (pw mod 2) 0) as [E|E];
        try (destruct (Hprev' E) as (? & ? & ?)); lia.
    + right. right. right.
      destruct (Z.eqb_spec (nw mod 2) 0) as [E'|E'];
        try (destruct (Hnext' E') as (? & ? & ? & ?)); lia.
Qed.

Lemma tag_clear_remove xs Ls t : tag_clear Ls t -> tag_clear (remove_nodes xs Ls) t.
Proof.
  intros H k y Hy. apply In_remove_nodes in Hy. now apply (H k).
Qed.

(** The last step of [coalesce]: push the merged block, whose tags are
    already in place. *)
Lemma coalesce_finish st Ls h S :
  lists_ok st Ls -> 0 < h < 2 ^ 64 -> 24 <= S < 2 ^ 32 -> S mod 8 = 0 ->
  GET (MmWork.mem st) (h - 4) = S ->
  GET (MmWork.mem st) (h + S - 8) = S ->
  (forall k y, In y (nth k Ls []) -> y + 16 <= h - 4 \/ h + S - 4 <= y) ->
  let st' := MmWork.push_root st (MmWork.get_segid S) h in
  GET (MmWork.mem st') (HDRP h) = PACK S 0
  /\ GET (MmWork.mem st') (FTRP (MmWork.mem st') h) = PACK S 0
  /\ nth (MmWork.get_segid S) (MmWork.roots st') 0 = h
  /\ lists_ok st' (push_class (MmWork.get_segid S) h Ls).
Proof.
  intros Hok Hh HS HS8 Hhd Hft Hfar st'.
  pose proof (get_segid_bound S) as Hc.
  destruct (push_ok st Ls (MmWork.get_segid S) h Hok Hc Hh) as [Hok' Hfr].
  { intros k y Hy. destruct (Hfar k y Hy); unfold cell_sep; lia. }
  fold st' in Hok', Hfr.
  assert (H1 : GET (MmWork.mem st') (h - 4) = S).
  { rewrite Hfr; [exact Hhd|unfold clear_of; lia|].
    intros k y Hy. destruct (Hfar k y Hy); unfold clear_of; lia. }
  assert (H2 : GET (MmWork.mem st') (h + S - 8) = S).
  { rewrite Hfr; [exact Hft|unfold clear_of; lia|].
    intros k y Hy. destruct (Hfar k y Hy); unfold clear_of; lia. }
  rewrite PACK_0. unfold FTRP, HDRP, WSIZE, DSIZE. rewrite GET_SIZE_eq, H1.
  replace (h + 8 * (S / 8) - 8) with (h + S - 8) by lia.
  split; [reflexivity|]. split; [exact H2|]. split; [|exact Hok'].
  destruct (lo_class _ _ Hok' _ Hc) as (_ & Hroot & _).
  rewrite Hroot, nth_push_class_same; [reflexivity|].
  eapply lists_ok_length; eauto.
Qed.

(** C1: [coalesce] on a free block [bp] that is in no list and whose
    free neighbours are in the lists of their classes returns [bp] when
    the block before it is allocated and that block when it is free;
    header and footer of the returned block hold the sum of the sizes
    of the merged blocks with the allocation bit clear; the absorbed
    neighbours have left their lists and the returned block is the
    head of the list of the class of the merged size. *)
Theorem coalesce_merges_and_pushes (st : MmWork.state) (bp : Z) (Ls : list (list Z)) :
  coalesce_ready st bp Ls = true ->
  let m := MmWork.mem st in
  let st' := fst (MmWork.coalesce st bp) in
  let h := merged_head m bp in
  let S := merged_size m bp in
  snd (MmWork.coalesce st bp) = h
  /\ GET (MmWork.mem st') (HDRP h) = PACK S 0
  /\ GET (MmWork.mem st') (FTRP (MmWork.mem st') h) = PACK S 0
  /\ nth (MmWork.get_segid S) (MmWork.roots st') 0 = h
  /\ lists_ok st' (push_class (MmWork.get_segid S) h (remove_nodes (merged_away m bp) Ls)).
Proof.
  intros Hready. pose proof (coalesce_ready_facts _ _ _ Hready) as Hf.
  cbv zeta in Hf. cbv zeta.
  set (m := MmWork.mem st) in *.
  set (hw := GET m (bp - 4)) in *.
  set (pw := GET m (bp - 8)) in *.
  set (nw := GET m (bp + hw - 4)) in *.
  destruct Hf as (Hok & (Hh8 & Hh24 & Hhf) & (Hps & Hph) & Hprev & Hnext
                  & Hsz & Hsr & Hlo & Hhi & Hfar).
  pose proof (GET_range m (bp - 4)) as Hhr. fold hw in Hhr.
  pose proof (GET_range m (bp - 8)) as Hpr. fold pw in Hpr.
  pose proof (GET_range m (bp + hw - 4)) as Hnr. fold nw in Hnr.
  assert (E1 : GET_SIZE m (HDRP bp) = hw).
  { unfold HDRP, WSIZE. rewrite GET_SIZE_eq. fold hw. lia. }
  assert (E2 : PREV_BLKP m bp = bp - 8 * (pw / 8)).
  { unfold PREV_BLKP, DSIZE. rewrite GET_SIZE_eq. reflexivity. }
  assert (E3 : FTRP m (PREV_BLKP m bp) = bp - 8).
  { rewrite E2. unfold FTRP, HDRP, WSIZE, DSIZE. rewrite GET_SIZE_eq, Hph. lia. }
  assert (E4 : NEXT_BLKP m bp = bp + hw).
  { unfold NEXT_BLKP, WSIZE. rewrite GET_SIZE_eq. fold hw. lia. }
  assert (E5 : GET_ALLOC m (bp - 8) = pw mod 2) by apply GET_ALLOC_eq.
  assert (E6 : GET_ALLOC m (HDRP (bp + hw)) = nw mod 2).
  { unfold HDRP, WSIZE. apply GET_ALLOC_eq. }
  assert (E7 : GET_SIZE m (HDRP (bp + hw)) = 8 * (nw / 8)).
  { unfold HDRP, WSIZE. apply GET_SIZE_eq. }
  assert (E8 : GET_SIZE m (HDRP (bp - 8 * (pw / 8))) = 8 * (pw / 8)).
  { unfold HDRP, WSIZE. rewrite GET_SIZE_eq, Hph. reflexivity. }
  assert (Hsent : forall k, (k < MmWork.SEG_SIZE)%nat ->
            MmWork.start_root st + 16 * Z.of_nat k + 16 <= MmWork.start_root st + 128).
  { unfold MmWork.SEG_SIZE. intros k Hk. lia. }
  assert (Epf : prev_free m bp = (pw mod 2 =? 0)).
  { unfold prev_free, DSIZE. now rewrite E5. }
  assert (Enf : next_free m bp = (nw mod 2 =? 0)).
  { unfold next_free. now rewrite E4, E6. }
  unfold merged_head, merged_size, merged_away. rewrite Epf, Enf.
  unfold MmWork.coalesce. cbv zeta. fold m.
  rewrite ?E4, ?E3, ?E2, ?E1, ?E5, ?E6, ?E7, ?E8.
  destruct (Z.eqb_spec (pw mod 2) 0) as [Ep|Ep], (Z.eqb_spec (nw mod 2) 0) as [En|En];
    cbn [negb andb fst snd app] in *.
  - (* both neighbours free *)
    destruct (Hprev Ep) as (Hp8 & Hp24 & Hpin).
    destruct (Hnext En) as (Hn8 & Hn24 & Hnf & Hnin).
    replace (8 * (pw / 8)) with pw in * by lia.
    replace (8 * (nw / 8)) with nw in * by lia.
    assert (E9 : GET_SIZE m (FTRP m (bp + hw)) = nw).
    { unfold FTRP. rewrite E7. unfold DSIZE. rewrite GET_SIZE_eq, Hnf. lia. }
    rewrite E9.
    assert (Htc : forall t, t = bp - pw - 4 \/ bp - 8 <= t <= bp + hw - 4
                            \/ t = bp + hw + nw - 8 -> tag_clear Ls t).
    { intros t Ht k y Hy. unfold clear_of.
      destruct (Hfar k y Hy) as [[_ ->]|[[_ ->]|[?|?]]]; lia. }
    destruct (unlink_ok st Ls (bp - pw) Hok) as (Hok1 & Hsr1 & Hfr1).
    { fold m. rewrite E8. exact Hpin. }
    { fold m. rewrite E8. specialize (Hsent _ (get_segid_bound pw)). lia. }
    set (st1 := MmWork.mm_unlink st (bp - pw)) in *.
    assert (E10 : NEXT_BLKP (MmWork.mem st1) bp = bp + hw).
    { unfold NEXT_BLKP, WSIZE. rewrite GET_SIZE_eq, Hfr1 by (apply Htc; lia).
      fold m hw. lia. }
    rewrite E10.
    assert (E11 : GET_SIZE (MmWork.mem st1) (HDRP (bp + hw)) = nw).
    { unfold HDRP, WSIZE. rewrite GET_SIZE_eq, Hfr1 by (apply Htc; lia).
      fold m nw. lia. }
    destruct (unlink_ok st1 (remove_nodes [bp - pw] Ls) (bp + hw) Hok1)
      as (Hok2 & Hsr2 & Hfr2).
    { rewrite E11, nth_remove_nodes. apply filter_In. split; [exact Hnin|].
      apply negb_true_iff. destruct (mem_in (bp + hw) [bp - pw]) eqn:E; [|reflexivity].
      apply mem_in_iff in E. destruct E as [E|[]]. lia. }
    { rewrite E11, Hsr1. specialize (Hsent _ (get_segid_bound nw)). lia. }
    set (st2 := MmWork.mm_unlink st1 (bp + hw)) in *.
    rewrite remove_nodes_app in Hok2. cbn [app] in Hok2.
    assert (Hg2 : forall t, t = bp - pw - 4 \/ bp - 8 <= t <= bp + hw - 4
                            \/ t = bp + hw + nw - 8 ->
                            GET (MmWork.mem st2) t = GET m t).
    { intros t Ht. rewrite Hfr2 by (apply tag_clear_remove, Htc, Ht).
      apply Hfr1, Htc, Ht. }
    assert (E12 : PREV_BLKP (MmWork.mem st2) bp = bp - pw).
    { unfold PREV_BLKP, DSIZE. rewrite GET_SIZE_eq, Hg2 by lia. fold pw. lia. }
    rewrite E12.
    set (S := hw + (pw + nw)).
    set (m1 := PUT (MmWork.mem st2) (HDRP (bp - pw)) (PACK S 0)).
    assert (E13 : NEXT_BLKP m1 bp = bp + hw).
    { unfold NEXT_BLKP, WSIZE, m1, HDRP, WSIZE.
      rewrite GET_SIZE_eq, GET_PUT_other, Hg2 by lia. fold hw. lia. }
    assert (E14 : FTRP m1 (bp + hw) = bp + hw + nw - 8).
    { unfold FTRP, m1, HDRP, WSIZE, DSIZE.
      rewrite GET_SIZE_eq, GET_PUT_other, Hg2 by lia. fold nw. lia. }
    rewrite E13, E14.
    split; [reflexivity|].
    replace (hw + pw + nw) with S by (unfold S; lia).
    replace (bp + hw + nw - 8) with ((bp - pw) + S - 8) by (unfold S; lia).
    apply coalesce_finish.
    + apply put_ok; [apply put_ok; [apply set_mem_same_ok, Hok2|]|];
        apply tag_clear_remove, Htc; unfold HDRP, WSIZE, S; lia.
    + lia.
    + unfold S. lia.
    + unfold S. lia.
    + simpl_st. unfold m1, HDRP, WSIZE.
      rewrite GET_PUT_other by (unfold S; lia).
      rewrite GET_PUT_same, PACK_0. apply Z.mod_small. unfold S. lia.
    + simpl_st. rewrite GET_PUT_same, PACK_0. apply Z.mod_small. unfold S. lia.
    + intros k y Hy. apply In_remove_nodes in Hy. destruct Hy as [Hy Hny].
      destruct (Hfar k y Hy) as [[_ ->]|[[_ ->]|[?|?]]]; unfold S; try lia;
        exfalso; apply Hny; cbn; auto.
  - (* the block before is free, the block after is allocated *)
    destruct (Hprev Ep) as (Hp8 & Hp24 & Hpin).
    replace (8 * (pw / 8)) with pw in * by lia.
    assert (Htc : forall t, t = bp - pw - 4 \/ bp - 8 <= t <= bp + hw - 4 ->
                            tag_clear Ls t).
    { intros t Ht k y Hy. unfold clear_of.
      destruct (Hfar k y Hy) as [[_ ->]|[[? _]|[?|?]]]; lia. }
    destruct (unlink_ok st Ls (bp - pw) Hok) as (Hok1 & Hsr1 & Hfr1).
    { fold m. rewrite E8. exact Hpin. }
    { fold m. rewrite E8. specialize (Hsent _ (get_segid_bound pw)). lia. }
    set (st1 := MmWork.mm_unlink st (bp - pw)) in *.
    assert (E10 : FTRP (MmWork.mem st1) bp = bp + hw - 8).
    { unfold FTRP, HDRP, WSIZE, DSIZE. rewrite GET_SIZE_eq, Hfr1 by (apply Htc; lia).
      fold m hw. lia. }
    rewrite E10.
    set (S := hw + pw).
    set (m1 := PUT (MmWork.mem st1) (bp + hw - 8) (PACK S 0)).
    assert (E11 : PREV_BLKP m1 bp = bp - pw).
    { unfold PREV_BLKP, DSIZE, m1.
      rewrite GET_SIZE_eq, GET_PUT_other, Hfr1 by (try apply Htc; lia).
      fold m pw. lia. }
    rewrite E11.
    split; [reflexivity|].
    replace (S + 0) with S by lia.
    apply coalesce_finish.
    + apply put_ok; [apply put_ok; [apply set_mem_same_ok, Hok1|]|];
        apply tag_clear_remove, Htc; unfold HDRP, WSIZE; lia.
    + lia.
    + unfold S. lia.
    + unfold S. lia.
    + simpl_st. unfold HDRP, WSIZE.
      rewrite GET_PUT_same, PACK_0. apply Z.mod_small. unfold S. lia.
    + simpl_st. unfold m1, HDRP, WSIZE.
      rewrite GET_PUT_other by (unfold S; lia).
      replace (bp - pw + S - 8) with (bp + hw - 8) by (unfold S; lia).
      rewrite GET_PUT_same, PACK_0. apply Z.mod_small. unfold S. lia.
    + intros k y Hy. apply In_remove_nodes in Hy. destruct Hy as [Hy Hny].
      destruct (Hfar k y Hy) as [[_ ->]|[[? _]|[?|?]]]; unfold S; try lia;
        exfalso; apply Hny; cbn; auto.
  - (* the block before is allocated, the block after is free *)
    destruct (Hnext En) as (Hn8 & Hn24 & Hnf & Hnin).
    replace (8 * (nw / 8)) with nw in * by lia.
    assert (Htc : forall t, bp - 8 <= t <= bp + hw - 4 \/ t = bp + hw + nw - 8 ->
                            tag_clear Ls t).
    { intros t Ht k y Hy. unfold clear_of.
      destruct (Hfar k y Hy) as [[? _]|[[_ ->]|[?|?]]]; lia. }
    destruct (unlink_ok st Ls (bp + hw) Hok) as (Hok1 & Hsr1 & Hfr1).
    { fold m. rewrite E7. exact Hnin. }
    { fold m. rewrite E7. specialize (Hsent _ (get_segid_bound nw)). lia. }
    set (st1 := MmWork.mm_unlink st (bp + hw)) in *.
    set (S := hw + nw).
    set (m1 := PUT (MmWork.mem st1) (HDRP bp) (PACK S 0)).
    assert (E10 : FTRP m1 bp = bp + S - 8).
    { unfold FTRP, DSIZE, m1.
      rewrite GET_SIZE_eq, GET_PUT_same, PACK_0, Z.mod_small by (unfold S; lia).
      unfold S. lia. }
    rewrite E10.
    split; [reflexivity|].
    replace (hw + 0 + nw) with S by (unfold S; lia).
    apply coalesce_finish.
    + apply put_ok; [apply put_ok; [apply set_mem_same_ok, Hok1|]|];
        apply tag_clear_remove, Htc; unfold HDRP, WSIZE, S; lia.
    + lia.
    + unfold S. lia.
    + unfold S. lia.
    + simpl_st. unfold m1, HDRP, WSIZE.
      rewrite GET_PUT_other by (unfold S; lia).
      rewrite GET_PUT_same, PACK_0. apply Z.mod_small. unfold S. lia.
    + simpl_st. rewrite GET_PUT_same, PACK_0. apply Z.mod_small. unfold S. lia.
    + intros k y Hy. apply In_remove_nodes in Hy. destruct Hy as [Hy Hny].
      destruct (Hfar k y Hy) as [[? _]|[[_ ->]|[?|?]]]; unfold S; try lia;
        exfalso; apply Hny; cbn; auto.
  - (* both neighbours allocated *)
    split; [reflexivity|].
    rewrite remove_nodes_nil. replace (hw + 0 + 0) with hw by lia.
    apply coalesce_finish; auto; try lia.
    intros k y Hy. destruct (Hfar k y Hy) as [[? _]|[[? _]|[?|?]]]; lia.
Qed.

Lemma coalesce_merges_and_pushes_witness :
  let st := mm_work_heap6 in
  let m := MmWork.mem st in
  let st' := fst (MmWork.coalesce st 8336) in
  let h := merged_head m 8336 in
  let S := merged_size m 8336 in
  snd (MmWork.coalesce st 8336) = h
  /\ GET (MmWork.mem st') (HDRP h) = PACK S 0
  /\ GET (MmWork.mem st') (FTRP (MmWork.mem st') h) = PACK S 0
  /\ nth (MmWork.get_segid S) (MmWork.roots st') 0 = h
  /\ lists_ok st' (push_class (MmWork.get_segid S) h
                     (remove_nodes (merged_away m 8336) mm_work_lists6)).
Proof.
  apply (coalesce_merges_and_pushes mm_work_heap6 8336 mm_work_lists6).
  vm_compute. reflexivity.
Defined.

(** * [find_fit] under [BEST_FIT] *)


Lemma walk_nonzero (fuel : nat) (m : memory) : forall bp l,
  walk fuel m bp = Some l -> forall x, In x l -> x <> 0.
Proof.
  induction fuel as [|f IH]; intros bp l; cbn [walk];
    destruct (Z.eqb_spec bp 0) as [|Hne]; try discriminate;
    try (intros [= <-] x []).
  destruct (walk f m (NEXT m bp)) as [l'|] eqn:E; [|discriminate].
  intros [= <-] x [<-|Hx]; [exact Hne|]. eapply IH; eauto.
Qed.






(** A null-terminated list is walked to its end by a fuel equal to its
    length. *)
Lemma walk_dllseg (m : memory) (l : list Z) : forall p,
  dllseg m p l 0 -> (forall x, In x l -> x <> 0) ->
  walk (length l) m (hd 0 l) = Some l.
Proof.
  induction l as [|x t IH]; intros p Hd Hnz; [reflexivity|].
  cbn [length walk hd]. destruct (Z.eqb_spec x 0) as [E|_].
  - exfalso. apply (Hnz x); [now left|exact E].
  - cbn [dllseg] in Hd. destruct Hd as (_ & Hn & Ht).
    rewrite Hn, (IH x Ht); [reflexivity|]. intros y Hy. apply Hnz. now right.
Qed.


(** * [mm.c] and [mm_work.c]: further properties of the code *)

Tactic Notation "simpl_mm" :=
  cbn [Mm.mem Mm.root Mm.heap_listp Mm.mem_brk Mm.mem_max_addr
       Mm.set_mem Mm.set_root Mm.set_brk Mm.set_heap_listp fst snd].
Tactic Notation "simpl_mm" "in" hyp(H) :=
  cbn [Mm.mem Mm.root Mm.heap_listp Mm.mem_brk Mm.mem_max_addr
       Mm.set_mem Mm.set_root Mm.set_brk Mm.set_heap_listp fst snd] in H.

(** ** Macros *)

(** X1: a boundary tag written with [PUT p (PACK size alloc)] is read
    back by [GET_SIZE] and [GET_ALLOC], for a size below [2^32] that is
    a multiple of eight and an allocation bit 0 or 1; the words that do
    not overlap the tag keep their value. *)
Theorem tag_round_trip (m : memory) (p size alloc : Z) :
  0 <= size < 2 ^ 32 -> size mod 8 = 0 -> alloc = 0 \/ alloc = 1 ->
  GET_SIZE (PUT m p (PACK size alloc)) p = size
  /\ GET_ALLOC (PUT m p (PACK size alloc)) p = alloc
  /\ (forall q, q + 4 <= p \/ p + 4 <= q ->
        GET (PUT m p (PACK size alloc)) q = GET m q).
Proof.
  intros Hs H8 Ha.
  assert (Hp : PACK size alloc = size + alloc).
  { destruct Ha as [-> | ->]; [rewrite PACK_0; lia|apply PACK_1; lia]. }
  assert (Hg : GET (PUT m p (PACK size alloc)) p = size + alloc).
  { rewrite GET_PUT_same, Hp. apply Z.mod_small. lia. }
  split; [|split].
  - rewrite GET_SIZE_eq, Hg. lia.
  - rewrite GET_ALLOC_eq, Hg. lia.
  - intros q Hq. apply GET_PUT_other. lia.
Qed.

Lemma tag_round_trip_witness :
  GET_SIZE (PUT (fun _ => 0) 4156 (PACK 24 1)) 4156 = 24
  /\ GET_ALLOC (PUT (fun _ => 0) 4156 (PACK 24 1)) 4156 = 1
  /\ (forall q, q + 4 <= 4156 \/ 4156 + 4 <= q ->
        GET (PUT (fun _ => 0) 4156 (PACK 24 1)) q = GET (fun _ => 0) q).
Proof.
  apply (tag_round_trip (fun _ => 0) 4156 24 1); [lia|reflexivity|now right].
Defined.

(** X2: [ALIGN p] is a multiple of eight.  For [p] up to [2^64 - 8] it
    is the least multiple of eight that is at least [p], so an aligned
    [p] is left as it is; above that, the addition wraps around and the
    result is 0. *)
Theorem ALIGN_rounds_up (p : Z) :
  0 <= p < 2 ^ 64 ->
  ALIGN p mod 8 = 0
  /\ (p <= 2 ^ 64 - 8 -> p <= ALIGN p < p + 8 /\ (p mod 8 = 0 -> ALIGN p = p))
  /\ (2 ^ 64 - 8 < p -> ALIGN p = 0).
Proof.
  intros Hp. rewrite ALIGN_eq. split; [lia|]. split.
  - intros Hle. rewrite Z.mod_small by lia. lia.
  - intros Hgt. lia.
Qed.

Lemma ALIGN_rounds_up_witness :
  ALIGN 13 mod 8 = 0
  /\ (13 <= 2 ^ 64 - 8 -> 13 <= ALIGN 13 < 13 + 8 /\ (13 mod 8 = 0 -> ALIGN 13 = 13))
  /\ (2 ^ 64 - 8 < 13 -> ALIGN 13 = 0).
Proof. apply (ALIGN_rounds_up 13). lia. Defined.

(** ** The class table of [mm_work.c] *)

(** X16: [get_segid] is monotone in the size, and its result is
    always below [SEG_SIZE]. *)
Theorem get_segid_monotone (a b : Z) :
  a <= b ->
  (MmWork.get_segid a <= MmWork.get_segid b)%nat
  /\ (MmWork.get_segid b < MmWork.SEG_SIZE)%nat.
Proof.
  intros Hab. unfold MmWork.get_segid, MmWork.SEG_SIZE.
  repeat match goal with
         | |- context [if ?x <=? ?y then _ else _] => destruct (Z.leb_spec x y)
         end; lia.
Qed.

Lemma get_segid_monotone_witness :
  (MmWork.get_segid 40 <= MmWork.get_segid 600)%nat
  /\ (MmWork.get_segid 600 < MmWork.SEG_SIZE)%nat.
Proof. apply (get_segid_monotone 40 600). lia. Defined.

(** X17: [get_root] with a non-null [newroot] stores it in the slot
    [segid] and returns null; a read of that slot then returns the
    stored value, the other slots read as before, the memory is
    untouched, and a read changes nothing. *)
Theorem get_root_write_read (st : MmWork.state) (k : nat) (v : Z) :
  (k < length (MmWork.roots st))%nat -> v <> 0 ->
  let st' := fst (MmWork.get_root st k v) in
  snd (MmWork.get_root st k v) = 0
  /\ snd (MmWork.get_root st' k 0) = v
  /\ (forall j, j <> k -> snd (MmWork.get_root st' j 0) = snd (MmWork.get_root st j 0))
  /\ MmWork.mem st' = MmWork.mem st
  /\ fst (MmWork.get_root st k 0) = st.
Proof.
  intros Hk Hv. unfold MmWork.get_root. cbn [Z.eqb].
  destruct (Z.eqb_spec v 0); [contradiction|].
  cbn [fst snd MmWork.roots MmWork.set_roots MmWork.mem].
  split; [reflexivity|]. split; [now apply nth_update_same|].
  split; [|split; reflexivity].
  intros j Hj. apply nth_update_other. congruence.
Qed.

Lemma get_root_write_read_witness :
  let st := mm_work_boot 4096 (2 ^ 24) in
  let st' := fst (MmWork.get_root st 3 4144) in
  snd (MmWork.get_root st 3 4144) = 0
  /\ snd (MmWork.get_root st' 3 0) = 4144
  /\ (forall j, j <> 3%nat -> snd (MmWork.get_root st' j 0) = snd (MmWork.get_root st j 0))
  /\ MmWork.mem st' = MmWork.mem st
  /\ fst (MmWork.get_root st 3 0) = st.
Proof.
  apply (get_root_write_read (mm_work_boot 4096 (2 ^ 24)) 3 4144);
    [vm_compute; lia|lia].
Defined.

Lemma root_init_loop (n : nat) : forall (k : nat) (st : MmWork.state),
  0 < MmWork.start_root st ->
  (k + n <= length (MmWork.roots st))%nat ->
  let st' := fold_left
    (fun s i => fst (MmWork.get_root s i (MmWork.start_root s + Z.of_nat i * 2 * DSIZE)))
    (seq k n) st in
  length (MmWork.roots st') = length (MmWork.roots st)
  /\ (forall j, nth j (MmWork.roots st') 0
                = if (k <=? j)%nat && (j <? k + n)%nat
                  then MmWork.start_root st + 16 * Z.of_nat j
                  else nth j (MmWork.roots st) 0)
  /\ MmWork.mem st' = MmWork.mem st
  /\ MmWork.start_root st' = MmWork.start_root st
  /\ MmWork.heap_listp st' = MmWork.heap_listp st
  /\ MmWork.mem_brk st' = MmWork.mem_brk st
  /\ MmWork.mem_max_addr st' = MmWork.mem_max_addr st.
Proof.
  induction n as [|n IH]; intros k st Hs Hlen; cbn [seq fold_left].
  - repeat split. intros j.
    destruct (Nat.leb_spec k j), (Nat.ltb_spec j (k + 0)); cbn [andb]; try reflexivity; lia.
  - set (st1 := fst (MmWork.get_root st k (MmWork.start_root st + Z.of_nat k * 2 * DSIZE))).
    assert (H1 : MmWork.roots st1 = MmWork.update k (MmWork.start_root st + 16 * Z.of_nat k)
                                      (MmWork.roots st)
                 /\ MmWork.mem st1 = MmWork.mem st
                 /\ MmWork.start_root st1 = MmWork.start_root st
                 /\ MmWork.heap_listp st1 = MmWork.heap_listp st
                 /\ MmWork.mem_brk st1 = MmWork.mem_brk st
                 /\ MmWork.mem_max_addr st1 = MmWork.mem_max_addr st).
    { unfold st1, MmWork.get_root, DSIZE.
      destruct (Z.eqb_spec (MmWork.start_root st + Z.of_nat k * 2 * 8) 0); [lia|].
      cbn [fst MmWork.roots MmWork.set_roots MmWork.mem MmWork.start_root
           MmWork.heap_listp MmWork.mem_brk MmWork.mem_max_addr].
      repeat split. f_equal. lia. }
    destruct H1 as (Hr & Hm & Hsr & Hhl & Hb & Hmx).
    destruct (IH (S k) st1) as (Il & In & Im & Isr & Ihl & Ib & Imx).
    { rewrite Hsr. exact Hs. }
    { rewrite Hr, update_length. lia. }
    cbv zeta. rewrite Il, Im, Isr, Ihl, Ib, Imx, Hr, update_length, Hm, Hsr, Hhl, Hb, Hmx.
    repeat split. intros j. rewrite In, Hsr, Hr.
    destruct (Nat.eq_dec j k) as [->|Hjk].
    + rewrite nth_update_same by lia.
      destruct (Nat.leb_spec (S k) k), (Nat.leb_spec k k), (Nat.ltb_spec k (k + S n));
        cbn [andb]; try reflexivity; lia.
    + rewrite nth_update_other by congruence.
      destruct (Nat.leb_spec (S k) j), (Nat.leb_spec k j), (Nat.ltb_spec j (S k + n)),
        (Nat.ltb_spec j (k + S n)); cbn [andb]; try reflexivity; lia.
Qed.

(** [root_init] installs the root slots. *)
Lemma root_init_spec (st : MmWork.state) :
  length (MmWork.roots st) = MmWork.SEG_SIZE -> 0 < MmWork.start_root st ->
  MmWork.roots (MmWork.root_init st)
  = map (fun i => MmWork.start_root st + 16 * Z.of_nat i) (seq 0 MmWork.SEG_SIZE)
  /\ MmWork.mem (MmWork.root_init st) = MmWork.mem st
  /\ MmWork.start_root (MmWork.root_init st) = MmWork.start_root st
  /\ MmWork.heap_listp (MmWork.root_init st) = MmWork.heap_listp st
  /\ MmWork.mem_brk (MmWork.root_init st) = MmWork.mem_brk st.
Proof.
  intros Hlen Hs. unfold MmWork.root_init.
  pose proof (root_init_loop MmWork.SEG_SIZE 0 st Hs) as H.
  cbv zeta in H.
  destruct H as (Hl & Hn & Hm & Hsr & Hhl & Hb & _).
  { rewrite Hlen. apply Nat.le_refl. }
  split; [|auto].
  set (f := fun i : nat => MmWork.start_root st + 16 * Z.of_nat i).
  apply (nth_ext _ _ 0 (f 0%nat)).
  - rewrite Hl, Hlen, length_map, length_seq. reflexivity.
  - intros j Hj. rewrite Hl, Hlen in Hj. rewrite Hn.
    rewrite (map_nth f), seq_nth by exact Hj.
    destruct (Nat.leb_spec 0 j), (Nat.ltb_spec j (0 + MmWork.SEG_SIZE)); cbn [andb]; try lia.
    reflexivity.
Qed.

(** X18: [root_init] sets the root of each class [i] to the slot
    [start_root + 16 i], and leaves the memory and the other globals
    alone. *)
Theorem root_init_slots (st : MmWork.state) :
  length (MmWork.roots st) = MmWork.SEG_SIZE -> 0 < MmWork.start_root st ->
  MmWork.roots (MmWork.root_init st)
  = map (fun i => MmWork.start_root st + 16 * Z.of_nat i) (seq 0 MmWork.SEG_SIZE)
  /\ MmWork.mem (MmWork.root_init st) = MmWork.mem st
  /\ MmWork.start_root (MmWork.root_init st) = MmWork.start_root st
  /\ MmWork.heap_listp (MmWork.root_init st) = MmWork.heap_listp st
  /\ MmWork.mem_brk (MmWork.root_init st) = MmWork.mem_brk st.
Proof. exact (root_init_spec st). Qed.

Lemma root_init_slots_witness :
  let st := MmWork.set_start_root (mm_work_boot 4096 (2 ^ 24)) 4096 in
  MmWork.roots (MmWork.root_init st)
  = map (fun i => MmWork.start_root st + 16 * Z.of_nat i) (seq 0 MmWork.SEG_SIZE)
  /\ MmWork.mem (MmWork.root_init st) = MmWork.mem st
  /\ MmWork.start_root (MmWork.root_init st) = MmWork.start_root st
  /\ MmWork.heap_listp (MmWork.root_init st) = MmWork.heap_listp st
  /\ MmWork.mem_brk (MmWork.root_init st) = MmWork.mem_brk st.
Proof.
  apply (root_init_slots (MmWork.set_start_root (mm_work_boot 4096 (2 ^ 24)) 4096));
    vm_compute; reflexivity.
Defined.

(** ** First fit *)

Lemma first_fit_walk (fuel : nat) (m : memory) (asize : Z) : forall bp l,
  walk fuel m bp = Some l ->
  first_fit fuel m asize bp = Some (first_fitting m asize l).
Proof.
  induction fuel as [|f IH]; intros bp l; cbn [walk first_fit];
    destruct (bp =? 0); try discriminate; try (intros [= <-]; reflexivity).
  destruct (walk f m (NEXT m bp)) as [l'|] eqn:E; [|discriminate].
  intros [= <-]. unfold first_fitting. cbn [filter].
  destruct (asize <=? GET_SIZE m (HDRP bp)); [reflexivity|].
  apply IH. exact E.
Qed.

Lemma first_fitting_spec (m : memory) (asize : Z) (l : list Z) :
  (forall x, In x l -> x <> 0) ->
  let r := first_fitting m asize l in
  (r = 0 /\ forall x, In x l -> GET_SIZE m (HDRP x) < asize)
  \/ (r <> 0 /\ exists A B, l = A ++ r :: B
        /\ (forall x, In x A -> GET_SIZE m (HDRP x) < asize)
        /\ asize <= GET_SIZE m (HDRP r)).
Proof.
  unfold first_fitting.
  induction l as [|x t IH]; intros Hnz; cbn [filter hd].
  - left. split; [reflexivity|]. intros x [].
  - destruct (Z.leb_spec asize (GET_SIZE m (HDRP x))) as [Hfit|Hno]; cbn [hd].
    + right. split; [apply Hnz; now left|]. exists [], t. repeat split; auto.
      intros y [].
    + destruct IH as [[E Hall]|(Hr & A & B & HL & HA & Hfit)].
      * intros y Hy. apply Hnz. now right.
      * left. split; [exact E|]. intros y [<-|Hy]; auto.
      * right. split; [exact Hr|]. exists (x :: A), B. rewrite HL at 1.
        repeat split; auto. intros y [<-|Hy]; auto.
Qed.

Lemma mm_find_fit_first (fuel : nat) (st : Mm.state) (asize : Z) (l : list Z) :
  walk fuel (Mm.mem st) (Mm.root st) = Some l ->
  exists r,
    Mm.find_fit fuel st asize = Some r
    /\ ((r = 0 /\ forall x, In x l -> GET_SIZE (Mm.mem st) (HDRP x) < asize)
        \/ (r <> 0 /\ exists A B, l = A ++ r :: B
              /\ (forall x, In x A -> GET_SIZE (Mm.mem st) (HDRP x) < asize)
              /\ asize <= GET_SIZE (Mm.mem st) (HDRP r))).
Proof.
  intros Hw. exists (first_fitting (Mm.mem st) asize l). split.
  - unfold Mm.find_fit. now apply first_fit_walk.
  - apply first_fitting_spec. eapply walk_nonzero; eauto.
Qed.

Lemma first_fit_from_walks (fuel : nat) (st : MmWork.state) (asize : Z) :
  forall ids,
  walks_end fuel st ids = true ->
  MmWork.first_fit_from fuel st asize ids
  = Some (first_fitting (MmWork.mem st) asize (flat_map (class_nodes fuel st) ids)).
Proof.
  induction ids as [|id rest IH]; cbn [walks_end forallb]; [reflexivity|].
  rewrite andb_true_iff. intros [Hw Hrest].
  cbn [MmWork.first_fit_from flat_map]. unfold class_nodes at 1.
  destruct (walk fuel (MmWork.mem st) (snd (MmWork.get_root st id 0))) as [l|] eqn:E;
    [|discriminate].
  rewrite (first_fit_walk _ _ _ _ _ E).
  unfold first_fitting. rewrite filter_app.
  destruct (filter _ l) as [|y t] eqn:Ef; cbn [hd app].
  - cbn [Z.eqb negb]. apply IH, Hrest.
  - assert (Hy : In y l).
    { assert (Hin : In y (filter (fun x => asize <=? GET_SIZE (MmWork.mem st) (HDRP x)) l))
        by (rewrite Ef; now left).
      apply filter_In in Hin. tauto. }
    pose proof (walk_nonzero _ _ _ _ E y Hy) as Hne.
    destruct (Z.eqb_spec y 0); [contradiction|]. reflexivity.
Qed.

(** X19: [find_fit] of [mm_work.c] (first fit), with fuel to walk each
    list it visits to its end.  It returns the first node, in the order
    of the scan (the list of the class of [asize], then those of the
    classes above, each from its root), whose header size is at least
    [asize], and null when there is none. *)
Theorem mm_work_find_fit_first (fuel : nat) (st : MmWork.state) (asize : Z) :
  walks_end fuel st (MmWork.class_range (MmWork.get_segid asize)) = true ->
  exists r,
    MmWork.find_fit fuel st asize = Some r
    /\ ((r = 0 /\ forall x, In x (scanned fuel st asize) ->
                           GET_SIZE (MmWork.mem st) (HDRP x) < asize)
        \/ (r <> 0 /\ exists A B, scanned fuel st asize = A ++ r :: B
              /\ (forall x, In x A -> GET_SIZE (MmWork.mem st) (HDRP x) < asize)
              /\ asize <= GET_SIZE (MmWork.mem st) (HDRP r))).
Proof.
  intros Hw. exists (first_fitting (MmWork.mem st) asize (scanned fuel st asize)). split.
  - unfold MmWork.find_fit. now apply first_fit_from_walks.
  - apply first_fitting_spec.
    intros x Hx. unfold scanned in Hx. apply in_flat_map in Hx.
    destruct Hx as (id & _ & Hx). unfold class_nodes in Hx.
    destruct (walk fuel (MmWork.mem st) (snd (MmWork.get_root st id 0))) eqn:E;
      [|destruct Hx].
    eapply walk_nonzero; eauto.
Qed.

Lemma mm_work_find_fit_first_witness :
  exists r,
    MmWork.find_fit 4 mm_work_heap0 24 = Some r
    /\ ((r = 0 /\ forall x, In x (scanned 4 mm_work_heap0 24) ->
                           GET_SIZE (MmWork.mem mm_work_heap0) (HDRP x) < 24)
        \/ (r <> 0 /\ exists A B, scanned 4 mm_work_heap0 24 = A ++ r :: B
              /\ (forall x, In x A -> GET_SIZE (MmWork.mem mm_work_heap0) (HDRP x) < 24)
              /\ 24 <= GET_SIZE (MmWork.mem mm_work_heap0) (HDRP r))).
Proof.
  apply (mm_work_find_fit_first 4 mm_work_heap0 24). vm_compute. reflexivity.
Defined.

(** X20: when [place] of [mm_work.c] splits a block, the only root it
    can change is that of the class of [asize], the size of the
    allocated part: the root of every other class reads as before. *)
Theorem place_split_touches_one_root (st : MmWork.state) (bp asize : Z) (k : nat) :
  0 <= asize < 2 ^ 32 -> asize mod 8 = 0 ->
  QSIZE + OVERHEAD <= wrap (GET_SIZE (MmWork.mem st) (HDRP bp) - asize) ->
  k <> MmWork.get_segid asize ->
  nth k (MmWork.roots (MmWork.place st bp asize)) 0 = nth k (MmWork.roots st) 0.
Proof.
  intros Ha Ha8 Hsplit Hk. unfold MmWork.place. cbv zeta.
  destruct (Z.geb_spec (wrap (GET_SIZE (MmWork.mem st) (HDRP bp) - asize))
                       (QSIZE + OVERHEAD)); [|lia].
  destruct (tags_written (MmWork.mem st) bp asize 1 Ha Ha8 ltac:(lia)) as (_ & Hh & _).
  set (m1 := PUT (MmWork.mem st) (HDRP bp) (PACK asize 1)) in *.
  set (m2 := PUT m1 (FTRP m1 bp) (PACK asize 1)) in *.
  assert (Hsz : GET_SIZE m2 (HDRP bp) = asize) by (rewrite GET_SIZE_eq, Hh; lia).
  assert (Hu : nth k (MmWork.roots (MmWork.mm_unlink (MmWork.set_mem st m2) bp)) 0
               = nth k (MmWork.roots st) 0).
  { unfold MmWork.mm_unlink. cbv zeta. cbn [MmWork.mem MmWork.set_mem]. rewrite Hsz.
    unfold MmWork.get_root.
    repeat match goal with
           | |- context [if ?c then _ else _] => destruct c
           end; cbn [fst MmWork.roots MmWork.set_mem MmWork.set_roots];
      rewrite ?nth_update_other by congruence; reflexivity. }
  unfold MmWork.push_root, MmWork.get_root. cbn [Z.eqb].
  match goal with
  | |- context [if ?c then _ else _] => destruct c
  end; cbn [fst snd MmWork.roots MmWork.set_mem MmWork.set_roots];
    rewrite ?nth_update_other by congruence; exact Hu.
Qed.

Lemma place_split_touches_one_root_witness :
  nth 7 (MmWork.roots (MmWork.place mm_work_heap0 4240 24)) 0
  = nth 7 (MmWork.roots mm_work_heap0) 0.
Proof.
  apply (place_split_touches_one_root mm_work_heap0 4240 24 7);
    [lia|reflexivity|vm_compute; discriminate|vm_compute; discriminate].
Defined.

(** X21: [mm_unlink] of [mm_work.c] takes a listed block [x] out of the
    list of the class its header size selects: the lists stay well
    formed, now without [x]; [start_root] is as before, and so is every
    word that keeps clear of the link fields of the listed nodes. *)
Theorem mm_work_unlink_removes_node (st : MmWork.state) (Ls : list (list Z)) (x : Z) :
  lists_ok st Ls ->
  In x (nth (MmWork.get_segid (GET_SIZE (MmWork.mem st) (HDRP x))) Ls []) ->
  x <> MmWork.start_root st
       + 16 * Z.of_nat (MmWork.get_segid (GET_SIZE (MmWork.mem st) (HDRP x))) ->
  lists_ok (MmWork.mm_unlink st x) (remove_nodes [x] Ls)
  /\ MmWork.start_root (MmWork.mm_unlink st x) = MmWork.start_root st
  /\ (forall t, tag_clear Ls t ->
        GET (MmWork.mem (MmWork.mm_unlink st x)) t = GET (MmWork.mem st) t).
Proof. exact (unlink_ok st Ls x). Qed.

Lemma mm_work_unlink_removes_node_witness :
  let st := mm_work_heap6 in
  lists_ok (MmWork.mm_unlink st 4240) (remove_nodes [4240] mm_work_lists6)
  /\ MmWork.start_root (MmWork.mm_unlink st 4240) = MmWork.start_root st
  /\ (forall t, tag_clear mm_work_lists6 t ->
        GET (MmWork.mem (MmWork.mm_unlink st 4240)) t = GET (MmWork.mem st) t).
Proof.
  apply (mm_work_unlink_removes_node mm_work_heap6 mm_work_lists6 4240).
  - apply lists_okb_sound. vm_compute. reflexivity.
  - vm_compute. right. left. reflexivity.
  - vm_compute. discriminate.
Defined.

(** ** The free list of [mm.c] *)

Lemma set_NEXT_outside m x v a : a < x \/ x + 8 <= a -> set_NEXT m x v a = m a.
Proof. intros H. unfold set_NEXT, PUT_8. apply (store_outside 8). lia. Qed.

Lemma set_PREV_outside m x v a : a < x + 8 \/ x + 16 <= a -> set_PREV m x v a = m a.
Proof. intros H. unfold set_PREV, PUT_8, DSIZE. apply (store_outside 8). lia. Qed.

Lemma GET_frame m m' t : (forall a, t <= a < t + 4 -> m' a = m a) -> GET m' t = GET m t.
Proof. intros H. unfold GET. apply load_ext. intros a Ha. apply H. lia. Qed.

Lemma GET_8_frame m m' t : (forall a, t <= a < t + 8 -> m' a = m a) -> GET_8 m' t = GET_8 m t.
Proof. intros H. unfold GET_8. apply load_ext. intros a Ha. apply H. lia. Qed.

Lemma not_cells_cons y L a : ~ cells (y :: L) a -> (a < y \/ y + 16 <= a) /\ ~ cells L a.
Proof.
  intros H. split.
  - destruct (Z.lt_ge_cases a y); [now left|].
    destruct (Z.le_gt_cases (y + 16) a); [now right|].
    exfalso. apply H. exists y. split; [now left|lia].
  - intros (z & Hz & Hr). apply H. exists z. split; [now right|exact Hr].
Qed.

Lemma not_cells_in L a y : ~ cells L a -> In y L -> a < y \/ y + 16 <= a.
Proof.
  intros H Hy. destruct (Z.lt_ge_cases a y); [now left|].
  destruct (Z.le_gt_cases (y + 16) a); [now right|].
  exfalso. apply H. exists y. split; [assumption|lia].
Qed.

(** Unlinking a node other than the last *)
Lemma mm_unlink_list (st : Mm.state) (A : list Z) (x : Z) (B : list Z) :
  free_list_ok st (A ++ x :: B) -> B <> [] ->
  free_list_ok (Mm.mm_unlink st x) (A ++ B)
  /\ (forall a, ~ cells (A ++ B) a -> Mm.mem (Mm.mm_unlink st x) a = Mm.mem st a)
  /\ same_region st (Mm.mm_unlink st x).
Proof.
  intros Hok HB.
  destruct Hok as [Hroot Hdll Hlast Hrange Hsep].
  destruct B as [|b0 B']; [congruence|].
  apply pairwise_sep_app in Hsep. destruct Hsep as (HsA & HsxB & HAxB).
  cbn [pairwise_sep] in HsxB. destruct HsxB as (HxB & HsB & HsB').
  rewrite Forall_forall in HxB, HsB.
  apply dllseg_app in Hdll.
  cbn [hd dllseg] in Hdll. destruct Hdll as (HdA & Hpx & Hnx & Hpb & Hnb & HdB).
  set (m := Mm.mem st) in *.
  assert (Hb0 : 0 < b0 < 2 ^ 64).
  { apply Hrange. apply in_or_app. right. right. now left. }
  assert (Hxb0 : cell_sep x b0) by (apply HxB; now left).
  unfold Mm.mm_unlink. cbv zeta. fold m.
  destruct (exists_last_Z A) as [->|(A' & z & ->)].
  - (* [x] heads the list *)
    cbn [last] in Hpx. rewrite Hpx, Hnx. cbn [Z.eqb negb]. simpl_mm. fold m.
    rewrite Hnx, Hpx.
    destruct (Z.eqb_spec b0 0); [lia|]. cbn [negb app].
    split; [|split].
    + constructor; simpl_mm.
      * reflexivity.
      * cbn [dllseg]. repeat split.
        -- apply PREV_set_PREV_same. lia.
        -- rewrite NEXT_set_PREV by now left. exact Hnb.
        -- eapply dllseg_frame; [|exact HdB]. intros y Hy.
           rewrite NEXT_set_PREV, PREV_set_PREV_other by auto. auto.
      * rewrite <- Hlast. symmetry. apply (last_app_cons [x] B' b0 0).
      * intros y Hy. apply Hrange. cbn [app]. now right.
      * cbn [pairwise_sep]. rewrite Forall_forall. auto.
    + intros a Ha. simpl_mm. apply set_PREV_outside.
      apply not_cells_cons in Ha. lia.
    + repeat split.
  - (* [x] has the predecessor [z] *)
    rewrite last_last in Hpx.
    assert (HinL : forall y, In y (A' ++ [z]) \/ In y (b0 :: B') ->
                             In y ((A' ++ [z]) ++ x :: b0 :: B')).
    { intros y Hy. apply in_or_app. destruct Hy; [now left|right; now right]. }
    assert (Hz : 0 < z < 2 ^ 64).
    { apply Hrange, HinL. left. apply in_or_app. right. now left. }
    assert (Hzx : cell_sep z x).
    { apply HAxB; [apply in_or_app; right; now left|now left]. }
    assert (Hzb : cell_sep z b0).
    { apply HAxB; [apply in_or_app; right; now left|right; now left]. }
    rewrite Hpx, Hnx.
    destruct (Z.eqb_spec z 0); [lia|]. cbn [negb]. simpl_mm.
    rewrite NEXT_set_NEXT_other, PREV_set_NEXT by auto. fold m.
    rewrite Hpx, Hnx.
    destruct (Z.eqb_spec b0 0); [lia|]. cbn [negb].
    split; [|split].
    + apply pairwise_sep_app in HsA. destruct HsA as (HsA' & _ & HA'z).
      apply dllseg_app in HdA. cbn [dllseg hd] in HdA.
      destruct HdA as (HdA' & Hpz & Hnz & _).
      constructor; simpl_mm.
      * rewrite Hroot. rewrite <- !app_assoc. now rewrite !hd_app.
      * apply dllseg_app. cbn [hd]. split.
        -- apply dllseg_app. cbn [dllseg hd]. repeat split.
           ++ eapply dllseg_frame; [|exact HdA']. intros y Hy.
              assert (cell_sep z y) by (apply cell_sep_sym, HA'z; [assumption|now left]).
              assert (cell_sep b0 y).
              { apply cell_sep_sym, HAxB; [apply in_or_app; now left|right; now left]. }
              rewrite NEXT_set_PREV, PREV_set_PREV_other by auto.
              rewrite NEXT_set_NEXT_other, PREV_set_NEXT by auto. auto.
           ++ rewrite PREV_set_PREV_other by now apply cell_sep_sym.
              rewrite PREV_set_NEXT by now left. exact Hpz.
           ++ rewrite NEXT_set_PREV by (right; now apply cell_sep_sym).
              apply NEXT_set_NEXT_same. lia.
        -- rewrite last_last. cbn [dllseg]. repeat split.
           ++ apply PREV_set_PREV_same. lia.
           ++ rewrite NEXT_set_PREV by now left.
              rewrite NEXT_set_NEXT_other by assumption. exact Hnb.
           ++ eapply dllseg_frame; [|exact HdB]. intros y Hy.
              assert (cell_sep z y).
              { apply HAxB; [apply in_or_app; right; now left|right; now right]. }
              assert (cell_sep b0 y) by now apply HsB.
              rewrite NEXT_set_PREV, PREV_set_PREV_other by auto.
              rewrite NEXT_set_NEXT_other, PREV_set_NEXT by auto. auto.
      * rewrite <- Hlast. now rewrite !last_app_cons.
      * intros y Hy. apply Hrange. apply in_app_or in Hy. apply in_or_app.
        destruct Hy; [now left|right; now right].
      * apply pairwise_sep_app. split; [|split].
        -- apply pairwise_sep_app. repeat split; auto.
        -- cbn [pairwise_sep]. rewrite Forall_forall. auto.
        -- intros a b Ha Hb. apply HAxB; [assumption|now right].
    + intros a Ha. simpl_mm.
      pose proof (not_cells_in _ _ z Ha ltac:(apply in_or_app; left; apply in_or_app;
                                               right; now left)).
      pose proof (not_cells_in _ _ b0 Ha ltac:(apply in_or_app; right; now left)).
      rewrite set_PREV_outside, set_NEXT_outside by lia. reflexivity.
    + repeat split.
Qed.

(** Pushing a node on the front *)
Lemma mm_push_list (st : Mm.state) (L : list Z) (h : Z) :
  free_list_ok st L -> L <> [] -> 0 < h < 2 ^ 64 ->
  (forall y, In y L -> cell_sep h y) ->
  free_list_ok (Mm.push_root st h) (h :: L)
  /\ (forall a, (a < h \/ h + 16 <= a) ->
                (a < Mm.root st + 8 \/ Mm.root st + 16 <= a) ->
                Mm.mem (Mm.push_root st h) a = Mm.mem st a)
  /\ same_region st (Mm.push_root st h).
Proof.
  intros Hok Hne Hh Hsep.
  destruct Hok as [Hroot Hdll Hlast Hrange HsL].
  destruct L as [|r T]; [congruence|]. cbn [hd] in Hroot.
  assert (Hr : 0 < r < 2 ^ 64) by (apply Hrange; now left).
  assert (Hhr : cell_sep h r) by (apply Hsep; now left).
  cbn [pairwise_sep] in HsL. destruct HsL as (HrT & HsT). rewrite Forall_forall in HrT.
  cbn [dllseg] in Hdll. destruct Hdll as (Hpr & Hnr & HdT).
  unfold Mm.push_root. rewrite Hroot.
  set (m := Mm.mem st) in *.
  set (m3 := set_PREV (set_PREV (set_NEXT m h r) h 0) r h).
  assert (Hfr : forall y, cell_sep h y -> cell_sep r y ->
                          NEXT m3 y = NEXT m y /\ PREV m3 y = PREV m y).
  { intros y H1 H2. unfold m3.
    rewrite !NEXT_set_PREV, !PREV_set_PREV_other by auto.
    rewrite NEXT_set_NEXT_other, PREV_set_NEXT by auto. auto. }
  split; [|split].
  - constructor; simpl_mm.
    + reflexivity.
    + cbn [dllseg hd]. unfold m3. repeat split.
      * rewrite PREV_set_PREV_other by now apply cell_sep_sym.
        apply PREV_set_PREV_same. lia.
      * rewrite !NEXT_set_PREV by (auto using cell_sep_sym).
        apply NEXT_set_NEXT_same. lia.
      * apply PREV_set_PREV_same. lia.
      * rewrite !NEXT_set_PREV by auto.
        rewrite NEXT_set_NEXT_other by assumption. exact Hnr.
      * eapply dllseg_frame; [|exact HdT]. intros y Hy.
        apply Hfr; [apply Hsep; now right|now apply HrT].
    + rewrite last_cons_default, <- Hlast. now rewrite !(last_cons_default T).
    + intros y [<-|Hy]; [lia|]. now apply Hrange.
    + cbn [pairwise_sep]. rewrite !Forall_forall. repeat split; auto.
  - intros a Ha1 Ha2. simpl_mm. fold m3. unfold m3.
    rewrite !set_PREV_outside, set_NEXT_outside by lia. reflexivity.
  - repeat split.
Qed.

Lemma drop_nil L : drop [] L = L.
Proof. apply filter_all. reflexivity. Qed.

Lemma drop_drop xs ys L : drop ys (drop xs L) = drop (xs ++ ys) L.
Proof.
  unfold drop. induction L as [|y t IH]; [reflexivity|]. cbn [filter].
  rewrite mem_in_app, negb_orb.
  destruct (mem_in y xs); cbn [negb andb filter]; [exact IH|].
  destruct (mem_in y ys); cbn [negb]; [exact IH|now f_equal].
Qed.

Lemma In_drop xs L y : In y (drop xs L) <-> In y L /\ ~ In y xs.
Proof.
  unfold drop. rewrite filter_In, negb_true_iff. split.
  - intros [H1 H2]. split; [assumption|]. intros Hin. apply mem_in_iff in Hin. congruence.
  - intros [H1 H2]. split; [assumption|].
    destruct (mem_in y xs) eqn:E; [|reflexivity]. apply mem_in_iff in E. contradiction.
Qed.

Lemma cells_drop xs L a : cells (drop xs L) a -> cells L a.
Proof. intros (y & Hy & Hr). apply In_drop in Hy. exists y. tauto. Qed.

Lemma last_nonempty_default (l : list Z) (d d' : Z) : l <> [] -> last l d = last l d'.
Proof.
  destruct l as [|a t]; [congruence|]. intros _. now rewrite !last_cons_default.
Qed.

Lemma free_list_nonempty st L : free_list_ok st L -> 24 < Mm.heap_listp st -> L <> [].
Proof.
  intros [_ _ Hlast _ _] Hl ->. cbn in Hlast. lia.
Qed.

(** Unlinking a listed node other than the root slot. *)
Lemma mm_unlink_in (st : Mm.state) (L : list Z) (x : Z) :
  free_list_ok st L -> In x L -> x <> Mm.heap_listp st - 24 ->
  free_list_ok (Mm.mm_unlink st x) (drop [x] L)
  /\ (forall a, ~ cells L a -> Mm.mem (Mm.mm_unlink st x) a = Mm.mem st a)
  /\ same_region st (Mm.mm_unlink st x).
Proof.
  intros Hok Hin Hns.
  destruct (in_split _ _ Hin) as (A & B & ->).
  assert (HB : B <> []).
  { intros ->. destruct Hok as [_ _ Hlast _ _]. rewrite last_last in Hlast. congruence. }
  pose proof (fl_sep _ _ Hok) as Hsep.
  apply pairwise_sep_app in Hsep. destruct Hsep as (HsA & HsxB & HAxB).
  cbn [pairwise_sep] in HsxB. destruct HsxB as (HxB & HsB).
  rewrite Forall_forall in HxB.
  assert (HxA : ~ In x A).
  { intros Hi. apply (cell_sep_neq x x); [|reflexivity].
    apply HAxB; [assumption|now left]. }
  assert (HxB' : ~ In x B).
  { intros Hi. apply (cell_sep_neq x x); [|reflexivity]. now apply HxB. }
  unfold drop. rewrite filter_remove_one by assumption.
  destruct (mm_unlink_list st A x B Hok HB) as (H1 & H2 & H3).
  split; [exact H1|]. split; [|exact H3].
  intros a Ha. apply H2. intros (y & Hy & Hr). apply Ha. exists y. split; [|exact Hr].
  apply in_app_or in Hy. apply in_or_app. destruct Hy; [now left|right; now right].
Qed.

Lemma GET_outside_cells m m' L t :
  (forall a, ~ cells L a -> m' a = m a) ->
  (forall y, In y L -> clear_of t y) ->
  GET m' t = GET m t.
Proof.
  intros Hf Hc. apply GET_frame. intros a Ha. apply Hf.
  intros (y & Hy & Hr). specialize (Hc y Hy). unfold clear_of in Hc. lia.
Qed.

Lemma free_list_frame st st' L :
  free_list_ok st L ->
  Mm.root st' = Mm.root st -> Mm.heap_listp st' = Mm.heap_listp st ->
  (forall y, In y L ->
     NEXT (Mm.mem st') y = NEXT (Mm.mem st) y /\ PREV (Mm.mem st') y = PREV (Mm.mem st) y) ->
  free_list_ok st' L.
Proof.
  intros [H1 H2 H3 H4 H5] Hr Hh Hf. constructor; try assumption.
  - now rewrite Hr.
  - eapply dllseg_frame; [|exact H2]. exact Hf.
  - now rewrite Hh.
Qed.

Lemma mm_put_ok st L m0 t v :
  free_list_ok (Mm.set_mem st m0) L -> (forall y, In y L -> clear_of t y) ->
  free_list_ok (Mm.set_mem st (PUT m0 t v)) L.
Proof.
  intros Hok Ht. apply (free_list_frame (Mm.set_mem st m0)); auto.
  intros y Hy. simpl_mm. rewrite NEXT_PUT, PREV_PUT by apply (Ht y Hy). auto.
Qed.

Lemma mm_set_mem_same st L : free_list_ok st L -> free_list_ok (Mm.set_mem st (Mm.mem st)) L.
Proof. intros Hok. apply (free_list_frame st); auto. Qed.

(** The last step of [coalesce]: push the merged block, whose tags are in place. *)
Lemma mm_coalesce_finish st L h S :
  free_list_ok st L -> L <> [] -> 0 < h < 2 ^ 64 -> 24 <= S ->
  (forall y, In y L -> y + 16 <= h - 4 \/ h + S - 4 <= y) ->
  let st' := Mm.push_root st h in
  GET (Mm.mem st') (h - 4) = GET (Mm.mem st) (h - 4)
  /\ GET (Mm.mem st') (h + S - 8) = GET (Mm.mem st) (h + S - 8)
  /\ free_list_ok st' (h :: L)
  /\ (forall a, ~ cells L a -> (a < h \/ h + 16 <= a) -> Mm.mem st' a = Mm.mem st a)
  /\ same_region st st'.
Proof.
  intros Hok Hne Hh HS Hfar st'.
  destruct (mm_push_list st L h Hok Hne Hh) as (Hok' & Hfr & Hreg).
  { intros y Hy. destruct (Hfar y Hy); unfold cell_sep; lia. }
  fold st' in Hok', Hfr, Hreg.
  assert (Hroot : In (Mm.root st) L).
  { rewrite (fl_root _ _ Hok). destruct L; [congruence|now left]. }
  assert (Hfr' : forall a, ~ cells L a -> (a < h \/ h + 16 <= a) ->
                           Mm.mem st' a = Mm.mem st a).
  { intros a Ha Hah. apply Hfr; [exact Hah|].
    pose proof (not_cells_in _ _ _ Ha Hroot). lia. }
  split; [|split; [|split; [exact Hok'|split; [exact Hfr'|exact Hreg]]]].
  - apply GET_frame. intros a Ha. apply Hfr'; [|lia].
    intros (y & Hy & Hr). destruct (Hfar y Hy); lia.
  - apply GET_frame. intros a Ha. apply Hfr'; [|lia].
    intros (y & Hy & Hr). destruct (Hfar y Hy); lia.
Qed.

Lemma same_region_refl st : same_region st st.
Proof. repeat split. Qed.

Lemma same_region_trans st1 st2 st3 :
  same_region st1 st2 -> same_region st2 st3 -> same_region st1 st3.
Proof. unfold same_region. intros (? & ? & ?) (? & ? & ?). repeat split; congruence. Qed.

Lemma same_region_set_mem st m : same_region st (Mm.set_mem st m).
Proof. repeat split. Qed.

Lemma mm_coalesce_local (st : Mm.state) (bp : Z) (L : list Z) :
  let m := Mm.mem st in
  let hw := GET m (bp - 4) in
  let pw := GET m (bp - 8) in
  let nw := GET m (bp + hw - 4) in
  let lo := if pw mod 2 =? 0 then bp - pw - 4 else bp - 8 in
  let hi := if nw mod 2 =? 0 then bp + hw + nw - 4 else bp + hw in
  let h := if pw mod 2 =? 0 then bp - pw else bp in
  let S := hw + (if pw mod 2 =? 0 then pw else 0) + (if nw mod 2 =? 0 then nw else 0) in
  let away := (if pw mod 2 =? 0 then [bp - pw] else [])
              ++ (if nw mod 2 =? 0 then [bp + hw] else []) in
  free_list_ok st L -> 24 < Mm.heap_listp st ->
  hw mod 8 = 0 /\ 24 <= hw /\ GET m (bp + hw - 8) = hw ->
  8 <= 8 * (pw / 8) /\ GET m (bp - 8 * (pw / 8) - 4) = pw ->
  (pw mod 2 = 0 -> pw mod 8 = 0 /\ 24 <= pw /\ In (bp - pw) L) ->
  (nw mod 2 = 0 ->
   nw mod 8 = 0 /\ 24 <= nw /\ GET m (bp + hw + nw - 8) = nw /\ In (bp + hw) L) ->
  S < 2 ^ 32 ->
  Mm.heap_listp st - 8 <= lo -> hi < 2 ^ 64 ->
  (forall y, In y L ->
     (pw mod 2 = 0 /\ y = bp - pw) \/ (nw mod 2 = 0 /\ y = bp + hw)
     \/ y + 16 <= lo \/ hi <= y) ->
  let st' := fst (Mm.coalesce st bp) in
  snd (Mm.coalesce st bp) = h
  /\ GET (Mm.mem st') (h - 4) = S
  /\ GET (Mm.mem st') (h + S - 8) = S
  /\ free_list_ok st' (h :: drop away L)
  /\ (forall a, ~ cells L a -> (a < h - 4 \/ h + 16 <= a) ->
                (a < h + S - 8 \/ h + S - 4 <= a) -> Mm.mem st' a = Mm.mem st a)
  /\ same_region st st'.
Proof.
  cbv zeta.
  set (m := Mm.mem st).
  set (hw := GET m (bp - 4)).
  set (pw := GET m (bp - 8)).
  set (nw := GET m (bp + hw - 4)).
  intros Hok Hhl (Hh8 & Hh24 & Hhf) (Hps & Hph) Hprev Hnext Hsz Hlo Hhi Hfar.
  pose proof (free_list_nonempty _ _ Hok Hhl) as HLne.
  pose proof (GET_range m (bp - 4)) as Hhr. fold hw in Hhr.
  pose proof (GET_range m (bp - 8)) as Hpr. fold pw in Hpr.
  pose proof (GET_range m (bp + hw - 4)) as Hnr. fold nw in Hnr.
  assert (E1 : GET_SIZE m (HDRP bp) = hw).
  { unfold HDRP, WSIZE. rewrite GET_SIZE_eq. fold hw. lia. }
  assert (E2 : PREV_BLKP m bp = bp - 8 * (pw / 8)).
  { unfold PREV_BLKP, DSIZE. rewrite GET_SIZE_eq. reflexivity. }
  assert (E3 : FTRP m (PREV_BLKP m bp) = bp - 8).
  { rewrite E2. unfold FTRP, HDRP, WSIZE, DSIZE. rewrite GET_SIZE_eq, Hph. lia. }
  assert (E4 : NEXT_BLKP m bp = bp + hw).
  { unfold NEXT_BLKP, WSIZE. rewrite GET_SIZE_eq. fold hw. lia. }
  assert (E5 : GET_ALLOC m (bp - 8) = pw mod 2) by apply GET_ALLOC_eq.
  assert (E6 : GET_ALLOC m (HDRP (bp + hw)) = nw mod 2).
  { unfold HDRP, WSIZE. apply GET_ALLOC_eq. }
  assert (E7 : GET_SIZE m (HDRP (bp + hw)) = 8 * (nw / 8)).
  { unfold HDRP, WSIZE. apply GET_SIZE_eq. }
  assert (E8 : GET_SIZE m (HDRP (bp - 8 * (pw / 8))) = 8 * (pw / 8)).
  { unfold HDRP, WSIZE. rewrite GET_SIZE_eq, Hph. reflexivity. }
  unfold Mm.coalesce. cbv zeta. fold m.
  rewrite ?E4, ?E3, ?E2, ?E1, ?E5, ?E6, ?E7, ?E8.
  destruct (Z.eqb_spec (pw mod 2) 0) as [Ep|Ep], (Z.eqb_spec (nw mod 2) 0) as [En|En];
    cbn [negb andb fst snd app] in *.
  - (* both neighbours free *)
    destruct (Hprev Ep) as (Hp8 & Hp24 & Hpin).
    destruct (Hnext En) as (Hn8 & Hn24 & Hnf & Hnin).
    replace (8 * (pw / 8)) with pw in * by lia.
    replace (8 * (nw / 8)) with nw in * by lia.
    assert (E9 : GET_SIZE m (FTRP m (bp + hw)) = nw).
    { unfold FTRP. rewrite E7. unfold DSIZE. rewrite GET_SIZE_eq, Hnf. lia. }
    rewrite E9.
    assert (Htc : forall t, t = bp - pw - 4 \/ bp - 8 <= t <= bp + hw - 4
                            \/ t = bp + hw + nw - 8 -> forall y, In y L -> clear_of t y).
    { intros t Ht y Hy. unfold clear_of.
      destruct (Hfar y Hy) as [[_ ->]|[[_ ->]|[?|?]]]; lia. }
    destruct (mm_unlink_in st L (bp - pw) Hok Hpin ltac:(lia)) as (Hok1 & Hfr1 & Hreg1).
    set (st1 := Mm.mm_unlink st (bp - pw)) in *.
    assert (Hg1 : forall t, t = bp - pw - 4 \/ bp - 8 <= t <= bp + hw - 4
                            \/ t = bp + hw + nw - 8 ->
                            GET (Mm.mem st1) t = GET m t).
    { intros t Ht. apply (GET_outside_cells _ _ L); auto. }
    assert (E10 : NEXT_BLKP (Mm.mem st1) bp = bp + hw).
    { unfold NEXT_BLKP, WSIZE. rewrite GET_SIZE_eq, Hg1 by lia. fold hw. lia. }
    rewrite E10.
    destruct (mm_unlink_in st1 (drop [bp - pw] L) (bp + hw) Hok1)
      as (Hok2 & Hfr2 & Hreg2).
    { apply In_drop. split; [exact Hnin|]. intros [E|[]]. lia. }
    { destruct Hreg1 as (-> & _). lia. }
    set (st2 := Mm.mm_unlink st1 (bp + hw)) in *.
    rewrite drop_drop in Hok2. cbn [app] in Hok2.
    assert (Hfr12 : forall a, ~ cells L a -> Mm.mem st2 a = m a).
    { intros a Ha. rewrite Hfr2; [now apply Hfr1|].
      intros Hc. apply Ha. eapply cells_drop; eauto. }
    assert (Hg2 : forall t, t = bp - pw - 4 \/ bp - 8 <= t <= bp + hw - 4
                            \/ t = bp + hw + nw - 8 ->
                            GET (Mm.mem st2) t = GET m t).
    { intros t Ht. apply (GET_outside_cells _ _ L); auto. }
    assert (E12 : PREV_BLKP (Mm.mem st2) bp = bp - pw).
    { unfold PREV_BLKP, DSIZE. rewrite GET_SIZE_eq, Hg2 by lia. fold pw. lia. }
    rewrite E12.
    set (S := hw + pw + nw).
    set (m1 := PUT (Mm.mem st2) (HDRP (bp - pw)) (PACK S 0)).
    assert (E13 : NEXT_BLKP m1 bp = bp + hw).
    { unfold NEXT_BLKP, WSIZE, m1, HDRP, WSIZE.
      rewrite GET_SIZE_eq, GET_PUT_other, Hg2 by lia. fold hw. lia. }
    assert (E14 : FTRP m1 (bp + hw) = bp + hw + nw - 8).
    { unfold FTRP, m1, HDRP, WSIZE, DSIZE.
      rewrite GET_SIZE_eq, GET_PUT_other, Hg2 by lia. fold nw. lia. }
    rewrite E13, E14.
    split; [reflexivity|].
    replace (bp + hw + nw - 8) with ((bp - pw) + S - 8) by (unfold S; lia).
    set (m2 := PUT m1 (bp - pw + S - 8) (PACK S 0)).
    assert (Hok3 : free_list_ok (Mm.set_mem st2 m2) (drop [bp - pw; bp + hw] L)).
    { apply mm_put_ok; [apply mm_put_ok; [apply mm_set_mem_same, Hok2|]|];
        intros y Hy; apply In_drop in Hy; destruct Hy as [Hy _];
        apply Htc; auto; unfold HDRP, WSIZE, S; lia. }
    destruct (mm_coalesce_finish (Mm.set_mem st2 m2) _ (bp - pw) S Hok3)
      as (Hg3 & Hg4 & Hok4 & Hfr4 & Hreg4).
    { eapply free_list_nonempty; eauto. simpl_mm.
      destruct Hreg1 as (E1' & _), Hreg2 as (E2' & _). rewrite E2', E1'. exact Hhl. }
    { lia. }
    { unfold S. lia. }
    { intros y Hy. apply In_drop in Hy. destruct Hy as [Hy Hny].
      destruct (Hfar y Hy) as [[_ ->]|[[_ ->]|[?|?]]]; unfold S; try lia;
        exfalso; apply Hny; cbn; auto. }
    split; [|split; [|split; [exact Hok4|split]]].
    + rewrite Hg3. simpl_mm. unfold m2, m1, HDRP, WSIZE.
      rewrite GET_PUT_other by (unfold S; lia).
      rewrite GET_PUT_same, PACK_0. apply Z.mod_small. unfold S. lia.
    + rewrite Hg4. simpl_mm. unfold m2.
      rewrite GET_PUT_same, PACK_0. apply Z.mod_small. unfold S. lia.
    + intros a Ha Ha1 Ha2. rewrite Hfr4.
      * simpl_mm. unfold m2, m1, HDRP, WSIZE.
        rewrite !PUT_outside by lia. now apply Hfr12.
      * intros Hc. apply Ha. eapply cells_drop; eauto.
      * lia.
    + eapply same_region_trans; [exact Hreg1|].
      eapply same_region_trans; [exact Hreg2|].
      eapply same_region_trans; [apply (same_region_set_mem st2 m2)|exact Hreg4].
  - (* the block before is free, the block after is allocated *)
    destruct (Hprev Ep) as (Hp8 & Hp24 & Hpin).
    replace (8 * (pw / 8)) with pw in * by lia.
    assert (Htc : forall t, t = bp - pw - 4 \/ bp - 8 <= t <= bp + hw - 4 ->
                            forall y, In y L -> clear_of t y).
    { intros t Ht y Hy. unfold clear_of.
      destruct (Hfar y Hy) as [[_ ->]|[[? _]|[?|?]]]; lia. }
    destruct (mm_unlink_in st L (bp - pw) Hok Hpin ltac:(lia)) as (Hok1 & Hfr1 & Hreg1).
    set (st1 := Mm.mm_unlink st (bp - pw)) in *.
    assert (Hg1 : forall t, t = bp - pw - 4 \/ bp - 8 <= t <= bp + hw - 4 ->
                            GET (Mm.mem st1) t = GET m t).
    { intros t Ht. apply (GET_outside_cells _ _ L); auto. }
    assert (E10 : FTRP (Mm.mem st1) bp = bp + hw - 8).
    { unfold FTRP, HDRP, WSIZE, DSIZE. rewrite GET_SIZE_eq, Hg1 by lia.
      fold hw. lia. }
    rewrite E10.
    set (S := hw + pw).
    set (m1 := PUT (Mm.mem st1) (bp + hw - 8) (PACK S 0)).
    assert (E11 : PREV_BLKP m1 bp = bp - pw).
    { unfold PREV_BLKP, DSIZE, m1.
      rewrite GET_SIZE_eq, GET_PUT_other, Hg1 by lia.
      fold pw. lia. }
    rewrite E11.
    split; [reflexivity|].
    replace (S + 0) with S by lia.
    set (m2 := PUT m1 (HDRP (bp - pw)) (PACK S 0)).
    assert (Hok3 : free_list_ok (Mm.set_mem st1 m2) (drop [bp - pw] L)).
    { apply mm_put_ok; [apply mm_put_ok; [apply mm_set_mem_same, Hok1|]|];
        intros y Hy; apply In_drop in Hy; destruct Hy as [Hy _];
        apply Htc; auto; unfold HDRP, WSIZE, S; lia. }
    destruct (mm_coalesce_finish (Mm.set_mem st1 m2) _ (bp - pw) S Hok3)
      as (Hg3 & Hg4 & Hok4 & Hfr4 & Hreg4).
    { eapply free_list_nonempty; eauto. simpl_mm.
      destruct Hreg1 as (E1' & _). rewrite E1'. exact Hhl. }
    { lia. }
    { unfold S. lia. }
    { intros y Hy. apply In_drop in Hy. destruct Hy as [Hy Hny].
      destruct (Hfar y Hy) as [[_ ->]|[[? _]|[?|?]]]; unfold S; try lia;
        exfalso; apply Hny; cbn; auto. }
    split; [|split; [|split; [exact Hok4|split]]].
    + rewrite Hg3. simpl_mm. unfold m2, HDRP, WSIZE.
      rewrite GET_PUT_same, PACK_0. apply Z.mod_small. unfold S. lia.
    + rewrite Hg4. simpl_mm. unfold m2, m1, HDRP, WSIZE.
      rewrite GET_PUT_other by (unfold S; lia).
      replace (bp - pw + S - 8) with (bp + hw - 8) by (unfold S; lia).
      rewrite GET_PUT_same, PACK_0. apply Z.mod_small. unfold S. lia.
    + intros a Ha Ha1 Ha2. rewrite Hfr4.
      * simpl_mm. unfold m2, m1, HDRP, WSIZE.
        rewrite !PUT_outside by (unfold S in *; lia). now apply Hfr1.
      * intros Hc. apply Ha. eapply cells_drop; eauto.
      * lia.
    + eapply same_region_trans; [exact Hreg1|].
      eapply same_region_trans; [apply (same_region_set_mem st1 m2)|exact Hreg4].
  - (* the block before is allocated, the block after is free *)
    destruct (Hnext En) as (Hn8 & Hn24 & Hnf & Hnin).
    replace (8 * (nw / 8)) with nw in * by lia.
    assert (Htc : forall t, bp - 8 <= t <= bp + hw - 4 \/ t = bp + hw + nw - 8 ->
                            forall y, In y L -> clear_of t y).
    { intros t Ht y Hy. unfold clear_of.
      destruct (Hfar y Hy) as [[? _]|[[_ ->]|[?|?]]]; lia. }
    destruct (mm_unlink_in st L (bp + hw) Hok Hnin ltac:(lia)) as (Hok1 & Hfr1 & Hreg1).
    set (st1 := Mm.mm_unlink st (bp + hw)) in *.
    set (S := hw + nw).
    set (m1 := PUT (Mm.mem st1) (HDRP bp) (PACK S 0)).
    assert (E10 : FTRP m1 bp = bp + S - 8).
    { unfold FTRP, DSIZE, m1.
      rewrite GET_SIZE_eq, GET_PUT_same, PACK_0, Z.mod_small by (unfold S; lia).
      unfold S. lia. }
    rewrite E10.
    split; [reflexivity|].
    replace (hw + 0 + nw) with S by (unfold S; lia).
    set (m2 := PUT m1 (bp + S - 8) (PACK S 0)).
    assert (Hok3 : free_list_ok (Mm.set_mem st1 m2) (drop [bp + hw] L)).
    { apply mm_put_ok; [apply mm_put_ok; [apply mm_set_mem_same, Hok1|]|];
        intros y Hy; apply In_drop in Hy; destruct Hy as [Hy _];
        apply Htc; auto; unfold HDRP, WSIZE, S; lia. }
    destruct (mm_coalesce_finish (Mm.set_mem st1 m2) _ bp S Hok3)
      as (Hg3 & Hg4 & Hok4 & Hfr4 & Hreg4).
    { eapply free_list_nonempty; eauto. simpl_mm.
      destruct Hreg1 as (E1' & _). rewrite E1'. exact Hhl. }
    { lia. }
    { unfold S. lia. }
    { intros y Hy. apply In_drop in Hy. destruct Hy as [Hy Hny].
      destruct (Hfar y Hy) as [[? _]|[[_ ->]|[?|?]]]; unfold S; try lia;
        exfalso; apply Hny; cbn; auto. }
    split; [|split; [|split; [exact Hok4|split]]].
    + rewrite Hg3. simpl_mm. unfold m2, m1, HDRP, WSIZE.
      rewrite GET_PUT_other by (unfold S; lia).
      rewrite GET_PUT_same, PACK_0. apply Z.mod_small. unfold S. lia.
    + rewrite Hg4. simpl_mm. unfold m2.
      rewrite GET_PUT_same, PACK_0. apply Z.mod_small. unfold S. lia.
    + intros a Ha Ha1 Ha2. rewrite Hfr4.
      * simpl_mm. unfold m2, m1, HDRP, WSIZE.
        rewrite !PUT_outside by (unfold S in *; lia). now apply Hfr1.
      * intros Hc. apply Ha. eapply cells_drop; eauto.
      * lia.
    + eapply same_region_trans; [exact Hreg1|].
      eapply same_region_trans; [apply (same_region_set_mem st1 m2)|exact Hreg4].
  - (* both neighbours allocated *)
    split; [reflexivity|].
    rewrite drop_nil. replace (hw + 0 + 0) with hw by lia.
    destruct (mm_coalesce_finish st L bp hw Hok HLne) as (Hg3 & Hg4 & Hok4 & Hfr4 & Hreg4).
    { lia. }
    { lia. }
    { intros y Hy. destruct (Hfar y Hy) as [[? _]|[[? _]|[?|?]]]; lia. }
    split; [|split; [|split; [exact Hok4|split; [|exact Hreg4]]]].
    + rewrite Hg3. reflexivity.
    + rewrite Hg4. exact Hhf.
    + intros a Ha Ha1 Ha2. apply Hfr4; [exact Ha|lia].
Qed.

(** ** The heap of [mm.c] as a sequence of blocks *)

Lemma total_app (A B : list (Z * Z)) : total (A ++ B) = total A + total B.
Proof.
  unfold total. induction A as [|[s a] A IH]; cbn [app fold_right fst]; lia.
Qed.

Lemma starts_app (A B : list (Z * Z)) : forall b,
  starts b (A ++ B) = starts b A ++ starts (b + total A) B.
Proof.
  induction A as [|[s a] A IH]; intros b; cbn [app starts].
  - unfold total. cbn. now rewrite Z.add_0_r.
  - rewrite IH. unfold total. cbn [fold_right fst]. fold (total A).
    now rewrite Z.add_assoc.
Qed.

Lemma starts_entry (bl : list (Z * Z)) : forall b x s a,
  In (x, s, a) (starts b bl) -> In (s, a) bl.
Proof.
  induction bl as [|[s0 a0] t IH]; intros b x s a; cbn [starts]; [cbn; tauto|].
  intros [[= _ <- <-]|H]; [now left|right; eauto].
Qed.

Lemma sized_app A B : sized (A ++ B) <-> sized A /\ sized B.
Proof.
  unfold sized. split.
  - intros H. split; intros s a Hi; apply (H s a); apply in_or_app; auto.
  - intros [HA HB] s a Hi. apply in_app_or in Hi. destruct Hi; eauto.
Qed.

Lemma total_nonneg bl : sized bl -> 0 <= total bl.
Proof.
  unfold total. induction bl as [|[s a] t IH]; intros Hs; cbn [fold_right fst]; [lia|].
  assert (24 <= s) by (apply (Hs s a); now left).
  assert (0 <= fold_right (fun b acc => fst b + acc) 0 t).
  { apply IH. intros s' a' Hi. apply (Hs s' a'). now right. }
  lia.
Qed.

Lemma starts_bounds (bl : list (Z * Z)) : forall b x s a,
  sized bl -> In (x, s, a) (starts b bl) -> b <= x /\ x + s <= b + total bl /\ 24 <= s.
Proof.
  induction bl as [|[s0 a0] t IH]; intros b x s a Hs; cbn [starts]; [cbn; tauto|].
  assert (H0 : 24 <= s0) by (apply (Hs s0 a0); now left).
  assert (Ht : sized t) by (intros s' a' Hi; apply (Hs s' a'); now right).
  pose proof (total_nonneg t Ht) as Hn.
  unfold total. cbn [fold_right fst]. fold (total t).
  intros [[= <- <- <-]|H]; [lia|].
  destruct (IH (b + s0) x s a Ht H) as (H1 & H2 & H3). lia.
Qed.

Lemma blocks_sized m u b bl : Forall (block_ok m u) (starts b bl) -> sized bl.
Proof.
  revert b. induction bl as [|[s a] t IH]; intros b H s' a' Hi; [destruct Hi|].
  cbn [starts] in H. apply Forall_cons_iff in H. destruct H as [H1 H2].
  destruct Hi as [[= <- <-]|Hi].
  - unfold block_ok in H1. tauto.
  - eapply IH; eauto.
Qed.

Lemma heap_sized u st bl F : heap_inv u st bl F -> sized bl.
Proof. intros H. eapply blocks_sized, (hi_blocks _ _ _ _ H). Qed.

Lemma heap_block u st bl F x s a :
  heap_inv u st bl F -> In (x, s, a) (starts (Mm.heap_listp st + 8) bl) ->
  Mm.heap_listp st + 8 <= x /\ x + s <= Mm.mem_brk st /\ 24 <= s /\ s mod 8 = 0
  /\ (a = 0 \/ a = 1)
  /\ GET (Mm.mem st) (x - 4) = tag_word u (x, s, a)
  /\ GET (Mm.mem st) (x + s - 8) = tag_word u (x, s, a).
Proof.
  intros H Hi.
  destruct (starts_bounds _ _ _ _ _ (heap_sized _ _ _ _ H) Hi) as (H1 & H2 & H3).
  rewrite (hi_brk _ _ _ _ H).
  pose proof (hi_blocks _ _ _ _ H) as Hb. rewrite Forall_forall in Hb.
  specialize (Hb _ Hi). unfold block_ok in Hb. tauto.
Qed.

(** Two blocks of a layout are the same block or do not overlap. *)
Lemma starts_disjoint (bl : list (Z * Z)) : forall b x s a y s' a',
  sized bl -> In (x, s, a) (starts b bl) -> In (y, s', a') (starts b bl) ->
  x + s <= y \/ y + s' <= x \/ (x = y /\ s = s' /\ a = a').
Proof.
  induction bl as [|[s0 a0] t IH]; intros b x s a y s' a' Hs; cbn [starts]; [cbn; tauto|].
  assert (Ht : sized t) by (intros s1 a1 Hi; apply (Hs s1 a1); now right).
  assert (H0 : 24 <= s0) by (apply (Hs s0 a0); now left).
  intros [[= <- <- <-]|H1] [[= <- <- <-]|H2].
  - right. right. auto.
  - left. destruct (starts_bounds _ _ _ _ _ Ht H2). lia.
  - right. left. destruct (starts_bounds _ _ _ _ _ Ht H1). lia.
  - eapply IH; eauto.
Qed.

Lemma NoDup_pairwise_sep (l : list Z) :
  NoDup l -> (forall x y, In x l -> In y l -> x <> y -> cell_sep x y) -> pairwise_sep l.
Proof.
  induction l as [|x t IH]; intros Hn Hs; cbn [pairwise_sep]; [exact I|].
  inversion Hn as [|? ? Hx Ht]; subst. split.
  - apply Forall_forall. intros y Hy. apply Hs; [now left|now right|].
    intros ->. contradiction.
  - apply IH; [assumption|]. intros a b Ha Hb. apply Hs; now right.
Qed.

Lemma heap_listed_block u st bl F y :
  heap_inv u st bl F -> In y F ->
  exists s, In (y, s, 0) (starts (Mm.heap_listp st + 8) bl)
            /\ Mm.heap_listp st + 8 <= y /\ y + s <= Mm.mem_brk st /\ 24 <= s.
Proof.
  intros H Hy. apply (hi_listed _ _ _ _ H) in Hy. destruct Hy as (s & Hs).
  exists s. split; [exact Hs|].
  destruct (heap_block _ _ _ _ _ _ _ H Hs) as (? & ? & ? & _). auto.
Qed.

Lemma heap_free_list u st bl F :
  heap_inv u st bl F -> free_list_ok st (F ++ [Mm.heap_listp st - 24]).
Proof.
  intros H. pose proof (hi_lo _ _ _ _ H) as Hlo.
  pose proof (hi_cap _ _ _ _ H) as (Hc1 & Hc2 & Hc3).
  pose proof (hi_brk _ _ _ _ H) as Hbrk.
  pose proof (total_nonneg _ (heap_sized _ _ _ _ H)) as Htot.
  constructor.
  - rewrite (hi_root _ _ _ _ H). destruct F; reflexivity.
  - apply (hi_dll _ _ _ _ H).
  - apply last_last.
  - intros y Hy. apply in_app_or in Hy. destruct Hy as [Hy|[<-|[]]]; [|lia].
    destruct (heap_listed_block _ _ _ _ _ H Hy) as (s & _ & ? & ? & ?). lia.
  - apply pairwise_sep_app. split; [|split].
    + apply NoDup_pairwise_sep; [apply (hi_nodup _ _ _ _ H)|].
      intros x y Hx Hy Hne.
      destruct (heap_listed_block _ _ _ _ _ H Hx) as (s & Hxs & ? & ? & ?).
      destruct (heap_listed_block _ _ _ _ _ H Hy) as (s' & Hys & ? & ? & ?).
      destruct (starts_disjoint _ _ _ _ _ _ _ _ (heap_sized _ _ _ _ H) Hxs Hys)
        as [?|[?|(? & _)]]; unfold cell_sep; lia.
    + cbn. auto.
    + intros a b Ha [<-|[]].
      destruct (heap_listed_block _ _ _ _ _ H Ha) as (s & _ & ? & ? & ?).
      unfold cell_sep. lia.
Qed.

(** The link fields of the list lie in the root slot and in the first
    16 payload bytes of the free blocks. *)
Lemma heap_cells u st bl F x :
  heap_inv u st bl F -> cells (F ++ [Mm.heap_listp st - 24]) x ->
  Mm.heap_listp st - 24 <= x < Mm.heap_listp st - 8
  \/ exists y s, In (y, s, 0) (starts (Mm.heap_listp st + 8) bl) /\ y <= x < y + 16.
Proof.
  intros H (y & Hy & Hr). apply in_app_or in Hy. destruct Hy as [Hy|[<-|[]]].
  - right. destruct (heap_listed_block _ _ _ _ _ H Hy) as (s & Hs & _). eauto.
  - left. lia.
Qed.

(** ** Soundness of the decision procedure *)

Lemma nodupb_sound (l : list Z) : nodupb l = true -> NoDup l.
Proof.
  induction l as [|x t IH]; cbn [nodupb]; [constructor|].
  intros H. apply andb_prop in H. destruct H as [H1 H2].
  constructor; [|now apply IH].
  intros Hin. apply mem_in_iff in Hin. rewrite Hin in H1. discriminate.
Qed.

Lemma no_adjb_sound (bl : list (Z * Z)) : forall pf,
  no_adjb pf bl = true -> no_adj_from pf bl.
Proof.
  induction bl as [|[s a] t IH]; intros pf; cbn [no_adjb no_adj_from]; [tauto|].
  intros H. apply andb_prop in H. destruct H as [H1 H2]. split; [|now apply IH].
  intros -> ->. discriminate.
Qed.

Lemma block_okb_sound m u blk : block_okb m u blk = true -> block_ok m u blk.
Proof.
  destruct blk as [[b s] a]. unfold block_okb, block_ok. intros H.
  repeat (apply andb_prop in H; destruct H as [H ?]).
  repeat split; try lia.
Qed.

Lemma In_free_blocks (sl : list (Z * Z * Z)) (x : Z) :
  In x (free_blocks sl) <-> exists s, In (x, s, 0) sl.
Proof.
  unfold free_blocks. rewrite in_map_iff. split.
  - intros ([[b s] a] & <- & Hin). apply filter_In in Hin. destruct Hin as [Hin Ha].
    cbn [fst snd] in *. exists s. replace 0 with a by lia. exact Hin.
  - intros (s & Hin). exists (x, s, 0). split; [reflexivity|].
    apply filter_In. split; [exact Hin|reflexivity].
Qed.

(** The decision procedure is sound. *)
Lemma heap_invb_sound (u : option Z) (st : Mm.state) (bl : list (Z * Z)) (F : list Z) :
  heap_invb u st bl F = true -> heap_inv u st bl F.
Proof.
  unfold heap_invb. intros H.
  repeat (apply andb_prop in H; destruct H as [H ?]).
  constructor; try lia.
  - apply Forall_forall. intros b Hb. apply block_okb_sound.
    eapply forallb_forall; eauto.
  - now apply dllsegb_sound.
  - now apply nodupb_sound.
  - intros x. rewrite <- In_free_blocks. split.
    + intros Hx. apply mem_in_iff.
      match goal with Hf : forallb _ F = true |- _ =>
        exact (proj1 (forallb_forall _ _) Hf x Hx) end.
    + intros Hx. apply mem_in_iff.
      match goal with Hf : forallb (fun x => mem_in x F) _ = true |- _ =>
        exact (proj1 (forallb_forall _ _) Hf x Hx) end.
  - now apply no_adjb_sound.
Qed.

(** X10: [mm_unlink] of [mm.c] takes a listed block [x] out of the free
    list: the list stays well linked from [root] down to the root slot,
    now without [x]; no byte outside the link fields of the listed
    nodes is written, and the region is as before. *)
Theorem mm_unlink_removes_node (st : Mm.state) (L : list Z) (x : Z) :
  free_list_ok st L -> In x L -> x <> Mm.heap_listp st - 24 ->
  free_list_ok (Mm.mm_unlink st x) (drop [x] L)
  /\ (forall a, ~ cells L a -> Mm.mem (Mm.mm_unlink st x) a = Mm.mem st a)
  /\ same_region st (Mm.mm_unlink st x).
Proof. exact (mm_unlink_in st L x). Qed.

Lemma mm_unlink_removes_node_witness :
  let st := mm_heap_frees in
  let L := [4216; 4128; 4288] ++ [Mm.heap_listp st - 24] in
  free_list_ok (Mm.mm_unlink st 4128) (drop [4128] L)
  /\ (forall a, ~ cells L a -> Mm.mem (Mm.mm_unlink st 4128) a = Mm.mem st a)
  /\ same_region st (Mm.mm_unlink st 4128).
Proof.
  apply (mm_unlink_removes_node mm_heap_frees
           ([4216; 4128; 4288] ++ [Mm.heap_listp mm_heap_frees - 24]) 4128).
  - apply (heap_free_list None mm_heap_frees
             [(64, 0); (24, 1); (48, 0); (24, 1); (1888, 0)]).
    apply heap_invb_sound. vm_compute. reflexivity.
  - right. left. reflexivity.
  - vm_compute. discriminate.
Defined.

(** ** [coalesce] of [mm.c] *)

(** [coalesce] in terms of the sizes [pb] and [nb] of the free
    neighbours (0 for an allocated neighbour). *)
Lemma mm_coalesce_sized (st : Mm.state) (bp : Z) (L : list Z) (hw pb nb : Z) :
  let m := Mm.mem st in
  free_list_ok st L -> 24 < Mm.heap_listp st ->
  GET m (bp - 4) = hw -> hw mod 8 = 0 -> 24 <= hw -> GET m (bp + hw - 8) = hw ->
  (pb = 0 /\ GET m (bp - 8) mod 2 = 1 /\ 8 <= 8 * (GET m (bp - 8) / 8)
   /\ GET m (bp - 8 * (GET m (bp - 8) / 8) - 4) = GET m (bp - 8))
  \/ (24 <= pb /\ pb mod 8 = 0 /\ GET m (bp - 8) = pb /\ GET m (bp - pb - 4) = pb
      /\ In (bp - pb) L) ->
  (nb = 0 /\ GET m (bp + hw - 4) mod 2 = 1)
  \/ (24 <= nb /\ nb mod 8 = 0 /\ GET m (bp + hw - 4) = nb
      /\ GET m (bp + hw + nb - 8) = nb /\ In (bp + hw) L) ->
  pb + hw + nb < 2 ^ 32 -> bp + hw + nb < 2 ^ 64 -> Mm.heap_listp st + 8 <= bp - pb ->
  (forall y, In y L ->
     (0 < pb /\ y = bp - pb) \/ (0 < nb /\ y = bp + hw)
     \/ y + 24 <= bp - pb \/ bp + hw + nb <= y) ->
  let st' := fst (Mm.coalesce st bp) in
  let h := bp - pb in
  let S := pb + hw + nb in
  let away := (if 0 <? pb then [bp - pb] else []) ++ (if 0 <? nb then [bp + hw] else []) in
  snd (Mm.coalesce st bp) = h
  /\ GET (Mm.mem st') (h - 4) = S
  /\ GET (Mm.mem st') (h + S - 8) = S
  /\ free_list_ok st' (h :: drop away L)
  /\ (forall a, ~ cells L a -> (a < h - 4 \/ h + 16 <= a) ->
                (a < h + S - 8 \/ h + S - 4 <= a) -> Mm.mem st' a = Mm.mem st a)
  /\ same_region st st'.
Proof.
  intros m Hok Hhl Hhw Hh8 Hh24 Hhf Hprev Hnext Hsz Hhi Hlo Hfar.
  pose proof (mm_coalesce_local st bp L) as Hloc. cbv zeta in Hloc.
  fold m in Hloc. rewrite Hhw in Hloc.
  cbv zeta.
  destruct Hprev as [(-> & Ep & Hps & Hph)|(Hp24 & Hp8 & Epw & Hpf & Hpin)];
    destruct Hnext as [(-> & En)|(Hn24 & Hn8 & Enw & Hnf & Hnin)].
  - (* both allocated *)
    rewrite Ep, En in Hloc. cbn [Z.eqb app Z.ltb Z.compare] in Hloc |- *.
    replace (0 + hw + 0) with (hw + 0 + 0) by lia.
    replace (bp - 0) with bp in * by lia.
    apply Hloc; auto; try lia.
    intros y Hy. destruct (Hfar y Hy) as [[? _]|[[? _]|[?|?]]]; lia.
  - (* next free *)
    rewrite Ep, Enw in Hloc.
    replace (nb mod 2) with 0 in Hloc by lia.
    destruct (Z.ltb_spec 0 nb); [|lia].
    cbn [Z.eqb app Z.ltb Z.compare] in Hloc |- *.
    replace (0 + hw + nb) with (hw + 0 + nb) by lia.
    replace (bp - 0) with bp in * by lia.
    apply Hloc; auto; try lia.
    intros y Hy. destruct (Hfar y Hy) as [[? _]|[[_ ?]|[?|?]]]; lia.
  - (* previous free *)
    rewrite Epw, En in Hloc.
    replace (pb mod 2) with 0 in Hloc by lia.
    destruct (Z.ltb_spec 0 pb); [|lia].
    cbn [Z.eqb app Z.ltb Z.compare] in Hloc |- *.
    replace (pb + hw + 0) with (hw + pb + 0) by lia.
    apply Hloc; auto; try lia.
    + replace (8 * (pb / 8)) with pb by lia. split; [lia|exact Hpf].
    + intros y Hy. destruct (Hfar y Hy) as [[_ ?]|[[? _]|[?|?]]]; lia.
  - (* both free *)
    rewrite Epw, Enw in Hloc.
    replace (pb mod 2) with 0 in Hloc by lia.
    replace (nb mod 2) with 0 in Hloc by lia.
    destruct (Z.ltb_spec 0 pb); [|lia].
    destruct (Z.ltb_spec 0 nb); [|lia].
    cbn [Z.eqb app Z.ltb Z.compare] in Hloc |- *.
    replace (pb + hw + nb) with (hw + pb + nb) by lia.
    apply Hloc; auto; try lia.
    + replace (8 * (pb / 8)) with pb by lia. split; [lia|exact Hpf].
    + intros y Hy. destruct (Hfar y Hy) as [[_ ?]|[[_ ?]|[?|?]]]; lia.
Qed.

Lemma blocks_last_cases (l : list (Z * Z)) : l = [] \/ exists l' s a, l = l' ++ [(s, a)].
Proof.
  destruct l as [|x l]; [now left|right].
  destruct (@exists_last _ (x :: l)) as (l' & [s a] & E); [discriminate|eauto].
Qed.

Lemma blocks_bits m u bl : forall b, Forall (block_ok m u) (starts b bl) -> bits_ok bl.
Proof.
  induction bl as [|[s0 a0] t IH]; intros b Hb s a Hi; [destruct Hi|].
  cbn [starts] in Hb. apply Forall_cons_iff in Hb. destruct Hb as [H1 H2].
  destruct Hi as [[= <- <-]|Hi].
  - unfold block_ok in H1. tauto.
  - eapply IH; eauto.
Qed.

Lemma heap_bits u st bl F : heap_inv u st bl F -> bits_ok bl.
Proof. intros H. eapply blocks_bits, (hi_blocks _ _ _ _ H). Qed.

Lemma bits_ok_app A B : bits_ok (A ++ B) <-> bits_ok A /\ bits_ok B.
Proof.
  unfold bits_ok. split.
  - intros H. split; intros s a Hi; apply (H s a); apply in_or_app; auto.
  - intros [HA HB] s a Hi. apply in_app_or in Hi. destruct Hi; eauto.
Qed.

Lemma bits_sized bl : bits_ok bl -> sized bl.
Proof. intros H s a Hi. apply (H s a Hi). Qed.

Lemma pre_shape (pre : list (Z * Z)) :
  bits_ok pre ->
  pre = keep_before pre ++ (if 0 <? free_before pre then [(free_before pre, 0)] else [])
  /\ (free_before pre = 0 \/ 24 <= free_before pre)
  /\ (free_before pre = 0 -> pre = [] \/ exists l s, pre = l ++ [(s, 1)]).
Proof.
  intros Hb. unfold free_before, keep_before.
  destruct (blocks_last_cases pre) as [->|(l & s & a & ->)].
  - cbn. auto.
  - rewrite last_last. cbn [snd].
    destruct (Hb s a) as (Hs & [-> | ->]); [apply in_or_app; right; now left| |].
    + cbn [Z.eqb]. rewrite removelast_last.
      destruct (Z.ltb_spec 0 s); [|lia]. split; [reflexivity|]. split; [now right|lia].
    + cbn [Z.eqb Z.ltb Z.compare]. rewrite app_nil_r.
      split; [reflexivity|]. split; [now left|]. intros _. right. eauto.
Qed.

Lemma post_shape (post : list (Z * Z)) :
  bits_ok post ->
  post = (if 0 <? free_after post then [(free_after post, 0)] else []) ++ keep_after post
  /\ (free_after post = 0 \/ 24 <= free_after post)
  /\ (free_after post = 0 -> post = [] \/ exists s t, post = (s, 1) :: t).
Proof.
  intros Hb. unfold free_after, keep_after.
  destruct post as [|[s a] t].
  - cbn. auto.
  - destruct (Hb s a) as (Hs & [-> | ->]); [now left| |].
    + cbn [Z.eqb]. destruct (Z.ltb_spec 0 s); [|lia].
      split; [reflexivity|]. split; [now right|lia].
    + cbn [Z.eqb Z.ltb Z.compare]. split; [reflexivity|]. split; [now left|].
      intros _. right. eauto.
Qed.

Lemma no_adj_app (A B : list (Z * Z)) : forall pf,
  no_adj_from pf (A ++ B) <-> no_adj_from pf A /\ no_adj_from (ends_free pf A) B.
Proof.
  induction A as [|[s a] A IH]; intros pf; cbn [app no_adj_from].
  - unfold ends_free. cbn. tauto.
  - rewrite IH. unfold ends_free. cbn [fold_left snd]. tauto.
Qed.

Lemma ends_free_snoc pf A s a : ends_free pf (A ++ [(s, a)]) = (a =? 0).
Proof. unfold ends_free. rewrite fold_left_app. reflexivity. Qed.

Lemma no_adj_merge (pre : list (Z * Z)) (hw : Z) (post : list (Z * Z)) :
  bits_ok pre -> bits_ok post ->
  no_adj_from false (pre ++ (hw, 1) :: post) ->
  no_adj_from false (merge_at pre hw post).
Proof.
  intros Hpre Hpost H. apply no_adj_app in H. destruct H as [H1 H2].
  cbn [no_adj_from Z.eqb] in H2. destruct H2 as [_ H2].
  unfold merge_at. apply no_adj_app. cbn [no_adj_from Z.eqb].
  assert (Hkb : no_adj_from false (keep_before pre)
                /\ ends_free false (keep_before pre) = false).
  { unfold keep_before.
    destruct (blocks_last_cases pre) as [->|(l & s & a & ->)]; [cbn; auto|].
    rewrite last_last. cbn [snd].
    destruct (Hpre s a) as (_ & [-> | ->]); [apply in_or_app; right; now left| |].
    - cbn [Z.eqb]. rewrite removelast_last.
      apply no_adj_app in H1. destruct H1 as [H1 H1'].
      split; [exact H1|]. cbn [no_adj_from] in H1'.
      destruct (ends_free false l); [|reflexivity].
      exfalso. now apply (proj1 H1').
    - cbn [Z.eqb]. split; [exact H1|]. apply ends_free_snoc. }
  destruct Hkb as [Hk1 Hk2]. rewrite Hk2.
  split; [exact Hk1|]. split; [discriminate|].
  unfold keep_after. destruct post as [|[s a] t]; [exact I|].
  destruct (Hpost s a) as (_ & [-> | ->]); [now left| |]; cbn [Z.eqb no_adj_from] in *.
  - tauto.
  - split; [discriminate|tauto].
Qed.

(** The tags of the blocks keep clear of the link fields of the list. *)
Lemma heap_tag_not_cell u st bl F x s a t c :
  heap_inv u st bl F -> In (x, s, a) (starts (Mm.heap_listp st + 8) bl) ->
  t = x - 4 \/ t = x + s - 8 -> t <= c < t + 4 ->
  ~ cells (F ++ [Mm.heap_listp st - 24]) c.
Proof.
  intros H Hi Ht Hc Hcell.
  destruct (heap_block _ _ _ _ _ _ _ H Hi) as (Hx1 & Hx2 & Hs & _).
  destruct (heap_cells _ _ _ _ _ H Hcell) as [Hslot|(y & s' & Hy & Hr)]; [lia|].
  destruct (heap_block _ _ _ _ _ _ _ H Hy) as (Hy1 & Hy2 & Hs' & _).
  destruct (starts_disjoint _ _ _ _ _ _ _ _ (heap_sized _ _ _ _ H) Hi Hy)
    as [?|[?|(? & ? & ?)]]; lia.
Qed.

Lemma heap_edge_not_cell u st bl F t c :
  heap_inv u st bl F ->
  t = Mm.heap_listp st - 4 \/ t = Mm.heap_listp st \/ t = Mm.mem_brk st - 4 ->
  t <= c < t + 4 ->
  ~ cells (F ++ [Mm.heap_listp st - 24]) c.
Proof.
  intros H Ht Hc Hcell.
  pose proof (hi_brk _ _ _ _ H) as Hbrk.
  pose proof (total_nonneg _ (heap_sized _ _ _ _ H)) as Htot.
  destruct (heap_cells _ _ _ _ _ H Hcell) as [Hslot|(y & s' & Hy & Hr)]; [lia|].
  destruct (heap_block _ _ _ _ _ _ _ H Hy) as (Hy1 & Hy2 & Hs' & _). lia.
Qed.

Lemma heap_client_not_cell u st bl F skip c :
  heap_inv u st bl F ->
  client_byte (Mm.heap_listp st - 24) (Mm.mem_brk st)
              (starts (Mm.heap_listp st + 8) bl) skip c ->
  ~ cells (F ++ [Mm.heap_listp st - 24]) c.
Proof.
  intros H Hc Hcell.
  pose proof (hi_brk _ _ _ _ H) as Hbrk.
  pose proof (total_nonneg _ (heap_sized _ _ _ _ H)) as Htot.
  destruct (heap_cells _ _ _ _ _ H Hcell) as [Hslot|(y & s' & Hy & Hr)].
  - destruct Hc as [?|[?|(b & s & Hb & _ & Hr)]]; try lia.
    destruct (heap_block _ _ _ _ _ _ _ H Hb) as (? & _). lia.
  - destruct (heap_block _ _ _ _ _ _ _ H Hy) as (Hy1 & Hy2 & Hs' & _).
    destruct Hc as [?|[?|(b & s & Hb & _ & Hr')]]; try lia.
    destruct (heap_block _ _ _ _ _ _ _ H Hb) as (Hb1 & Hb2 & Hs & _).
    destruct (starts_disjoint _ _ _ _ _ _ _ _ (heap_sized _ _ _ _ H) Hb Hy)
      as [?|[?|(? & ? & ?)]]; lia.
Qed.

Lemma total_single s a : total [(s, a)] = s.
Proof. unfold total. cbn. lia. Qed.

Lemma total_nil : total [] = 0.
Proof. reflexivity. Qed.

Lemma total_cons s a t : total ((s, a) :: t) = s + total t.
Proof. reflexivity. Qed.

Lemma drop_app xs A B : drop xs (A ++ B) = drop xs A ++ drop xs B.
Proof. unfold drop. apply filter_app. Qed.

Lemma drop_keep xs x : ~ In x xs -> drop xs [x] = [x].
Proof.
  intros H. unfold drop. cbn [filter].
  destruct (mem_in x xs) eqn:E; [apply mem_in_iff in E; contradiction|reflexivity].
Qed.

Lemma NoDup_drop xs L : NoDup L -> NoDup (drop xs L).
Proof. apply NoDup_filter. Qed.

(** [coalesce] on a heap whose block at [bp] is in transit. *)
Lemma mm_coalesce_heap (st : Mm.state) (pre : list (Z * Z)) (hw : Z)
      (post : list (Z * Z)) (F : list Z) (bp : Z) :
  heap_inv (Some bp) st (pre ++ (hw, 1) :: post) F ->
  bp = Mm.heap_listp st + 8 + total pre ->
  let st' := fst (Mm.coalesce st bp) in
  let h := bp - free_before pre in
  snd (Mm.coalesce st bp) = h
  /\ heap_inv None st' (merge_at pre hw post) (h :: drop (absorbed bp pre hw post) F)
  /\ same_region st st'
  /\ (forall a, client_byte (Mm.heap_listp st - 24) (Mm.mem_brk st)
                  (starts (Mm.heap_listp st + 8) (pre ++ (hw, 1) :: post)) bp a ->
                Mm.mem st' a = Mm.mem st a).
Proof.
  intros H Hbp. cbv zeta.
  pose proof (heap_bits _ _ _ _ H) as Hbits.
  apply bits_ok_app in Hbits. destruct Hbits as [Hbpre Hbpost'].
  assert (Hbpost : bits_ok post).
  { intros s a Hi. apply (Hbpost' s a). now right. }
  destruct (pre_shape pre Hbpre) as (Hpre & Hpb & Hpalloc).
  destruct (post_shape post Hbpost) as (Hpost & Hnb & Hnalloc).
  unfold merge_at, absorbed.
  remember (free_before pre) as pb eqn:Epb.
  remember (keep_before pre) as kb eqn:Ekb.
  remember (free_after post) as nb eqn:Enb.
  remember (keep_after post) as ka eqn:Eka.
  set (hl := Mm.heap_listp st) in *.
  set (m := Mm.mem st) in *.
  set (sl := starts (hl + 8) (pre ++ (hw, 1) :: post)) in *.
  pose proof (hi_lo _ _ _ _ H) as Hlo. fold hl in Hlo.
  pose proof (hi_pro_hdr _ _ _ _ H) as Hprh. fold hl m in Hprh.
  pose proof (hi_pro_ftr _ _ _ _ H) as Hprf. fold hl m in Hprf.
  pose proof (hi_epi _ _ _ _ H) as Hepi. fold m in Hepi.
  pose proof (hi_brk _ _ _ _ H) as Hbrk. fold hl in Hbrk.
  pose proof (hi_cap _ _ _ _ H) as (Hc1 & Hc2 & Hc3). fold hl in Hc2.
  assert (Hbkb : bits_ok kb).
  { rewrite Hpre in Hbpre. apply bits_ok_app in Hbpre. tauto. }
  assert (Hbka : bits_ok ka).
  { rewrite Hpost in Hbpost. apply bits_ok_app in Hbpost. tauto. }
  pose proof (total_nonneg _ (bits_sized _ Hbkb)) as Htkb.
  pose proof (total_nonneg _ (bits_sized _ Hbka)) as Htka.
  assert (Htpre : total pre = total kb + pb).
  { rewrite Hpre at 1. rewrite total_app.
    destruct (Z.ltb_spec 0 pb); rewrite ?total_single, ?total_nil; lia. }
  assert (Htpost : total post = nb + total ka).
  { rewrite Hpost at 1. rewrite total_app.
    destruct (Z.ltb_spec 0 nb); rewrite ?total_single, ?total_nil; lia. }
  rewrite total_app, total_cons in Hbrk.
  assert (Hsp : starts (hl + 8) pre
                = starts (hl + 8) kb ++ (if 0 <? pb then [(bp - pb, pb, 0)] else [])).
  { rewrite Hpre at 1. rewrite starts_app. f_equal.
    destruct (Z.ltb_spec 0 pb); [|reflexivity]. cbn [starts].
    replace (hl + 8 + total kb) with (bp - pb) by lia. reflexivity. }
  assert (Hsq : starts (bp + hw) post
                = (if 0 <? nb then [(bp + hw, nb, 0)] else [])
                  ++ starts (bp + hw + nb) ka).
  { rewrite Hpost at 1. rewrite starts_app. f_equal.
    - destruct (Z.ltb_spec 0 nb); reflexivity.
    - replace (bp + hw + total (if 0 <? nb then [(nb, 0)] else [])) with (bp + hw + nb);
        [reflexivity|].
      destruct (Z.ltb_spec 0 nb); rewrite ?total_single, ?total_nil; lia. }
  assert (Hsl : sl = starts (hl + 8) pre ++ (bp, hw, 1) :: starts (bp + hw) post).
  { unfold sl. rewrite starts_app. cbn [starts]. rewrite <- Hbp. reflexivity. }
  assert (Hcases : forall x s a, In (x, s, a) sl ->
            In (x, s, a) (starts (hl + 8) kb)
            \/ (0 < pb /\ x = bp - pb /\ s = pb /\ a = 0)
            \/ (x = bp /\ s = hw /\ a = 1)
            \/ (0 < nb /\ x = bp + hw /\ s = nb /\ a = 0)
            \/ In (x, s, a) (starts (bp + hw + nb) ka)).
  { intros x s a Hi. rewrite Hsl, Hsp, Hsq in Hi.
    apply in_app_or in Hi. destruct Hi as [Hi|[Hi|Hi]].
    - apply in_app_or in Hi. destruct Hi as [Hi|Hi]; [now left|].
      destruct (Z.ltb_spec 0 pb); [|destruct Hi].
      destruct Hi as [[= <- <- <-]|[]]. right. left. auto.
    - injection Hi as <- <- <-. right. right. left. auto.
    - apply in_app_or in Hi. destruct Hi as [Hi|Hi]; [|now (right; right; right; right)].
      destruct (Z.ltb_spec 0 nb); [|destruct Hi].
      destruct Hi as [[= <- <- <-]|[]]. right. right. right. left. auto. }
  assert (HKB : forall x s a, In (x, s, a) (starts (hl + 8) kb) ->
                  In (x, s, a) sl /\ x + s <= bp - pb /\ hl + 8 <= x /\ 24 <= s).
  { intros x s a Hi. split.
    - rewrite Hsl, Hsp. apply in_or_app. left. apply in_or_app. now left.
    - destruct (starts_bounds _ _ _ _ _ (bits_sized _ Hbkb) Hi) as (? & ? & ?). lia. }
  assert (HKA : forall x s a, In (x, s, a) (starts (bp + hw + nb) ka) ->
                  In (x, s, a) sl /\ bp + hw + nb <= x /\ 24 <= s).
  { intros x s a Hi. split.
    - rewrite Hsl, Hsq. apply in_or_app. right. right. apply in_or_app. now right.
    - destruct (starts_bounds _ _ _ _ _ (bits_sized _ Hbka) Hi) as (? & ? & ?). lia. }
  assert (Hbpin : In (bp, hw, 1) sl).
  { rewrite Hsl. apply in_or_app. right. now left. }
  destruct (heap_block _ _ _ _ _ _ _ H Hbpin) as (_ & _ & Hh24 & Hh8 & _ & Hhh & Hhf).
  unfold tag_word in Hhh, Hhf. rewrite Z.eqb_refl in Hhh, Hhf. fold m in Hhh, Hhf.
  assert (Htag : forall x s a, In (x, s, a) sl -> x <> bp ->
            GET m (x - 4) = s + a /\ GET m (x + s - 8) = s + a
            /\ 24 <= s /\ s mod 8 = 0 /\ (a = 0 \/ a = 1)).
  { intros x s a Hi Hne.
    destruct (heap_block _ _ _ _ _ _ _ H Hi) as (_ & _ & ? & ? & ? & H1 & H2).
    unfold tag_word in H1, H2. destruct (Z.eqb_spec x bp); [contradiction|]. auto. }
  (* the previous block *)
  assert (Hprev :
    (pb = 0 /\ GET m (bp - 8) mod 2 = 1 /\ 8 <= 8 * (GET m (bp - 8) / 8)
     /\ GET m (bp - 8 * (GET m (bp - 8) / 8) - 4) = GET m (bp - 8))
    \/ (24 <= pb /\ pb mod 8 = 0 /\ GET m (bp - 8) = pb /\ GET m (bp - pb - 4) = pb
        /\ In (bp - pb) (F ++ [hl - 24]))).
  { destruct Hpb as [E|Hge].
    - left. split; [exact E|].
      destruct (Hpalloc E) as [->|(l & s & ->)].
      + rewrite total_nil in Hbp. replace (bp - 8) with hl by lia.
        rewrite Hprf. replace (bp - 8 * (9 / 8) - 4) with (hl - 4) by lia.
        rewrite Hprh. repeat split; lia.
      + rewrite total_app, total_single in Hbp.
        destruct (Hbpre s 1) as [Hs24 _]; [apply in_or_app; right; now left|].
        assert (Hi : In (bp - s, s, 1) sl).
        { rewrite Hsl, starts_app. apply in_or_app. left. apply in_or_app. right.
          cbn [starts]. left. replace (hl + 8 + total l) with (bp - s) by lia.
          reflexivity. }
        destruct (Htag _ _ _ Hi) as (H1 & H2 & ? & ? & _); [lia|].
        replace (bp - s + s - 8) with (bp - 8) in H2 by lia.
        rewrite H2. replace (8 * ((s + 1) / 8)) with s by lia.
        repeat split; try lia.
    - right. destruct (Z.ltb_spec 0 pb); [|lia].
      assert (Hi : In (bp - pb, pb, 0) sl).
      { rewrite Hsl, Hsp. apply in_or_app. left. apply in_or_app. right. now left. }
      destruct (Htag _ _ _ Hi) as (H1 & H2 & ? & ? & _); [lia|].
      replace (bp - pb + pb - 8) with (bp - 8) in H2 by lia.
      rewrite Z.add_0_r in H1, H2.
      repeat split; auto. apply in_or_app. left.
      apply (hi_listed _ _ _ _ H). exists pb. exact Hi. }
  (* the next block *)
  assert (Hnext :
    (nb = 0 /\ GET m (bp + hw - 4) mod 2 = 1)
    \/ (24 <= nb /\ nb mod 8 = 0 /\ GET m (bp + hw - 4) = nb
        /\ GET m (bp + hw + nb - 8) = nb /\ In (bp + hw) (F ++ [hl - 24]))).
  { destruct Hnb as [E|Hge].
    - left. split; [exact E|].
      destruct (Hnalloc E) as [->|(s & t & ->)].
      + rewrite total_nil in Hbrk.
        replace (bp + hw - 4) with (Mm.mem_brk st - 4) by lia.
        rewrite Hepi. reflexivity.
      + destruct (Hbpost s 1) as [Hs24 _]; [now left|].
        assert (Hi : In (bp + hw, s, 1) sl).
        { rewrite Hsl. apply in_or_app. right. right. now left. }
        destruct (Htag _ _ _ Hi) as (H1 & _ & ? & ? & _); [lia|].
        rewrite H1. lia.
    - right. destruct (Z.ltb_spec 0 nb); [|lia].
      assert (Hi : In (bp + hw, nb, 0) sl).
      { rewrite Hsl, Hsq. apply in_or_app. right. right. apply in_or_app. left. now left. }
      destruct (Htag _ _ _ Hi) as (H1 & H2 & ? & ? & _); [lia|].
      rewrite Z.add_0_r in H1, H2.
      repeat split; auto. apply in_or_app. left.
      apply (hi_listed _ _ _ _ H). exists nb. exact Hi. }
  assert (Hpb0 : 0 <= pb) by lia.
  assert (Hnb0 : 0 <= nb) by lia.
  (* the other nodes are far from the merged block *)
  assert (Hfar : forall y, In y (F ++ [hl - 24]) ->
            (0 < pb /\ y = bp - pb) \/ (0 < nb /\ y = bp + hw)
            \/ y + 24 <= bp - pb \/ bp + hw + nb <= y).
  { intros y Hy. apply in_app_or in Hy. destruct Hy as [Hy|[<-|[]]]; [|lia].
    apply (hi_listed _ _ _ _ H) in Hy. destruct Hy as (s & Hs). fold hl sl in Hs.
    destruct (Hcases _ _ _ Hs) as [Hk|[(? & ? & _)|[(_ & _ & ?)|[(? & ? & _)|Hk]]]];
      auto; try lia.
    - destruct (HKB _ _ _ Hk) as (_ & ? & ? & ?). lia.
    - destruct (HKA _ _ _ Hk) as (_ & ? & ?). lia. }
  destruct (mm_coalesce_sized st bp (F ++ [hl - 24]) hw pb nb
              (heap_free_list _ _ _ _ H) Hlo Hhh Hh8 Hh24 Hhf Hprev Hnext)
    as (Hres & Hgh & Hgf & Hlist & Hfr & Hreg); try lia.
  { exact Hfar. }
  set (st' := fst (Mm.coalesce st bp)) in *.
  set (m' := Mm.mem st') in *.
  set (away := (if 0 <? pb then [bp - pb] else []) ++ (if 0 <? nb then [bp + hw] else []))
    in *.
  set (S := pb + hw + nb) in *.
  destruct Hreg as (Rhl & Rbrk & Rmax).
  assert (Hout : forall a, a < bp - pb - 4 \/ bp + hw + nb - 4 <= a ->
                           ~ cells (F ++ [hl - 24]) a -> m' a = m a).
  { intros a Ha Hc. apply Hfr; [exact Hc| |]; unfold S; lia. }
  assert (Hslot : ~ In (hl - 24) away).
  { unfold away. intros Hi. apply in_app_or in Hi.
    destruct (Z.ltb_spec 0 pb), (Z.ltb_spec 0 nb); destruct Hi as [Hi|Hi];
      cbn in Hi; try tauto; lia. }
  split; [exact Hres|]. split; [|split; [repeat split; assumption|]].
  - constructor; rewrite ?Rhl, ?Rbrk, ?Rmax; fold hl; fold m'.
    + exact Hlo.
    + apply (hi_align _ _ _ _ H).
    + rewrite <- Hprh.
      apply GET_frame. intros a Ha. apply Hout; [lia|].
      apply (heap_edge_not_cell _ _ _ _ (hl - 4) a H); [now left|exact Ha].
    + rewrite <- Hprf.
      apply GET_frame. intros a Ha. apply Hout; [lia|].
      apply (heap_edge_not_cell _ _ _ _ hl a H); [right; now left|exact Ha].
    + rewrite starts_app. cbn [starts].
      replace (hl + 8 + total kb) with (bp - pb) by lia.
      replace (bp - pb + (pb + hw + nb)) with (bp + hw + nb) by lia.
      apply Forall_app. split; [|apply Forall_cons].
      * apply Forall_forall. intros [[x s] a] Hi.
        destruct (HKB _ _ _ Hi) as (Hin & Hk1 & Hk2 & Hk3).
        destruct (Htag _ _ _ Hin) as (Ht1 & Ht2 & ? & ? & ?); [lia|].
        unfold block_ok, tag_word. repeat split; auto.
        -- rewrite <- Ht1. apply GET_frame. intros c Hc. apply Hout; [lia|].
           apply (heap_tag_not_cell _ _ _ _ _ _ _ (x - 4) c H Hin); [now left|exact Hc].
        -- rewrite <- Ht2. apply GET_frame. intros c Hc. apply Hout; [lia|].
           apply (heap_tag_not_cell _ _ _ _ _ _ _ (x + s - 8) c H Hin); [now right|exact Hc].
      * unfold block_ok, tag_word. fold S. rewrite Z.add_0_r.
        replace (bp - pb + S - 8) with (bp - pb + S - 8) by lia.
        repeat split; auto; unfold S; lia.
      * apply Forall_forall. intros [[x s] a] Hi.
        replace (bp - pb + S) with (bp + hw + nb) in Hi by (unfold S; lia).
        destruct (HKA _ _ _ Hi) as (Hin & Hk1 & Hk2).
        destruct (Htag _ _ _ Hin) as (Ht1 & Ht2 & ? & ? & ?); [lia|].
        unfold block_ok, tag_word. repeat split; auto.
        -- rewrite <- Ht1. apply GET_frame. intros c Hc. apply Hout; [lia|].
           apply (heap_tag_not_cell _ _ _ _ _ _ _ (x - 4) c H Hin); [now left|exact Hc].
        -- rewrite <- Ht2. apply GET_frame. intros c Hc. apply Hout; [lia|].
           apply (heap_tag_not_cell _ _ _ _ _ _ _ (x + s - 8) c H Hin); [now right|exact Hc].
    + rewrite total_app, total_cons. lia.
    + rewrite <- Hepi.
      apply GET_frame. intros a Ha. apply Hout; [lia|].
      apply (heap_edge_not_cell _ _ _ _ (Mm.mem_brk st - 4) a H); [right; now right|exact Ha].
    + auto.
    + rewrite (fl_root _ _ Hlist). reflexivity.
    + pose proof (fl_dll _ _ Hlist) as Hd. fold m' in Hd.
      rewrite drop_app, (drop_keep _ _ Hslot) in Hd. exact Hd.
    + constructor.
      * intros Hi. apply In_drop in Hi. destruct Hi as [Hi Hna].
        apply (hi_listed _ _ _ _ H) in Hi. destruct Hi as (s & Hs). fold hl sl in Hs.
        destruct (Hcases _ _ _ Hs) as [Hk|[(? & ? & _)|[(_ & _ & ?)|[(? & ? & _)|Hk]]]];
          try lia.
        -- destruct (HKB _ _ _ Hk) as (_ & ? & ? & ?). lia.
        -- apply Hna. unfold away. apply in_or_app. left.
           destruct (Z.ltb_spec 0 pb); [now left|lia].
        -- destruct (HKA _ _ _ Hk) as (_ & ? & ?). lia.
      * apply NoDup_drop, (hi_nodup _ _ _ _ H).
    + intros x. rewrite starts_app. cbn [starts].
      replace (hl + 8 + total kb) with (bp - pb) by lia.
      replace (bp - pb + S) with (bp + hw + nb) by (unfold S; lia).
      split.
      * intros [<-|Hi].
        -- exists S. apply in_or_app. right. now left.
        -- apply In_drop in Hi. destruct Hi as [Hi Hna].
           apply (hi_listed _ _ _ _ H) in Hi. destruct Hi as (s & Hs). fold hl sl in Hs.
           exists s.
           destruct (Hcases _ _ _ Hs) as [Hk|[(? & ? & _)|[(_ & _ & ?)|[(? & ? & _)|Hk]]]];
             try lia.
           ++ apply in_or_app. now left.
           ++ exfalso. apply Hna. unfold away. apply in_or_app. left.
              destruct (Z.ltb_spec 0 pb); [now left|lia].
           ++ exfalso. apply Hna. unfold away. apply in_or_app. right.
              destruct (Z.ltb_spec 0 nb); [now left|lia].
           ++ apply in_or_app. right. now right.
      * intros (s & Hi). apply in_app_or in Hi. destruct Hi as [Hi|[Hi|Hi]].
        -- right. destruct (HKB _ _ _ Hi) as (Hin & ? & ? & ?).
           apply In_drop. split; [apply (hi_listed _ _ _ _ H); eauto|].
           unfold away. intros Hx. apply in_app_or in Hx.
           destruct (Z.ltb_spec 0 pb), (Z.ltb_spec 0 nb); destruct Hx as [Hx|Hx];
             cbn in Hx; try tauto; lia.
        -- left. now injection Hi.
        -- right. destruct (HKA _ _ _ Hi) as (Hin & ? & ?).
           apply In_drop. split; [apply (hi_listed _ _ _ _ H); eauto|].
           unfold away. intros Hx. apply in_app_or in Hx.
           destruct (Z.ltb_spec 0 pb), (Z.ltb_spec 0 nb); destruct Hx as [Hx|Hx];
             cbn in Hx; try tauto; lia.
    + pose proof (no_adj_merge pre hw post Hbpre Hbpost (hi_noadj _ _ _ _ H)) as Hn.
      unfold merge_at in Hn. rewrite <- Ekb, <- Epb, <- Enb, <- Eka in Hn. exact Hn.
  - intros a Ha.
    pose proof (heap_client_not_cell _ _ _ _ _ _ H Ha) as Hnc. fold hl in Hnc.
    apply Hout; [|exact Hnc].
    destruct Ha as [?|[?|(b & s & Hb & Hne & Hr)]]; try lia.
    fold hl sl in Hb.
    destruct (Hcases _ _ _ Hb) as [Hk|[(? & ? & ? & ?)|[(? & _)|[(? & ? & ? & ?)|Hk]]]];
      try lia.
    + destruct (HKB _ _ _ Hk) as (_ & ? & ? & ?). lia.
    + destruct (HKA _ _ _ Hk) as (_ & ? & ?). lia.
Qed.

(** X9: [coalesce] of [mm.c], called on a block [bp] whose tags were
    just marked free while the rest of the heap satisfies the
    invariant.  It returns the start of the block that [bp] forms with
    its free neighbours, and leaves a heap that satisfies the invariant
    again: the neighbours are merged into one free block, which heads
    the free list in place of the absorbed ones.  The region is as
    before, and so is every byte outside it and every payload byte of
    the other allocated blocks. *)
Theorem coalesce_merges_heap (st : Mm.state) (pre : list (Z * Z)) (hw : Z)
        (post : list (Z * Z)) (F : list Z) (bp : Z) :
  heap_inv (Some bp) st (pre ++ (hw, 1) :: post) F ->
  bp = Mm.heap_listp st + 8 + total pre ->
  let st' := fst (Mm.coalesce st bp) in
  let h := bp - free_before pre in
  snd (Mm.coalesce st bp) = h
  /\ heap_inv None st' (merge_at pre hw post) (h :: drop (absorbed bp pre hw post) F)
  /\ same_region st st'
  /\ (forall a, client_byte (Mm.heap_listp st - 24) (Mm.mem_brk st)
                  (starts (Mm.heap_listp st + 8) (pre ++ (hw, 1) :: post)) bp a ->
                Mm.mem st' a = Mm.mem st a).
Proof. exact (mm_coalesce_heap st pre hw post F bp). Qed.

Lemma coalesce_merges_heap_witness :
  let st := mm_heap_transit in
  let pre := [(32, 1)] in
  let post := [(112, 1); (1880, 0)] in
  let st' := fst (Mm.coalesce st 4160) in
  let h := 4160 - free_before pre in
  snd (Mm.coalesce st 4160) = h
  /\ heap_inv None st' (merge_at pre 24 post) (h :: drop (absorbed 4160 pre 24 post) [4296])
  /\ same_region st st'
  /\ (forall a, client_byte (Mm.heap_listp st - 24) (Mm.mem_brk st)
                  (starts (Mm.heap_listp st + 8) (pre ++ (24, 1) :: post)) 4160 a ->
                Mm.mem st' a = Mm.mem st a).
Proof.
  apply (coalesce_merges_heap mm_heap_transit [(32, 1)] 24 [(112, 1); (1880, 0)] [4296] 4160).
  - apply heap_invb_sound. vm_compute. reflexivity.
  - vm_compute. reflexivity.
Defined.

(** ** [mm_free] of [mm.c] *)

Lemma starts_mid (pre : list (Z * Z)) (s a : Z) (post : list (Z * Z)) (b : Z) :
  In (b + total pre, s, a) (starts b (pre ++ (s, a) :: post)).
Proof. rewrite starts_app. apply in_or_app. right. now left. Qed.

(** A heap keeps its shape when the memory changes neither the tags
    nor the link fields. *)
Lemma heap_inv_frame (u u' : option Z) (st st' : Mm.state) (bl : list (Z * Z)) (F : list Z) :
  heap_inv u st bl F ->
  same_region st st' -> Mm.root st' = Mm.root st ->
  (forall x s a, In (x, s, a) (starts (Mm.heap_listp st + 8) bl) ->
     GET (Mm.mem st') (x - 4) = tag_word u' (x, s, a)
     /\ GET (Mm.mem st') (x + s - 8) = tag_word u' (x, s, a)) ->
  (forall c, Mm.heap_listp st - 4 <= c < Mm.heap_listp st + 4
             \/ Mm.mem_brk st - 4 <= c < Mm.mem_brk st
             \/ cells (F ++ [Mm.heap_listp st - 24]) c ->
             Mm.mem st' c = Mm.mem st c) ->
  heap_inv u' st' bl F.
Proof.
  intros H (Rhl & Rbrk & Rmax) Hroot Htags Hfr.
  constructor; rewrite ?Rhl, ?Rbrk, ?Rmax, ?Hroot; try apply H.
  - rewrite <- (hi_pro_hdr _ _ _ _ H). apply GET_frame. intros c Hc. apply Hfr. lia.
  - rewrite <- (hi_pro_ftr _ _ _ _ H). apply GET_frame. intros c Hc. apply Hfr. lia.
  - apply Forall_forall. intros [[x s] a] Hi.
    destruct (heap_block _ _ _ _ _ _ _ H Hi) as (_ & _ & ? & ? & ? & _).
    destruct (Htags _ _ _ Hi) as [Hq1 Hq2]. unfold block_ok. auto.
  - rewrite <- (hi_epi _ _ _ _ H). apply GET_frame. intros c Hc. apply Hfr. lia.
  - eapply dllseg_frame; [|apply (hi_dll _ _ _ _ H)].
    intros y Hy. unfold NEXT, PREV, DSIZE. split; apply GET_8_frame; intros c Hc;
      apply Hfr; right; right; exists y; (split; [exact Hy|lia]).
Qed.

(** The two [PUT]s of [mm_free] put the block in transit. *)
Lemma heap_mark_free (st : Mm.state) (pre : list (Z * Z)) (hw : Z)
      (post : list (Z * Z)) (F : list Z) (ptr : Z) :
  heap_inv None st (pre ++ (hw, 1) :: post) F ->
  ptr = Mm.heap_listp st + 8 + total pre ->
  let m1 := PUT (Mm.mem st) (HDRP ptr) (PACK (GET_SIZE (Mm.mem st) (HDRP ptr)) 0) in
  let m2 := PUT m1 (FTRP m1 ptr) (PACK (GET_SIZE (Mm.mem st) (HDRP ptr)) 0) in
  heap_inv (Some ptr) (Mm.set_mem st m2) (pre ++ (hw, 1) :: post) F
  /\ (forall a, (a < ptr - 4 \/ ptr <= a) -> (a < ptr + hw - 8 \/ ptr + hw - 4 <= a) ->
                m2 a = Mm.mem st a).
Proof.
  intros H Hptr.
  set (m := Mm.mem st). set (hl := Mm.heap_listp st) in *.
  set (sl := starts (hl + 8) (pre ++ (hw, 1) :: post)).
  assert (Hin : In (ptr, hw, 1) sl) by (unfold sl; rewrite Hptr; apply starts_mid).
  destruct (heap_block _ _ _ _ _ _ _ H Hin) as (Hp1 & Hp2 & Hh24 & Hh8 & _ & Hhh & Hhf).
  cbn [tag_word] in Hhh, Hhf. fold m in Hhh, Hhf.
  pose proof (hi_cap _ _ _ _ H) as (Hc1 & Hc2 & Hc3). fold hl in Hc2.
  fold hl in Hp1.
  assert (Hsz : GET_SIZE m (HDRP ptr) = hw).
  { unfold HDRP, WSIZE. rewrite GET_SIZE_eq, Hhh. lia. }
  rewrite Hsz.
  destruct (tags_written m ptr hw 0 ltac:(lia) Hh8 ltac:(lia)) as (Hf & Hg1 & Hg2 & Hfr).
  cbv zeta.
  set (m1 := PUT m (HDRP ptr) (PACK hw 0)) in *.
  set (m2 := PUT m1 (FTRP m1 ptr) (PACK hw 0)) in *.
  rewrite Z.add_0_r in Hg1, Hg2. unfold HDRP, WSIZE in Hg1.
  split; [|exact Hfr].
  apply (heap_inv_frame None (Some ptr) st); [exact H|repeat split|reflexivity| |].
  - intros x s a Hi. fold hl sl in Hi. simpl_mm. unfold tag_word.
    destruct (heap_block _ _ _ _ _ _ _ H Hi) as (Hx1 & Hx2 & Hs & _ & _ & Ht1 & Ht2).
    cbn [tag_word] in Ht1, Ht2. fold m in Ht1, Ht2.
    destruct (starts_disjoint _ _ _ _ _ _ _ _ (heap_sized _ _ _ _ H) Hi Hin)
      as [Hd|[Hd|(-> & -> & ->)]].
    + destruct (Z.eqb_spec x ptr); [lia|].
      split; [rewrite <- Ht1|rewrite <- Ht2]; apply GET_frame; intros c Hc; apply Hfr; lia.
    + destruct (Z.eqb_spec x ptr); [lia|].
      split; [rewrite <- Ht1|rewrite <- Ht2]; apply GET_frame; intros c Hc; apply Hfr; lia.
    + rewrite Z.eqb_refl. auto.
  - intros c Hc. simpl_mm. fold hl in Hc. apply Hfr.
    + destruct Hc as [?|[?|Hc]]; try lia.
      destruct (heap_cells _ _ _ _ _ H Hc) as [?|(y & s' & Hy & Hr)]; [lia|].
      destruct (heap_block _ _ _ _ _ _ _ H Hy) as (? & ? & ? & _).
      destruct (starts_disjoint _ _ _ _ _ _ _ _ (heap_sized _ _ _ _ H) Hy Hin)
        as [?|[?|(? & ? & ?)]]; lia.
    + destruct Hc as [?|[?|Hc]]; try lia.
      destruct (heap_cells _ _ _ _ _ H Hc) as [?|(y & s' & Hy & Hr)]; [lia|].
      destruct (heap_block _ _ _ _ _ _ _ H Hy) as (? & ? & ? & _).
      destruct (starts_disjoint _ _ _ _ _ _ _ _ (heap_sized _ _ _ _ H) Hy Hin)
        as [?|[?|(? & ? & ?)]]; lia.
Qed.

(** [mm_free] of an allocated block. *)
Lemma mm_free_heap (st : Mm.state) (pre : list (Z * Z)) (hw : Z)
      (post : list (Z * Z)) (F : list Z) (ptr : Z) :
  heap_inv None st (pre ++ (hw, 1) :: post) F ->
  ptr = Mm.heap_listp st + 8 + total pre ->
  let st' := Mm.mm_free st ptr in
  heap_inv None st' (merge_at pre hw post)
           ((ptr - free_before pre) :: drop (absorbed ptr pre hw post) F)
  /\ same_region st st'
  /\ (forall a, client_byte (Mm.heap_listp st - 24) (Mm.mem_brk st)
                  (starts (Mm.heap_listp st + 8) (pre ++ (hw, 1) :: post)) ptr a ->
                Mm.mem st' a = Mm.mem st a).
Proof.
  intros H Hptr.
  pose proof (hi_lo _ _ _ _ H) as Hlo.
  pose proof (total_nonneg _ (heap_sized _ _ _ _ H)) as Htot.
  assert (Htp : 0 <= total pre).
  { apply total_nonneg. pose proof (heap_sized _ _ _ _ H) as Hs.
    apply sized_app in Hs. tauto. }
  destruct (heap_mark_free st pre hw post F ptr H Hptr) as (Hmid & Hfr1).
  cbv zeta in Hmid, Hfr1. cbv zeta.
  unfold Mm.mm_free.
  destruct (Z.eqb_spec ptr 0); [lia|].
  destruct (Z.eqb_spec (Mm.heap_listp st) 0); [lia|].
  set (m2 := PUT _ (FTRP _ ptr) _) in *.
  destruct (mm_coalesce_heap _ pre hw post F ptr Hmid Hptr) as (_ & Hinv & Hreg & Hfr2).
  cbv zeta in Hinv, Hfr2. simpl_mm. cbn [Mm.mem Mm.heap_listp Mm.mem_brk Mm.set_mem] in Hfr2.
  split; [exact Hinv|]. split.
  - eapply same_region_trans; [apply (same_region_set_mem st m2)|exact Hreg].
  - intros a Ha. rewrite (Hfr2 a Ha).
    assert (Hin : In (ptr, hw, 1) (starts (Mm.heap_listp st + 8) (pre ++ (hw, 1) :: post)))
      by (rewrite Hptr; apply starts_mid).
    destruct (heap_block _ _ _ _ _ _ _ H Hin) as (Hp1 & Hp2 & Hh24 & _).
    assert (Hcl : a < ptr - 4 \/ ptr + hw - 4 <= a).
    { destruct Ha as [?|[?|(b & s & Hb & Hne & Hr)]]; try lia.
      destruct (heap_block _ _ _ _ _ _ _ H Hb) as (? & ? & ? & _).
      destruct (starts_disjoint _ _ _ _ _ _ _ _ (heap_sized _ _ _ _ H) Hb Hin)
        as [?|[?|(? & ? & ?)]]; lia. }
    apply Hfr1; lia.
Qed.

(** X5: [mm_free] of [mm.c] on a heap that satisfies the invariant,
    given the payload pointer of an allocated block.  The heap it
    leaves satisfies the invariant: the block is free and merged with
    its free neighbours, and the merged block heads the free list.  The
    region is as before, and so is every byte outside it and every
    payload byte of the other allocated blocks. *)
Theorem free_keeps_heap (st : Mm.state) (pre : list (Z * Z)) (hw : Z)
        (post : list (Z * Z)) (F : list Z) (ptr : Z) :
  heap_inv None st (pre ++ (hw, 1) :: post) F ->
  ptr = Mm.heap_listp st + 8 + total pre ->
  let st' := Mm.mm_free st ptr in
  heap_inv None st' (merge_at pre hw post)
           ((ptr - free_before pre) :: drop (absorbed ptr pre hw post) F)
  /\ same_region st st'
  /\ (forall a, client_byte (Mm.heap_listp st - 24) (Mm.mem_brk st)
                  (starts (Mm.heap_listp st + 8) (pre ++ (hw, 1) :: post)) ptr a ->
                Mm.mem st' a = Mm.mem st a).
Proof. exact (mm_free_heap st pre hw post F ptr). Qed.

Lemma free_keeps_heap_witness :
  let st := mm_heap4 in
  let pre := [(32, 1); (24, 0)] in
  let post := [(1880, 0)] in
  let st' := Mm.mm_free st 4184 in
  heap_inv None st' (merge_at pre 112 post)
           ((4184 - free_before pre) :: drop (absorbed 4184 pre 112 post) [4160; 4296])
  /\ same_region st st'
  /\ (forall a, client_byte (Mm.heap_listp st - 24) (Mm.mem_brk st)
                  (starts (Mm.heap_listp st + 8) (pre ++ (112, 1) :: post)) 4184 a ->
                Mm.mem st' a = Mm.mem st a).
Proof.
  apply (free_keeps_heap mm_heap4 [(32, 1); (24, 0)] 112 [(1880, 0)] [4160; 4296] 4184).
  - apply heap_invb_sound. vm_compute. reflexivity.
  - vm_compute. reflexivity.
Defined.

(** ** [place] of [mm.c] *)

(** Replacing the blocks [mid] in the middle of a heap by the blocks
    [mid'], which fill the same bytes. *)
Lemma heap_replace_mid (u : option Z) (st st' : Mm.state)
      (pre mid mid' post : list (Z * Z)) (F F' : list Z) :
  let hl := Mm.heap_listp st in
  let b1 := hl + 8 + total pre in
  let b2 := b1 + total mid in
  heap_inv u st (pre ++ mid ++ post) F ->
  same_region st st' ->
  total mid' = total mid ->
  (forall x, u = Some x -> b1 <= x < b2) ->
  (forall a, a < b1 - 4 \/ b2 - 4 <= a -> ~ cells (F ++ [hl - 24]) a ->
             Mm.mem st' a = Mm.mem st a) ->
  Forall (block_ok (Mm.mem st') None) (starts b1 mid') ->
  free_list_ok st' (F' ++ [hl - 24]) ->
  NoDup F' ->
  (forall x, In x F' <->
             (In x F /\ (x < b1 \/ b2 <= x)) \/ exists s, In (x, s, 0) (starts b1 mid')) ->
  no_adj_from false (pre ++ mid' ++ post) ->
  heap_inv None st' (pre ++ mid' ++ post) F'.
Proof.
  intros hl b1 b2 H (Rhl & Rbrk & Rmax) Htot Hu Hout Hmid Hlist Hnd HF Hadj.
  pose proof (heap_sized _ _ _ _ H) as Hsz.
  apply sized_app in Hsz. destruct Hsz as [Hspre Hsz].
  apply sized_app in Hsz. destruct Hsz as [Hsmid Hspost].
  pose proof (total_nonneg _ Hspre) as Htpre.
  pose proof (total_nonneg _ Hsmid) as Htmid.
  pose proof (total_nonneg _ Hspost) as Htpost.
  pose proof (hi_lo _ _ _ _ H) as Hlo. fold hl in Hlo.
  pose proof (hi_brk _ _ _ _ H) as Hbrk. fold hl in Hbrk.
  rewrite !total_app in Hbrk.
  set (sl := starts (hl + 8) (pre ++ mid ++ post)).
  assert (Hsl : sl = starts (hl + 8) pre ++ starts b1 mid ++ starts b2 post).
  { unfold sl. rewrite !starts_app. reflexivity. }
  assert (HP : forall x s a, In (x, s, a) (starts (hl + 8) pre) ->
                 In (x, s, a) sl /\ x + s <= b1 /\ 24 <= s).
  { intros x s a Hi. split; [rewrite Hsl; apply in_or_app; now left|].
    destruct (starts_bounds _ _ _ _ _ Hspre Hi) as (? & ? & ?). unfold b1. lia. }
  assert (HQ : forall x s a, In (x, s, a) (starts b2 post) ->
                 In (x, s, a) sl /\ b2 <= x /\ 24 <= s).
  { intros x s a Hi. split; [rewrite Hsl; apply in_or_app; right; apply in_or_app; now right|].
    destruct (starts_bounds _ _ _ _ _ Hspost Hi) as (? & ? & ?). lia. }
  assert (HM : forall x s a, In (x, s, a) (starts b1 mid) -> b1 <= x /\ x + s <= b2).
  { intros x s a Hi.
    destruct (starts_bounds _ _ _ _ _ Hsmid Hi) as (? & ? & ?). unfold b2. lia. }
  assert (Htag : forall x s a, In (x, s, a) sl -> x < b1 \/ b2 <= x ->
            GET (Mm.mem st) (x - 4) = s + a /\ GET (Mm.mem st) (x + s - 8) = s + a
            /\ 24 <= s /\ s mod 8 = 0 /\ (a = 0 \/ a = 1)).
  { intros x s a Hi Hne.
    destruct (heap_block _ _ _ _ _ _ _ H Hi) as (_ & _ & ? & ? & ? & H1 & H2).
    unfold tag_word in H1, H2. destruct u as [y|]; [|auto].
    specialize (Hu y eq_refl). destruct (Z.eqb_spec x y); [lia|]. auto. }
  assert (Hkeep : forall x s a, In (x, s, a) sl -> x + s <= b1 \/ b2 <= x ->
                    block_ok (Mm.mem st') None (x, s, a)).
  { intros x s a Hi Hr.
    destruct (heap_block _ _ _ _ _ _ _ H Hi) as (_ & _ & Hs24 & _).
    destruct (Htag _ _ _ Hi) as (Ht1 & Ht2 & ? & ? & ?); [lia|].
    unfold block_ok, tag_word. repeat split; auto.
    - rewrite <- Ht1. apply GET_frame. intros c Hc. apply Hout; [lia|].
      apply (heap_tag_not_cell _ _ _ _ _ _ _ (x - 4) c H Hi); [now left|exact Hc].
    - rewrite <- Ht2. apply GET_frame. intros c Hc. apply Hout; [lia|].
      apply (heap_tag_not_cell _ _ _ _ _ _ _ (x + s - 8) c H Hi); [now right|exact Hc]. }
  constructor; rewrite ?Rhl, ?Rbrk, ?Rmax; fold hl.
  - exact Hlo.
  - apply (hi_align _ _ _ _ H).
  - rewrite <- (hi_pro_hdr _ _ _ _ H). fold hl.
    apply GET_frame. intros a Ha. apply Hout; [unfold b1; lia|].
    apply (heap_edge_not_cell _ _ _ _ (hl - 4) a H); [now left|exact Ha].
  - rewrite <- (hi_pro_ftr _ _ _ _ H). fold hl.
    apply GET_frame. intros a Ha. apply Hout; [unfold b1; lia|].
    apply (heap_edge_not_cell _ _ _ _ hl a H); [right; now left|exact Ha].
  - rewrite !starts_app. fold b1. rewrite Htot. fold b2.
    apply Forall_app. split; [|apply Forall_app; split; [exact Hmid|]].
    + apply Forall_forall. intros [[x s] a] Hi.
      destruct (HP _ _ _ Hi) as (Hin & ? & ?). apply Hkeep; auto.
    + apply Forall_forall. intros [[x s] a] Hi.
      destruct (HQ _ _ _ Hi) as (Hin & ? & ?). apply Hkeep; auto.
  - rewrite !total_app, Htot. lia.
  - rewrite <- (hi_epi _ _ _ _ H).
    apply GET_frame. intros a Ha. apply Hout; [lia|].
    apply (heap_edge_not_cell _ _ _ _ (Mm.mem_brk st - 4) a H); [right; now right|exact Ha].
  - apply (hi_cap _ _ _ _ H).
  - rewrite (fl_root _ _ Hlist). destruct F'; reflexivity.
  - apply (fl_dll _ _ Hlist).
  - exact Hnd.
  - intros x. rewrite HF, !starts_app. fold b1. rewrite Htot. fold b2.
    split.
    + intros [[Hx Hr]|(s & Hs)].
      * apply (hi_listed _ _ _ _ H) in Hx. destruct Hx as (s & Hs). fold hl sl in Hs.
        exists s. rewrite Hsl in Hs. apply in_app_or in Hs.
        destruct Hs as [Hs|Hs]; [apply in_or_app; now left|].
        apply in_app_or in Hs. destruct Hs as [Hs|Hs].
        -- destruct (HM _ _ _ Hs). pose proof (Hsmid s 0 (starts_entry _ _ _ _ _ Hs)). lia.
        -- apply in_or_app. right. apply in_or_app. now right.
      * exists s. apply in_or_app. right. apply in_or_app. now left.
    + intros (s & Hs). apply in_app_or in Hs. destruct Hs as [Hs|Hs].
      * left. destruct (HP _ _ _ Hs) as (Hin & ? & ?).
        split; [apply (hi_listed _ _ _ _ H); eauto|lia].
      * apply in_app_or in Hs. destruct Hs as [Hs|Hs]; [right; eauto|].
        left. destruct (HQ _ _ _ Hs) as (Hin & ? & ?).
        split; [apply (hi_listed _ _ _ _ H); eauto|lia].
  - exact Hadj.
Qed.

Lemma free_list_bytes st st' L :
  free_list_ok st L ->
  Mm.root st' = Mm.root st -> Mm.heap_listp st' = Mm.heap_listp st ->
  (forall c, cells L c -> Mm.mem st' c = Mm.mem st c) ->
  free_list_ok st' L.
Proof.
  intros Hok Hr Hh Hf. apply (free_list_frame st); auto.
  intros y Hy. unfold NEXT, PREV, DSIZE. split; apply GET_8_frame; intros c Hc;
    apply Hf; exists y; (split; [exact Hy|lia]).
Qed.

Lemma no_adj_weaken (bl : list (Z * Z)) : no_adj_from true bl -> no_adj_from false bl.
Proof.
  destruct bl as [|[s a] t]; cbn [no_adj_from]; [auto|].
  intros [_ H]. split; [discriminate|exact H].
Qed.

Lemma no_adj_alloc (pre : list (Z * Z)) (s : Z) (post : list (Z * Z)) :
  no_adj_from false (pre ++ (s, 0) :: post) -> no_adj_from false (pre ++ (s, 1) :: post).
Proof.
  intros H. apply no_adj_app in H. apply no_adj_app.
  destruct H as [H1 H2]. split; [exact H1|].
  cbn [no_adj_from Z.eqb] in *. split; [discriminate|].
  apply no_adj_weaken. tauto.
Qed.

Lemma no_adj_split (pre : list (Z * Z)) (s s1 s2 : Z) (post : list (Z * Z)) :
  no_adj_from false (pre ++ (s, 0) :: post) ->
  no_adj_from false (pre ++ (s1, 1) :: (s2, 0) :: post).
Proof.
  intros H. apply no_adj_app in H. apply no_adj_app.
  destruct H as [H1 H2]. split; [exact H1|].
  cbn [no_adj_from Z.eqb] in *. split; [discriminate|]. split; [discriminate|]. tauto.
Qed.

(** The free block at [bp] and the other nodes of the list. *)
Lemma heap_free_block (st : Mm.state) (pre : list (Z * Z)) (csize : Z)
      (post : list (Z * Z)) (F : list Z) (bp : Z) :
  heap_inv None st (pre ++ (csize, 0) :: post) F ->
  bp = Mm.heap_listp st + 8 + total pre ->
  let L := F ++ [Mm.heap_listp st - 24] in
  In bp F
  /\ Mm.heap_listp st + 8 <= bp /\ bp + csize <= Mm.mem_brk st
  /\ 24 <= csize /\ csize mod 8 = 0
  /\ GET (Mm.mem st) (bp - 4) = csize /\ GET (Mm.mem st) (bp + csize - 8) = csize
  /\ (forall y, In y L -> y <> bp -> y + 24 <= bp \/ bp + csize <= y)
  /\ (forall c, bp - 4 <= c < bp \/ bp + 16 <= c < bp + csize - 4 -> ~ cells L c)
  /\ drop [bp] L = drop [bp] F ++ [Mm.heap_listp st - 24]
  /\ (forall x, In x (drop [bp] F) <-> In x F /\ (x < bp \/ bp + csize <= x)).
Proof.
  intros H Hbp. cbv zeta.
  set (hl := Mm.heap_listp st) in *.
  set (L := F ++ [hl - 24]).
  assert (Hin : In (bp, csize, 0) (starts (hl + 8) (pre ++ (csize, 0) :: post)))
    by (rewrite Hbp; apply starts_mid).
  destruct (heap_block _ _ _ _ _ _ _ H Hin) as (Hb1 & Hb2 & Hc24 & Hc8 & _ & Hg1 & Hg2).
  cbn [tag_word] in Hg1, Hg2. rewrite Z.add_0_r in Hg1, Hg2. fold hl in Hb1.
  pose proof (hi_lo _ _ _ _ H) as Hlo. fold hl in Hlo.
  assert (HbF : In bp F) by (apply (hi_listed _ _ _ _ H); eauto).
  assert (Hfar : forall y, In y L -> y <> bp -> y + 24 <= bp \/ bp + csize <= y).
  { intros y Hy Hne. apply in_app_or in Hy. destruct Hy as [Hy|[<-|[]]]; [|lia].
    apply (hi_listed _ _ _ _ H) in Hy. destruct Hy as (s & Hs).
    destruct (heap_block _ _ _ _ _ _ _ H Hs) as (? & ? & ? & _).
    destruct (starts_disjoint _ _ _ _ _ _ _ _ (heap_sized _ _ _ _ H) Hs Hin)
      as [?|[?|(? & ? & ?)]]; lia. }
  split; [exact HbF|]. repeat (split; [assumption|]).
  split; [|split].
  - intros c Hc (y & Hy & Hr). destruct (Z.eq_dec y bp) as [->|Hne]; [lia|].
    destruct (Hfar y Hy Hne); lia.
  - unfold L. rewrite drop_app, drop_keep; [reflexivity|]. intros [E|[]]. lia.
  - intros x. rewrite In_drop. split.
    + intros [Hx Hn]. split; [exact Hx|].
      assert (x <> bp) by (intros ->; apply Hn; now left).
      destruct (Hfar x) as [?|?]; [apply in_or_app; now left|assumption|lia|lia].
    + intros [Hx Hr]. split; [exact Hx|]. intros [E|[]]. lia.
Qed.

(** [place] on a listed free block of at least [asize] bytes. *)
Lemma mm_place_heap (st : Mm.state) (pre : list (Z * Z)) (csize : Z)
      (post : list (Z * Z)) (F : list Z) (bp asize : Z) :
  heap_inv None st (pre ++ (csize, 0) :: post) F ->
  bp = Mm.heap_listp st + 8 + total pre ->
  24 <= asize <= csize -> asize mod 8 = 0 ->
  let st' := Mm.place st bp asize in
  (if 24 <=? csize - asize
   then heap_inv None st' (pre ++ (asize, 1) :: (csize - asize, 0) :: post)
                 ((bp + asize) :: drop [bp] F)
   else heap_inv None st' (pre ++ (csize, 1) :: post) (drop [bp] F))
  /\ same_region st st'
  /\ (forall a, a < bp - 4 \/ bp + csize - 4 <= a ->
                ~ cells (F ++ [Mm.heap_listp st - 24]) a ->
                Mm.mem st' a = Mm.mem st a).
Proof.
  intros H Hbp Ha Ha8.
  destruct (heap_free_block st pre csize post F bp H Hbp)
    as (HbF & Hb1 & Hb2 & Hc24 & Hc8 & Hg1 & Hg2 & Hfar & Hncell & Hdrop & HdF).
  set (hl := Mm.heap_listp st) in *.
  set (L := F ++ [hl - 24]) in *.
  set (m := Mm.mem st) in *.
  pose proof (hi_lo _ _ _ _ H) as Hlo. fold hl in Hlo.
  pose proof (hi_cap _ _ _ _ H) as (Hk1 & Hk2 & Hk3). fold hl in Hk2.
  pose proof (heap_free_list _ _ _ _ H) as Hfl. fold hl L in Hfl.
  assert (HbL : In bp L) by (apply in_or_app; now left).
  assert (Hsz : GET_SIZE m (HDRP bp) = csize).
  { unfold HDRP, WSIZE. rewrite GET_SIZE_eq, Hg1. lia. }
  assert (Hcell_far : forall c, cells L c -> (bp <= c < bp + 16)
                                            \/ c < bp - 4 \/ bp + csize - 4 <= c).
  { intros c (y & Hy & Hr). destruct (Z.eq_dec y bp) as [->|Hne]; [now left|].
    destruct (Hfar y Hy Hne); lia. }
  assert (Hcell_drop : forall c, cells (drop [bp] L) c -> c < bp - 4 \/ bp + csize - 4 <= c).
  { intros c (y & Hy & Hr). apply In_drop in Hy. destruct Hy as [Hy Hn].
    assert (y <> bp) by (intros ->; apply Hn; now left).
    destruct (Hfar y Hy); [assumption|lia|lia]. }
  cbv zeta. unfold Mm.place. cbv zeta. fold m. rewrite Hsz.
  unfold QSIZE, OVERHEAD.
  replace (wrap (csize - asize)) with (csize - asize)
    by (unfold wrap, SIZE_MAX1; rewrite Z.mod_small; lia).
  change (16 + 8) with 24.
  destruct (Z.geb_spec (csize - asize) 24) as [Hsplit|Hno];
    (destruct (Z.leb_spec 24 (csize - asize)); [|try lia]); try lia.
  - (* split *)
    destruct (tags_written m bp asize 1 ltac:(lia) Ha8 ltac:(lia)) as (Hf & Ht1 & Ht2 & Hfr2).
    set (m1 := PUT m (HDRP bp) (PACK asize 1)) in *.
    set (m2 := PUT m1 (FTRP m1 bp) (PACK asize 1)) in *.
    unfold HDRP, WSIZE in Ht1.
    assert (Hfl2 : free_list_ok (Mm.set_mem st m2) L).
    { apply (free_list_bytes st); auto. intros c Hc. simpl_mm.
      destruct (Hcell_far c Hc) as [?|[?|?]]; apply Hfr2; lia. }
    destruct (mm_unlink_in (Mm.set_mem st m2) L bp Hfl2 HbL ltac:(simpl_mm; lia))
      as (Hfl3 & Hfr3 & Hreg3).
    set (st1 := Mm.mm_unlink (Mm.set_mem st m2) bp) in *.
    simpl_mm in Hfr3.
    assert (Hg3 : forall t, t = bp - 4 \/ bp + 16 <= t <= bp + csize - 8 ->
                            GET (Mm.mem st1) t = GET m2 t).
    { intros t Ht. apply GET_frame. intros c Hc. apply Hfr3, Hncell. lia. }
    assert (Hnb : NEXT_BLKP (Mm.mem st1) bp = bp + asize).
    { unfold NEXT_BLKP, WSIZE. rewrite GET_SIZE_eq, Hg3, Ht1 by lia. lia. }
    rewrite Hnb.
    set (rem := csize - asize) in *.
    assert (Hrem8 : rem mod 8 = 0) by (unfold rem; lia).
    destruct (tags_written (Mm.mem st1) (bp + asize) rem 0 ltac:(unfold rem; lia) Hrem8
                ltac:(lia)) as (Hf' & Ht3 & Ht4 & Hfr4).
    set (m3 := PUT (Mm.mem st1) (HDRP (bp + asize)) (PACK rem 0)) in *.
    set (m4 := PUT m3 (FTRP m3 (bp + asize)) (PACK rem 0)) in *.
    unfold HDRP, WSIZE in Ht3. rewrite Z.add_0_r in Ht3, Ht4.
    destruct Hreg3 as (R3a & R3b & R3c). simpl_mm in R3a. simpl_mm in R3b. simpl_mm in R3c.
    assert (Hfl4 : free_list_ok (Mm.set_mem st1 m4) (drop [bp] L)).
    { apply (free_list_bytes st1); auto. intros c Hc. simpl_mm.
      destruct (Hcell_drop c Hc); apply Hfr4; unfold rem; lia. }
    destruct (mm_push_list (Mm.set_mem st1 m4) (drop [bp] L) (bp + asize) Hfl4)
      as (Hfl5 & Hfr5 & Hreg5).
    { rewrite Hdrop. destruct (drop [bp] F); discriminate. }
    { lia. }
    { intros y Hy. apply In_drop in Hy. destruct Hy as [Hy Hn].
      assert (y <> bp) by (intros ->; apply Hn; now left).
      unfold cell_sep. destruct (Hfar y Hy); [assumption| |]; unfold rem in *; lia. }
    set (st' := Mm.push_root (Mm.set_mem st1 m4) (bp + asize)) in *.
    simpl_mm in Hfr5.
    assert (Hroot1 : In (Mm.root st1) (drop [bp] L)).
    { rewrite (fl_root _ _ Hfl3). rewrite Hdrop. destruct (drop [bp] F); now left. }
    assert (Hfr5' : forall a, (a < bp + asize \/ bp + asize + 16 <= a) ->
                              ~ cells (drop [bp] L) a -> Mm.mem st' a = m4 a).
    { intros a Ha1 Ha2. apply Hfr5; [exact Ha1|].
      pose proof (not_cells_in _ _ _ Ha2 Hroot1). lia. }
    assert (Hnd : forall c, bp - 4 <= c < bp + csize - 4 -> ~ cells (drop [bp] L) c).
    { intros c Hc Hcell. destruct (Hcell_drop c Hcell); lia. }
    destruct Hreg5 as (R5a & R5b & R5c). simpl_mm in R5a. simpl_mm in R5b. simpl_mm in R5c.
    split; [|split].
    + apply (heap_replace_mid None st st' pre [(csize, 0)] [(asize, 1); (rem, 0)] post F).
      * exact H.
      * repeat split; congruence.
      * unfold total. cbn. unfold rem. lia.
      * discriminate.
      * rewrite total_single. fold hl. rewrite <- Hbp. fold L.
        intros a Ha1 Ha2. rewrite Hfr5'; [|lia|intros Hc; apply Ha2; eapply cells_drop; eauto].
        rewrite Hfr4 by (unfold rem; lia). rewrite Hfr3 by exact Ha2.
        apply Hfr2; lia.
      * fold hl. rewrite <- Hbp. cbn [starts].
        repeat apply Forall_cons; [| |apply Forall_nil]; unfold block_ok, tag_word.
        -- repeat split; auto; try lia.
           ++ rewrite <- Ht1. rewrite <- (Hg3 (bp - 4)) by lia.
              transitivity (GET m4 (bp - 4)).
              ** apply GET_frame. intros c Hc. apply Hfr5'; [lia|apply Hnd; lia].
              ** apply GET_frame. intros c Hc. apply Hfr4; unfold rem; lia.
           ++ rewrite <- Ht2. rewrite <- (Hg3 (bp + asize - 8)) by lia.
              transitivity (GET m4 (bp + asize - 8)).
              ** apply GET_frame. intros c Hc. apply Hfr5'; [lia|apply Hnd; unfold rem in *; lia].
              ** apply GET_frame. intros c Hc. apply Hfr4; unfold rem; lia.
        -- rewrite Z.add_0_r. repeat split; auto; try (unfold rem; lia).
           ++ transitivity (GET m4 (bp + asize - 4)); [|exact Ht3].
              apply GET_frame. intros c Hc. apply Hfr5'; [lia|apply Hnd; unfold rem in *; lia].
           ++ transitivity (GET m4 (bp + asize + rem - 8)); [|exact Ht4].
              apply GET_frame. intros c Hc.
              apply Hfr5'; [unfold rem in *; lia|apply Hnd; unfold rem in *; lia].
      * fold hl. change ((bp + asize :: drop [bp] F) ++ [hl - 24])
          with (bp + asize :: (drop [bp] F ++ [hl - 24])).
        rewrite <- Hdrop. exact Hfl5.
      * constructor; [|apply NoDup_drop, (hi_nodup _ _ _ _ H)].
        intros Hi. apply HdF in Hi. lia.
      * fold hl. rewrite <- Hbp, total_single. intros x. cbn [starts In]. rewrite HdF.
        split.
        -- intros [<-|Hx]; [right; exists rem; right; now left|now left].
        -- intros [Hx|(s & Hs)]; [now right|].
           destruct Hs as [E|[E|[]]]; [discriminate E|injection E as <- _; now left].
      * cbn [app]. apply no_adj_split with (s := csize). apply (hi_noadj _ _ _ _ H).
    + repeat split; congruence.
    + fold L. intros a Ha1 Ha2.
      rewrite Hfr5'; [|unfold rem in *; lia|intros Hc; apply Ha2; eapply cells_drop; eauto].
      rewrite Hfr4 by (unfold rem; lia). rewrite Hfr3 by exact Ha2.
      apply Hfr2; lia.
  - (* no split *)
    assert (Hcs : 0 <= csize < 2 ^ 32) by lia.
    destruct (tags_written m bp csize 1 Hcs Hc8 ltac:(lia)) as (Hf & Ht1 & Ht2 & Hfr2).
    set (m1 := PUT m (HDRP bp) (PACK csize 1)) in *.
    set (m2 := PUT m1 (FTRP m1 bp) (PACK csize 1)) in *.
    unfold HDRP, WSIZE in Ht1.
    assert (Hfl2 : free_list_ok (Mm.set_mem st m2) L).
    { apply (free_list_bytes st); auto. intros c Hc. simpl_mm.
      destruct (Hcell_far c Hc) as [?|[?|?]]; apply Hfr2; lia. }
    destruct (mm_unlink_in (Mm.set_mem st m2) L bp Hfl2 HbL ltac:(simpl_mm; lia))
      as (Hfl3 & Hfr3 & Hreg3).
    set (st' := Mm.mm_unlink (Mm.set_mem st m2) bp) in *.
    simpl_mm in Hfr3.
    destruct Hreg3 as (R3a & R3b & R3c). simpl_mm in R3a. simpl_mm in R3b. simpl_mm in R3c.
    split; [|split].
    + apply (heap_replace_mid None st st' pre [(csize, 0)] [(csize, 1)] post F).
      * exact H.
      * repeat split; congruence.
      * reflexivity.
      * discriminate.
      * rewrite total_single. fold hl. rewrite <- Hbp. fold L.
        intros a Ha1 Ha2. rewrite Hfr3 by exact Ha2. apply Hfr2; lia.
      * fold hl. rewrite <- Hbp. cbn [starts].
        apply Forall_cons; [|apply Forall_nil]. unfold block_ok, tag_word.
        repeat split; auto.
        -- rewrite <- Ht1.
           apply GET_frame. intros c Hc. apply Hfr3, Hncell. lia.
        -- rewrite <- Ht2.
           apply GET_frame. intros c Hc. apply Hfr3, Hncell. lia.
      * fold hl. rewrite <- Hdrop. exact Hfl3.
      * apply NoDup_drop, (hi_nodup _ _ _ _ H).
      * fold hl. rewrite <- Hbp, total_single. intros x. cbn [starts In]. rewrite HdF.
        split; [now left|]. intros [Hx|(s & [E|[]])]; [exact Hx|discriminate E].
      * cbn [app]. apply no_adj_alloc. apply (hi_noadj _ _ _ _ H).
    + repeat split; congruence.
    + fold L. intros a Ha1 Ha2. rewrite Hfr3 by exact Ha2. apply Hfr2; lia.
Qed.

(** X8: [place] of [mm.c] on a heap that satisfies the invariant, given
    a free block [bp] of [csize] bytes and a request of [asize] bytes,
    a multiple of eight between 24 and [csize].  When at least 24 bytes
    remain, the block is split: [bp] becomes an allocated block of
    [asize] bytes and the remainder a free block that heads the free
    list; otherwise the whole block becomes allocated.  Either way the
    heap satisfies the invariant, the region is as before, and no byte
    outside the block and the link fields of the listed nodes is
    written. *)
Theorem place_keeps_heap (st : Mm.state) (pre : list (Z * Z)) (csize : Z)
        (post : list (Z * Z)) (F : list Z) (bp asize : Z) :
  heap_inv None st (pre ++ (csize, 0) :: post) F ->
  bp = Mm.heap_listp st + 8 + total pre ->
  24 <= asize <= csize -> asize mod 8 = 0 ->
  let st' := Mm.place st bp asize in
  (if 24 <=? csize - asize
   then heap_inv None st' (pre ++ (asize, 1) :: (csize - asize, 0) :: post)
                 ((bp + asize) :: drop [bp] F)
   else heap_inv None st' (pre ++ (csize, 1) :: post) (drop [bp] F))
  /\ same_region st st'
  /\ (forall a, a < bp - 4 \/ bp + csize - 4 <= a ->
                ~ cells (F ++ [Mm.heap_listp st - 24]) a ->
                Mm.mem st' a = Mm.mem st a).
Proof. exact (mm_place_heap st pre csize post F bp asize). Qed.

Lemma place_keeps_heap_witness :
  let st := mm_heap4 in
  let pre := [(32, 1); (24, 0); (112, 1)] in
  let F := [4160; 4296] in
  let st' := Mm.place st 4296 48 in
  (if 24 <=? 1880 - 48
   then heap_inv None st' (pre ++ (48, 1) :: (1880 - 48, 0) :: [])
                 ((4296 + 48) :: drop [4296] F)
   else heap_inv None st' (pre ++ (1880, 1) :: []) (drop [4296] F))
  /\ same_region st st'
  /\ (forall a, a < 4296 - 4 \/ 4296 + 1880 - 4 <= a ->
                ~ cells (F ++ [Mm.heap_listp st - 24]) a ->
                Mm.mem st' a = Mm.mem st a).
Proof.
  apply (place_keeps_heap mm_heap4 [(32, 1); (24, 0); (112, 1)] 1880 [] [4160; 4296] 4296 48).
  - apply heap_invb_sound. vm_compute. reflexivity.
  - vm_compute. reflexivity.
  - lia.
  - reflexivity.
Defined.

(** ** [extend_heap] of [mm.c] *)

Lemma no_adj_snoc_alloc (bl : list (Z * Z)) (s : Z) :
  no_adj_from false bl -> no_adj_from false (bl ++ [(s, 1)]).
Proof.
  intros H. apply no_adj_app. split; [exact H|].
  cbn [no_adj_from]. split; [discriminate|exact I].
Qed.

Lemma starts_snoc_free (bl : list (Z * Z)) (b x s size : Z) :
  In (x, s, 0) (starts b (bl ++ [(size, 1)])) <-> In (x, s, 0) (starts b bl).
Proof.
  rewrite starts_app, in_app_iff. cbn [starts In]. split; [|tauto].
  intros [H|[E|[]]]; [exact H|discriminate E].
Qed.

(** The heap right after [extend_heap] has obtained [size] more bytes
    and written the tags of the new block and the new epilogue. *)
Lemma heap_grow (st : Mm.state) (bl : list (Z * Z)) (F : list Z) (size : Z) :
  heap_inv None st bl F ->
  24 <= size -> size mod 8 = 0 ->
  Mm.mem_brk st + size <= Mm.mem_max_addr st ->
  let bp := Mm.mem_brk st in
  let st1 := Mm.set_brk st (bp + size) in
  let m1 := PUT (Mm.mem st1) (HDRP bp) (PACK size 0) in
  let m2 := PUT m1 (FTRP m1 bp) (PACK size 0) in
  let m3 := PUT m2 (HDRP (NEXT_BLKP m2 bp)) (PACK 0 1) in
  heap_inv (Some bp) (Mm.set_mem st1 m3) (bl ++ [(size, 1)]) F
  /\ (forall a, a < bp - 4 \/ bp + size <= a -> m3 a = Mm.mem st a).
Proof.
  intros H Hs24 Hs8 Hfit. cbv zeta.
  set (bp := Mm.mem_brk st). set (m := Mm.mem st). set (hl := Mm.heap_listp st).
  pose proof (hi_cap _ _ _ _ H) as (Hk1 & Hk2 & Hk3). fold hl bp in Hk1, Hk2.
  pose proof (hi_brk _ _ _ _ H) as Hbrk. fold hl bp in Hbrk.
  pose proof (hi_lo _ _ _ _ H) as Hlo. fold hl in Hlo.
  pose proof (total_nonneg _ (heap_sized _ _ _ _ H)) as Htot.
  simpl_mm. fold m.
  destruct (tags_written m bp size 0 ltac:(lia) Hs8 ltac:(lia)) as (Hf & Ht1 & Ht2 & Hfr2).
  set (m1 := PUT m (HDRP bp) (PACK size 0)) in *.
  set (m2 := PUT m1 (FTRP m1 bp) (PACK size 0)) in *.
  rewrite Z.add_0_r in Ht1, Ht2. unfold HDRP, WSIZE in Ht1.
  assert (Hnb : HDRP (NEXT_BLKP m2 bp) = bp + size - 4).
  { unfold NEXT_BLKP, HDRP, WSIZE. rewrite GET_SIZE_eq, Ht1. lia. }
  rewrite Hnb. change (PACK 0 1) with 1.
  set (m3 := PUT m2 (bp + size - 4) 1).
  assert (Hfr3 : forall a, a < bp - 4 \/ bp + size <= a -> m3 a = m a).
  { intros a Ha. unfold m3. rewrite PUT_outside by lia. apply Hfr2; lia. }
  assert (Hg3 : forall t, t + 4 <= bp - 4 -> GET m3 t = GET m t).
  { intros t Ht. apply GET_frame. intros c Hc. apply Hfr3. lia. }
  split; [|exact Hfr3].
  constructor; simpl_mm; fold hl bp.
  - exact Hlo.
  - apply (hi_align _ _ _ _ H).
  - rewrite Hg3 by lia. apply (hi_pro_hdr _ _ _ _ H).
  - rewrite Hg3 by lia. apply (hi_pro_ftr _ _ _ _ H).
  - rewrite starts_app. cbn [starts]. rewrite <- Hbrk.
    apply Forall_app. split; [|apply Forall_cons; [|apply Forall_nil]].
    + apply Forall_forall. intros [[x s] a] Hi.
      destruct (heap_block _ _ _ _ _ _ _ H Hi) as (Hx1 & Hx2 & ? & ? & ? & Hg1 & Hg2).
      fold bp in Hx2. cbn [tag_word] in Hg1, Hg2. fold m in Hg1, Hg2.
      unfold block_ok, tag_word. destruct (Z.eqb_spec x bp); [lia|].
      rewrite !Hg3 by lia. auto.
    + unfold block_ok, tag_word. rewrite Z.eqb_refl. repeat split; auto.
      * unfold m3. rewrite GET_PUT_other by lia. exact Ht1.
      * unfold m3. rewrite GET_PUT_other by lia. exact Ht2.
  - rewrite total_app, total_single. lia.
  - replace (bp + size - 4) with (bp + size - 4) by lia.
    unfold m3. rewrite GET_PUT_same. reflexivity.
  - lia.
  - apply (hi_root _ _ _ _ H).
  - eapply dllseg_frame; [|apply (hi_dll _ _ _ _ H)].
    intros y Hy. fold hl in Hy.
    assert (Hy16 : y + 16 <= bp - 4).
    { apply in_app_or in Hy. destruct Hy as [Hy|[<-|[]]]; [|lia].
      destruct (heap_listed_block _ _ _ _ _ H Hy) as (s & _ & ? & Hyb & ?).
      fold bp in Hyb. lia. }
    unfold NEXT, PREV, DSIZE. split; apply GET_8_frame; intros c Hc; apply Hfr3; lia.
  - apply (hi_nodup _ _ _ _ H).
  - intros x. rewrite (hi_listed _ _ _ _ H). fold hl.
    split; intros (s & Hs); exists s; apply starts_snoc_free in Hs || apply starts_snoc_free;
      exact Hs.
  - apply no_adj_snoc_alloc, (hi_noadj _ _ _ _ H).
Qed.

(** [extend_heap] on a heap that satisfies the invariant. *)
Lemma mm_extend_heap_heap (st : Mm.state) (bl : list (Z * Z)) (F : list Z) (words : Z) :
  heap_inv None st bl F ->
  6 <= words < 2 ^ 61 ->
  let size := 4 * (words + words mod 2) in
  let brk := Mm.mem_brk st in
  (Mm.mem_max_addr st < brk + size -> Mm.extend_heap st words = (st, 0))
  /\ (brk + size <= Mm.mem_max_addr st ->
      let st' := fst (Mm.extend_heap st words) in
      let r := brk - free_before bl in
      snd (Mm.extend_heap st words) = r
      /\ heap_inv None st' (merge_at bl size []) (r :: drop (absorbed brk bl size []) F)
      /\ Mm.heap_listp st' = Mm.heap_listp st
      /\ Mm.mem_brk st' = brk + size
      /\ Mm.mem_max_addr st' = Mm.mem_max_addr st
      /\ (forall a, client_byte (Mm.heap_listp st - 24) (brk + size)
                      (starts (Mm.heap_listp st + 8) bl) 0 a ->
                    Mm.mem st' a = Mm.mem st a)).
Proof.
  intros H Hw. cbv zeta.
  set (size := 4 * (words + words mod 2)).
  set (bp := Mm.mem_brk st). set (hl := Mm.heap_listp st).
  pose proof (hi_cap _ _ _ _ H) as (Hk1 & Hk2 & Hk3). fold hl bp in Hk1, Hk2.
  pose proof (hi_brk _ _ _ _ H) as Hbrk. fold hl bp in Hbrk.
  pose proof (hi_lo _ _ _ _ H) as Hlo. fold hl in Hlo.
  pose proof (total_nonneg _ (heap_sized _ _ _ _ H)) as Htot.
  assert (Hsz : (if negb (words mod 2 =? 0) then wrap ((words + 1) * WSIZE)
                 else wrap (words * WSIZE)) = size).
  { unfold size, wrap, SIZE_MAX1, WSIZE.
    destruct (Z.eqb_spec (words mod 2) 0) as [E|E]; cbn [negb];
      rewrite Z.mod_small by lia; lia. }
  assert (Hs24 : 24 <= size) by (unfold size; lia).
  assert (Hs8 : size mod 8 = 0) by (unfold size; lia).
  unfold Mm.extend_heap. cbv zeta. rewrite Hsz. unfold Mm.mem_sbrk. fold bp.
  destruct (Z.ltb_spec size 0); [lia|]. cbn [orb].
  split.
  - intros Hno. destruct (Z.gtb_spec (bp + size) (Mm.mem_max_addr st)); [|lia].
    reflexivity.
  - intros Hfit. destruct (Z.gtb_spec (bp + size) (Mm.mem_max_addr st)); [lia|].
    destruct (Z.ltb_spec bp 0); [lia|].
    destruct (heap_grow st bl F size H Hs24 Hs8 Hfit) as (Hmid & Hfr1).
    cbv zeta in Hmid, Hfr1. fold bp in Hmid, Hfr1.
    set (m3 := PUT _ (HDRP (NEXT_BLKP _ bp)) _) in *.
    set (st1 := Mm.set_mem (Mm.set_brk st (bp + size)) m3) in *.
    destruct (mm_coalesce_heap st1 bl size [] F bp Hmid) as (Hres & Hinv & Hreg & Hfr2).
    { unfold st1. simpl_mm. fold hl. lia. }
    cbv zeta in Hinv, Hfr2. destruct Hreg as (R1 & R2 & R3).
    unfold st1 in R1, R2, R3. simpl_mm in R1. simpl_mm in R2. simpl_mm in R3.
    split; [exact Hres|]. split; [exact Hinv|].
    split; [exact R1|]. split; [exact R2|]. split; [exact R3|].
    intros a Ha. rewrite Hfr2.
    + unfold st1. simpl_mm. apply Hfr1.
      destruct Ha as [?|[?|(b & s & Hb & _ & Hr)]]; try lia.
      destruct (heap_block _ _ _ _ _ _ _ H Hb) as (? & Hbb & ? & _). fold bp in Hbb. lia.
    + unfold st1. simpl_mm. fold hl.
      destruct Ha as [?|[?|(b & s & Hb & _ & Hr)]]; [now left|right; now left|].
      right. right. exists b, s. split; [|split; [|exact Hr]].
      * rewrite starts_app. apply in_or_app. now left.
      * destruct (heap_block _ _ _ _ _ _ _ H Hb) as (? & Hbb & ? & _). fold bp in Hbb. lia.
Qed.

(** X6: [extend_heap] of [mm.c] on a heap that satisfies the invariant,
    asked for [words] words with [6 <= words < 2^61], that is
    [size = 4 * (words + words mod 2)] bytes.  When the region cannot grow by [size], the call returns
    null and the state is untouched.  Otherwise the region grows by
    [size]; the new bytes form a free block, merged with the last block
    when that one is free; the call returns its start, the heap
    satisfies the invariant, and every byte outside the grown region
    and every payload byte of the allocated blocks is as before. *)
Theorem extend_heap_keeps_heap (st : Mm.state) (bl : list (Z * Z)) (F : list Z)
        (words : Z) :
  heap_inv None st bl F ->
  6 <= words < 2 ^ 61 ->
  let size := 4 * (words + words mod 2) in
  let brk := Mm.mem_brk st in
  (Mm.mem_max_addr st < brk + size -> Mm.extend_heap st words = (st, 0))
  /\ (brk + size <= Mm.mem_max_addr st ->
      let st' := fst (Mm.extend_heap st words) in
      let r := brk - free_before bl in
      snd (Mm.extend_heap st words) = r
      /\ heap_inv None st' (merge_at bl size []) (r :: drop (absorbed brk bl size []) F)
      /\ Mm.heap_listp st' = Mm.heap_listp st
      /\ Mm.mem_brk st' = brk + size
      /\ Mm.mem_max_addr st' = Mm.mem_max_addr st
      /\ (forall a, client_byte (Mm.heap_listp st - 24) (brk + size)
                      (starts (Mm.heap_listp st + 8) bl) 0 a ->
                    Mm.mem st' a = Mm.mem st a)).
Proof. exact (mm_extend_heap_heap st bl F words). Qed.

Lemma extend_heap_keeps_heap_witness :
  let st := mm_heap3 in
  let bl := [(32, 1); (24, 1); (112, 1); (1880, 0)] in
  let words := 511 in
  let size := 4 * (words + words mod 2) in
  let brk := Mm.mem_brk st in
  (Mm.mem_max_addr st < brk + size -> Mm.extend_heap st words = (st, 0))
  /\ (brk + size <= Mm.mem_max_addr st ->
      let st' := fst (Mm.extend_heap st words) in
      let r := brk - free_before bl in
      snd (Mm.extend_heap st words) = r
      /\ heap_inv None st' (merge_at bl size []) (r :: drop (absorbed brk bl size []) [4296])
      /\ Mm.heap_listp st' = Mm.heap_listp st
      /\ Mm.mem_brk st' = brk + size
      /\ Mm.mem_max_addr st' = Mm.mem_max_addr st
      /\ (forall a, client_byte (Mm.heap_listp st - 24) (brk + size)
                      (starts (Mm.heap_listp st + 8) bl) 0 a ->
                    Mm.mem st' a = Mm.mem st a)).
Proof.
  apply (extend_heap_keeps_heap mm_heap3 [(32, 1); (24, 1); (112, 1); (1880, 0)] [4296] 511).
  - apply heap_invb_sound. vm_compute. reflexivity.
  - lia.
Defined.

(** ** [find_fit] of [mm.c] *)

Lemma walk_mono (fuel : nat) (m : memory) : forall fuel' p l,
  walk fuel m p = Some l -> (fuel <= fuel')%nat -> walk fuel' m p = Some l.
Proof.
  induction fuel as [|f IH]; intros fuel' p l; cbn [walk].
  - destruct (p =? 0) eqn:E; [|discriminate]. intros [= <-] _.
    destruct fuel'; cbn [walk]; now rewrite E.
  - destruct (p =? 0) eqn:E.
    + intros [= <-] _. destruct fuel'; cbn [walk]; now rewrite E.
    + destruct (walk f m (NEXT m p)) as [l'|] eqn:Ew; [|discriminate].
      intros [= <-] Hle. destruct fuel' as [|f']; [lia|]. cbn [walk]. rewrite E.
      rewrite (IH f' _ _ Ew) by lia. reflexivity.
Qed.

Lemma heap_walk (u : option Z) (st : Mm.state) (bl : list (Z * Z)) (F : list Z) (fuel : nat) :
  heap_inv u st bl F -> (length F < fuel)%nat ->
  walk fuel (Mm.mem st) (Mm.root st) = Some (F ++ [Mm.heap_listp st - 24]).
Proof.
  intros H Hf. pose proof (heap_free_list _ _ _ _ H) as Hfl.
  apply (walk_mono (length (F ++ [Mm.heap_listp st - 24]))).
  - rewrite (fl_root _ _ Hfl). apply (walk_dllseg _ _ 0 (fl_dll _ _ Hfl)).
    intros x Hx. pose proof (fl_range _ _ Hfl x Hx). lia.
  - rewrite length_app. cbn [length]. lia.
Qed.

Lemma In_starts_split (bl : list (Z * Z)) : forall b x s a,
  In (x, s, a) (starts b bl) ->
  exists pre post, bl = pre ++ (s, a) :: post /\ x = b + total pre.
Proof.
  induction bl as [|[s0 a0] t IH]; intros b x s a; cbn [starts]; [intros []|].
  intros [[= <- <- <-]|Hi].
  - exists [], t. rewrite total_nil. split; [reflexivity|lia].
  - destruct (IH _ _ _ _ Hi) as (pre & post & -> & ->).
    exists ((s0, a0) :: pre), post. rewrite total_cons. split; [reflexivity|lia].
Qed.

Lemma heap_free_size (st : Mm.state) (bl : list (Z * Z)) (F : list Z) (x s : Z) :
  heap_inv None st bl F -> In (x, s, 0) (starts (Mm.heap_listp st + 8) bl) ->
  GET_SIZE (Mm.mem st) (HDRP x) = s.
Proof.
  intros H Hi. destruct (heap_block _ _ _ _ _ _ _ H Hi) as (_ & _ & ? & ? & _ & Hg & _).
  cbn [tag_word] in Hg. unfold HDRP, WSIZE. rewrite GET_SIZE_eq, Hg. lia.
Qed.

(** [find_fit] on a heap: the first listed block that is large enough. *)
Lemma mm_find_fit_heap (st : Mm.state) (bl : list (Z * Z)) (F : list Z)
      (fuel : nat) (asize : Z) :
  heap_inv None st bl F -> (length F < fuel)%nat ->
  GET_SIZE (Mm.mem st) (Mm.heap_listp st - 28) < asize ->
  exists r,
    Mm.find_fit fuel st asize = Some r
    /\ ((r = 0 /\ forall x s, In (x, s, 0) (starts (Mm.heap_listp st + 8) bl) -> s < asize)
        \/ (exists pre csize post A B,
              bl = pre ++ (csize, 0) :: post
              /\ r = Mm.heap_listp st + 8 + total pre
              /\ asize <= csize
              /\ F = A ++ r :: B
              /\ forall y s, In y A ->
                   In (y, s, 0) (starts (Mm.heap_listp st + 8) bl) -> s < asize)).
Proof.
  intros H Hf Hslot.
  set (hl := Mm.heap_listp st) in *. set (m := Mm.mem st) in *.
  pose proof (heap_walk _ _ _ _ _ H Hf) as Hw. fold hl m in Hw.
  exists (first_fitting m asize (F ++ [hl - 24])). split.
  - unfold Mm.find_fit. now apply first_fit_walk.
  - pose proof (heap_free_list _ _ _ _ H) as Hfl. fold hl in Hfl.
    destruct (first_fitting_spec m asize (F ++ [hl - 24])) as [[E Hall]|(Hr & A & B & HL & HA & Hfit)].
    { intros x Hx. pose proof (fl_range _ _ Hfl x Hx). lia. }
    + left. split; [exact E|]. intros x s Hi.
      rewrite <- (heap_free_size _ _ _ _ _ H Hi). fold m. apply Hall.
      apply in_or_app. left. apply (hi_listed _ _ _ _ H). eauto.
    + right. set (r := first_fitting m asize (F ++ [hl - 24])) in *.
      assert (HrF : In r F /\ exists B', B = B' ++ [hl - 24] /\ F = A ++ r :: B').
      { destruct (exists_last_Z B) as [->|(B' & z & ->)].
        - exfalso. change (A ++ [r]) with (A ++ [r]) in HL.
          apply app_inj_tail in HL. destruct HL as [_ E].
          rewrite <- E in Hfit. unfold HDRP, WSIZE in Hfit.
          replace (hl - 24 - 4) with (hl - 28) in Hfit by lia. lia.
        - change (A ++ r :: B' ++ [z]) with (A ++ (r :: B') ++ [z]) in HL.
          rewrite app_assoc in HL. apply app_inj_tail in HL. destruct HL as [E1 E2].
          subst z. split; [rewrite E1; apply in_elt|]. exists B'. auto. }
      destruct HrF as (HrF & B' & -> & HF).
      apply (hi_listed _ _ _ _ H) in HrF. destruct HrF as (cs & Hcs). fold hl in Hcs.
      destruct (In_starts_split _ _ _ _ _ Hcs) as (pre & post & Hbl & Hrp).
      exists pre, cs, post, A, B'.
      pose proof (heap_free_size _ _ _ _ _ H Hcs) as Hsz. fold m in Hsz.
      rewrite Hsz in Hfit.
      repeat split; auto.
      intros y s Hy Hys. rewrite <- (heap_free_size _ _ _ _ _ H Hys). fold m. now apply HA.
Qed.

(** X7: [find_fit] of [mm.c] (first fit) on a heap that satisfies the
    invariant, with fuel for the whole list.  The search also inspects
    the root slot that ends the list, reading the word below the
    region as its size; when that word is smaller than [asize], the
    call returns the first block of the free list, in list order, that
    has at least [asize] bytes, and null when no free block is that
    large. *)
Theorem find_fit_first_in_heap (st : Mm.state) (bl : list (Z * Z)) (F : list Z)
        (fuel : nat) (asize : Z) :
  heap_inv None st bl F -> (length F < fuel)%nat ->
  GET_SIZE (Mm.mem st) (Mm.heap_listp st - 28) < asize ->
  exists r,
    Mm.find_fit fuel st asize = Some r
    /\ ((r = 0 /\ forall x s, In (x, s, 0) (starts (Mm.heap_listp st + 8) bl) -> s < asize)
        \/ (exists pre csize post A B,
              bl = pre ++ (csize, 0) :: post
              /\ r = Mm.heap_listp st + 8 + total pre
              /\ asize <= csize
              /\ F = A ++ r :: B
              /\ forall y s, In y A ->
                   In (y, s, 0) (starts (Mm.heap_listp st + 8) bl) -> s < asize)).
Proof. exact (mm_find_fit_heap st bl F fuel asize). Qed.

Lemma find_fit_first_in_heap_witness :
  let st := mm_heap_frees in
  let bl := [(64, 0); (24, 1); (48, 0); (24, 1); (1888, 0)] in
  let F := [4216; 4128; 4288] in
  exists r,
    Mm.find_fit 8 st 56 = Some r
    /\ ((r = 0 /\ forall x s, In (x, s, 0) (starts (Mm.heap_listp st + 8) bl) -> s < 56)
        \/ (exists pre csize post A B,
              bl = pre ++ (csize, 0) :: post
              /\ r = Mm.heap_listp st + 8 + total pre
              /\ 56 <= csize
              /\ F = A ++ r :: B
              /\ forall y s, In y A ->
                   In (y, s, 0) (starts (Mm.heap_listp st + 8) bl) -> s < 56)).
Proof.
  apply (find_fit_first_in_heap mm_heap_frees
           [(64, 0); (24, 1); (48, 0); (24, 1); (1888, 0)] [4216; 4128; 4288] 8 56).
  - apply heap_invb_sound. vm_compute. reflexivity.
  - vm_compute. lia.
  - vm_compute. reflexivity.
Defined.

Lemma filter_none (f : Z -> bool) (l : list Z) :
  (forall x, In x l -> f x = false) -> filter f l = [].
Proof.
  induction l as [|x t IH]; intros H; [reflexivity|]. cbn [filter].
  rewrite (H x) by now left. apply IH. intros y Hy. apply H. now right.
Qed.

(** X11: [find_fit] of [mm.c] on a heap that satisfies the invariant
    and in which no free block has [asize] bytes.  The search goes on
    to the root slot that ends the free list and reads the word below
    the region as its size: when that word is at least [asize], the
    call returns the root slot [heap_listp - 24] as a fit. *)
Theorem find_fit_returns_root_slot (st : Mm.state) (bl : list (Z * Z)) (F : list Z)
        (fuel : nat) (asize : Z) :
  heap_inv None st bl F -> (length F < fuel)%nat ->
  (forall x s, In (x, s, 0) (starts (Mm.heap_listp st + 8) bl) -> s < asize) ->
  asize <= GET_SIZE (Mm.mem st) (Mm.heap_listp st - 28) ->
  Mm.find_fit fuel st asize = Some (Mm.heap_listp st - 24).
Proof.
  intros H Hf Hsmall Hword.
  pose proof (heap_walk _ _ _ _ _ H Hf) as Hw.
  unfold Mm.find_fit. rewrite (first_fit_walk _ _ _ _ _ Hw).
  unfold first_fitting. rewrite filter_app, filter_none.
  - cbn [app filter]. unfold HDRP, WSIZE.
    replace (Mm.heap_listp st - 24 - 4) with (Mm.heap_listp st - 28) by lia.
    destruct (Z.leb_spec asize (GET_SIZE (Mm.mem st) (Mm.heap_listp st - 28))); [reflexivity|lia].
  - intros x Hx. apply (hi_listed _ _ _ _ H) in Hx. destruct Hx as (s & Hs).
    rewrite (heap_free_size _ _ _ _ _ H Hs). specialize (Hsmall x s Hs). lia.
Qed.

Lemma find_fit_returns_root_slot_witness :
  Mm.find_fit 4 mm_heap_full 24 = Some (Mm.heap_listp mm_heap_full - 24).
Proof.
  apply (find_fit_returns_root_slot mm_heap_full [(2048, 1)] [] 4 24).
  - apply heap_invb_sound. vm_compute. reflexivity.
  - vm_compute. lia.
  - intros x s Hi. vm_compute in Hi. destruct Hi as [E|[]]. discriminate E.
  - vm_compute. discriminate.
Defined.

(** ** [mm_malloc] of [mm.c] *)

(** Allocated blocks before and after a change of layout. *)
Lemma live_split (b : Z) (pre : list (Z * Z)) (csize asize : Z) (post : list (Z * Z))
      (x s : Z) :
  In (x, s, 1) (starts b (pre ++ (asize, 1) :: (csize - asize, 0) :: post))
  <-> In (x, s, 1) (starts b (pre ++ (csize, 0) :: post))
      \/ (x = b + total pre /\ s = asize).
Proof.
  rewrite !starts_app, !in_app_iff. cbn [starts In].
  replace (b + total pre + asize + (csize - asize)) with (b + total pre + csize) by lia.
  split.
  - intros [H|[E|[E|H]]]; auto.
    + injection E as <- <-. auto.
    + discriminate E.
  - intros [[H|[E|H]]|[-> ->]]; auto. discriminate E.
Qed.

Lemma live_nosplit (b : Z) (pre : list (Z * Z)) (csize : Z) (post : list (Z * Z))
      (x s : Z) :
  In (x, s, 1) (starts b (pre ++ (csize, 1) :: post))
  <-> In (x, s, 1) (starts b (pre ++ (csize, 0) :: post))
      \/ (x = b + total pre /\ s = csize).
Proof.
  rewrite !starts_app, !in_app_iff. cbn [starts In].
  split.
  - intros [H|[E|H]]; auto. injection E as <- <-. auto.
  - intros [[H|[E|H]]|[-> ->]]; auto. discriminate E.
Qed.

Lemma live_merge (b : Z) (pre : list (Z * Z)) (hw : Z) (post : list (Z * Z)) (x s : Z) :
  bits_ok pre -> bits_ok post -> 0 < hw ->
  In (x, s, 1) (starts b (merge_at pre hw post))
  <-> In (x, s, 1) (starts b (pre ++ (hw, 1) :: post)) /\ x <> b + total pre.
Proof.
  intros Hpre Hpost Hhw.
  destruct (pre_shape pre Hpre) as (Ep & Hpb & _).
  destruct (post_shape post Hpost) as (Eq & Hnb & _).
  unfold merge_at.
  remember (free_before pre) as pb. remember (keep_before pre) as kb.
  remember (free_after post) as nb. remember (keep_after post) as ka.
  assert (Hbkb : bits_ok kb) by (rewrite Ep in Hpre; apply bits_ok_app in Hpre; tauto).
  assert (Hbka : bits_ok ka) by (rewrite Eq in Hpost; apply bits_ok_app in Hpost; tauto).
  assert (Htp : total pre = total kb + pb).
  { rewrite Ep at 1. rewrite total_app.
    destruct (Z.ltb_spec 0 pb); rewrite ?total_single, ?total_nil; lia. }
  rewrite Ep at 1. rewrite Eq at 1.
  rewrite <- !app_assoc, !starts_app, !in_app_iff. cbn [starts In].
  rewrite !starts_app, !in_app_iff.
  assert (HK : forall y t c, In (y, t, c) (starts b kb) -> y + t <= b + total kb /\ 24 <= t).
  { intros y t c Hi. destruct (starts_bounds _ _ _ _ _ (bits_sized _ Hbkb) Hi). lia. }
  assert (HA : forall b' y t c, In (y, t, c) (starts b' ka) -> b' <= y).
  { intros b' y t c Hi. destruct (starts_bounds _ _ _ _ _ (bits_sized _ Hbka) Hi). lia. }
  assert (Etot : b + total kb + total (if 0 <? pb then [(pb, 0)] else []) = b + total pre).
  { destruct (Z.ltb_spec 0 pb); rewrite ?total_single, ?total_nil; lia. }
  rewrite Etot.
  assert (Etq : b + total pre + hw + total (if 0 <? nb then [(nb, 0)] else [])
                = b + total kb + (pb + hw + nb)).
  { destruct (Z.ltb_spec 0 nb); rewrite ?total_single, ?total_nil; lia. }
  rewrite Etq.
  split.
  - intros [H|[E|H]].
    + split; [now left|]. destruct (HK _ _ _ H). lia.
    + discriminate E.
    + split; [auto 6|]. pose proof (HA _ _ _ _ H). lia.
  - intros [[H|[H|[E|[H|H]]]] Hne]; auto.
    + destruct (Z.ltb_spec 0 pb); cbn [starts In] in H; [|destruct H].
      destruct H as [E|[]]. discriminate E.
    + injection E as E _. lia.
    + destruct (Z.ltb_spec 0 nb); cbn [starts In] in H; [|destruct H].
      destruct H as [E|[]]. discriminate E.
Qed.

Lemma total_mod8 (bl : list (Z * Z)) :
  (forall s a, In (s, a) bl -> s mod 8 = 0) -> total bl mod 8 = 0.
Proof.
  induction bl as [|[s a] t IH]; intros H; [reflexivity|].
  rewrite total_cons.
  assert (s mod 8 = 0) by (apply (H s a); now left).
  assert (total t mod 8 = 0) by (apply IH; intros s' a' Hi; apply (H s' a'); now right).
  lia.
Qed.

Lemma heap_block_aligned u st bl F x s a :
  heap_inv u st bl F -> In (x, s, a) (starts (Mm.heap_listp st + 8) bl) -> x mod 8 = 0.
Proof.
  intros H Hi. destruct (In_starts_split _ _ _ _ _ Hi) as (pre & post & Hbl & ->).
  pose proof (hi_align _ _ _ _ H).
  assert (total pre mod 8 = 0).
  { apply total_mod8. intros s' a' Hi'.
    assert (Hin : In (s', a') bl) by (rewrite Hbl; apply in_or_app; now left).
    pose proof (hi_blocks _ _ _ _ H) as Hb.
    revert Hb Hin. generalize (Mm.heap_listp st + 8). clear.
    induction bl as [|[s0 a0] t IH]; intros b Hb Hin; [destruct Hin|].
    cbn [starts] in Hb. apply Forall_cons_iff in Hb. destruct Hb as [H1 H2].
    destruct Hin as [[= <- <-]|Hin]; [unfold block_ok in H1; tauto|eauto]. }
  lia.
Qed.

Lemma adjust_size_fits (size : Z) :
  0 < size < 2 ^ 32 ->
  24 <= adjust_size size < 2 ^ 33 /\ adjust_size size mod 8 = 0
  /\ size + 8 <= adjust_size size.
Proof.
  intros Hs. unfold adjust_size, QSIZE, OVERHEAD, DSIZE, wrap, SIZE_MAX1.
  destruct (Z.leb_spec size 16); [lia|].
  destruct (Z.leb_spec size 449), (Z.geb_spec size 448); cbn [andb]; try lia.
  all: rewrite (Z.mod_small (size + 8 + (8 - 1))) by lia.
  all: rewrite Z.mod_small by lia; lia.
Qed.

(** [mm_malloc] on a heap, for a request below 4 GiB. *)
Lemma mm_malloc_small (st : Mm.state) (bl : list (Z * Z)) (F : list Z)
      (fuel : nat) (size : Z) :
  heap_inv None st bl F -> (length F < fuel)%nat -> 0 < size < 2 ^ 32 ->
  GET_SIZE (Mm.mem st) (Mm.heap_listp st - 28) < adjust_size size ->
  let hl := Mm.heap_listp st in
  let sl := starts (hl + 8) bl in
  let asize := adjust_size size in
  exists st' p,
    Mm.mm_malloc fuel st size = Some (st', p)
    /\ ((p = 0 /\ st' = st
         /\ (forall x s, In (x, s, 0) sl -> s < asize)
         /\ Mm.mem_max_addr st < Mm.mem_brk st + MAX asize Mm.CHUNKSIZE)
        \/ (exists bl' F' s,
              heap_inv None st' bl' F'
              /\ Mm.heap_listp st' = hl
              /\ Mm.mem_max_addr st' = Mm.mem_max_addr st
              /\ Mm.mem_brk st <= Mm.mem_brk st'
              /\ ((exists x s0, In (x, s0, 0) sl /\ asize <= s0) ->
                  Mm.mem_brk st' = Mm.mem_brk st)
              /\ In (p, s, 1) (starts (hl + 8) bl') /\ size + 8 <= s /\ p mod 8 = 0
              /\ (forall s0, ~ In (p, s0, 1) sl)
              /\ (forall b s0, In (b, s0, 1) (starts (hl + 8) bl')
                               <-> In (b, s0, 1) sl \/ (b = p /\ s0 = s))
              /\ (forall a, client_byte (hl - 24) (Mm.mem_brk st') sl 0 a ->
                            Mm.mem st' a = Mm.mem st a))).
Proof.
  intros H Hf Hsize Hslot. cbv zeta.
  set (hl := Mm.heap_listp st) in *.
  set (sl := starts (hl + 8) bl).
  destruct (adjust_size_fits size Hsize) as (Ha24 & Ha8 & Hafit).
  set (asize := adjust_size size) in *.
  pose proof (hi_lo _ _ _ _ H) as Hlo. fold hl in Hlo.
  pose proof (hi_cap _ _ _ _ H) as (Hk1 & Hk2 & Hk3). fold hl in Hk2.
  pose proof (hi_brk _ _ _ _ H) as Hbrk. fold hl in Hbrk.
  pose proof (heap_bits _ _ _ _ H) as Hbits.
  unfold Mm.mm_malloc. fold hl.
  destruct (Z.eqb_spec hl 0); [lia|].
  destruct (Z.leb_spec size 0); [lia|]. cbv zeta. fold asize.
  destruct (mm_find_fit_heap st bl F fuel asize H Hf Hslot)
    as (r & Hr & [(-> & Hnone)|(pre & csize & post & A & B & Hbl & Hrp & Hfit & HF & Hfirst)]).
  - (* no fit: the heap is extended *)
    rewrite Hr. cbn [Z.eqb negb].
    set (esize := MAX asize Mm.CHUNKSIZE).
    assert (He : 2048 <= esize < 2 ^ 33 /\ esize mod 8 = 0 /\ asize <= esize).
    { unfold esize, MAX, Mm.CHUNKSIZE. destruct (Z.gtb_spec asize (2 ^ 11)); lia. }
    destruct He as (He1 & He8 & Hea).
    set (words := esize / WSIZE).
    assert (Hw : 6 <= words < 2 ^ 61 /\ 4 * (words + words mod 2) = esize).
    { unfold words, WSIZE. lia. }
    destruct Hw as (Hw & Hwe).
    destruct (mm_extend_heap_heap st bl F words H Hw) as (Hfail & Hsucc).
    cbv zeta in Hfail, Hsucc. rewrite Hwe in Hfail, Hsucc.
    destruct (Z.lt_ge_cases (Mm.mem_max_addr st) (Mm.mem_brk st + esize)) as [Hno|Hyes].
    + rewrite (Hfail Hno). cbn [Z.eqb]. exists st, 0. split; [reflexivity|].
      left. repeat split; auto.
    + destruct (Hsucc ltac:(lia)) as (Hres & Hinv & R1 & R2 & R3 & Hfr1).
      destruct (Mm.extend_heap st words) as [st1 bp1]. cbn [fst snd] in *.
      destruct (pre_shape bl Hbits) as (Ebl & Hpb & _).
      unfold merge_at in Hinv. cbn [free_after keep_after] in Hinv.
      remember (free_before bl) as pb. remember (keep_before bl) as kb.
      assert (Htb : total bl = total kb + pb).
      { rewrite Ebl at 1. rewrite total_app.
        destruct (Z.ltb_spec 0 pb); rewrite ?total_single, ?total_nil; lia. }
      assert (Hbkb : bits_ok kb) by (rewrite Ebl in Hbits; apply bits_ok_app in Hbits; tauto).
      pose proof (total_nonneg _ (bits_sized _ Hbkb)) as Htkb.
      rewrite Z.add_0_r in Hinv.
      assert (Hbp1 : bp1 = Mm.heap_listp st1 + 8 + total kb) by (rewrite R1; fold hl; lia).
      destruct (Z.eqb_spec bp1 0); [lia|].
      destruct (mm_place_heap st1 kb (pb + esize) [] _ bp1 asize Hinv Hbp1 ltac:(lia) Ha8)
        as (Hpl & Hreg & Hfr2).
      cbv zeta in Hpl, Hfr2.
      set (st' := Mm.place st1 bp1 asize) in *.
      destruct Hreg as (Q1 & Q2 & Q3).
      assert (Hlive0 : forall b s0, In (b, s0, 1) (starts (hl + 8) kb) <-> In (b, s0, 1) sl).
      { intros b s0. unfold sl. rewrite Ebl at 1. rewrite starts_app, in_app_iff.
        split; [auto|]. intros [Hi|Hi]; [exact Hi|].
        destruct (Z.ltb_spec 0 pb); cbn [starts In] in Hi; [|destruct Hi].
        destruct Hi as [E|[]]. discriminate E. }
      assert (Hfresh : forall s0, ~ In (bp1, s0, 1) sl).
      { intros s0 Hi. destruct (heap_block _ _ _ _ _ _ _ H Hi) as (? & Hb2 & ? & _).
        apply Hlive0 in Hi.
        destruct (starts_bounds _ _ _ _ _ (bits_sized _ Hbkb) Hi) as (? & ? & ?).
        fold hl in Hbrk. lia. }
      assert (Hfr : forall a, client_byte (hl - 24) (Mm.mem_brk st') sl 0 a ->
                              Mm.mem st' a = Mm.mem st a).
      { intros a Ha. rewrite Q2, R2 in Ha.
        rewrite Hfr2; [apply Hfr1; exact Ha| |].
        - destruct Ha as [?|[?|(b & s & Hb & _ & Hr')]]; try lia.
          apply Hlive0 in Hb.
          destruct (starts_bounds _ _ _ _ _ (bits_sized _ Hbkb) Hb) as (? & ? & ?). lia.
        - apply (heap_client_not_cell _ _ _ _ 0 _ Hinv). rewrite R1, R2. fold hl.
          destruct Ha as [?|[?|(b & s & Hb & Hne & Hr')]]; [now left|right; now left|].
          right. right. exists b, s. split; [|auto].
          rewrite starts_app. apply in_or_app. left. now apply Hlive0. }
      exists st', bp1. split; [reflexivity|]. right.
      destruct (Z.leb_spec 24 (pb + esize - asize)).
      * exists (kb ++ [(asize, 1); (pb + esize - asize, 0)]). eexists. exists asize.
        split; [exact Hpl|]. split; [unfold hl; congruence|]. split; [congruence|].
        split; [lia|]. split.
        { intros (x & s0 & Hx & Hs0). specialize (Hnone x s0 Hx). lia. }
        assert (Hl : forall b s0, In (b, s0, 1) (starts (hl + 8) (kb ++ [(asize, 1); (pb + esize - asize, 0)]))
                       <-> In (b, s0, 1) sl \/ (b = bp1 /\ s0 = asize)).
        { intros b s0. rewrite (live_split (hl + 8) kb (pb + esize) asize [] b s0).
          rewrite starts_app, in_app_iff. cbn [starts In]. rewrite <- Hlive0.
          rewrite R1 in Hbp1. fold hl in Hbp1. rewrite <- Hbp1.
          split; [intros [[Hi|[E|[]]]|Hi]; auto; discriminate E|].
          intros [Hi|Hi]; auto. }
        split; [apply Hl; right; auto|]. split; [lia|].
        split; [apply (heap_block_aligned _ _ _ _ bp1 asize 1 Hpl); rewrite Q1, R1; apply Hl; auto|].
        split; [exact Hfresh|]. split; [exact Hl|exact Hfr].
      * exists (kb ++ [(pb + esize, 1)]). eexists. exists (pb + esize).
        split; [exact Hpl|]. split; [unfold hl; congruence|]. split; [congruence|].
        split; [lia|]. split.
        { intros (x & s0 & Hx & Hs0). specialize (Hnone x s0 Hx). lia. }
        assert (Hl : forall b s0, In (b, s0, 1) (starts (hl + 8) (kb ++ [(pb + esize, 1)]))
                       <-> In (b, s0, 1) sl \/ (b = bp1 /\ s0 = pb + esize)).
        { intros b s0. rewrite (live_nosplit (hl + 8) kb (pb + esize) [] b s0).
          rewrite starts_app, in_app_iff. cbn [starts In]. rewrite <- Hlive0.
          rewrite R1 in Hbp1. fold hl in Hbp1. rewrite <- Hbp1.
          split; [intros [[Hi|[E|[]]]|Hi]; auto; discriminate E|].
          intros [Hi|Hi]; auto. }
        split; [apply Hl; right; auto|]. split; [lia|].
        split; [apply (heap_block_aligned _ _ _ _ bp1 (pb + esize) 1 Hpl); rewrite Q1, R1;
                apply Hl; auto|].
        split; [exact Hfresh|]. split; [exact Hl|exact Hfr].
  - (* a listed block fits *)
    rewrite Hr. fold hl in Hrp.
    assert (Hpre0 : 0 <= total pre).
    { apply total_nonneg, bits_sized. rewrite Hbl in Hbits.
      apply bits_ok_app in Hbits. tauto. }
    destruct (Z.eqb_spec r 0); [lia|]. cbn [negb].
    rewrite Hbl in H.
    destruct (mm_place_heap st pre csize post F r asize H Hrp ltac:(lia) Ha8)
      as (Hpl & Hreg & Hfr2).
    cbv zeta in Hpl, Hfr2. fold hl in Hfr2.
    set (st' := Mm.place st r asize) in *.
    destruct Hreg as (Q1 & Q2 & Q3).
    assert (Hrin : In (r, csize, 0) (starts (hl + 8) (pre ++ (csize, 0) :: post)))
      by (rewrite Hrp; apply starts_mid).
    destruct (heap_block _ _ _ _ _ _ _ H Hrin) as (Hr1 & Hr2 & Hc24 & _).
    assert (Hfresh : forall s0, ~ In (r, s0, 1) sl).
    { intros s0 Hi. unfold sl in Hi. rewrite Hbl in Hi.
      destruct (starts_disjoint _ _ _ _ _ _ _ _ (heap_sized _ _ _ _ H) Hi Hrin)
        as [?|[?|(_ & _ & ?)]]; try lia.
      destruct (heap_block _ _ _ _ _ _ _ H Hi) as (_ & _ & ? & _). lia. }
    assert (Hfr : forall a, client_byte (hl - 24) (Mm.mem_brk st') sl 0 a ->
                            Mm.mem st' a = Mm.mem st a).
    { intros a Ha. rewrite Q2 in Ha. unfold sl in Ha. rewrite Hbl in Ha.
      apply Hfr2.
      - destruct Ha as [?|[?|(b & s & Hb & _ & Hr')]]; try lia.
        destruct (heap_block _ _ _ _ _ _ _ H Hb) as (_ & _ & ? & _).
        destruct (starts_disjoint _ _ _ _ _ _ _ _ (heap_sized _ _ _ _ H) Hb Hrin)
          as [?|[?|(_ & _ & ?)]]; lia.
      - apply (heap_client_not_cell _ _ _ _ 0 _ H). exact Ha. }
    exists st', r. split; [reflexivity|]. right.
    destruct (Z.leb_spec 24 (csize - asize)).
    + exists (pre ++ (asize, 1) :: (csize - asize, 0) :: post), (r + asize :: drop [r] F), asize.
      split; [exact Hpl|]. split; [unfold hl; congruence|]. split; [congruence|].
      split; [lia|]. split; [intros _; congruence|].
      assert (Hl : forall b s0,
                In (b, s0, 1) (starts (hl + 8) (pre ++ (asize, 1) :: (csize - asize, 0) :: post))
                <-> In (b, s0, 1) sl \/ (b = r /\ s0 = asize)).
      { intros b s0. unfold sl. rewrite Hbl, Hrp. apply live_split. }
      split; [apply Hl; right; auto|]. split; [lia|].
      split; [apply (heap_block_aligned _ _ _ _ r asize 1 Hpl); rewrite Q1; apply Hl; auto|].
      split; [exact Hfresh|]. split; [exact Hl|exact Hfr].
    + exists (pre ++ (csize, 1) :: post), (drop [r] F), csize.
      split; [exact Hpl|]. split; [unfold hl; congruence|]. split; [congruence|].
      split; [lia|]. split; [intros _; congruence|].
      assert (Hl : forall b s0,
                In (b, s0, 1) (starts (hl + 8) (pre ++ (csize, 1) :: post))
                <-> In (b, s0, 1) sl \/ (b = r /\ s0 = csize)).
      { intros b s0. unfold sl. rewrite Hbl, Hrp. apply live_nosplit. }
      split; [apply Hl; right; auto|]. split; [lia|].
      split; [apply (heap_block_aligned _ _ _ _ r csize 1 Hpl); rewrite Q1; apply Hl; auto|].
      split; [exact Hfresh|]. split; [exact Hl|exact Hfr].
Qed.

Lemma adjust_size_fits_wide (size : Z) :
  0 < size <= 2 ^ 64 - 16 ->
  24 <= adjust_size size < 2 ^ 64 /\ adjust_size size mod 8 = 0
  /\ size + 8 <= adjust_size size.
Proof.
  intros Hs. unfold adjust_size, QSIZE, OVERHEAD, DSIZE, wrap, SIZE_MAX1.
  destruct (Z.leb_spec size 16); [lia|].
  destruct (Z.leb_spec size 449), (Z.geb_spec size 448); cbn [andb]; try lia.
  all: rewrite (Z.mod_small (size + 8 + (8 - 1))) by lia.
  all: rewrite Z.mod_small by lia; lia.
Qed.

(** A request of 4 GiB or more finds no block, and the region cannot
    grow by that much. *)
Lemma mm_malloc_huge (st : Mm.state) (bl : list (Z * Z)) (F : list Z)
      (fuel : nat) (size : Z) :
  heap_inv None st bl F -> (length F < fuel)%nat -> 2 ^ 32 <= size <= 2 ^ 64 - 16 ->
  GET_SIZE (Mm.mem st) (Mm.heap_listp st - 28) < adjust_size size ->
  Mm.mm_malloc fuel st size = Some (st, 0)
  /\ (forall x s, In (x, s, 0) (starts (Mm.heap_listp st + 8) bl) -> s < adjust_size size)
  /\ Mm.mem_max_addr st < Mm.mem_brk st + MAX (adjust_size size) Mm.CHUNKSIZE.
Proof.
  intros H Hf Hsize Hslot.
  destruct (adjust_size_fits_wide size ltac:(lia)) as (Ha24 & Ha8 & Hafit).
  set (asize := adjust_size size) in *.
  set (hl := Mm.heap_listp st) in *.
  pose proof (hi_lo _ _ _ _ H) as Hlo. fold hl in Hlo.
  pose proof (hi_cap _ _ _ _ H) as (Hk1 & Hk2 & Hk3). fold hl in Hk2.
  pose proof (hi_brk _ _ _ _ H) as Hbrk. fold hl in Hbrk.
  pose proof (total_nonneg _ (heap_sized _ _ _ _ H)) as Htot.
  assert (Hnone : forall x s, In (x, s, 0) (starts (hl + 8) bl) -> s < asize).
  { intros x s Hi. destruct (heap_block _ _ _ _ _ _ _ H Hi) as (Hx1 & Hx2 & _).
    fold hl in Hx1. lia. }
  assert (Hmax : MAX asize Mm.CHUNKSIZE = asize).
  { unfold MAX, Mm.CHUNKSIZE. destruct (Z.gtb_spec asize (2 ^ 11)); lia. }
  split; [|split; [exact Hnone|rewrite Hmax; lia]].
  unfold Mm.mm_malloc. fold hl.
  destruct (Z.eqb_spec hl 0); [lia|].
  destruct (Z.leb_spec size 0); [lia|]. cbv zeta. fold asize.
  destruct (mm_find_fit_heap st bl F fuel asize H Hf Hslot)
    as (r & Hr & [(-> & _)|(pre & csize & post & A & B & Hbl & Hrp & Hfit & _)]).
  - rewrite Hr. cbn [Z.eqb negb]. rewrite Hmax.
    unfold Mm.extend_heap, Mm.mem_sbrk. cbv zeta.
    assert (Hw : (asize / WSIZE) mod 2 = 0 /\ wrap (asize / WSIZE * WSIZE) = asize).
    { unfold WSIZE, wrap, SIZE_MAX1. split; [lia|]. rewrite Z.mod_small by lia. lia. }
    destruct Hw as (Hw2 & Hw).
    rewrite Hw2. cbn [Z.eqb negb]. rewrite Hw.
    destruct (Z.ltb_spec asize 0); [lia|]. cbn [orb].
    destruct (Z.gtb_spec (Mm.mem_brk st + asize) (Mm.mem_max_addr st)); [|lia].
    reflexivity.
  - exfalso. fold hl in Hrp.
    assert (Hi : In (r, csize, 0) (starts (hl + 8) bl))
      by (rewrite Hbl, Hrp; apply starts_mid).
    specialize (Hnone _ _ Hi). lia.
Qed.

(** [mm_malloc] on a heap, for every request whose adjusted size does
    not wrap around. *)
Lemma mm_malloc_served (st : Mm.state) (bl : list (Z * Z)) (F : list Z)
      (fuel : nat) (size : Z) :
  heap_inv None st bl F -> (length F < fuel)%nat -> 0 < size <= 2 ^ 64 - 16 ->
  GET_SIZE (Mm.mem st) (Mm.heap_listp st - 28) < adjust_size size ->
  let hl := Mm.heap_listp st in
  let sl := starts (hl + 8) bl in
  let asize := adjust_size size in
  exists st' p,
    Mm.mm_malloc fuel st size = Some (st', p)
    /\ ((p = 0 /\ st' = st
         /\ (forall x s, In (x, s, 0) sl -> s < asize)
         /\ Mm.mem_max_addr st < Mm.mem_brk st + MAX asize Mm.CHUNKSIZE)
        \/ (exists bl' F' s,
              heap_inv None st' bl' F'
              /\ Mm.heap_listp st' = hl
              /\ Mm.mem_max_addr st' = Mm.mem_max_addr st
              /\ Mm.mem_brk st <= Mm.mem_brk st'
              /\ ((exists x s0, In (x, s0, 0) sl /\ asize <= s0) ->
                  Mm.mem_brk st' = Mm.mem_brk st)
              /\ In (p, s, 1) (starts (hl + 8) bl') /\ size + 8 <= s /\ p mod 8 = 0
              /\ (forall s0, ~ In (p, s0, 1) sl)
              /\ (forall b s0, In (b, s0, 1) (starts (hl + 8) bl')
                               <-> In (b, s0, 1) sl \/ (b = p /\ s0 = s))
              /\ (forall a, client_byte (hl - 24) (Mm.mem_brk st') sl 0 a ->
                            Mm.mem st' a = Mm.mem st a))).
Proof.
  intros H Hf Hsize Hslot.
  destruct (Z.lt_ge_cases size (2 ^ 32)) as [Hlt|Hge].
  - exact (mm_malloc_small st bl F fuel size H Hf (conj (proj1 Hsize) Hlt) Hslot).
  - destruct (mm_malloc_huge st bl F fuel size H Hf (conj Hge (proj2 Hsize)) Hslot)
      as (Hm & Hnone & Hno).
    cbv zeta. exists st, 0. split; [exact Hm|]. left. auto.
Qed.

(** X4: [mm_malloc] of [mm.c] on a heap that satisfies the invariant,
    for a request of [size] bytes with [0 < size <= 2^64 - 16], with
    fuel for the whole free list and the word below the region smaller
    than the adjusted size.  The call returns.  Either it returns null:
    then the state is untouched, no free block is large enough and the
    region cannot grow by the amount needed.  Or it returns the payload
    pointer [p] of a block that was not allocated before: [p] is
    8-aligned, the block has at least [size + 8] bytes, the heap
    satisfies the invariant, the allocated blocks are those of before
    and the new one, the region has not shrunk (and has not grown when
    a free block was large enough), and every byte outside the region
    and every payload byte of the blocks allocated before is as it
    was. *)
Theorem mm_malloc_heap (st : Mm.state) (bl : list (Z * Z)) (F : list Z)
      (fuel : nat) (size : Z) :
  heap_inv None st bl F -> (length F < fuel)%nat -> 0 < size <= 2 ^ 64 - 16 ->
  GET_SIZE (Mm.mem st) (Mm.heap_listp st - 28) < adjust_size size ->
  let hl := Mm.heap_listp st in
  let sl := starts (hl + 8) bl in
  let asize := adjust_size size in
  exists st' p,
    Mm.mm_malloc fuel st size = Some (st', p)
    /\ ((p = 0 /\ st' = st
         /\ (forall x s, In (x, s, 0) sl -> s < asize)
         /\ Mm.mem_max_addr st < Mm.mem_brk st + MAX asize Mm.CHUNKSIZE)
        \/ (exists bl' F' s,
              heap_inv None st' bl' F'
              /\ Mm.heap_listp st' = hl
              /\ Mm.mem_max_addr st' = Mm.mem_max_addr st
              /\ Mm.mem_brk st <= Mm.mem_brk st'
              /\ ((exists x s0, In (x, s0, 0) sl /\ asize <= s0) ->
                  Mm.mem_brk st' = Mm.mem_brk st)
              /\ In (p, s, 1) (starts (hl + 8) bl') /\ size + 8 <= s /\ p mod 8 = 0
              /\ (forall s0, ~ In (p, s0, 1) sl)
              /\ (forall b s0, In (b, s0, 1) (starts (hl + 8) bl')
                               <-> In (b, s0, 1) sl \/ (b = p /\ s0 = s))
              /\ (forall a, client_byte (hl - 24) (Mm.mem_brk st') sl 0 a ->
                            Mm.mem st' a = Mm.mem st a))).
Proof. exact (mm_malloc_served st bl F fuel size). Qed.

Lemma mm_malloc_heap_witness :
  let st := mm_heap4 in
  let bl := [(32, 1); (24, 0); (112, 1); (1880, 0)] in
  let size := 10 in
  let hl := Mm.heap_listp st in
  let sl := starts (hl + 8) bl in
  let asize := adjust_size size in
  exists st' p,
    Mm.mm_malloc 16 st size = Some (st', p)
    /\ ((p = 0 /\ st' = st
         /\ (forall x s, In (x, s, 0) sl -> s < asize)
         /\ Mm.mem_max_addr st < Mm.mem_brk st + MAX asize Mm.CHUNKSIZE)
        \/ (exists bl' F' s,
              heap_inv None st' bl' F'
              /\ Mm.heap_listp st' = hl
              /\ Mm.mem_max_addr st' = Mm.mem_max_addr st
              /\ Mm.mem_brk st <= Mm.mem_brk st'
              /\ ((exists x s0, In (x, s0, 0) sl /\ asize <= s0) ->
                  Mm.mem_brk st' = Mm.mem_brk st)
              /\ In (p, s, 1) (starts (hl + 8) bl') /\ size + 8 <= s /\ p mod 8 = 0
              /\ (forall s0, ~ In (p, s0, 1) sl)
              /\ (forall b s0, In (b, s0, 1) (starts (hl + 8) bl')
                               <-> In (b, s0, 1) sl \/ (b = p /\ s0 = s))
              /\ (forall a, client_byte (hl - 24) (Mm.mem_brk st') sl 0 a ->
                            Mm.mem st' a = Mm.mem st a))).
Proof.
  apply (mm_malloc_heap mm_heap4 [(32, 1); (24, 0); (112, 1); (1880, 0)] [4160; 4296] 16 10).
  - apply heap_invb_sound. vm_compute. reflexivity.
  - vm_compute. lia.
  - lia.
  - vm_compute. reflexivity.
Defined.

(** ** [mm_init] of [mm.c] *)

(** [mm_init] on a region that was never used. *)
Lemma mm_init_heap (st : Mm.state) :
  let lo := Mm.mem_brk st in
  let hi := Mm.mem_max_addr st in
  0 < lo -> lo mod 8 = 0 -> hi - lo < 2 ^ 32 -> hi < 2 ^ 64 ->
  (hi < lo + 32 -> Mm.mm_init st = (Mm.set_heap_listp st (-1), -1))
  /\ (lo + 32 <= hi < lo + 2080 ->
      snd (Mm.mm_init st) = -1
      /\ Mm.heap_listp (fst (Mm.mm_init st)) = lo + 24
      /\ Mm.mem_brk (fst (Mm.mm_init st)) = lo + 32)
  /\ (lo + 2080 <= hi ->
      let st' := fst (Mm.mm_init st) in
      snd (Mm.mm_init st) = 0
      /\ heap_inv None st' [(2048, 0)] [lo + 32]
      /\ Mm.heap_listp st' = lo + 24
      /\ Mm.mem_brk st' = lo + 2080
      /\ Mm.mem_max_addr st' = hi
      /\ (forall a, a < lo \/ lo + 2080 <= a -> Mm.mem st' a = Mm.mem st a)).
Proof.
  intros lo hi Hlo Hal Hcap Hhi.
  unfold Mm.mm_init, Mm.mem_sbrk. fold lo hi. unfold DSIZE. change (4 * 8) with 32.
  change (32 <? 0) with false. cbn [orb].
  split.
  { intros Hno. destruct (Z.gtb_spec (lo + 32) hi); [|lia]. reflexivity. }
  destruct (Z.gtb_spec (lo + 32) hi) as [Hgt|Hle].
  { split; intros; lia. }
  destruct (Z.eqb_spec lo (-1)); [lia|].
  simpl_mm. unfold WSIZE, OVERHEAD.
  change (PACK 8 1) with 9. change (PACK 0 1) with 1.
  change (4 * 4) with 16. change (4 * 5) with 20. change (4 * 6) with 24.
  change (4 * 7) with 28.
  set (m := Mm.mem st).
  set (m6 := PUT (PUT (PUT (PUT (PUT_8 (PUT_8 m lo 0) (lo + 8) 0) (lo + 16) 0)
                           (lo + 20) 9) (lo + 24) 9) (lo + 28) 1).
  set (st4 := Mm.set_heap_listp
                (Mm.set_mem (Mm.set_root (Mm.set_heap_listp
                   (Mm.set_brk st (lo + 32)) lo) lo) m6) (lo + 24)).
  assert (Hfr6 : forall a, a < lo \/ lo + 32 <= a -> m6 a = m a).
  { intros a Ha. unfold m6. rewrite !PUT_outside by lia.
    unfold PUT_8. rewrite !(store_outside 8) by lia. reflexivity. }
  assert (H4 : heap_inv None st4 [] []).
  { constructor; unfold st4; simpl_mm; fold hi.
    - lia.
    - lia.
    - replace (lo + 24 - 4) with (lo + 20) by lia. unfold m6.
      rewrite !GET_PUT_other by lia. rewrite GET_PUT_same. reflexivity.
    - unfold m6. rewrite GET_PUT_other by lia. rewrite GET_PUT_same. reflexivity.
    - cbn [starts]. apply Forall_nil.
    - rewrite total_nil. lia.
    - replace (lo + 32 - 4) with (lo + 28) by lia. unfold m6.
      rewrite GET_PUT_same. reflexivity.
    - lia.
    - cbn [hd]. lia.
    - cbn [app dllseg hd]. replace (lo + 24 - 24) with lo by lia.
      unfold PREV, NEXT, DSIZE, m6. repeat split.
      + rewrite !GET_8_PUT_other by lia. rewrite GET_8_PUT_8_same. reflexivity.
      + rewrite !GET_8_PUT_other by lia. rewrite GET_8_PUT_8_other by lia.
        rewrite GET_8_PUT_8_same. reflexivity.
    - constructor.
    - intros x. cbn [starts In]. split; [tauto|]. intros (s & []).
    - exact I. }
  change (Mm.CHUNKSIZE / 4) with 512.
  destruct (mm_extend_heap_heap st4 [] [] 512 H4 ltac:(lia)) as (Hfail & Hsucc).
  cbv zeta in Hfail, Hsucc. change (4 * (512 + 512 mod 2)) with 2048 in Hfail, Hsucc.
  assert (E1 : Mm.mem_brk st4 = lo + 32) by reflexivity.
  assert (E2 : Mm.heap_listp st4 = lo + 24) by reflexivity.
  assert (E3 : Mm.mem_max_addr st4 = hi) by reflexivity.
  assert (E4 : Mm.mem st4 = m6) by reflexivity.
  rewrite ?E1, ?E2, ?E3, ?E4 in Hfail, Hsucc.
  split.
  - intros Hmid. rewrite Hfail by lia. cbn [Z.eqb fst snd]. auto.
  - intros Hbig. destruct (Hsucc ltac:(lia)) as (Hres & Hinv & R1 & R2 & R3 & Hfr).
    destruct (Mm.extend_heap st4 512) as [st5 r]. cbn [fst snd] in *.
    change (free_before []) with 0 in Hres, Hinv.
    change (merge_at [] 2048 []) with [(2048, 0)] in Hinv.
    change (absorbed (lo + 32) [] 2048 []) with (@nil Z) in Hinv.
    rewrite drop_nil in Hinv.
    replace (lo + 32 - 0) with (lo + 32) in Hinv by lia.
    destruct (Z.eqb_spec r 0); [lia|]. cbn [fst snd].
    split; [reflexivity|]. split; [exact Hinv|].
    split; [exact R1|]. split; [rewrite R2; lia|]. split; [exact R3|].
    intros a Ha. rewrite Hfr.
    + apply Hfr6. lia.
    + unfold client_byte. lia.
Qed.

(** X3: [mm_init] of [mm.c] on a region [lo, hi) yet to be claimed,
    with [lo] positive and 8-aligned.  When the region cannot give the
    first 32 bytes, the call returns -1 and changes nothing but
    [heap_listp], which becomes -1.  When it gives them but not the
    first chunk, the call returns -1 with the prologue in place.
    Otherwise it returns 0 and leaves a heap that satisfies the
    invariant: one free block of 2048 bytes at [lo + 32], alone on the
    free list, and every byte outside [lo, lo + 2080) as it was. *)
Theorem mm_init_builds_heap (st : Mm.state) :
  let lo := Mm.mem_brk st in
  let hi := Mm.mem_max_addr st in
  0 < lo -> lo mod 8 = 0 -> hi - lo < 2 ^ 32 -> hi < 2 ^ 64 ->
  (hi < lo + 32 -> Mm.mm_init st = (Mm.set_heap_listp st (-1), -1))
  /\ (lo + 32 <= hi < lo + 2080 ->
      snd (Mm.mm_init st) = -1
      /\ Mm.heap_listp (fst (Mm.mm_init st)) = lo + 24
      /\ Mm.mem_brk (fst (Mm.mm_init st)) = lo + 32)
  /\ (lo + 2080 <= hi ->
      let st' := fst (Mm.mm_init st) in
      snd (Mm.mm_init st) = 0
      /\ heap_inv None st' [(2048, 0)] [lo + 32]
      /\ Mm.heap_listp st' = lo + 24
      /\ Mm.mem_brk st' = lo + 2080
      /\ Mm.mem_max_addr st' = hi
      /\ (forall a, a < lo \/ lo + 2080 <= a -> Mm.mem st' a = Mm.mem st a)).
Proof. exact (mm_init_heap st). Qed.

Lemma mm_init_builds_heap_witness :
  let st := mm_boot 4096 (2 ^ 24) in
  let lo := Mm.mem_brk st in
  let hi := Mm.mem_max_addr st in
  (hi < lo + 32 -> Mm.mm_init st = (Mm.set_heap_listp st (-1), -1))
  /\ (lo + 32 <= hi < lo + 2080 ->
      snd (Mm.mm_init st) = -1
      /\ Mm.heap_listp (fst (Mm.mm_init st)) = lo + 24
      /\ Mm.mem_brk (fst (Mm.mm_init st)) = lo + 32)
  /\ (lo + 2080 <= hi ->
      let st' := fst (Mm.mm_init st) in
      snd (Mm.mm_init st) = 0
      /\ heap_inv None st' [(2048, 0)] [lo + 32]
      /\ Mm.heap_listp st' = lo + 24
      /\ Mm.mem_brk st' = lo + 2080
      /\ Mm.mem_max_addr st' = hi
      /\ (forall a, a < lo \/ lo + 2080 <= a -> Mm.mem st' a = Mm.mem st a)).
Proof.
  apply (mm_init_builds_heap (mm_boot 4096 (2 ^ 24))); vm_compute; reflexivity.
Defined.

(** ** [mm_checkheap] *)

(** The walk of [mm_checkheap] over a well-formed sequence of blocks. *)
Lemma heap_blocks_layout (m : memory) (bl : list (Z * Z)) : forall (fuel : nat) (b : Z),
  Forall (block_ok m None) (starts b bl) ->
  GET m (b + total bl - 4) = 1 ->
  (length bl <= fuel)%nat ->
  heap_blocks fuel m b = Some (starts b bl ++ [(b + total bl, 0, 1)]).
Proof.
  induction bl as [|[s a] t IH]; intros fuel b Hb He Hf.
  - rewrite total_nil in *. rewrite Z.add_0_r in *. cbn [starts app].
    assert (Hs : GET_SIZE m (HDRP b) = 0).
    { unfold HDRP, WSIZE. rewrite GET_SIZE_eq, He. reflexivity. }
    assert (Ha : GET_ALLOC m (HDRP b) = 1).
    { unfold HDRP, WSIZE. rewrite GET_ALLOC_eq, He. reflexivity. }
    destruct fuel; cbn [heap_blocks]; rewrite Hs, Ha; reflexivity.
  - cbn [starts] in Hb. apply Forall_cons_iff in Hb. destruct Hb as [H1 H2].
    unfold block_ok, tag_word in H1. destruct H1 as (Hs24 & Hs8 & Ha & Hh & _).
    assert (Hs : GET_SIZE m (HDRP b) = s).
    { unfold HDRP, WSIZE. rewrite GET_SIZE_eq, Hh. lia. }
    assert (Hal : GET_ALLOC m (HDRP b) = a).
    { unfold HDRP, WSIZE. rewrite GET_ALLOC_eq, Hh. lia. }
    assert (Hn : NEXT_BLKP m b = b + s).
    { unfold NEXT_BLKP. fold (HDRP b). now rewrite Hs. }
    destruct fuel as [|f]; [cbn in Hf; lia|].
    cbn [heap_blocks]. rewrite Hs, Hal, Hn.
    destruct (Z.gtb_spec s 0); [|lia].
    rewrite (IH f (b + s)); [| exact H2 | | cbn in Hf; lia].
    + cbn [option_map starts app]. rewrite total_cons.
      replace (b + s + total t) with (b + (s + total t)) by lia. reflexivity.
    + rewrite total_cons in He. replace (b + s + total t - 4) with (b + (s + total t) - 4) by lia.
      exact He.
Qed.

Lemma flat_map_nil {A B : Type} (f : A -> list B) (l : list A) :
  (forall e, In e l -> f e = []) -> flat_map f l = [].
Proof.
  induction l as [|e t IH]; intros H; [reflexivity|].
  cbn [flat_map]. rewrite (H e) by now left. apply IH. intros e' He'. apply H. now right.
Qed.

Lemma removelast_snoc {A : Type} (l : list A) (x : A) : removelast (l ++ [x]) = l.
Proof. apply removelast_last. Qed.

(** X12: on a heap that satisfies the invariant, [mm_checkheap], with
    fuel for all the blocks, reaches the epilogue and reports
    nothing. *)
Theorem mm_checkheap_silent (st : Mm.state) (bl : list (Z * Z)) (F : list Z) (fuel : nat) :
  heap_inv None st bl F -> (length bl < fuel)%nat ->
  mm_checkheap fuel st = Some [].
Proof.
  intros H Hf.
  set (hl := Mm.heap_listp st). set (m := Mm.mem st).
  pose proof (hi_pro_hdr _ _ _ _ H) as Hph. fold hl m in Hph.
  pose proof (hi_pro_ftr _ _ _ _ H) as Hpf. fold hl m in Hpf.
  pose proof (hi_align _ _ _ _ H) as Hal. fold hl in Hal.
  pose proof (hi_brk _ _ _ _ H) as Hbrk. fold hl in Hbrk.
  pose proof (hi_epi _ _ _ _ H) as Hepi. fold m in Hepi. rewrite Hbrk in Hepi.
  assert (Hs : GET_SIZE m (HDRP hl) = 8).
  { unfold HDRP, WSIZE. rewrite GET_SIZE_eq, Hph. reflexivity. }
  assert (Ha : GET_ALLOC m (HDRP hl) = 1).
  { unfold HDRP, WSIZE. rewrite GET_ALLOC_eq, Hph. reflexivity. }
  assert (Hwalk : heap_blocks fuel m hl
                  = Some ((hl, 8, 1) :: starts (hl + 8) bl ++ [(hl + 8 + total bl, 0, 1)])).
  { destruct fuel as [|f]; [lia|]. cbn [heap_blocks]. rewrite Hs, Ha.
    change (8 >? 0) with true. cbv iota.
    unfold NEXT_BLKP. fold (HDRP hl). rewrite Hs.
    rewrite (heap_blocks_layout m bl f (hl + 8) (hi_blocks _ _ _ _ H) Hepi) by lia.
    reflexivity. }
  assert (Hcb : forall x s a, block_ok m None (x, s, a) -> x mod 8 = 0 -> checkblock m x = []).
  { intros x s a (Hs24 & Hs8 & Hab & Hh & Hft) Hx. cbn [tag_word] in Hh, Hft.
    unfold checkblock. rewrite Hx. cbn [Z.eqb negb app].
    unfold FTRP, DSIZE, HDRP, WSIZE. rewrite GET_SIZE_eq, Hh.
    replace (x + 8 * ((s + a) / 8) - 8) with (x + s - 8) by lia.
    rewrite Hft, Z.eqb_refl. reflexivity. }
  assert (Hcp : checkblock m hl = []).
  { unfold checkblock. rewrite Hal. cbn [Z.eqb negb app].
    unfold FTRP, DSIZE. rewrite Hs. unfold HDRP, WSIZE.
    replace (hl + 8 - 8) with hl by lia. rewrite Hph, Hpf. reflexivity. }
  unfold mm_checkheap. fold m hl. rewrite Hwalk, Hs, Ha, Hcp. unfold OVERHEAD.
  cbn [Z.eqb negb orb app].
  change ((hl, 8, 1) :: starts (hl + 8) bl ++ [(hl + 8 + total bl, 0, 1)])
    with (((hl, 8, 1) :: starts (hl + 8) bl) ++ [(hl + 8 + total bl, 0, 1)]).
  rewrite removelast_snoc, last_last. cbn [fst flat_map].
  rewrite Hcp. cbn [app].
  assert (Hfm : flat_map (fun b => checkblock m (fst (fst b))) (starts (hl + 8) bl) = []).
  { pose proof (hi_blocks _ _ _ _ H) as Hb. fold hl m in Hb.
    apply flat_map_nil.
    intros [[x s] a] Hi. cbn [fst]. rewrite Forall_forall in Hb.
    apply (Hcb x s a (Hb _ Hi)). now apply (heap_block_aligned _ _ _ _ x s a H). }
  rewrite Hfm. cbn [app].
  assert (Hes : GET_SIZE m (HDRP (hl + 8 + total bl)) = 0).
  { unfold HDRP, WSIZE. rewrite GET_SIZE_eq, Hepi. reflexivity. }
  assert (Hea : GET_ALLOC m (HDRP (hl + 8 + total bl)) = 1).
  { unfold HDRP, WSIZE. rewrite GET_ALLOC_eq, Hepi. reflexivity. }
  rewrite Hes, Hea. reflexivity.
Qed.

Lemma mm_checkheap_silent_witness : mm_checkheap 8 mm_heap4 = Some [].
Proof.
  apply (mm_checkheap_silent mm_heap4 [(32, 1); (24, 0); (112, 1); (1880, 0)] [4160; 4296] 8).
  - apply heap_invb_sound. vm_compute. reflexivity.
  - vm_compute. lia.
Defined.

(** ** [mm_realloc] of [mm.c]: growth in place *)

Lemma no_adj_bits (bl bl' : list (Z * Z)) : forall pf,
  map snd bl = map snd bl' -> no_adj_from pf bl -> no_adj_from pf bl'.
Proof.
  revert bl'. induction bl as [|[s a] t IH]; intros [|[s' a'] t'] pf E; try discriminate;
    cbn [no_adj_from]; [auto|].
  cbn [map snd] in E. injection E as <- E. intros [H1 H2]. split; [exact H1|].
  now apply IH.
Qed.

(** X13: [mm_realloc] of [mm.c] on a heap that satisfies the
    invariant, for an allocated block of [B] bytes at [ptr] that is
    followed by a free block of [N] bytes, when
    [rsize = max 16 (ALIGN size)] exceeds the payload [B - 8] and the
    free block can give the missing bytes and keep 24.  The call
    returns [ptr] itself.  The block now has [rsize + 8] bytes; what is
    left of the two blocks is a free block that heads the free list in
    place of the old one; the heap satisfies the invariant; the old
    payload is intact, and so is every byte outside the region and
    every payload byte of the other allocated blocks. *)
Theorem mm_realloc_split_heap (fuel : nat) (st : Mm.state) (pre : list (Z * Z)) (B N : Z)
      (post : list (Z * Z)) (F : list Z) (ptr size : Z) :
  heap_inv None st (pre ++ (B, 1) :: (N, 0) :: post) F ->
  ptr = Mm.heap_listp st + 8 + total pre ->
  0 < size < 2 ^ 32 ->
  let rsize := if size <=? QSIZE then QSIZE else ALIGN size in
  B - 8 < rsize -> rsize - (B - 8) + 24 <= N ->
  let asize := rsize + 8 in
  let rem := B + N - asize in
  exists st',
    Mm.mm_realloc fuel st ptr size = Some (st', ptr)
    /\ heap_inv None st' (pre ++ (asize, 1) :: (rem, 0) :: post)
                ((ptr + asize) :: drop [ptr + B] F)
    /\ same_region st st'
    /\ (forall a, ptr <= a < ptr + B - 8 -> Mm.mem st' a = Mm.mem st a)
    /\ (forall a, client_byte (Mm.heap_listp st - 24) (Mm.mem_brk st)
                    (starts (Mm.heap_listp st + 8) (pre ++ (B, 1) :: (N, 0) :: post)) ptr a ->
                  Mm.mem st' a = Mm.mem st a).
Proof.
  intros H Hptr Hsize rsize Hgrow Hroom asize rem.
  set (hl := Mm.heap_listp st) in *. set (m := Mm.mem st).
  set (bl := pre ++ (B, 1) :: (N, 0) :: post) in *.
  set (sl := starts (hl + 8) bl).
  set (L := F ++ [hl - 24]).
  set (nx := ptr + B).
  pose proof (hi_lo _ _ _ _ H) as Hlo. fold hl in Hlo.
  pose proof (hi_cap _ _ _ _ H) as (Hk1 & Hk2 & Hk3). fold hl in Hk2.
  pose proof (heap_free_list _ _ _ _ H) as Hfl. fold hl L in Hfl.
  assert (Hpin : In (ptr, B, 1) sl) by (unfold sl, bl; rewrite Hptr; apply starts_mid).
  assert (Hnin : In (nx, N, 0) sl).
  { unfold sl, bl, nx. rewrite Hptr, starts_app. apply in_or_app. right. right. now left. }
  destruct (heap_block _ _ _ _ _ _ _ H Hpin) as (Hp1 & Hp2 & HB24 & HB8 & _ & HBh & HBf).
  destruct (heap_block _ _ _ _ _ _ _ H Hnin) as (Hn1 & Hn2 & HN24 & HN8 & _ & HNh & HNf).
  cbn [tag_word] in HBh, HBf, HNh, HNf. rewrite Z.add_0_r in HNh, HNf.
  fold m in HBh, HBf, HNh, HNf. fold hl in Hp1, Hn1. unfold nx in HNh, HNf, Hn2.
  assert (Hrs : rsize mod 8 = 0 /\ 16 <= rsize < 2 ^ 33).
  { unfold rsize, QSIZE. destruct (Z.leb_spec size 16); [lia|].
    rewrite ALIGN_eq, (Z.mod_small (size + 7)) by lia. lia. }
  destruct Hrs as (Hrs8 & Hrs).
  assert (Has : asize mod 8 = 0 /\ B + 8 <= asize /\ 24 <= rem /\ rem mod 8 = 0
                /\ asize + rem = B + N).
  { unfold asize, rem. lia. }
  destruct Has as (Ha8 & HaB & Hr24 & Hr8 & Hsum).
  assert (HnF : In nx F) by (apply (hi_listed _ _ _ _ H); eauto).
  assert (HnL : In nx L) by (apply in_or_app; now left).
  assert (Hfar : forall y, In y L -> y <> nx -> y + 24 <= ptr \/ ptr + B + N <= y).
  { intros y Hy Hne. apply in_app_or in Hy. destruct Hy as [Hy|[<-|[]]]; [|lia].
    apply (hi_listed _ _ _ _ H) in Hy. destruct Hy as (s & Hs).
    destruct (heap_block _ _ _ _ _ _ _ H Hs) as (? & ? & ? & _).
    destruct (starts_disjoint _ _ _ _ _ _ _ _ (heap_sized _ _ _ _ H) Hs Hpin)
      as [?|[?|(_ & _ & ?)]]; try lia;
    destruct (starts_disjoint _ _ _ _ _ _ _ _ (heap_sized _ _ _ _ H) Hs Hnin)
      as [?|[?|(? & _ & _)]]; unfold nx in *; lia. }
  assert (Hcell_far : forall c, cells L c -> (nx <= c < nx + 16)
                                            \/ c < ptr - 4 \/ ptr + B + N - 4 <= c).
  { intros c (y & Hy & Hr). destruct (Z.eq_dec y nx) as [->|Hne]; [now left|].
    destruct (Hfar y Hy Hne); lia. }
  assert (Hcell_drop : forall c, cells (drop [nx] L) c -> c < ptr - 4 \/ ptr + B + N - 4 <= c).
  { intros c (y & Hy & Hr). apply In_drop in Hy. destruct Hy as [Hy Hn].
    assert (y <> nx) by (intros ->; apply Hn; now left).
    destruct (Hfar y Hy); [assumption|lia|lia]. }
  assert (Hdrop : drop [nx] L = drop [nx] F ++ [hl - 24]).
  { unfold L. rewrite drop_app, drop_keep; [reflexivity|]. intros [E|[]]. unfold nx in E. lia. }
  assert (HdF : forall x, In x (drop [nx] F) <-> In x F /\ (x < ptr \/ ptr + B + N <= x)).
  { intros x. rewrite In_drop. split.
    - intros [Hx Hn]. split; [exact Hx|].
      assert (x <> nx) by (intros ->; apply Hn; now left).
      destruct (Hfar x) as [?|?]; [apply in_or_app; now left|assumption|lia|lia].
    - intros [Hx Hr]. split; [exact Hx|]. intros [E|[]]. unfold nx in E. lia. }
  (* the branch taken *)
  unfold Mm.mm_realloc.
  destruct (Z.eqb_spec size 0); [lia|].
  destruct (Z.eqb_spec ptr 0); [lia|].
  cbv zeta. fold m. fold rsize. unfold OVERHEAD.
  assert (Esz : GET_SIZE m (HDRP ptr) = B).
  { unfold HDRP, WSIZE. rewrite GET_SIZE_eq, HBh. lia. }
  assert (Enx : NEXT_BLKP m ptr = nx).
  { unfold NEXT_BLKP. fold (HDRP ptr). now rewrite Esz. }
  assert (Ens : GET_SIZE m (HDRP nx) = N).
  { unfold HDRP, WSIZE, nx. rewrite GET_SIZE_eq, HNh. lia. }
  assert (Ena : GET_ALLOC m (HDRP nx) = 0).
  { unfold HDRP, WSIZE, nx. rewrite GET_ALLOC_eq, HNh. lia. }
  rewrite Esz, Enx, Ens, Ena.
  replace (wrap32 (B - 8)) with (B - 8) by (unfold wrap32; rewrite Z.mod_small; lia).
  destruct (Z.leb_spec rsize (B - 8)); [lia|].
  replace (wrap (rsize - (B - 8))) with (rsize - (B - 8))
    by (unfold wrap, SIZE_MAX1; rewrite Z.mod_small; lia).
  cbn [Z.eqb andb].
  destruct (Z.geb_spec N (rsize - (B - 8))); [|lia]. cbn [andb].
  unfold QSIZE at 1.
  replace (wrap (rsize - (B - 8) + 16 + 8)) with (rsize - (B - 8) + 24)
    by (unfold wrap, SIZE_MAX1; rewrite Z.mod_small; lia).
  destruct (Z.geb_spec N (rsize - (B - 8) + 24)); [|lia].
  replace (wrap (rsize + 8)) with asize
    by (unfold wrap, SIZE_MAX1, asize; rewrite Z.mod_small; lia).
  replace (wrap (N - rsize + (B - 8))) with rem
    by (unfold wrap, SIZE_MAX1, rem, asize; rewrite Z.mod_small; lia).
  (* unlink *)
  destruct (mm_unlink_in st L nx Hfl HnL ltac:(unfold nx; lia)) as (Hfl1 & Hfr1 & Hreg1).
  set (st1 := Mm.mm_unlink st nx) in *.
  destruct Hreg1 as (R1a & R1b & R1c).
  assert (Hncell : forall c, ptr - 4 <= c < nx \/ nx + 16 <= c < ptr + B + N - 4 -> ~ cells L c).
  { intros c Hc Hcell. destruct (Hcell_far c Hcell) as [?|[?|?]]; unfold nx in *; lia. }
  assert (Hg1 : forall t, ptr - 4 <= t /\ t + 4 <= nx -> GET (Mm.mem st1) t = GET m t).
  { intros t Ht. apply GET_frame. intros c Hc. apply Hfr1, Hncell. lia. }
  assert (Ef : FTRP (Mm.mem st1) ptr = ptr + B - 8).
  { unfold FTRP, HDRP, WSIZE, DSIZE. rewrite GET_SIZE_eq, Hg1, HBh by (unfold nx; lia). lia. }
  rewrite Ef.
  set (m1 := PUT (Mm.mem st1) (ptr + B - 8) 0).
  destruct (tags_written m1 ptr asize 1 ltac:(lia) Ha8 ltac:(lia)) as (_ & Ht1 & Ht2 & Hfr3).
  set (m2 := PUT m1 (HDRP ptr) (PACK asize 1)) in *.
  set (m3 := PUT m2 (FTRP m2 ptr) (PACK asize 1)) in *.
  unfold HDRP, WSIZE in Ht1.
  assert (Enb : NEXT_BLKP m3 ptr = ptr + asize).
  { unfold NEXT_BLKP, WSIZE. rewrite GET_SIZE_eq, Ht1. lia. }
  rewrite Enb.
  destruct (tags_written m3 (ptr + asize) rem 0 ltac:(lia) Hr8 ltac:(lia))
    as (_ & Ht3 & Ht4 & Hfr5).
  set (m4 := PUT m3 (HDRP (ptr + asize)) (PACK rem 0)) in *.
  set (m5 := PUT m4 (FTRP m4 (ptr + asize)) (PACK rem 0)) in *.
  unfold HDRP, WSIZE in Ht3. rewrite Z.add_0_r in Ht3, Ht4.
  assert (Hm5 : forall a, a < ptr - 4 \/ ptr + B + N - 4 <= a -> m5 a = Mm.mem st1 a).
  { intros a Ha. rewrite Hfr5 by lia. rewrite Hfr3 by lia.
    unfold m1. apply PUT_outside. lia. }
  assert (Hfl5 : free_list_ok (Mm.set_mem st1 m5) (drop [nx] L)).
  { apply (free_list_bytes st1); auto. }
  destruct (mm_push_list (Mm.set_mem st1 m5) (drop [nx] L) (ptr + asize) Hfl5)
    as (Hfl6 & Hfr6 & Hreg6).
  { rewrite Hdrop. destruct (drop [nx] F); discriminate. }
  { lia. }
  { intros y Hy. apply In_drop in Hy. destruct Hy as [Hy Hn].
    assert (y <> nx) by (intros ->; apply Hn; now left).
    unfold cell_sep. destruct (Hfar y Hy); [assumption| |]; lia. }
  set (st' := Mm.push_root (Mm.set_mem st1 m5) (ptr + asize)) in *.
  simpl_mm in Hfr6.
  assert (Hroot1 : In (Mm.root st1) (drop [nx] L)).
  { rewrite (fl_root _ _ Hfl1). rewrite Hdrop. destruct (drop [nx] F); now left. }
  assert (Hfr6' : forall a, (a < ptr + asize \/ ptr + asize + 16 <= a) ->
                            ~ cells (drop [nx] L) a -> Mm.mem st' a = m5 a).
  { intros a Ha1 Ha2. apply Hfr6; [exact Ha1|].
    pose proof (not_cells_in _ _ _ Ha2 Hroot1). lia. }
  assert (Hnd : forall c, ptr - 4 <= c < ptr + B + N - 4 -> ~ cells (drop [nx] L) c).
  { intros c Hc Hcell. destruct (Hcell_drop c Hcell); lia. }
  destruct Hreg6 as (R6a & R6b & R6c). simpl_mm in R6a. simpl_mm in R6b. simpl_mm in R6c.
  assert (Hout : forall a, a < ptr - 4 \/ ptr + B + N - 4 <= a -> ~ cells L a ->
                           Mm.mem st' a = m a).
  { intros a Ha1 Ha2.
    rewrite Hfr6'; [|lia|intros Hc; apply Ha2; eapply cells_drop; eauto].
    rewrite Hm5 by lia. apply Hfr1, Ha2. }
  exists st'. split; [reflexivity|]. split; [|split; [|split]].
  - apply (heap_replace_mid None st st' pre [(B, 1); (N, 0)] [(asize, 1); (rem, 0)] post F).
    + exact H.
    + repeat split; congruence.
    + unfold total. cbn. lia.
    + discriminate.
    + fold hl. rewrite <- Hptr. fold L. unfold total. cbn [fold_right fst].
      intros a Ha1 Ha2. apply Hout; [lia|exact Ha2].
    + fold hl. rewrite <- Hptr. cbn [starts].
      repeat apply Forall_cons; [| |apply Forall_nil]; unfold block_ok, tag_word.
      * repeat split; auto; try lia.
        -- transitivity (GET m5 (ptr - 4)).
           ++ apply GET_frame. intros c Hc. apply Hfr6'; [lia|apply Hnd; lia].
           ++ rewrite <- Ht1. apply GET_frame. intros c Hc. apply Hfr5; lia.
        -- transitivity (GET m5 (ptr + asize - 8)).
           ++ apply GET_frame. intros c Hc. apply Hfr6'; [lia|apply Hnd; lia].
           ++ rewrite <- Ht2. apply GET_frame. intros c Hc. apply Hfr5; lia.
      * rewrite Z.add_0_r. repeat split; auto; try lia.
        -- transitivity (GET m5 (ptr + asize - 4)); [|exact Ht3].
           apply GET_frame. intros c Hc. apply Hfr6'; [lia|apply Hnd; lia].
        -- transitivity (GET m5 (ptr + asize + rem - 8)); [|exact Ht4].
           apply GET_frame. intros c Hc. apply Hfr6'; [lia|apply Hnd; lia].
    + fold hl. change (free_list_ok st' (ptr + asize :: (drop [nx] F ++ [hl - 24]))).
      rewrite <- Hdrop. exact Hfl6.
    + constructor; [|apply NoDup_drop, (hi_nodup _ _ _ _ H)].
      intros Hi. apply HdF in Hi. lia.
    + fold hl. rewrite <- Hptr. unfold total at 1. cbn [fold_right fst].
      intros x. cbn [starts In]. fold nx. rewrite HdF.
      replace (ptr + (B + (N + 0))) with (ptr + B + N) by lia.
      split.
      * intros [<-|Hx]; [right; exists rem; right; now left|now left].
      * intros [Hx|(s & Hs)]; [now right|].
        destruct Hs as [E|[E|[]]]; [discriminate E|injection E as <- _; now left].
    + apply (no_adj_bits bl); [|apply (hi_noadj _ _ _ _ H)].
      unfold bl. rewrite !map_app. reflexivity.
  - repeat split; congruence.
  - intros a Ha.
    rewrite Hfr6'; [|lia|apply Hnd; unfold nx in *; lia].
    rewrite Hfr5 by lia. rewrite Hfr3 by lia.
    unfold m1. rewrite PUT_outside by lia. apply Hfr1, Hncell. unfold nx. lia.
  - intros a Ha.
    pose proof (heap_client_not_cell _ _ _ _ _ _ H Ha) as Hnc. fold hl L in Hnc.
    apply Hout; [|exact Hnc].
    destruct Ha as [?|[?|(b & s & Hb & Hne & Hr)]]; try lia.
    fold hl bl sl in Hb.
    destruct (heap_block _ _ _ _ _ _ _ H Hb) as (_ & _ & ? & _).
    destruct (starts_disjoint _ _ _ _ _ _ _ _ (heap_sized _ _ _ _ H) Hb Hpin)
      as [?|[?|(? & _ & _)]]; try lia.
    destruct (starts_disjoint _ _ _ _ _ _ _ _ (heap_sized _ _ _ _ H) Hb Hnin)
      as [?|[?|(_ & _ & ?)]]; unfold nx in *; lia.
Qed.

Lemma mm_realloc_split_heap_witness :
  let st := mm_heap3 in
  let pre := [(32, 1); (24, 1)] in
  let rsize := if 200 <=? QSIZE then QSIZE else ALIGN 200 in
  let asize := rsize + 8 in
  let rem := 112 + 1880 - asize in
  exists st',
    Mm.mm_realloc 0 st 4184 200 = Some (st', 4184)
    /\ heap_inv None st' (pre ++ (asize, 1) :: (rem, 0) :: [])
                ((4184 + asize) :: drop [4184 + 112] [4296])
    /\ same_region st st'
    /\ (forall a, 4184 <= a < 4184 + 112 - 8 -> Mm.mem st' a = Mm.mem st a)
    /\ (forall a, client_byte (Mm.heap_listp st - 24) (Mm.mem_brk st)
                    (starts (Mm.heap_listp st + 8) (pre ++ (112, 1) :: (1880, 0) :: [])) 4184 a ->
                  Mm.mem st' a = Mm.mem st a).
Proof.
  apply (mm_realloc_split_heap 0 mm_heap3 [(32, 1); (24, 1)] 112 1880 [] [4296] 4184 200).
  - apply heap_invb_sound. vm_compute. reflexivity.
  - vm_compute. reflexivity.
  - lia.
  - vm_compute. reflexivity.
  - vm_compute. discriminate.
Defined.

(** ** Sequences of calls *)

Lemma drop_length (xs L : list Z) : (length (drop xs L) <= length L)%nat.
Proof. unfold drop. apply filter_length_le. Qed.

(** X14: on a heap that satisfies the invariant, a request of [size]
    bytes with [0 < size < 2^32] that follows the release of a block of
    [hw] bytes, and whose adjusted size is at most [hw], is served from
    the block just released (fuel for the whole free list is given):
    [mm_malloc] returns the start of the block that the release formed
    with its free neighbours, the region is as before the release, and
    the heap satisfies the invariant, with that block split when at
    least 24 bytes remain. *)
Theorem mm_malloc_after_free (fuel : nat) (st : Mm.state) (pre : list (Z * Z)) (hw : Z)
      (post : list (Z * Z)) (F : list Z) (ptr size : Z) :
  heap_inv None st (pre ++ (hw, 1) :: post) F ->
  ptr = Mm.heap_listp st + 8 + total pre ->
  (S (length F) < fuel)%nat ->
  0 < size < 2 ^ 32 -> adjust_size size <= hw ->
  let h := ptr - free_before pre in
  let csize := free_before pre + hw + free_after post in
  let asize := adjust_size size in
  let F1 := h :: drop (absorbed ptr pre hw post) F in
  exists st',
    Mm.mm_malloc fuel (Mm.mm_free st ptr) size = Some (st', h)
    /\ same_region st st'
    /\ (if 24 <=? csize - asize
        then heap_inv None st'
               (keep_before pre ++ (asize, 1) :: (csize - asize, 0) :: keep_after post)
               ((h + asize) :: drop [h] F1)
        else heap_inv None st' (keep_before pre ++ (csize, 1) :: keep_after post)
               (drop [h] F1)).
Proof.
  intros H Hptr Hf Hsize Hfit h csize asize F1.
  destruct (mm_free_heap st pre hw post F ptr H Hptr) as (Hinv & Hreg & _).
  cbv zeta in Hinv. fold h F1 in Hinv. unfold merge_at in Hinv. fold csize in Hinv.
  set (st1 := Mm.mm_free st ptr) in *.
  destruct Hreg as (R1 & R2 & R3).
  destruct (adjust_size_fits size Hsize) as (Ha24 & Ha8 & _). fold asize in Ha24, Ha8, Hfit.
  pose proof (heap_bits _ _ _ _ H) as Hbits.
  apply bits_ok_app in Hbits. destruct Hbits as [Hbpre Hbpost].
  assert (Hbpost' : bits_ok post) by (intros s a Hi; apply (Hbpost s a); now right).
  destruct (pre_shape pre Hbpre) as (Ep & Hpb & _).
  destruct (post_shape post Hbpost') as (_ & Hnb & _).
  assert (Htot : total pre = total (keep_before pre) + free_before pre).
  { rewrite Ep at 1. rewrite total_app.
    destruct (Z.ltb_spec 0 (free_before pre)); rewrite ?total_single, ?total_nil; lia. }
  assert (Hh : h = Mm.heap_listp st1 + 8 + total (keep_before pre)).
  { rewrite R1. unfold h. lia. }
  pose proof (hi_lo _ _ _ _ Hinv) as Hlo.
  assert (Hin : In (h, csize, 0)
                   (starts (Mm.heap_listp st1 + 8)
                           (keep_before pre ++ (csize, 0) :: keep_after post)))
    by (rewrite Hh; apply starts_mid).
  pose proof (heap_free_size _ _ _ _ _ Hinv Hin) as Hsz.
  destruct (heap_block _ _ _ _ _ _ _ Hinv Hin) as (Hh1 & _).
  assert (Hlen : (length F1 < fuel)%nat).
  { unfold F1. cbn [length]. pose proof (drop_length (absorbed ptr pre hw post) F). lia. }
  pose proof (heap_walk _ _ _ _ _ Hinv Hlen) as Hw.
  assert (Hff : Mm.find_fit fuel st1 asize = Some h).
  { unfold Mm.find_fit. rewrite (first_fit_walk _ _ _ _ _ Hw).
    unfold first_fitting, F1. cbn [app filter]. rewrite Hsz.
    destruct (Z.leb_spec asize csize); [reflexivity|unfold csize in *; lia]. }
  unfold Mm.mm_malloc.
  destruct (Z.eqb_spec (Mm.heap_listp st1) 0); [lia|].
  destruct (Z.leb_spec size 0); [lia|]. cbv zeta. fold asize. rewrite Hff.
  destruct (Z.eqb_spec h 0); [lia|]. cbn [negb].
  destruct (mm_place_heap st1 (keep_before pre) csize (keep_after post) F1 h asize Hinv Hh
              ltac:(unfold csize; lia) Ha8) as (Hpl & (Q1 & Q2 & Q3) & _).
  cbv zeta in Hpl.
  exists (Mm.place st1 h asize). split; [reflexivity|]. split; [|exact Hpl].
  repeat split; congruence.
Qed.

Lemma mm_malloc_after_free_witness :
  let st := mm_heap3 in
  let pre := [(32, 1)] in
  let post := [(112, 1); (1880, 0)] in
  let h := 4160 - free_before pre in
  let csize := free_before pre + 24 + free_after post in
  let asize := adjust_size 10 in
  let F1 := h :: drop (absorbed 4160 pre 24 post) [4296] in
  exists st',
    Mm.mm_malloc 16 (Mm.mm_free st 4160) 10 = Some (st', h)
    /\ same_region st st'
    /\ (if 24 <=? csize - asize
        then heap_inv None st'
               (keep_before pre ++ (asize, 1) :: (csize - asize, 0) :: keep_after post)
               ((h + asize) :: drop [h] F1)
        else heap_inv None st' (keep_before pre ++ (csize, 1) :: keep_after post)
               (drop [h] F1)).
Proof.
  apply (mm_malloc_after_free 16 mm_heap3 [(32, 1)] 24 [(112, 1); (1880, 0)] [4296] 4160 10).
  - apply heap_invb_sound. vm_compute. reflexivity.
  - vm_compute. reflexivity.
  - vm_compute. lia.
  - lia.
  - vm_compute. discriminate.
Defined.

Lemma drop_self (x : Z) : drop [x] [x] = [].
Proof.
  unfold drop, mem_in. cbn [filter existsb]. now rewrite Z.eqb_refl.
Qed.

(** X15: the first request, of [size] bytes with [0 < size < 2^32],
    on a region [lo, hi) yet to be claimed ([heap_listp] is null), of
    less than 4 GiB and below [2^64], with [lo] positive and 8-aligned,
    room for the first chunk and an adjusted size of at most 2048.  [mm_malloc]
    initialises the heap itself and returns [lo + 32], the start of the
    first chunk; the region then ends at [lo + 2080], the heap
    satisfies the invariant, with the chunk split when at least 24
    bytes remain, and no byte outside [lo, lo + 2080) is written. *)
Theorem mm_first_malloc (fuel : nat) (st : Mm.state) (size : Z) :
  let lo := Mm.mem_brk st in
  let hi := Mm.mem_max_addr st in
  let asize := adjust_size size in
  Mm.heap_listp st = 0 ->
  0 < lo -> lo mod 8 = 0 -> hi - lo < 2 ^ 32 -> hi < 2 ^ 64 -> lo + 2080 <= hi ->
  (1 < fuel)%nat -> 0 < size < 2 ^ 32 -> asize <= 2048 ->
  exists st',
    Mm.mm_malloc fuel st size = Some (st', lo + 32)
    /\ Mm.heap_listp st' = lo + 24 /\ Mm.mem_brk st' = lo + 2080
    /\ Mm.mem_max_addr st' = hi
    /\ (if 24 <=? 2048 - asize
        then heap_inv None st' [(asize, 1); (2048 - asize, 0)] [lo + 32 + asize]
        else heap_inv None st' [(2048, 1)] [])
    /\ (forall a, a < lo \/ lo + 2080 <= a -> Mm.mem st' a = Mm.mem st a).
Proof.
  intros lo hi asize Hz Hlo Hal Hcap Hhi Hroom Hf Hsize Hfit.
  destruct (mm_init_heap st Hlo Hal Hcap Hhi) as (_ & _ & Hinit).
  destruct (Hinit Hroom) as (_ & Hinv & I1 & I2 & I3 & Hfr0). clear Hinit.
  fold lo hi in I1, I2, I3, Hfr0, Hinv.
  unfold Mm.mm_malloc. rewrite Hz. cbn [Z.eqb].
  set (st1 := fst (Mm.mm_init st)) in *.
  destruct (adjust_size_fits size Hsize) as (Ha24 & Ha8 & _). fold asize in Ha24, Ha8.
  assert (Hh : lo + 32 = Mm.heap_listp st1 + 8 + total []) by (rewrite I1, total_nil; lia).
  assert (Hin : In (lo + 32, 2048, 0) (starts (Mm.heap_listp st1 + 8) [(2048, 0)])).
  { rewrite I1. cbn [starts]. left. f_equal. f_equal. lia. }
  pose proof (heap_free_size _ _ _ _ _ Hinv Hin) as Hsz.
  pose proof (heap_walk _ _ _ _ fuel Hinv ltac:(cbn [length]; lia)) as Hw.
  assert (Hff : Mm.find_fit fuel st1 asize = Some (lo + 32)).
  { unfold Mm.find_fit. rewrite (first_fit_walk _ _ _ _ _ Hw).
    unfold first_fitting. cbn [app filter]. rewrite Hsz.
    destruct (Z.leb_spec asize 2048); [reflexivity|lia]. }
  destruct (Z.leb_spec size 0); [lia|]. cbv zeta. fold asize. rewrite Hff.
  destruct (Z.eqb_spec (lo + 32) 0); [lia|]. cbn [negb].
  destruct (mm_place_heap st1 [] 2048 [] [lo + 32] (lo + 32) asize Hinv Hh
              ltac:(lia) Ha8) as (Hpl & (Q1 & Q2 & Q3) & Hfr).
  cbv zeta in Hpl, Hfr. rewrite drop_self in Hpl. cbn [app] in Hpl.
  exists (Mm.place st1 (lo + 32) asize). split; [reflexivity|].
  split; [congruence|]. split; [congruence|]. split; [congruence|].
  split; [exact Hpl|].
  intros a Ha. rewrite Hfr; [apply Hfr0; exact Ha|lia|].
  rewrite I1. intros (y & Hy & Hr). cbn [app In] in Hy. destruct Hy as [<-|[<-|[]]]; lia.
Qed.

Lemma mm_first_malloc_witness :
  let st := mm_boot 4096 (2 ^ 24) in
  let lo := Mm.mem_brk st in
  let hi := Mm.mem_max_addr st in
  let asize := adjust_size 100 in
  exists st',
    Mm.mm_malloc 4 st 100 = Some (st', lo + 32)
    /\ Mm.heap_listp st' = lo + 24 /\ Mm.mem_brk st' = lo + 2080
    /\ Mm.mem_max_addr st' = hi
    /\ (if 24 <=? 2048 - asize
        then heap_inv None st' [(asize, 1); (2048 - asize, 0)] [lo + 32 + asize]
        else heap_inv None st' [(2048, 1)] [])
    /\ (forall a, a < lo \/ lo + 2080 <= a -> Mm.mem st' a = Mm.mem st a).
Proof.
  apply (mm_first_malloc 4 (mm_boot 4096 (2 ^ 24)) 100);
    try (vm_compute; reflexivity); try (vm_compute; discriminate); lia.
Defined.

(** ** [mm_realloc] of [mm.c] when the block moves, and [mm_calloc] *)

(** Writing into the payload of an allocated block leaves the heap
    well formed. *)
Lemma heap_write_payload (st : Mm.state) (bl : list (Z * Z)) (F : list Z)
      (p s : Z) (m' : memory) :
  heap_inv None st bl F ->
  In (p, s, 1) (starts (Mm.heap_listp st + 8) bl) ->
  (forall a, a < p \/ p + s - 8 <= a -> m' a = Mm.mem st a) ->
  heap_inv None (Mm.set_mem st m') bl F.
Proof.
  intros H Hp Hfr.
  destruct (heap_block _ _ _ _ _ _ _ H Hp) as (Hp1 & Hp2 & Hs24 & _).
  pose proof (hi_brk _ _ _ _ H) as Hbrk.
  apply (heap_inv_frame None None st); [exact H|apply same_region_set_mem|reflexivity| |].
  - intros x s' a Hi. cbn [Mm.mem Mm.set_mem].
    destruct (heap_block _ _ _ _ _ _ _ H Hi) as (Hx1 & Hx2 & Hs' & _ & _ & Hh & Hf).
    destruct (starts_disjoint _ _ _ _ _ _ _ _ (heap_sized _ _ _ _ H) Hi Hp)
      as [?|[?|(? & ? & ?)]];
      (split; [rewrite <- Hh|rewrite <- Hf]; apply GET_frame; intros c Hc; apply Hfr; lia).
  - intros c Hc. cbn [Mm.mem Mm.set_mem]. apply Hfr.
    destruct Hc as [?|[?|Hcell]]; try lia.
    destruct (heap_cells _ _ _ _ _ H Hcell) as [?|(y & s' & Hy & Hr)]; [lia|].
    destruct (heap_block _ _ _ _ _ _ _ H Hy) as (_ & _ & ? & _).
    destruct (starts_disjoint _ _ _ _ _ _ _ _ (heap_sized _ _ _ _ H) Hy Hp)
      as [?|[?|(_ & _ & ?)]]; lia.
Qed.

Lemma memcpy_inside (m : memory) (dst src n a : Z) :
  dst <= a < dst + n -> memcpy m dst src n a = m (src + (a - dst)).
Proof.
  intros H. unfold memcpy.
  destruct (Z.leb_spec dst a), (Z.ltb_spec a (dst + n)); cbn [andb]; try lia; try reflexivity.
Qed.

Lemma memcpy_outside (m : memory) (dst src n a : Z) :
  a < dst \/ dst + n <= a -> memcpy m dst src n a = m a.
Proof.
  intros H. unfold memcpy.
  destruct (Z.leb_spec dst a), (Z.ltb_spec a (dst + n)); cbn [andb]; try lia; try reflexivity.
Qed.

(** The block that a release forms is a free block of the heap. *)
Lemma merged_block_free (b : Z) (pre : list (Z * Z)) (hw : Z) (post : list (Z * Z)) :
  bits_ok pre ->
  In (b + total pre - free_before pre, free_before pre + hw + free_after post, 0)
     (starts b (merge_at pre hw post)).
Proof.
  intros Hpre. destruct (pre_shape pre Hpre) as (Ep & _).
  assert (Htp : total pre = total (keep_before pre) + free_before pre).
  { rewrite Ep at 1. rewrite total_app.
    destruct (Z.ltb_spec 0 (free_before pre)); rewrite ?total_single, ?total_nil; [lia|].
    pose proof (pre_shape pre Hpre) as (_ & [?|?] & _); lia. }
  unfold merge_at.
  replace (b + total pre - free_before pre) with (b + total (keep_before pre)) by lia.
  apply starts_mid.
Qed.

(** The fallback path of [mm_realloc] on a heap. *)
Lemma mm_realloc_moves (fuel : nat) (st : Mm.state) (pre : list (Z * Z)) (B : Z)
        (post : list (Z * Z)) (F : list Z) (ptr size : Z) :
  heap_inv None st (pre ++ (B, 1) :: post) F ->
  ptr = Mm.heap_listp st + 8 + total pre ->
  (length F < fuel)%nat ->
  0 < size <= 2 ^ 64 - 16 ->
  let oldpay := GET_SIZE (Mm.mem st) (HDRP ptr) - 8 in
  let rsize := if size <=? QSIZE then QSIZE else ALIGN size in
  oldpay < rsize ->
  free_after post < rsize - oldpay ->
  GET_SIZE (Mm.mem st) (Mm.heap_listp st - 28) < adjust_size size ->
  let hl := Mm.heap_listp st in
  let sl := starts (hl + 8) (pre ++ (B, 1) :: post) in
  exists st1 q st',
    Mm.mm_malloc fuel st size = Some (st1, q)
    /\ Mm.mm_realloc fuel st ptr size = Some (st', q)
    /\ ((q = 0 /\ st' = st
         /\ (forall x s, In (x, s, 0) sl -> s < adjust_size size)
         /\ Mm.mem_max_addr st < Mm.mem_brk st + MAX (adjust_size size) Mm.CHUNKSIZE)
        \/ (q <> 0 /\ q <> ptr
            /\ exists bl' F' s,
                 heap_inv None st' bl' F'
                 /\ Mm.heap_listp st' = hl
                 /\ In (q, s, 1) (starts (hl + 8) bl') /\ size + 8 <= s
                 /\ (forall i, 0 <= i < Z.min size oldpay ->
                       Mm.mem st' (q + i) = Mm.mem st (ptr + i))
                 /\ (forall i, Z.min size oldpay <= i < s - 8 ->
                       Mm.mem st' (q + i) = Mm.mem st1 (q + i))
                 /\ (exists x t, In (x, t, 0) (starts (hl + 8) bl')
                                 /\ x <= ptr /\ ptr + oldpay + 8 <= x + t)
                 /\ (forall b s0, In (b, s0, 1) (starts (hl + 8) bl')
                                  <-> (In (b, s0, 1) sl /\ b <> ptr) \/ (b = q /\ s0 = s))
                 /\ (forall a, client_byte (hl - 24) (Mm.mem_brk st') sl ptr a ->
                               Mm.mem st' a = Mm.mem st a))).
Proof.
  intros H Hptr Hf Hsize oldpay rsize Hgrow Hnext Hslot hl sl.
  set (m := Mm.mem st) in *.
  pose proof (hi_lo _ _ _ _ H) as Hlo. fold hl in Hlo.
  pose proof (hi_cap _ _ _ _ H) as (Hk1 & Hk2 & Hk3). fold hl in Hk2.
  pose proof (hi_brk _ _ _ _ H) as Hbrk. fold hl in Hbrk.
  pose proof (heap_sized _ _ _ _ H) as Hsized.
  assert (Hpin : In (ptr, B, 1) sl) by (unfold sl; rewrite Hptr; apply starts_mid).
  destruct (heap_block _ _ _ _ _ _ _ H Hpin) as (Hp1 & Hp2 & HB24 & HB8 & _ & HBh & HBf).
  cbn [tag_word] in HBh, HBf. fold m in HBh, HBf. fold hl in Hp1.
  assert (Esz : GET_SIZE m (HDRP ptr) = B).
  { unfold HDRP, WSIZE. rewrite GET_SIZE_eq, HBh. lia. }
  assert (Eold : oldpay = B - 8) by (unfold oldpay; rewrite Esz; reflexivity).
  clearbody oldpay. subst oldpay.
  assert (Hrs : 16 <= rsize < 2 ^ 64).
  { unfold rsize, QSIZE. destruct (Z.leb_spec size 16); [lia|].
    rewrite ALIGN_eq, (Z.mod_small (size + 7)) by lia. lia. }
  (* the header of the next block *)
  assert (Hnx : GET m (ptr + B - 4) = free_after post
                \/ (GET m (ptr + B - 4)) mod 2 = 1).
  { destruct post as [|[N a] post'].
    - right. pose proof (hi_epi _ _ _ _ H) as He. fold m in He.
      rewrite Hbrk, total_app, total_cons, total_nil in He.
      replace (ptr + B - 4) with (hl + 8 + (total pre + (B + 0)) - 4) by lia.
      rewrite He. reflexivity.
    - assert (Hn : In (ptr + B, N, a) sl).
      { unfold sl. rewrite Hptr, starts_app. apply in_or_app. right. right. now left. }
      destruct (heap_block _ _ _ _ _ _ _ H Hn) as (_ & _ & ? & ? & Ha & Hh & _).
      cbn [tag_word] in Hh. fold m in Hh.
      replace (ptr + B - 4) with (ptr + B - 4) by lia. rewrite Hh.
      cbn [free_after]. destruct Ha as [-> | ->]; [left; cbn; lia|right; lia]. }
  destruct (mm_malloc_served st _ F fuel size H Hf Hsize Hslot) as (st1 & p & Hm & Hres).
  cbv zeta in Hres. fold hl sl in Hres.
  exists st1, p.
  unfold Mm.mm_realloc.
  destruct (Z.eqb_spec size 0) as [|_]; [lia|].
  destruct (Z.eqb_spec ptr 0) as [|_]; [lia|].
  cbv zeta. fold m. fold rsize. unfold OVERHEAD.
  assert (Enx : NEXT_BLKP m ptr = ptr + B).
  { unfold NEXT_BLKP. fold (HDRP ptr). now rewrite Esz. }
  rewrite Esz, Enx.
  replace (wrap32 (B - 8)) with (B - 8) by (unfold wrap32; rewrite Z.mod_small; lia).
  destruct (Z.leb_spec rsize (B - 8)); [lia|].
  replace (wrap (rsize - (B - 8))) with (rsize - (B - 8))
    by (unfold wrap, SIZE_MAX1; rewrite Z.mod_small; lia).
  assert (Hcase : (GET_ALLOC m (HDRP (ptr + B)) =? 0)
                  && (GET_SIZE m (HDRP (ptr + B)) >=? rsize - (B - 8)) = false).
  { unfold HDRP, WSIZE. rewrite GET_ALLOC_eq, GET_SIZE_eq.
    pose proof (GET_range m (ptr + B - 4)).
    destruct Hnx as [E|E].
    - rewrite E.
      match goal with
      | |- _ && (?a >=? ?b) = false => destruct (Z.geb_spec a b); [lia|apply andb_false_r]
      end.
    - rewrite E. reflexivity. }
  rewrite Hcase.
  rewrite Hm.
  destruct Hres as [(-> & -> & Hnone & Hno)|(bl1 & F1 & s & Hinv1 & Hhl1 & Hmax1 & Hbrk1 & _
                                   & Hpnew & Hps & Hp8 & Hfresh & Hlive & Hfr1)].
  { cbn [Z.eqb]. exists st. split; [reflexivity|]. split; [reflexivity|]. left. auto. }
  destruct (heap_block _ _ _ _ _ _ _ Hinv1 ltac:(rewrite Hhl1; exact Hpnew))
    as (Hq1 & Hq2 & Hs24 & _).
  rewrite Hhl1 in Hq1.
  destruct (Z.eqb_spec p 0) as [|Hp0]; [lia|].
  set (n := if size <? B - 8 then size else B - 8).
  assert (Hn : n = Z.min size (B - 8)) by (unfold n; destruct (Z.ltb_spec size (B - 8)); lia).
  set (m1 := memcpy (Mm.mem st1) p ptr n).
  (* the old block is still there *)
  assert (Hold1 : In (ptr, B, 1) (starts (Mm.heap_listp st1 + 8) bl1)).
  { rewrite Hhl1. apply Hlive. left. exact Hpin. }
  assert (Hne : p <> ptr) by (intros ->; exact (Hfresh B Hpin)).
  pose proof (heap_sized _ _ _ _ Hinv1) as Hsized1.
  assert (Hdisj : p + s <= ptr \/ ptr + B <= p).
  { destruct (starts_disjoint _ _ _ _ _ _ _ _ Hsized1 Hold1
                ltac:(rewrite Hhl1; exact Hpnew)) as [?|[?|(? & _)]]; lia. }
  assert (Hinv2 : heap_inv None (Mm.set_mem st1 m1) bl1 F1).
  { apply (heap_write_payload st1 bl1 F1 p s); [exact Hinv1|rewrite Hhl1; exact Hpnew|].
    intros a Ha. unfold m1. apply memcpy_outside. lia. }
  destruct (In_starts_split _ _ _ _ _ Hold1) as (pre1 & post1 & Ebl1 & Eptr1).
  rewrite Ebl1 in Hinv2.
  destruct (mm_free_heap (Mm.set_mem st1 m1) pre1 B post1 F1 ptr Hinv2 Eptr1)
    as (Hinv3 & (R1 & R2 & R3) & Hfr3).
  cbv zeta in Hinv3, Hfr3. cbn [Mm.heap_listp Mm.mem_brk Mm.mem_max_addr Mm.set_mem Mm.mem] in *.
  set (st' := Mm.mm_free (Mm.set_mem st1 m1) ptr) in *.
  rewrite <- Ebl1, Hhl1 in Hfr3.
  exists st'. split; [reflexivity|]. split; [reflexivity|].
  right. split; [exact Hp0|]. split; [exact Hne|].
  exists (merge_at pre1 B post1). eexists. exists s.
  split; [exact Hinv3|]. split; [congruence|].
  pose proof (heap_bits _ _ _ _ Hinv2) as Hbits.
  apply bits_ok_app in Hbits. destruct Hbits as [Hbpre Hbpost].
  assert (Hbpost' : bits_ok post1) by (intros s0 a Hi; apply (Hbpost s0 a); now right).
  assert (Hl : forall b s0, In (b, s0, 1) (starts (hl + 8) (merge_at pre1 B post1))
                 <-> (In (b, s0, 1) sl /\ b <> ptr) \/ (b = p /\ s0 = s)).
  { intros b s0. rewrite (live_merge (hl + 8) pre1 B post1 b s0 Hbpre Hbpost' ltac:(lia)).
    rewrite <- Ebl1, Hlive. rewrite Hhl1 in Eptr1. rewrite <- Eptr1. intuition lia. }
  assert (Hnewc : forall i, 0 <= i < s - 8 ->
            client_byte (hl - 24) (Mm.mem_brk st1) (starts (hl + 8) bl1) ptr (p + i)).
  { intros i Hi. right. right. exists p, s. split; [exact Hpnew|]. split; [exact Hne|lia]. }
  split; [apply Hl; right; auto|]. split; [exact Hps|].
  split; [|split; [|split; [|split; [exact Hl|]]]].
  - intros i Hi.
    rewrite Hfr3 by (apply Hnewc; lia).
    unfold m1. rewrite memcpy_inside by lia.
    replace (ptr + (p + i - p)) with (ptr + i) by lia.
    apply Hfr1. right. right. exists ptr, B. split; [exact Hpin|]. split; lia.
  - intros i Hi.
    rewrite Hfr3 by (apply Hnewc; lia).
    unfold m1. apply memcpy_outside. lia.
  - exists (ptr - free_before pre1), (free_before pre1 + B + free_after post1).
    split.
    + rewrite Hhl1 in Eptr1. rewrite Eptr1. apply merged_block_free. exact Hbpre.
    + destruct (pre_shape pre1 Hbpre) as (_ & Hfb & _).
      destruct (post_shape post1 Hbpost') as (_ & Hfa & _). lia.
  - intros a Ha. rewrite R2 in Ha.
    assert (Ha1 : client_byte (hl - 24) (Mm.mem_brk st1) sl 0 a).
    { destruct Ha as [?|[?|(b & s0 & Hb & Hnb & Hr)]]; [now left|right; now left|].
      right. right. exists b, s0. split; [exact Hb|]. split; [|exact Hr].
      destruct (heap_block _ _ _ _ _ _ _ H Hb) as (? & _). fold hl in H1. lia. }
    rewrite Hfr3.
    + unfold m1. rewrite memcpy_outside; [apply Hfr1; exact Ha1|].
      destruct Ha as [?|[?|(b & s0 & Hb & Hnb & Hr)]]; try lia.
      assert (Hb1 : In (b, s0, 1) (starts (Mm.heap_listp st1 + 8) bl1))
        by (rewrite Hhl1; apply Hlive; now left).
      assert (b <> p) by (intros ->; exact (Hfresh s0 Hb)).
      destruct (starts_disjoint _ _ _ _ _ _ _ _ Hsized1 Hb1
                  ltac:(rewrite Hhl1; exact Hpnew)) as [?|[?|(? & _)]]; lia.
    + destruct Ha as [?|[?|(b & s0 & Hb & Hnb & Hr)]]; [now left|right; now left|].
      right. right. exists b, s0. split; [apply Hlive; now left|]. split; [exact Hnb|exact Hr].
Qed.

(** C7, as amended: [mm_realloc] of [mm.c] on a heap that satisfies
    the invariant, for the allocated block at [ptr] and a request of
    [size] bytes with [0 < size <= 2^64 - 16], on the fallback path:
    [rsize = max 16 (ALIGN size)] exceeds the old payload [oldpay],
    which is the size in the header of [ptr] less 8, and the next block
    is allocated, is the epilogue, or is free but smaller than
    [rsize - oldpay]; with fuel for the whole free list and the word
    below the region smaller than the adjusted size.  The call returns
    the pointer [q] that [mm_malloc size] returns.  When [q] is null,
    the state is the one [mm_realloc] was given (no free block is large
    enough and the region cannot grow).  Otherwise [q] is the payload
    pointer of another block, of at least [size + 8] bytes; its first
    [min size oldpay] bytes are those of the old payload, and the rest
    of its payload is as [mm_malloc] left it; the old block lies in a
    free block of the resulting heap, which satisfies the invariant;
    the allocated blocks are those of before without [ptr] and with
    [q]; every byte outside the region and every payload byte of the
    other blocks allocated before is as it was. *)
Theorem realloc_fallback_moves (fuel : nat) (st : Mm.state) (pre : list (Z * Z)) (B : Z)
        (post : list (Z * Z)) (F : list Z) (ptr size : Z) :
  heap_inv None st (pre ++ (B, 1) :: post) F ->
  ptr = Mm.heap_listp st + 8 + total pre ->
  (length F < fuel)%nat ->
  0 < size <= 2 ^ 64 - 16 ->
  let oldpay := GET_SIZE (Mm.mem st) (HDRP ptr) - 8 in
  let rsize := if size <=? QSIZE then QSIZE else ALIGN size in
  oldpay < rsize ->
  free_after post < rsize - oldpay ->
  GET_SIZE (Mm.mem st) (Mm.heap_listp st - 28) < adjust_size size ->
  let hl := Mm.heap_listp st in
  let sl := starts (hl + 8) (pre ++ (B, 1) :: post) in
  exists st1 q st',
    Mm.mm_malloc fuel st size = Some (st1, q)
    /\ Mm.mm_realloc fuel st ptr size = Some (st', q)
    /\ ((q = 0 /\ st' = st
         /\ (forall x s, In (x, s, 0) sl -> s < adjust_size size)
         /\ Mm.mem_max_addr st < Mm.mem_brk st + MAX (adjust_size size) Mm.CHUNKSIZE)
        \/ (q <> 0 /\ q <> ptr
            /\ exists bl' F' s,
                 heap_inv None st' bl' F'
                 /\ Mm.heap_listp st' = hl
                 /\ In (q, s, 1) (starts (hl + 8) bl') /\ size + 8 <= s
                 /\ (forall i, 0 <= i < Z.min size oldpay ->
                       Mm.mem st' (q + i) = Mm.mem st (ptr + i))
                 /\ (forall i, Z.min size oldpay <= i < s - 8 ->
                       Mm.mem st' (q + i) = Mm.mem st1 (q + i))
                 /\ (exists x t, In (x, t, 0) (starts (hl + 8) bl')
                                 /\ x <= ptr /\ ptr + oldpay + 8 <= x + t)
                 /\ (forall b s0, In (b, s0, 1) (starts (hl + 8) bl')
                                  <-> (In (b, s0, 1) sl /\ b <> ptr) \/ (b = q /\ s0 = s))
                 /\ (forall a, client_byte (hl - 24) (Mm.mem_brk st') sl ptr a ->
                               Mm.mem st' a = Mm.mem st a))).
Proof. exact (mm_realloc_moves fuel st pre B post F ptr size). Qed.

Lemma realloc_fallback_moves_witness :
  let st := mm_heap3 in
  let pre := [(32, 1)] in
  let post := [(112, 1); (1880, 0)] in
  let ptr := 4160 in
  let size := 100 in
  let oldpay := GET_SIZE (Mm.mem st) (HDRP ptr) - 8 in
  let hl := Mm.heap_listp st in
  let sl := starts (hl + 8) (pre ++ (24, 1) :: post) in
  exists st1 q st',
    Mm.mm_malloc 16 st size = Some (st1, q)
    /\ Mm.mm_realloc 16 st ptr size = Some (st', q)
    /\ ((q = 0 /\ st' = st
         /\ (forall x s, In (x, s, 0) sl -> s < adjust_size size)
         /\ Mm.mem_max_addr st < Mm.mem_brk st + MAX (adjust_size size) Mm.CHUNKSIZE)
        \/ (q <> 0 /\ q <> ptr
            /\ exists bl' F' s,
                 heap_inv None st' bl' F'
                 /\ Mm.heap_listp st' = hl
                 /\ In (q, s, 1) (starts (hl + 8) bl') /\ size + 8 <= s
                 /\ (forall i, 0 <= i < Z.min size oldpay ->
                       Mm.mem st' (q + i) = Mm.mem st (ptr + i))
                 /\ (forall i, Z.min size oldpay <= i < s - 8 ->
                       Mm.mem st' (q + i) = Mm.mem st1 (q + i))
                 /\ (exists x t, In (x, t, 0) (starts (hl + 8) bl')
                                 /\ x <= ptr /\ ptr + oldpay + 8 <= x + t)
                 /\ (forall b s0, In (b, s0, 1) (starts (hl + 8) bl')
                                  <-> (In (b, s0, 1) sl /\ b <> ptr) \/ (b = q /\ s0 = s))
                 /\ (forall a, client_byte (hl - 24) (Mm.mem_brk st') sl ptr a ->
                               Mm.mem st' a = Mm.mem st a))).
Proof.
  apply (realloc_fallback_moves 16 mm_heap3 [(32, 1)] 24 [(112, 1); (1880, 0)] [4296] 4160 100).
  - apply heap_invb_sound. vm_compute. reflexivity.
  - vm_compute. reflexivity.
  - vm_compute. lia.
  - lia.
  - vm_compute. reflexivity.
  - vm_compute. reflexivity.
  - vm_compute. reflexivity.
Defined.

(** The [mm_realloc] of [mm_work.c] copies the footer too.  In
    [mm_work_heap2] the block at 4240 is allocated and has 16 bytes of
    payload; its footer, the word at 4256, holds 25.  For a request of
    100 bytes [mm_realloc] returns 4288, as [mm_malloc] does; the
    length it copies is [min (100, 24)], the 24 being the size in the
    header of the old block, and the word 16 bytes into the new block,
    0 when [mm_malloc] returns, then holds 25: more than
    [min (100, 16)] bytes were copied. *)
Lemma mm_work_realloc_copies_footer :
  let st := mm_work_heap2 in
  let p := 4240 in
  let size := 100 in
  let oldpay := GET_SIZE (MmWork.mem st) (HDRP p) - 8 in
  GET_ALLOC (MmWork.mem st) (HDRP p) = 1
  /\ oldpay = 16 /\ Z.min size oldpay = 16
  /\ match MmWork.mm_malloc 16 st size, MmWork.mm_realloc 16 st p size with
     | Some (st1, q1), Some (st', q) =>
         q1 = 4288 /\ q = 4288
         /\ Z.min size (GET_SIZE (MmWork.mem st1) (HDRP p)) = 24
         /\ GET (MmWork.mem st) (p + 16) = 25
         /\ GET (MmWork.mem st1) (q + 16) = 0
         /\ GET (MmWork.mem st') (q + 16) = 25
     | _, _ => False
     end.
Proof. vm_compute. repeat split. Qed.

(** Above [2^64 - 16] the adjusted size wraps around.  For a request
    of [2^64 - 8] bytes on [mm_heap3] it is 0: [mm_malloc] returns the
    free block at 4296 and leaves it marked free, and the heap, which
    passed the checks of [mm_invariants] before [mm_realloc], fails them
    after. *)
Lemma mm_realloc_wrapped_request :
  let st := mm_heap3 in
  let size := 2 ^ 64 - 8 in
  adjust_size size = 0
  /\ mm_invariants 16 st = true
  /\ match Mm.mm_malloc 16 st size, Mm.mm_realloc 16 st 4160 size with
     | Some (st1, q1), Some (st', q) =>
         q1 = 4296 /\ q = 4296
         /\ GET (Mm.mem st1) (HDRP q) = PACK 1880 0
         /\ mm_invariants 16 st' = false
     | _, _ => False
     end.
Proof. vm_compute. repeat split. Qed.

(** X22: [mm_realloc] of [mm.c] on a heap that satisfies the
    invariant, for an allocated block of [B] bytes at [ptr] and a
    request of [size] bytes with [0 < size <= 2^64 - 16], when
    [rsize = max 16 (ALIGN size)] exceeds the payload [B - 8] and the
    next block is allocated, is the epilogue, or is a free block too
    small to give the missing bytes; with fuel for the whole free list
    and the word below the region smaller than the adjusted size.  The
    call returns.  It returns null only when no free block is large
    enough and the region cannot grow by the amount [mm_malloc] needs,
    and the state is then untouched.  Otherwise it returns the payload
    pointer [p] of another block of at least [size + 8] bytes, whose
    first [min size (B - 8)] bytes are those of the old payload; the
    heap satisfies the invariant, the allocated blocks are those of
    before without [ptr] and with [p], and every byte outside the
    region and every payload byte of the other blocks allocated before
    is as it was. *)
Theorem mm_realloc_move_heap (fuel : nat) (st : Mm.state) (pre : list (Z * Z)) (B : Z)
        (post : list (Z * Z)) (F : list Z) (ptr size : Z) :
  heap_inv None st (pre ++ (B, 1) :: post) F ->
  ptr = Mm.heap_listp st + 8 + total pre ->
  (length F < fuel)%nat ->
  0 < size <= 2 ^ 64 - 16 ->
  let rsize := if size <=? QSIZE then QSIZE else ALIGN size in
  B - 8 < rsize ->
  free_after post < rsize - (B - 8) ->
  GET_SIZE (Mm.mem st) (Mm.heap_listp st - 28) < adjust_size size ->
  let hl := Mm.heap_listp st in
  let sl := starts (hl + 8) (pre ++ (B, 1) :: post) in
  let asize := adjust_size size in
  exists st' p,
    Mm.mm_realloc fuel st ptr size = Some (st', p)
    /\ ((p = 0 /\ st' = st
         /\ (forall x s, In (x, s, 0) sl -> s < asize)
         /\ Mm.mem_max_addr st < Mm.mem_brk st + MAX asize Mm.CHUNKSIZE)
        \/ (p <> 0 /\ p <> ptr
            /\ exists bl' F' s,
                 heap_inv None st' bl' F'
                 /\ Mm.heap_listp st' = hl
                 /\ In (p, s, 1) (starts (hl + 8) bl') /\ size + 8 <= s
                 /\ (forall i, 0 <= i < Z.min size (B - 8) ->
                       Mm.mem st' (p + i) = Mm.mem st (ptr + i))
                 /\ (forall b s0, In (b, s0, 1) (starts (hl + 8) bl')
                                  <-> (In (b, s0, 1) sl /\ b <> ptr) \/ (b = p /\ s0 = s))
                 /\ (forall a, client_byte (hl - 24) (Mm.mem_brk st') sl ptr a ->
                               Mm.mem st' a = Mm.mem st a))).
Proof.
  intros H Hptr Hf Hsize rsize Hgrow Hnext Hslot hl sl asize.
  assert (Esz : GET_SIZE (Mm.mem st) (HDRP ptr) = B).
  { assert (Hpin : In (ptr, B, 1) sl) by (unfold sl; rewrite Hptr; apply starts_mid).
    destruct (heap_block _ _ _ _ _ _ _ H Hpin) as (_ & _ & HB24 & HB8 & _ & HBh & _).
    cbn [tag_word] in HBh. unfold HDRP, WSIZE. rewrite GET_SIZE_eq, HBh. lia. }
  destruct (mm_realloc_moves fuel st pre B post F ptr size H Hptr Hf Hsize)
    as (st1 & q & st' & _ & Hr & Hres).
  - rewrite Esz. exact Hgrow.
  - rewrite Esz. exact Hnext.
  - exact Hslot.
  - rewrite Esz in Hres. fold hl sl asize in Hres.
    exists st', q. split; [exact Hr|].
    destruct Hres as [Hnull|(Hq0 & Hqp & bl' & F' & s & Hinv & Hhl & Hin & Hs & Hcp & _ & _ & Hl & Hfr)].
    + left. exact Hnull.
    + right. split; [exact Hq0|]. split; [exact Hqp|].
      exists bl', F', s. auto 10.
Qed.

Lemma mm_realloc_move_heap_witness :
  let st := mm_heap3 in
  let pre := [(32, 1)] in
  let post := [(112, 1); (1880, 0)] in
  let hl := Mm.heap_listp st in
  let sl := starts (hl + 8) (pre ++ (24, 1) :: post) in
  let asize := adjust_size 100 in
  exists st' p,
    Mm.mm_realloc 16 st 4160 100 = Some (st', p)
    /\ ((p = 0 /\ st' = st
         /\ (forall x s, In (x, s, 0) sl -> s < asize)
         /\ Mm.mem_max_addr st < Mm.mem_brk st + MAX asize Mm.CHUNKSIZE)
        \/ (p <> 0 /\ p <> 4160
            /\ exists bl' F' s,
                 heap_inv None st' bl' F'
                 /\ Mm.heap_listp st' = hl
                 /\ In (p, s, 1) (starts (hl + 8) bl') /\ 100 + 8 <= s
                 /\ (forall i, 0 <= i < Z.min 100 (24 - 8) ->
                       Mm.mem st' (p + i) = Mm.mem st (4160 + i))
                 /\ (forall b s0, In (b, s0, 1) (starts (hl + 8) bl')
                                  <-> (In (b, s0, 1) sl /\ b <> 4160) \/ (b = p /\ s0 = s))
                 /\ (forall a, client_byte (hl - 24) (Mm.mem_brk st') sl 4160 a ->
                               Mm.mem st' a = Mm.mem st a))).
Proof.
  apply (mm_realloc_move_heap 16 mm_heap3 [(32, 1)] 24 [(112, 1); (1880, 0)] [4296] 4160 100).
  - apply heap_invb_sound. vm_compute. reflexivity.
  - vm_compute. reflexivity.
  - vm_compute. lia.
  - lia.
  - vm_compute. reflexivity.
  - vm_compute. reflexivity.
  - vm_compute. reflexivity.
Defined.

(** X23: [mm_calloc] of [mm.c] on a heap that satisfies the invariant,
    for a product [t = nmemb * size] with [0 < t <= 2^64 - 16], with
    fuel for the whole free list and the word below the region smaller
    than the adjusted size.  [mm_malloc t] returns.  It returns null
    only when no free block is large enough and the region cannot grow
    by the amount needed, and it then leaves the state untouched;
    nothing is stated about the [bzero] that follows on the null
    pointer.  When it returns a block [p], [mm_calloc] returns [p] as
    well: the first [t] bytes at [p] are zero and every other byte, and
    the region, is as [mm_malloc] left it; the heap satisfies the
    invariant, the allocated blocks are those of before and the new
    one, and every byte outside the region and every payload byte of
    the blocks allocated before is as it was. *)
Theorem mm_calloc_heap (fuel : nat) (st : Mm.state) (bl : list (Z * Z)) (F : list Z)
        (nmemb size : Z) :
  let t := nmemb * size in
  let hl := Mm.heap_listp st in
  let sl := starts (hl + 8) bl in
  let asize := adjust_size t in
  heap_inv None st bl F -> (length F < fuel)%nat -> 0 < t <= 2 ^ 64 - 16 ->
  GET_SIZE (Mm.mem st) (hl - 28) < asize ->
  exists st1 p,
    Mm.mm_malloc fuel st t = Some (st1, p)
    /\ ((p = 0 /\ st1 = st
         /\ (forall x s, In (x, s, 0) sl -> s < asize)
         /\ Mm.mem_max_addr st < Mm.mem_brk st + MAX asize Mm.CHUNKSIZE)
        \/ (p <> 0
            /\ exists st' bl' F' s,
                 Mm.mm_calloc fuel st nmemb size = Some (st', p)
                 /\ heap_inv None st' bl' F'
                 /\ same_region st1 st'
                 /\ In (p, s, 1) (starts (hl + 8) bl') /\ t + 8 <= s /\ p mod 8 = 0
                 /\ (forall a, p <= a < p + t -> Mm.mem st' a = 0)
                 /\ (forall a, a < p \/ p + t <= a -> Mm.mem st' a = Mm.mem st1 a)
                 /\ (forall b s0, In (b, s0, 1) (starts (hl + 8) bl')
                                  <-> In (b, s0, 1) sl \/ (b = p /\ s0 = s))
                 /\ (forall a, client_byte (hl - 24) (Mm.mem_brk st') sl 0 a ->
                               Mm.mem st' a = Mm.mem st a))).
Proof.
  intros t hl sl asize H Hf Ht Hslot.
  pose proof (hi_lo _ _ _ _ H) as Hlo. fold hl in Hlo.
  destruct (mm_malloc_served st bl F fuel t H Hf Ht Hslot) as (st1 & p & Hm & Hres).
  cbv zeta in Hres. fold hl sl asize in Hres.
  exists st1, p. split; [exact Hm|].
  destruct Hres as [Hnull|(bl1 & F1 & s & Hinv1 & Hhl1 & Hmax1 & Hbrk1 & _
                                   & Hpnew & Hps & Hp8 & Hfresh & Hlive & Hfr1)].
  { left. exact Hnull. }
  destruct (heap_block _ _ _ _ _ _ _ Hinv1 ltac:(rewrite Hhl1; exact Hpnew))
    as (Hq1 & Hq2 & Hs24 & _).
  rewrite Hhl1 in Hq1.
  pose proof (heap_sized _ _ _ _ Hinv1) as Hsized1.
  right. split; [lia|].
  exists (Mm.set_mem st1 (bzero (Mm.mem st1) p t)), bl1, F1, s.
  split.
  { unfold Mm.mm_calloc. fold hl.
    destruct (Z.eqb_spec hl 0) as [|_]; [lia|].
    fold t.
    replace (wrap t) with t by (unfold wrap, SIZE_MAX1; rewrite Z.mod_small; lia).
    rewrite Hm. reflexivity. }
  split.
  { apply (heap_write_payload st1 bl1 F1 p s); [exact Hinv1|rewrite Hhl1; exact Hpnew|].
    intros a Ha. apply bzero_outside. lia. }
  split; [apply same_region_set_mem|].
  cbn [Mm.heap_listp Mm.mem_brk Mm.mem Mm.set_mem].
  split; [exact Hpnew|]. split; [exact Hps|]. split; [exact Hp8|].
  split; [intros a Ha; now apply bzero_inside|].
  split; [intros a Ha; apply bzero_outside; lia|]. split; [exact Hlive|].
  intros a Ha. rewrite bzero_outside; [apply Hfr1; exact Ha|].
  destruct Ha as [?|[?|(b & s0 & Hb & _ & Hr)]]; try lia.
  assert (Hb1 : In (b, s0, 1) (starts (Mm.heap_listp st1 + 8) bl1))
    by (rewrite Hhl1; apply Hlive; now left).
  assert (b <> p) by (intros ->; exact (Hfresh s0 Hb)).
  destruct (starts_disjoint _ _ _ _ _ _ _ _ Hsized1 Hb1
              ltac:(rewrite Hhl1; exact Hpnew)) as [?|[?|(? & _)]]; lia.
Qed.

Lemma mm_calloc_heap_witness :
  let st := mm_heap4 in
  let bl := [(32, 1); (24, 0); (112, 1); (1880, 0)] in
  let t := 4 * 25 in
  let hl := Mm.heap_listp st in
  let sl := starts (hl + 8) bl in
  let asize := adjust_size t in
  exists st1 p,
    Mm.mm_malloc 16 st t = Some (st1, p)
    /\ ((p = 0 /\ st1 = st
         /\ (forall x s, In (x, s, 0) sl -> s < asize)
         /\ Mm.mem_max_addr st < Mm.mem_brk st + MAX asize Mm.CHUNKSIZE)
        \/ (p <> 0
            /\ exists st' bl' F' s,
                 Mm.mm_calloc 16 st 4 25 = Some (st', p)
                 /\ heap_inv None st' bl' F'
                 /\ same_region st1 st'
                 /\ In (p, s, 1) (starts (hl + 8) bl') /\ t + 8 <= s /\ p mod 8 = 0
                 /\ (forall a, p <= a < p + t -> Mm.mem st' a = 0)
                 /\ (forall a, a < p \/ p + t <= a -> Mm.mem st' a = Mm.mem st1 a)
                 /\ (forall b s0, In (b, s0, 1) (starts (hl + 8) bl')
                                  <-> In (b, s0, 1) sl \/ (b = p /\ s0 = s))
                 /\ (forall a, client_byte (hl - 24) (Mm.mem_brk st') sl 0 a ->
                               Mm.mem st' a = Mm.mem st a))).
Proof.
  apply (mm_calloc_heap 16 mm_heap4 [(32, 1); (24, 0); (112, 1); (1880, 0)] [4160; 4296] 4 25).
  - apply heap_invb_sound. vm_compute. reflexivity.
  - vm_compute. lia.
  - lia.
  - vm_compute. reflexivity.
Defined.

(** ** [mm_init] of [mm_work.c] *)

(** The loop of [mm_init] of [mm_work.c] that clears the root slots. *)
Lemma zero_fill_loop (p : Z) (n : nat) : forall (k : nat) (m : memory),
  let m' := fold_left (fun m i => PUT_8 m (p + DSIZE * Z.of_nat i) 0) (seq k n) m in
  (forall j, (k <= j < k + n)%nat -> GET_8 m' (p + 8 * Z.of_nat j) = 0)
  /\ (forall a, a < p + 8 * Z.of_nat k \/ p + 8 * Z.of_nat (k + n) <= a -> m' a = m a).
Proof.
  induction n as [|n IH]; intros k m; cbn [seq fold_left].
  - split; [intros j Hj; lia|reflexivity].
  - destruct (IH (S k) (PUT_8 m (p + DSIZE * Z.of_nat k) 0)) as [Hv Hfr].
    cbv zeta. unfold DSIZE in *. split.
    + intros j Hj. destruct (Nat.eq_dec j k) as [->|Hne].
      * rewrite <- (GET_8_PUT_8_same m (p + 8 * Z.of_nat k) 0) at 2.
        apply GET_8_frame. intros a Ha. apply Hfr. lia.
      * apply Hv. lia.
    + intros a Ha. rewrite Hfr by lia. unfold PUT_8. apply (store_outside 8). lia.
Qed.

(** Eight lists that hold nothing but their root slots. *)
Lemma root_slots_ok (st : MmWork.state) :
  let lo := MmWork.start_root st in
  0 < lo -> lo + 128 < 2 ^ 64 ->
  MmWork.roots st = map (fun i => lo + 16 * Z.of_nat i) (seq 0 MmWork.SEG_SIZE) ->
  (forall j, (j < 16)%nat -> GET_8 (MmWork.mem st) (lo + 8 * Z.of_nat j) = 0) ->
  lists_ok st (map (fun i => [lo + 16 * Z.of_nat i]) (seq 0 MmWork.SEG_SIZE)).
Proof.
  intros lo Hlo Hhi Hroots Hz.
  set (Ls := map (fun i => [lo + 16 * Z.of_nat i]) (seq 0 MmWork.SEG_SIZE)).
  assert (Hnth : forall k, (k < MmWork.SEG_SIZE)%nat -> nth k Ls [] = [lo + 16 * Z.of_nat k]).
  { intros k Hk. unfold MmWork.SEG_SIZE in Hk.
    do 8 (destruct k as [|k]; [reflexivity|]). lia. }
  assert (Hover : forall k, (MmWork.SEG_SIZE <= k)%nat -> nth k Ls [] = []).
  { intros k Hk. apply nth_overflow. unfold Ls. now rewrite length_map, length_seq. }
  assert (Hin : forall k y, In y (nth k Ls []) ->
                  (k < MmWork.SEG_SIZE)%nat /\ y = lo + 16 * Z.of_nat k).
  { intros k y Hy. destruct (Nat.lt_ge_cases k MmWork.SEG_SIZE) as [Hk|Hk].
    - rewrite (Hnth k Hk) in Hy. destruct Hy as [<-|[]]. auto.
    - rewrite (Hover k Hk) in Hy. destruct Hy. }
  constructor.
  - rewrite Hroots, length_map, length_seq. reflexivity.
  - intros k Hk. rewrite (Hnth k Hk). split; [discriminate|]. cbn [hd last dllseg].
    split; [|split; [|reflexivity]].
    + rewrite Hroots. fold lo. unfold MmWork.SEG_SIZE in Hk.
      do 8 (destruct k as [|k]; [reflexivity|]). lia.
    + unfold PREV, NEXT, DSIZE. unfold MmWork.SEG_SIZE in Hk. repeat split.
      * replace (lo + 16 * Z.of_nat k + 8) with (lo + 8 * Z.of_nat (2 * k + 1)) by lia.
        apply Hz. lia.
      * replace (lo + 16 * Z.of_nat k) with (lo + 8 * Z.of_nat (2 * k)) by lia.
        apply Hz. lia.
  - intros k y Hy. destruct (Hin k y Hy) as [Hk ->]. unfold MmWork.SEG_SIZE in Hk. lia.
  - intros k. destruct (Nat.lt_ge_cases k MmWork.SEG_SIZE) as [Hk|Hk].
    + rewrite (Hnth k Hk). cbn [pairwise_sep]. split; [constructor|exact I].
    + rewrite (Hover k Hk). exact I.
  - intros j k a b Hjk Ha Hb.
    destruct (Hin j a Ha) as [Hj ->]. destruct (Hin k b Hb) as [Hk ->].
    unfold cell_sep. lia.
Qed.

(** X24: [mm_init] of [mm_work.c] on a region [lo, hi) yet to be
    claimed, with [lo] positive.  When the region cannot give the first
    144 bytes, the call returns -1 and changes nothing but
    [heap_listp], which becomes -1; when it gives them but not the
    first chunk of 4096 bytes, the call returns -1.  Otherwise it
    returns 0: the eight root slots fill the first 128 bytes, prologue
    and epilogue are in place around one free block of 4096 bytes at
    [lo + 144], the lists are well formed, the list of each class
    holding its root slot only, except that of class 7, which starts
    with the free block; no byte outside [lo, lo + 4240) is
    written. *)
Theorem mm_work_init_builds_lists (st : MmWork.state) :
  let lo := MmWork.mem_brk st in
  let hi := MmWork.mem_max_addr st in
  0 < lo -> hi < 2 ^ 64 -> length (MmWork.roots st) = MmWork.SEG_SIZE ->
  (hi < lo + 144 -> MmWork.mm_init st = (MmWork.set_heap_listp st (-1), -1))
  /\ (lo + 144 <= hi < lo + 4240 ->
      snd (MmWork.mm_init st) = -1
      /\ MmWork.heap_listp (fst (MmWork.mm_init st)) = lo + 136
      /\ MmWork.mem_brk (fst (MmWork.mm_init st)) = lo + 144)
  /\ (lo + 4240 <= hi ->
      let st' := fst (MmWork.mm_init st) in
      snd (MmWork.mm_init st) = 0
      /\ lists_ok st' [[lo]; [lo + 16]; [lo + 32]; [lo + 48]; [lo + 64]; [lo + 80];
                       [lo + 96]; [lo + 144; lo + 112]]
      /\ MmWork.start_root st' = lo
      /\ MmWork.heap_listp st' = lo + 136
      /\ MmWork.mem_brk st' = lo + 4240
      /\ GET (MmWork.mem st') (lo + 132) = 9
      /\ GET (MmWork.mem st') (lo + 136) = 9
      /\ GET (MmWork.mem st') (lo + 140) = 4096
      /\ GET (MmWork.mem st') (lo + 4232) = 4096
      /\ GET (MmWork.mem st') (lo + 4236) = 1
      /\ (forall a, a < lo \/ lo + 4240 <= a -> MmWork.mem st' a = MmWork.mem st a)).
Proof.
  intros lo hi Hlo Hhi Hlen.
  unfold MmWork.mm_init, MmWork.mem_sbrk. fold lo hi. unfold DSIZE.
  change (18 * 8) with 144. change (144 <? 0) with false. cbn [orb].
  split.
  { intros Hno. destruct (Z.gtb_spec (lo + 144) hi); [|lia]. reflexivity. }
  destruct (Z.gtb_spec (lo + 144) hi) as [Hgt|Hle].
  { split; intros; lia. }
  destruct (Z.eqb_spec lo (-1)) as [|_]; [lia|].
  cbn [MmWork.mem MmWork.mem_brk MmWork.mem_max_addr MmWork.heap_listp
       MmWork.start_root MmWork.roots MmWork.set_mem MmWork.set_start_root
       MmWork.set_heap_listp MmWork.set_brk].
  unfold WSIZE, OVERHEAD. change (PACK 8 1) with 9. change (PACK 0 1) with 1.
  change (8 * 16) with 128. change (8 * 17) with 136.
  replace (lo + 128 + 4) with (lo + 132) by lia.
  replace (lo + 136 + 4) with (lo + 140) by lia.
  set (m := MmWork.mem st).
  destruct (zero_fill_loop lo 16 0 m) as [Hzero Hzfr]. cbv zeta in Hzero, Hzfr.
  unfold DSIZE in Hzero, Hzfr.
  set (m1 := fold_left (fun m i => PUT_8 m (lo + 8 * Z.of_nat i) 0) (seq 0 16) m) in *.
  set (m5 := PUT (PUT (PUT (PUT m1 (lo + 128) 0) (lo + 132) 9) (lo + 136) 9) (lo + 140) 1).
  set (st4 := MmWork.mkState m5 (lo + 144) hi (lo + 136) lo (MmWork.roots st)).
  change (MmWork.CHUNKSIZE / 4) with 1024.
  match goal with |- context [MmWork.root_init ?s] => change s with st4 end.
  assert (Hri := root_init_spec st4 Hlen Hlo).
  assert (Hmax : MmWork.mem_max_addr (MmWork.root_init st4) = hi).
  { unfold MmWork.root_init.
    destruct (root_init_loop MmWork.SEG_SIZE 0 st4 Hlo ltac:(cbn; lia))
      as (_ & _ & _ & _ & _ & _ & E). exact E. }
  change (MmWork.mem st4) with m5 in Hri.
  change (MmWork.start_root st4) with lo in Hri.
  change (MmWork.heap_listp st4) with (lo + 136) in Hri.
  change (MmWork.mem_brk st4) with (lo + 144) in Hri.
  revert Hri Hmax. generalize (MmWork.root_init st4).
  intros st5 (Hroots & Hmem & Hsr & Hhl & Hbrk) Hmax.
  unfold MmWork.extend_heap, MmWork.mem_sbrk.
  change (negb (1024 mod 2 =? 0)) with false. cbv iota.
  unfold WSIZE. change (wrap (1024 * 4)) with 4096.
  change (4096 <? 0) with false. cbn [orb]. rewrite Hbrk, Hmax.
  replace (lo + 144 + 4096) with (lo + 4240) by lia.
  split.
  { intros Hmid. destruct (Z.gtb_spec (lo + 4240) hi); [|lia].
    change (-1 <? 0) with true. cbv iota. cbn [fst snd Z.eqb].
    split; [reflexivity|]. split; [exact Hhl|exact Hbrk]. }
  intros Hbig. destruct (Z.gtb_spec (lo + 4240) hi); [lia|].
  destruct (Z.ltb_spec (lo + 144) 0); [lia|].
  cbn [MmWork.mem MmWork.set_brk MmWork.set_mem]. rewrite Hmem.
  set (bp := lo + 144).
  destruct (tags_written m5 bp 4096 0 ltac:(lia) eq_refl ltac:(lia))
    as (Eft & Hh & Hf & Hfr2).
  set (m6 := PUT m5 (HDRP bp) (PACK 4096 0)) in *.
  set (m7 := PUT m6 (FTRP m6 bp) (PACK 4096 0)) in *.
  unfold HDRP, WSIZE in Hh. rewrite Z.add_0_r in Hh, Hf.
  assert (Enb : NEXT_BLKP m7 bp = bp + 4096).
  { unfold NEXT_BLKP, WSIZE. rewrite GET_SIZE_eq, Hh. reflexivity. }
  rewrite Enb. unfold HDRP, WSIZE. change (PACK 0 1) with 1.
  set (m8 := PUT m7 (bp + 4096 - 4) 1).
  set (st6 := MmWork.set_mem (MmWork.set_brk st5 (lo + 4240)) m8).
  (* what [coalesce] reads *)
  assert (G5 : GET m5 (lo + 132) = 9 /\ GET m5 (lo + 136) = 9).
  { unfold m5. split.
    - rewrite !GET_PUT_other by lia. rewrite GET_PUT_same. reflexivity.
    - rewrite GET_PUT_other by lia. rewrite GET_PUT_same. reflexivity. }
  destruct G5 as [G5a G5b].
  assert (Hfr8 : forall a, a < bp - 4 \/ bp <= a -> a < bp + 4088 \/ bp + 4096 <= a ->
                           m8 a = m5 a).
  { intros a Ha1 Ha2. unfold m8. rewrite PUT_outside by lia. apply Hfr2; lia. }
  assert (G8a : GET m8 (lo + 132) = 9).
  { transitivity (GET m5 (lo + 132)); [|exact G5a]. apply GET_frame. intros a Ha. apply Hfr8; unfold bp; lia. }
  assert (G8b : GET m8 (lo + 136) = 9).
  { transitivity (GET m5 (lo + 136)); [|exact G5b]. apply GET_frame. intros a Ha. apply Hfr8; unfold bp; lia. }
  assert (G8h : GET m8 (bp - 4) = 4096).
  { unfold m8. rewrite GET_PUT_other by lia. exact Hh. }
  assert (G8f : GET m8 (bp + 4096 - 8) = 4096).
  { unfold m8. rewrite GET_PUT_other by lia. exact Hf. }
  assert (G8e : GET m8 (bp + 4096 - 4) = 1).
  { unfold m8. rewrite GET_PUT_same. reflexivity. }
  assert (Ecoal : MmWork.coalesce st6 bp = (MmWork.push_root st6 7 bp, bp)).
  { unfold MmWork.coalesce. cbv zeta.
    change (MmWork.mem st6) with m8.
    assert (Ep : PREV_BLKP m8 bp = lo + 136).
    { unfold PREV_BLKP, DSIZE. replace (bp - 8) with (lo + 136) by (unfold bp; lia).
      rewrite GET_SIZE_eq, G8b. unfold bp. lia. }
    assert (Efp : FTRP m8 (lo + 136) = lo + 136).
    { unfold FTRP, HDRP, WSIZE, DSIZE. replace (lo + 136 - 4) with (lo + 132) by lia.
      rewrite GET_SIZE_eq, G8a. lia. }
    assert (En : NEXT_BLKP m8 bp = bp + 4096).
    { unfold NEXT_BLKP, WSIZE. rewrite GET_SIZE_eq, G8h. reflexivity. }
    rewrite Ep, Efp, En. unfold HDRP, WSIZE.
    rewrite !GET_ALLOC_eq, G8b, G8e, GET_SIZE_eq, G8h.
    reflexivity. }
  rewrite Ecoal.
  destruct (Z.eqb_spec bp 0) as [|_]; [unfold bp in *; lia|]. cbn [fst snd].
  (* the lists before the push *)
  assert (Hz8 : forall j, (j < 16)%nat -> GET_8 m8 (lo + 8 * Z.of_nat j) = 0).
  { intros j Hj. rewrite <- (Hzero j ltac:(lia)). apply GET_8_frame. intros a Ha.
    rewrite Hfr8 by (unfold bp; lia). unfold m5. rewrite !PUT_outside by lia. reflexivity. }
  assert (Hok6 : lists_ok st6 (map (fun i => [lo + 16 * Z.of_nat i]) (seq 0 MmWork.SEG_SIZE))).
  { assert (Esr : MmWork.start_root st6 = lo) by (unfold st6; exact Hsr).
    rewrite <- Esr. apply root_slots_ok; rewrite ?Esr; try lia.
    - exact Hroots.
    - exact Hz8. }
  destruct (coalesce_finish st6 _ bp 4096 Hok6 ltac:(unfold bp; lia) ltac:(lia) eq_refl
              G8h G8f) as (Th & Tf & _ & Hok7).
  { intros k y Hy. left.
    destruct (Nat.lt_ge_cases k MmWork.SEG_SIZE) as [Hk|Hk].
    - unfold MmWork.SEG_SIZE in Hk.
      do 8 (destruct k as [|k]; [destruct Hy as [<-|[]]; unfold bp; lia|]). lia.
    - rewrite nth_overflow in Hy by (now rewrite length_map, length_seq). destruct Hy. }
  cbv zeta in Th, Tf, Hok7. change (MmWork.get_segid 4096) with 7%nat in Th, Tf, Hok7.
  set (st7 := MmWork.push_root st6 7 bp) in *.
  assert (EL : push_class 7 bp (map (fun i => [lo + 16 * Z.of_nat i]) (seq 0 MmWork.SEG_SIZE))
               = [[lo]; [lo + 16]; [lo + 32]; [lo + 48]; [lo + 64]; [lo + 80];
                  [lo + 96]; [bp; lo + 112]]).
  { cbn. rewrite Z.add_0_r. reflexivity. }
  rewrite EL in Hok7.
  assert (Er : snd (MmWork.get_root st6 7 0) = lo + 112).
  { unfold MmWork.get_root. cbn [Z.eqb snd]. change (MmWork.roots st6) with (MmWork.roots st5).
    rewrite Hroots. reflexivity. }
  assert (E7 : MmWork.mem st7 = set_PREV (set_PREV (set_NEXT m8 bp (lo + 112)) bp 0) (lo + 112) bp
               /\ MmWork.start_root st7 = lo
               /\ MmWork.heap_listp st7 = lo + 136
               /\ MmWork.mem_brk st7 = lo + 4240).
  { unfold st7, MmWork.push_root. rewrite Er. unfold MmWork.get_root.
    destruct (Z.eqb_spec bp 0) as [|_]; [unfold bp in *; lia|].
    unfold st6.
    cbn [fst MmWork.mem MmWork.mem_brk MmWork.mem_max_addr MmWork.heap_listp
         MmWork.start_root MmWork.roots MmWork.set_mem MmWork.set_brk MmWork.set_roots].
    split; [reflexivity|]. split; [exact Hsr|]. split; [exact Hhl|reflexivity]. }
  destruct E7 as (Emem & Esr7 & Ehl7 & Ebrk7).
  assert (Hfr7 : forall a, a < bp \/ bp + 16 <= a -> a < lo + 120 \/ lo + 128 <= a ->
                           MmWork.mem st7 a = m8 a).
  { intros a Ha1 Ha2. rewrite Emem. unfold set_PREV, set_NEXT, PUT_8, DSIZE.
    rewrite !(store_outside 8) by lia. reflexivity. }
  split; [reflexivity|]. split; [exact Hok7|].
  split; [exact Esr7|]. split; [exact Ehl7|]. split; [exact Ebrk7|].
  split; [transitivity (GET m8 (lo + 132)); [|exact G8a]; apply GET_frame; intros a Ha; apply Hfr7; unfold bp; lia|].
  split; [transitivity (GET m8 (lo + 136)); [|exact G8b]; apply GET_frame; intros a Ha; apply Hfr7; unfold bp; lia|].
  split.
  { replace (lo + 140) with (bp - 4) by (unfold bp; lia).
    transitivity (GET m8 (bp - 4)); [|exact G8h]. apply GET_frame. intros a Ha. apply Hfr7; unfold bp; lia. }
  split.
  { replace (lo + 4232) with (bp + 4096 - 8) by (unfold bp; lia).
    transitivity (GET m8 (bp + 4096 - 8)); [|exact G8f]. apply GET_frame. intros a Ha. apply Hfr7; unfold bp; lia. }
  split.
  { replace (lo + 4236) with (bp + 4096 - 4) by (unfold bp; lia).
    transitivity (GET m8 (bp + 4096 - 4)); [|exact G8e]. apply GET_frame. intros a Ha. apply Hfr7; unfold bp; lia. }
  intros a Ha. rewrite Hfr7 by (unfold bp; lia).
  unfold m8. rewrite PUT_outside by (unfold bp; lia).
  rewrite Hfr2 by (unfold bp; lia).
  unfold m5. rewrite !PUT_outside by lia. apply Hzfr. lia.
Qed.

Lemma mm_work_init_builds_lists_witness :
  let st := mm_work_boot 4096 (2 ^ 24) in
  let lo := MmWork.mem_brk st in
  let hi := MmWork.mem_max_addr st in
  (hi < lo + 144 -> MmWork.mm_init st = (MmWork.set_heap_listp st (-1), -1))
  /\ (lo + 144 <= hi < lo + 4240 ->
      snd (MmWork.mm_init st) = -1
      /\ MmWork.heap_listp (fst (MmWork.mm_init st)) = lo + 136
      /\ MmWork.mem_brk (fst (MmWork.mm_init st)) = lo + 144)
  /\ (lo + 4240 <= hi ->
      let st' := fst (MmWork.mm_init st) in
      snd (MmWork.mm_init st) = 0
      /\ lists_ok st' [[lo]; [lo + 16]; [lo + 32]; [lo + 48]; [lo + 64]; [lo + 80];
                       [lo + 96]; [lo + 144; lo + 112]]
      /\ MmWork.start_root st' = lo
      /\ MmWork.heap_listp st' = lo + 136
      /\ MmWork.mem_brk st' = lo + 4240
      /\ GET (MmWork.mem st') (lo + 132) = 9
      /\ GET (MmWork.mem st') (lo + 136) = 9
      /\ GET (MmWork.mem st') (lo + 140) = 4096
      /\ GET (MmWork.mem st') (lo + 4232) = 4096
      /\ GET (MmWork.mem st') (lo + 4236) = 1
      /\ (forall a, a < lo \/ lo + 4240 <= a -> MmWork.mem st' a = MmWork.mem st a)).
Proof.
  apply (mm_work_init_builds_lists (mm_work_boot 4096 (2 ^ 24))); vm_compute; reflexivity.
Defined.
